(** * react-native-ios-intents: generator utilities and invocation protocol

    A shallow embedding of the code generator helpers (src/cli/utils.ts,
    src/cli/swift-codegen.ts), of the JavaScript manager
    (src/SiriShortcutsManager.ts) and of the native bridge
    (ios/IosIntents.swift), with the properties the specification states
    about them and further properties of the code.

    Conventions.
    - A character is one code unit below 256; a JavaScript or Swift string is
      a [string].
    - A value that [JSON.parse] produces is a [JSON]; an object is a finite
      map over its own keys ([gmap string _]). Where the code reads or
      assigns a property of a catalog under a computed key, the members that
      every object inherits from Object.prototype are part of the model; the
      only change the code makes to them, a member [localizations], is
      carried from call to call as a boolean.
    - An object or map that the code enumerates with [Object.entries] is
      given by the list of its entries, in that order.
    - A JavaScript number and a Swift Double are binary64 floats ([float]).
    - Code that may throw returns a [Result]. *)

From Stdlib Require Import PrimFloat Ascii String.
From Equations Require Import Equations.
From Equations.Prop Require Import Logic.
From stdpp Require Import gmap strings list fin_maps pretty sorting.

Set Default Proof Using "Type".
Set Warnings "-register-all".

(** ** Characters and text helpers *)

Module Text.

(** The double quote, the backslash and the control characters that the
    sources name in literals and regular expressions. *)
Definition dquote : ascii := "034"%char.
Definition backslash : ascii := "092"%char.
Definition newline : ascii := "010"%char.
Definition creturn : ascii := "013"%char.
Definition tab : ascii := "009"%char.

Definition dq : string := String dquote EmptyString.
Definition bs : string := String backslash EmptyString.
Definition nl : string := String newline EmptyString.

Definition code (c : ascii) : nat := nat_of_ascii c.

(** [\w] of a JavaScript regular expression: [A-Za-z0-9_]. *)
Definition isWordChar (c : ascii) : bool :=
  let n := code c in
  ((65 <=? n) && (n <=? 90)) || ((97 <=? n) && (n <=? 122))
  || ((48 <=? n) && (n <=? 57)) || (n =? 95).

(** [\s] of a JavaScript regular expression, on code units below 256:
    tab, line feed, vertical tab, form feed, carriage return, space and the
    no-break space. *)
Definition isSpaceChar (c : ascii) : bool :=
  let n := code c in
  ((9 <=? n) && (n <=? 13)) || (n =? 32) || (n =? 160).

(** A line terminator: what [.] refuses to match. *)
Definition isLineTerminator (c : ascii) : bool :=
  let n := code c in (n =? 10) || (n =? 13).

(** [Array.prototype.join]. *)
Fixpoint join (sep : string) (l : list string) : string :=
  match l with
  | [] => EmptyString
  | [x] => x
  | x :: rest => x +:+ sep +:+ join sep rest
  end.

(** [String.prototype.startsWith]: [startsWith p s] holds when [p] is a
    prefix of [s]. *)
Definition startsWith (p s : string) : bool := String.prefix p s.

(** [String.prototype.split] on the one-character separator [sep]. *)
Fixpoint splitOn (sep : ascii) (s : string) : list string :=
  match s with
  | EmptyString => [EmptyString]
  | String c s' =>
      if Ascii.eqb c sep then EmptyString :: splitOn sep s'
      else match splitOn sep s' with
           | [] => [String c EmptyString]
           | x :: rest => String c x :: rest
           end
  end.

(** [str.replace(/c/g, rep)] for a one-character pattern. *)
Fixpoint replaceAllChar (c : ascii) (rep : string) (s : string) : string :=
  match s with
  | EmptyString => EmptyString
  | String a s' =>
      if Ascii.eqb a c then rep +:+ replaceAllChar c rep s'
      else String a (replaceAllChar c rep s')
  end.

(** The longest prefix of word characters, and what follows it: the greedy
    [\w*]. *)
Fixpoint takeWord (s : string) : string * string :=
  match s with
  | EmptyString => (EmptyString, EmptyString)
  | String c s' =>
      if isWordChar c
      then let '(w, r) := takeWord s' in (String c w, r)
      else (EmptyString, s)
  end.

(** The longest prefix of white space is skipped: the greedy [\s*]. *)
Fixpoint skipSpaces (s : string) : string :=
  match s with
  | EmptyString => EmptyString
  | String c s' => if isSpaceChar c then skipSpaces s' else s
  end.

(** [String.prototype.includes]. *)
Fixpoint includes (needle hay : string) : bool :=
  startsWith needle hay
  || match hay with
     | EmptyString => false
     | String _ rest => includes needle rest
     end.

End Text.

Import Text.

(** ** src/cli/utils.ts: template and escaping utilities *)

Module Utils.

(** A separator of [pascalCase]: hyphen, underscore or white space. *)
Definition isSeparator (c : ascii) : bool :=
  Ascii.eqb c "-" || Ascii.eqb c "_" || isSpaceChar c.

Section Casing.
(** [String.prototype.toUpperCase] on one character. *)
Variable toUpperCase : ascii → string.

(** The first replacement of [pascalCase]: every run of separators is
    removed and the character after it, if any, is put in upper case.
    [pending] tells that a run has just been read. *)
Fixpoint capitalizeAfterSeparators (pending : bool) (s : string) : string :=
  match s with
  | EmptyString => EmptyString
  | String c s' =>
      if isSeparator c then capitalizeAfterSeparators true s'
      else (if pending then toUpperCase c else String c EmptyString)
           +:+ capitalizeAfterSeparators false s'
  end.

(** [pascalCase]: then the first character, unless it is a line terminator,
    is put in upper case. *)
Definition pascalCase (str : string) : string :=
  match capitalizeAfterSeparators false str with
  | EmptyString => EmptyString
  | String c rest =>
      if isLineTerminator c then String c rest else toUpperCase c +:+ rest
  end.
End Casing.

(** [escapeForSwift]: five global replacements applied in this order. *)
Definition escapeForSwift (str : string) : string :=
  replaceAllChar tab (bs +:+ "t")
    (replaceAllChar creturn (bs +:+ "r")
      (replaceAllChar newline (bs +:+ "n")
        (replaceAllChar dquote (bs +:+ dq)
          (replaceAllChar backslash (bs +:+ bs) str)))).

(** One attempt of the regular expression [\$\{(\w+)\}] at the start of
    [s]: the captured name and the text after the match. The greedy [\w+]
    never has to give characters back, since the closing brace is not a word
    character. *)
Definition matchPlaceholder (s : string) : option (string * string) :=
  match s with
  | String "$" (String "{" s1) =>
      match takeWord s1 with
      | (String c w, String "}" rest) => Some (String c w, rest)
      | _ => None
      end
  | _ => None
  end.

Lemma takeWord_length (s : string) :
  String.length (takeWord s).2 ≤ String.length s.
Proof.
  induction s as [|c s IH]; simpl; [lia|].
  destruct (isWordChar c); [|simpl; lia].
  destruct (takeWord s) as [w r]; simpl in *. lia.
Qed.

Lemma matchPlaceholder_shorter (s name rest : string) :
  matchPlaceholder s = Some (name, rest) →
  String.length rest < String.length s.
Proof.
  unfold matchPlaceholder.
  destruct s as [|a s]; [done|].
  destruct (Ascii.eqb_spec a "$"); [subst|by destruct a as [[] [] [] [] [] [] [] []]].
  destruct s as [|b s]; [done|].
  destruct (Ascii.eqb_spec b "{"); [subst|by destruct b as [[] [] [] [] [] [] [] []]].
  pose proof (takeWord_length s) as Hlen.
  destruct (takeWord s) as [[|c w] [|d r]]; try done.
  destruct (Ascii.eqb_spec d "}"); [subst|by destruct d as [[] [] [] [] [] [] [] []]].
  intros [= <- <-]. simpl in *. lia.
Qed.

(** [extractVariables]: the loop [while ((match = regex.exec(message)) !== null)]
    of a global regular expression. A successful match resumes the search
    after the match (lastIndex); a failed attempt moves one character on. The
    test [if (match[1])] is on a captured name, which [\w+] makes non-empty. *)
Equations? extractVariables (message : string) : list string
  by wf (String.length message) lt :=
  extractVariables EmptyString := [];
  extractVariables (String c s') with inspect (matchPlaceholder (String c s')) := {
    | exist _ (Some (name, rest)) Hm :=
        (if decide (name = EmptyString) then [] else [name]) ++ extractVariables rest;
    | exist _ None _ := extractVariables s' }.
Proof.
  - exact (matchPlaceholder_shorter (String c s') name rest Hm).
  - simpl. lia.
Qed.

(** The comparison value of a state dialog: [boolean | string | number].
    [SWOther] stands for a run-time value of any other shape (null, an
    object, an array, a missing field), which the last [return] of
    [generateSwiftCondition] answers; it carries the text that a template
    literal prints for the value ([null], [[object Object]], [undefined]). *)
Inductive ShowWhen : Type :=
| SWBoolean (b : bool)
| SWNumber (n : float)
| SWString (s : string)
| SWOther (text : string).

Section Conditions.
(** The text JavaScript gives a number inside a template literal. *)
Variable numberToString : float → string.

(** [generateSwiftCondition]. The literals 1 and 0 of [showWhen ? 1 : 0]
    print as the digits 1 and 0. *)
Definition generateSwiftCondition (stateKey : string) (showWhen : ShowWhen) : string :=
  match showWhen with
  | SWBoolean b =>
      "defaults.double(forKey: " +:+ dq +:+ stateKey +:+ dq +:+ ") == "
        +:+ (if b then "1" else "0")
  | SWNumber n =>
      "defaults.double(forKey: " +:+ dq +:+ stateKey +:+ dq +:+ ") == "
        +:+ numberToString n
  | SWString s =>
      "defaults.string(forKey: " +:+ dq +:+ stateKey +:+ dq +:+ ") == "
        +:+ dq +:+ s +:+ dq
  | SWOther _ =>
      "defaults.string(forKey: " +:+ dq +:+ stateKey +:+ dq +:+ ") != nil"
  end.

(** The value inside a template literal. *)
Definition showWhenText (showWhen : ShowWhen) : string :=
  match showWhen with
  | SWBoolean b => if b then "true" else "false"
  | SWNumber n => numberToString n
  | SWString s => s
  | SWOther text => text
  end.
End Conditions.

(** *** The phrase table ([AppShortcuts.strings]) *)

(** The body of a quoted token, read after its opening quote: any number
    of characters other than the quote and the backslash, or escapes, up to
    the closing quote. The result is the captured text and what follows the
    closing quote.
    An escape is a backslash and any character but a line terminator. The
    two alternatives start with different characters and neither can start
    with the closing quote, so the match is found without backtracking. *)
Fixpoint scanQuoted (s : string) : option (string * string) :=
  match s with
  | EmptyString => None
  | String c s' =>
      if Ascii.eqb c dquote then Some (EmptyString, s')
      else if Ascii.eqb c backslash then
        match s' with
        | EmptyString => None
        | String d s'' =>
            if isLineTerminator d then None
            else match scanQuoted s'' with
                 | Some (body, rest) => Some (String c (String d body), rest)
                 | None => None
                 end
        end
      else match scanQuoted s' with
           | Some (body, rest) => Some (String c body, rest)
           | None => None
           end
  end.

(** [line.match]: the two captured groups of a line made of a quoted key,
    optional white space, an equals sign, optional white space, a quoted
    value and a semicolon, from the start of the line. Nothing is required
    after the semicolon. *)
Definition matchLine (line : string) : option (string * string) :=
  match line with
  | String c s1 =>
      if Ascii.eqb c dquote then
        match scanQuoted s1 with
        | Some (key, r1) =>
            match skipSpaces r1 with
            | String "=" r2 =>
                match skipSpaces r2 with
                | String c3 r3 =>
                    if Ascii.eqb c3 dquote then
                      match scanQuoted r3 with
                      | Some (value, String ";" _) => Some (key, value)
                      | _ => None
                      end
                    else None
                | EmptyString => None
                end
            | _ => None
            end
        | None => None
        end
      else None
  | EmptyString => None
  end.

(** [Set.prototype.add] on a set that iterates in insertion order. *)
Definition setAdd (x : string) (set : list string) : list string :=
  if decide (x ∈ set) then set else set ++ [x].

(** The quoted phrase that [startsWith] looks for, and the identity line. *)
Definition quoted (phrase : string) : string := dq +:+ phrase +:+ dq.
Definition identityLine (phrase : string) : string :=
  dq +:+ phrase +:+ dq +:+ " = " +:+ dq +:+ phrase +:+ dq +:+ ";".

(** The first loop: the lines of the existing file that match. *)
Definition retainLine (set : list string) (line : string) : list string :=
  match matchLine line with
  | Some _ => setAdd line set
  | None => set
  end.

Definition existingLines (existingContent : option string) : list string :=
  match existingContent with
  | Some content =>
      if decide (content = EmptyString) then []
      else foldl retainLine [] (splitOn newline content)
  | None => []
  end.

(** The second loop: one new phrase. *)
Definition addPhrase (set : list string) (phrase : string) : list string :=
  if existsb (startsWith (quoted phrase)) set then set
  else setAdd (identityLine phrase) set.

(** [mergeAppShortcutsStrings]. *)
Definition mergeAppShortcutsStrings
    (newPhrases : list string) (existingContent : option string) : string :=
  join nl (foldl addPhrase (existingLines existingContent) newPhrases).

(** [generateAppShortcutsStrings]. *)
Definition generateAppShortcutsStrings (phrases : list string) : string :=
  join nl (map identityLine phrases).

(** *** The phrase keys ([extractAppShortcutsPhrases]) *)

(** What follows the literal text [p] at the start of [s], if [s] starts
    with it. *)
Fixpoint stripPrefix (p s : string) : option string :=
  match p, s with
  | EmptyString, _ => Some s
  | String a p', String b s' => if Ascii.eqb a b then stripPrefix p' s' else None
  | String _ _, EmptyString => None
  end.

(** The application-name token of a Swift phrase, and what a phrase table
    writes for it. *)
Definition applicationNameToken : string := "(.applicationName)".
Definition applicationNameKey : string := "${applicationName}".

(** One attempt of the regular expression of [extractAppShortcutsPhrases]
    at the start of [s]: an optional backslash and the token. With the
    backslash taken the token must follow; without it the text must start
    with the opening parenthesis, which a backslash is not. *)
Definition matchApplicationName (s : string) : option string :=
  match stripPrefix (bs +:+ applicationNameToken) s with
  | Some rest => Some rest
  | None => stripPrefix applicationNameToken s
  end.

Lemma stripPrefix_length (p s rest : string) :
  stripPrefix p s = Some rest → String.length rest ≤ String.length s.
Proof.
  revert s. induction p as [|a p IH]; intros [|b s]; simpl; try done.
  - by intros [= <-].
  - by intros [= <-].
  - destruct (Ascii.eqb a b); [|done]. intros H%IH. lia.
Qed.

Lemma matchApplicationName_shorter (s rest : string) :
  matchApplicationName s = Some rest → String.length rest < String.length s.
Proof.
  assert (∀ a p, stripPrefix (String a p) s = Some rest →
                 String.length rest < String.length s) as Hstrip.
  { intros a p. destruct s as [|b s]; simpl; [done|].
    destruct (Ascii.eqb a b); [|done]. intros H%stripPrefix_length. lia. }
  unfold matchApplicationName.
  destruct (stripPrefix (bs +:+ applicationNameToken) s) as [r|] eqn:Hr.
  - intros [= <-]. by apply (Hstrip _ _ Hr).
  - apply Hstrip.
Qed.

(** [phrase.replace] with the global regular expression: every match, from
    left to right, is replaced by the key form of the token; the replacement
    text holds no pattern that [replace] expands. *)
Equations? replaceApplicationName (phrase : string) : string
  by wf (String.length phrase) lt :=
  replaceApplicationName EmptyString := EmptyString;
  replaceApplicationName (String c s') with inspect (matchApplicationName (String c s')) := {
    | exist _ (Some rest) Hm := applicationNameKey +:+ replaceApplicationName rest;
    | exist _ None _ := String c (replaceApplicationName s') }.
Proof.
  - exact (matchApplicationName_shorter (String c s') rest Hm).
  - simpl. lia.
Qed.

(** The key of one phrase. *)
Definition phraseKey (phrase : string) : string :=
  if includes "applicationName" phrase
  then replaceApplicationName phrase
  else phrase +:+ " in " +:+ applicationNameKey.

End Utils.

Import Utils.

(** ** JavaScript values and errors *)

Module JS.

(** A value produced by [JSON.parse]. *)
Inductive JSON : Type :=
| JNull
| JBool (b : bool)
| JNumber (n : float)
| JString (s : string)
| JArray (items : list JSON)
| JObject (fields : gmap string JSON).

Inductive Error : Type := SyntaxError | TypeError | NativeError.

Inductive Result (A : Type) : Type :=
| Ok (a : A)
| Throw (e : Error).
Arguments Ok {A} a.
Arguments Throw {A} e.

Definition bind {A B : Type} (r : Result A) (k : A → Result B) : Result B :=
  match r with
  | Ok a => k a
  | Throw e => Throw e
  end.

(** Truthiness: [null], [false], zero, NaN and the empty string are falsy. *)
Definition truthy (v : JSON) : bool :=
  match v with
  | JNull => false
  | JBool b => b
  | JNumber n => negb (PrimFloat.eqb n 0 || PrimFloat.is_nan n)
  | JString s => negb (String.eqb s EmptyString)
  | JArray _ => true
  | JObject _ => true
  end.


(** Reading a named property (not an index, not [length]): [null] throws,
    an object answers from its own fields, and a primitive or an array has
    no such property. *)
Definition getProp (v : JSON) (name : string) : Result (option JSON) :=
  match v with
  | JNull => Throw TypeError
  | JObject fields => Ok (fields !! name)
  | _ => Ok None
  end.

(** Object spread [{ ...v }] of a truthy value: the own enumerable
    properties. An array and a string spread their indices; a number and a
    boolean have none. *)
Definition spread (v : JSON) : gmap string JSON :=
  match v with
  | JObject fields => fields
  | JArray items => list_to_map (imap (λ i x, (pretty i, x)) items)
  | JString s =>
      list_to_map
        (imap (λ i c, (pretty i, JString (String c EmptyString)))
              (list_ascii_of_string s))
  | _ => ∅
  end.

(** The property names that a plain object inherits from Object.prototype. *)
Definition objectPrototypeNames : list string :=
  [ "constructor"; "toString"; "toLocaleString"; "valueOf"; "hasOwnProperty";
    "isPrototypeOf"; "propertyIsEnumerable"; "__proto__"; "__defineGetter__";
    "__defineSetter__"; "__lookupGetter__"; "__lookupSetter__" ].

End JS.

Import JS.

Global Instance result_bind : MBind Result := λ A B k r, JS.bind r k.

(** ** src/cli/utils.ts: the localization catalog *)

Module Catalog.

(** The object [catalog] that [mergeStringCatalog] builds and serializes. *)
Record Catalog : Type := mkCatalog {
  sourceLanguage : JSON;
  strings : gmap string JSON;
  version : JSON
}.

Definition baseCatalog : Catalog :=
  {| sourceLanguage := JString "en"; strings := ∅; version := JString "1.0" |}.

Definition catalogObject (c : Catalog) : JSON :=
  JObject (<["sourceLanguage" := sourceLanguage c]>
          (<["strings" := JObject (strings c)]>
          (<["version" := version c]> ∅))).

(** [{ stringUnit: { state: 'translated', value } }]. *)
Definition englishUnit (value : string) : JSON :=
  JObject {[ "stringUnit" :=
    JObject (<["state" := JString "translated"]> {[ "value" := JString value ]}) ]}.

(** The entry of a new key. *)
Definition freshEntry (value : string) : JSON :=
  JObject (<["extractionState" := JString "manual"]>
          {[ "localizations" := JObject {[ "en" := englishUnit value ]} ]}).

(** What [catalog.strings[key]] reads. The catalog is a plain object: a key
    it does not have itself is looked up in [Object.prototype]. There the
    name [__proto__] is an accessor that answers [Object.prototype] itself,
    the other names of [objectPrototypeNames] are methods, and
    [localizations] is the object that a previous iteration may have put
    there ([inherited]). *)
Inductive Found : Type :=
| FoundOwn (entry : JSON)
| FoundPrototype
| FoundMethod
| FoundInherited
| FoundNothing.

Definition readKey (inherited : bool) (strings : gmap string JSON) (key : string)
    : Found :=
  match strings !! key with
  | Some entry => FoundOwn entry
  | None =>
      if decide (key = "__proto__") then FoundPrototype
      else if decide (key ∈ objectPrototypeNames) then FoundMethod
      else if inherited && bool_decide (key = "localizations") then FoundInherited
      else FoundNothing
  end.

(** The branch of a key whose own entry is truthy:
    [if (!entry.localizations) entry.localizations = {};
     entry.localizations.en = unit].
    An entry without a field [localizations] of its own reads the inherited
    object, if there is one; the unit is then set on that object and the
    entry stays as it is. A property cannot be created on a primitive (the
    module is strict code): that assignment throws. A named property set on
    an array is not part of what the array serializes to, so an array is
    left as it is. *)
Definition updateEnglish (inherited : bool) (entry : JSON) (unit : JSON)
    : Result JSON :=
  match entry with
  | JObject fields =>
      let present :=
        match fields !! "localizations" with
        | Some v => truthy v
        | None => inherited
        end in
      let fields1 :=
        if present then fields else <["localizations" := JObject ∅]> fields in
      match fields1 !! "localizations" with
      | Some (JObject locs) =>
          Ok (JObject (<["localizations" := JObject (<["en" := unit]> locs)]> fields1))
      | Some (JArray _) => Ok (JObject fields1)
      | Some _ => Throw TypeError
      | None => Ok (JObject fields1)
      end
  | JArray _ => Ok entry
  | _ => if inherited then Ok entry else Throw TypeError
  end.

(** The body of [Object.entries(newStrings).forEach], as the entries it
    leaves (or the exception) and whether [Object.prototype] has the object
    [localizations] afterwards. Under a key that the catalog inherits the
    first branch is taken, on the inherited value: a method takes the
    property [localizations] itself, [Object.prototype] takes it for every
    object, and the catalog gets no entry. *)
Definition mergeEntry (inherited : bool) (strings : gmap string JSON)
    (kv : string * string) : Result (gmap string JSON) * bool :=
  let '(key, value) := kv in
  match readKey inherited strings key with
  | FoundOwn entry =>
      if truthy entry then
        (entry' ← updateEnglish inherited entry (englishUnit value);
         Ok (<[key := entry']> strings),
         inherited)
      else (Ok (<[key := freshEntry value]> strings), inherited)
  | FoundPrototype => (Ok strings, true)
  | FoundMethod | FoundInherited => (Ok strings, inherited)
  | FoundNothing => (Ok (<[key := freshEntry value]> strings), inherited)
  end.

(** The loop: the first exception ends it. *)
Fixpoint mergeLoop (entries : list (string * string)) (inherited : bool)
    (strings : gmap string JSON) : Result (gmap string JSON) * bool :=
  match entries with
  | [] => (Ok strings, inherited)
  | kv :: rest =>
      match mergeEntry inherited strings kv with
      | (Ok strings', inherited') => mergeLoop rest inherited' strings'
      | (Throw e, inherited') => (Throw e, inherited')
      end
  end.

Section Merge.
(** [JSON.parse], where [None] is a thrown SyntaxError, and
    [JSON.stringify(value, null, 2)]. *)
Variable JSON_parse : string → option JSON.
Variable JSON_stringify : JSON → string.

(** The body of the [try] block, as the catalog it leaves behind and the
    exception that ended it, if any. *)
Definition tryLoad (catalog : Catalog) (existingCatalogContent : string)
    : Catalog * option Error :=
  match JSON_parse existingCatalogContent with
  | None => (catalog, Some SyntaxError)
  | Some existingCatalog =>
      match getProp existingCatalog "strings" with
      | Throw e => (catalog, Some e)
      | Ok strs =>
          let catalog1 :=
            match strs with
            | Some v =>
                if truthy v
                then {| sourceLanguage := sourceLanguage catalog;
                        strings := spread v;
                        version := version catalog |}
                else catalog
            | None => catalog
            end in
          match getProp existingCatalog "sourceLanguage" with
          | Throw e => (catalog1, Some e)
          | Ok sl =>
              let catalog2 :=
                match sl with
                | Some v =>
                    if truthy v
                    then {| sourceLanguage := v;
                            strings := strings catalog1;
                            version := version catalog1 |}
                    else catalog1
                | None => catalog1
                end in
              match getProp existingCatalog "version" with
              | Throw e => (catalog2, Some e)
              | Ok ver =>
                  let catalog3 :=
                    match ver with
                    | Some v =>
                        if truthy v
                        then {| sourceLanguage := sourceLanguage catalog2;
                                strings := strings catalog2;
                                version := v |}
                        else catalog2
                    | None => catalog2
                    end in
                  (catalog3, None)
              end
          end
      end
  end.

(** The catalog after [if (existingCatalogContent) { try ... catch ... }]:
    the exception is swallowed (a warning is printed). *)
Definition loadExisting (existingCatalogContent : option string) : Catalog :=
  match existingCatalogContent with
  | Some content =>
      if decide (content = EmptyString) then baseCatalog
      else (tryLoad baseCatalog content).1
  | None => baseCatalog
  end.

(** The catalog object just before it is serialized. [newStrings] is given
    by its entries, in the order of [Object.entries]. *)
Definition mergeCatalog (inherited : bool) (newStrings : list (string * string))
    (existingCatalogContent : option string) : Result Catalog * bool :=
  let catalog := loadExisting existingCatalogContent in
  let '(merged, inherited') := mergeLoop newStrings inherited (strings catalog) in
  (strings' ← merged;
   Ok {| sourceLanguage := sourceLanguage catalog;
         strings := strings';
         version := version catalog |},
   inherited').

(** [mergeStringCatalog]: the text, or the exception, and the state of
    [Object.prototype] that the call leaves. *)
Definition mergeStringCatalog (inherited : bool)
    (newStrings : list (string * string))
    (existingCatalogContent : option string) : Result string * bool :=
  let '(catalog, inherited') :=
    mergeCatalog inherited newStrings existingCatalogContent in
  (catalog ← catalog; Ok (JSON_stringify (catalogObject catalog)), inherited').

End Merge.

Section Fresh.
Variable JSON_stringify : JSON → string.

(** [generateStringCatalog]: every entry of [strings] is assigned its fresh
    entry, in the order of [Object.entries]. The catalog starts without keys
    of its own, so the assignment under [__proto__] goes to the accessor of
    [Object.prototype]: it gives the catalog another prototype and no
    entry. *)
Definition generateStringCatalog (strings : list (string * string)) : string :=
  let entries :=
    foldl (λ (acc : gmap string JSON) (kv : string * string),
             if decide (kv.1 = "__proto__") then acc
             else <[kv.1 := freshEntry kv.2]> acc)
          ∅ strings in
  JSON_stringify
    (catalogObject {| sourceLanguage := JString "en";
                      Catalog.strings := entries;
                      version := JString "1.0" |}).
End Fresh.

(** The expected structure of an entry: an object whose [localizations],
    when present and truthy, is an object. *)
Definition entryHasExpectedStructure (entry : JSON) : bool :=
  match entry with
  | JObject fields =>
      match fields !! "localizations" with
      | Some (JObject _) => true
      | Some v => negb (truthy v)
      | None => true
      end
  | _ => false
  end.

End Catalog.

Import Catalog.

(** ** src/types.ts: the configuration *)

Module Types.

Inductive ParameterType : Type := TString | TNumber | TBoolean | TDate.

Record ShortcutParameter : Type := {
  param_name : string;
  param_title : string;
  param_type : ParameterType;
  param_optional : option bool;
  param_description : option string
}.

Record StateDialog : Type := {
  stateKey : string;
  showWhen : ShowWhen;
  message : string;
  requiresConfirmation : option bool
}.

Record ShortcutDefinition : Type := {
  identifier : string;
  title : string;
  phrases : list string;
  systemImageName : option string;
  description : option string;
  stateDialogs : option (list StateDialog);
  parameters : option (list ShortcutParameter)
}.

Record ShortcutsConfig : Type := {
  shortcuts : list ShortcutDefinition;
  localization : option bool;
  appGroupId : option string
}.

(** Truthiness of an optional string: present and not empty. *)
Definition truthyString (o : option string) : bool :=
  match o with
  | Some s => negb (String.eqb s EmptyString)
  | None => false
  end.

(** [parameters && parameters.length > 0]. *)
Definition hasParameters (ps : option (list ShortcutParameter)) : bool :=
  match ps with
  | Some (_ :: _) => true
  | _ => false
  end.

End Types.

Import Types.

(** ** src/cli/utils.ts: the localizable strings of a configuration *)

Module Localization.

Section Strings.
(** [String.prototype.toLowerCase]. *)
Variable toLowerCase : string → string.

(** The strings of the parameter at [index]. *)
Definition parameterStrings (id : string) (strings : gmap string string)
    (entry : nat * ShortcutParameter) : gmap string string :=
  let '(index, param) := entry in
  let strings1 :=
    <[id +:+ ".parameters." +:+ pretty index +:+ ".title" := param_title param]>
      strings in
  let strings2 :=
    if truthyString (param_description param)
    then <[id +:+ ".parameters." +:+ pretty index +:+ ".description"
             := default EmptyString (param_description param)]> strings1
    else strings1 in
  <[id +:+ ".parameters." +:+ pretty index +:+ ".prompt"
      := "What " +:+ toLowerCase (param_title param) +:+ "?"]> strings2.

(** The string of the state dialog at [index]. *)
Definition dialogStrings (id : string) (strings : gmap string string)
    (entry : nat * StateDialog) : gmap string string :=
  let '(index, dialog) := entry in
  <[id +:+ ".stateDialogs." +:+ pretty index +:+ ".message" := message dialog]>
    strings.

(** The body of [config.shortcuts.forEach]. *)
Definition shortcutStrings (strings : gmap string string)
    (shortcut : ShortcutDefinition) : gmap string string :=
  let id := identifier shortcut in
  let strings1 := <[id +:+ ".title" := title shortcut]> strings in
  let strings2 :=
    if truthyString (description shortcut)
    then <[id +:+ ".description" := default EmptyString (description shortcut)]>
           strings1
    else strings1 in
  let strings3 :=
    foldl (parameterStrings id) strings2
          (imap pair (default [] (parameters shortcut))) in
  foldl (dialogStrings id) strings3 (imap pair (default [] (stateDialogs shortcut))).

(** [extractLocalizableStrings]. *)
Definition extractLocalizableStrings (config : ShortcutsConfig) : gmap string string :=
  <["system.timeout" := "Done"]>
  (<["system.error.appGroupFailed" := "Failed to communicate with app"]>
   (foldl shortcutStrings ∅ (shortcuts config))).
End Strings.

(** [extractAppShortcutsPhrases]: the keys of the phrases of every shortcut,
    in the order of the configuration. *)
Definition extractAppShortcutsPhrases (config : ShortcutsConfig) : list string :=
  concat (map (λ shortcut, map phraseKey (phrases shortcut)) (shortcuts config)).

End Localization.

Import Localization.

(** ** src/cli/swift-codegen.ts: the intent code generator *)

Module SwiftCodegen.

(** The code that substitutes one variable of a message. *)
Definition interpolateVariable (varName : string) : string :=
  "        // Interpolate " +:+ varName +:+ nl
  +:+ "        if let value = defaults.string(forKey: " +:+ dq +:+ "appState_"
      +:+ varName +:+ dq +:+ ") {" +:+ nl
  +:+ "            message = message.replacingOccurrences(of: " +:+ dq +:+ "${"
      +:+ varName +:+ "}" +:+ dq +:+ ", with: value)" +:+ nl
  +:+ "        } else if let numValue = defaults.object(forKey: " +:+ dq
      +:+ "appState_" +:+ varName +:+ dq +:+ ") as? NSNumber {" +:+ nl
  +:+ "            message = message.replacingOccurrences(of: " +:+ dq +:+ "${"
      +:+ varName +:+ "}" +:+ dq +:+ ", with: " +:+ dq +:+ bs +:+ "(numValue)"
      +:+ dq +:+ ")" +:+ nl
  +:+ "        }" +:+ nl.

(** The message as a Swift expression: a literal, or a localized lookup
    with the literal as its default. *)
Definition messageLiteral (message localizationKey : string)
    (useLocalization : bool) : string :=
  if useLocalization
  then "String(localized: " +:+ dq +:+ localizationKey +:+ dq
       +:+ ", defaultValue: " +:+ dq +:+ escapeForSwift message +:+ dq +:+ ")"
  else dq +:+ escapeForSwift message +:+ dq.

(** [generateMessageInterpolation]. *)
Definition generateMessageInterpolation (message localizationKey : string)
    (useLocalization : bool) : string :=
  let variables := extractVariables message in
  match variables with
  | [] => messageLiteral message localizationKey useLocalization
  | _ :: _ =>
      foldl (λ swiftCode varName, swiftCode +:+ interpolateVariable varName)
        ("var message = "
           +:+ messageLiteral message localizationKey useLocalization +:+ nl)
        variables
  end.

(** The two forms of [actionCode]. *)
Definition confirmationCode (className dialogValue : string) : string :=
  "do {" +:+ nl
  +:+ "                try await requestConfirmation(" +:+ nl
  +:+ "                    result: .result(dialog: IntentDialog(stringLiteral: "
      +:+ dialogValue +:+ "))" +:+ nl
  +:+ "                )" +:+ nl
  +:+ "                // User confirmed - set flag and continue" +:+ nl
  +:+ "                userConfirmedOverride = true" +:+ nl
  +:+ "            } catch {" +:+ nl
  +:+ "                // User cancelled - abort execution (React Native will not be invoked)"
      +:+ nl
  +:+ "                print(" +:+ dq +:+ "[" +:+ className
      +:+ "] User cancelled confirmation" +:+ dq +:+ ")" +:+ nl
  +:+ "                throw error" +:+ nl
  +:+ "            }".

Definition returnCode (dialogValue : string) : string :=
  "return .result(dialog: IntentDialog(stringLiteral: " +:+ dialogValue +:+ "))".

Record DialogParams : Type := {
  dp_index : nat;
  dp_className : string;
  dp_dialog : StateDialog;
  dp_condition : string;
  dp_localizationKey : string;
  dp_useLocalization : bool
}.

Record DialogCode : Type := {
  code : string;
  isConfirmation : bool
}.

Section Dialogs.
Variable numberToString : float → string.

(** [dialog.requiresConfirmation !== false]. *)
Definition needsConfirmation (dialog : StateDialog) : bool :=
  match requiresConfirmation dialog with
  | Some false => false
  | _ => true
  end.

Definition hasInterpolation (dialog : StateDialog) : bool :=
  match extractVariables (message dialog) with
  | [] => false
  | _ :: _ => true
  end.

Definition messageCode (params : DialogParams) : string :=
  if hasInterpolation (dp_dialog params)
  then "// Interpolate message with current app state" +:+ nl
       +:+ "            "
       +:+ generateMessageInterpolation (message (dp_dialog params))
             (dp_localizationKey params) (dp_useLocalization params)
       +:+ nl +:+ "            "
  else EmptyString.

Definition dialogValue (params : DialogParams) : string :=
  if hasInterpolation (dp_dialog params) then "message"
  else messageLiteral (message (dp_dialog params))
         (dp_localizationKey params) (dp_useLocalization params).

Definition actionCode (params : DialogParams) : string :=
  if needsConfirmation (dp_dialog params)
  then confirmationCode (dp_className params) (dialogValue params)
  else returnCode (dialogValue params).

(** The text before [messageCode] in the generated block: the comment,
    the guard and the log line. *)
Definition dialogHeader (params : DialogParams) : string :=
  let dialog := dp_dialog params in
  let requiresConfirmation := needsConfirmation dialog in
  let actionType :=
    if requiresConfirmation then "confirmation" else "message and return" in
  let logMessage :=
    if requiresConfirmation then "Confirmation required"
    else "Showing message (no confirmation)" in
  nl +:+ "        // State dialog #" +:+ pretty (dp_index params + 1)
  +:+ ": Show " +:+ actionType +:+ " when " +:+ stateKey dialog +:+ " == "
  +:+ showWhenText numberToString (showWhen dialog) +:+ nl
  +:+ "        if " +:+ dp_condition params +:+ " {" +:+ nl
  +:+ "            print(" +:+ dq +:+ "[" +:+ dp_className params +:+ "] "
  +:+ logMessage +:+ ": " +:+ stateKey dialog +:+ " is "
  +:+ showWhenText numberToString (showWhen dialog) +:+ dq +:+ ")" +:+ nl
  +:+ "            ".

(** The condition and the localization key that [generateIntentStruct]
    computes for the dialog at [index] of a shortcut: the state key is
    prefixed the way [updateAppState] prefixes it. *)
Definition dialogCondition (dialog : StateDialog) : string :=
  generateSwiftCondition numberToString ("appState_" +:+ stateKey dialog)
    (showWhen dialog).

Definition dialogLocalizationKey (shortcutIdentifier : string) (index : nat) : string :=
  shortcutIdentifier +:+ ".stateDialogs." +:+ pretty index +:+ ".message".

(** [generateStateDialogSwift]. *)
Definition generateStateDialogSwift (params : DialogParams) : DialogCode :=
  {| code := dialogHeader params +:+ messageCode params +:+ actionCode params
             +:+ nl +:+ "        }";
     isConfirmation := needsConfirmation (dp_dialog params) |}.
End Dialogs.

(** [mapParameterTypeToSwift]. *)
Definition mapParameterTypeToSwift (type : ParameterType) : string :=
  match type with
  | TString => "String?"
  | TNumber => "Double?"
  | TBoolean => "Bool?"
  | TDate => "Date?"
  end.

(** The [@Parameter(...)] line of one parameter. *)
Definition parameterAttribute (useLocalization : bool)
    (shortcutIdentifier : string) (index : nat) (param : ShortcutParameter)
    : string :=
  let titleValue :=
    if useLocalization
    then "LocalizedStringResource(" +:+ dq +:+ shortcutIdentifier
         +:+ ".parameters." +:+ pretty index +:+ ".title" +:+ dq
         +:+ ", defaultValue: " +:+ dq +:+ escapeForSwift (param_title param)
         +:+ dq +:+ ")"
    else "LocalizedStringResource(" +:+ dq +:+ escapeForSwift (param_title param)
         +:+ dq +:+ ")" in
  let descriptionPart :=
    if truthyString (param_description param)
    then
      let d := escapeForSwift (default EmptyString (param_description param)) in
      if useLocalization
      then ", description: LocalizedStringResource(" +:+ dq +:+ shortcutIdentifier
           +:+ ".parameters." +:+ pretty index +:+ ".description" +:+ dq
           +:+ ", defaultValue: " +:+ dq +:+ d +:+ dq +:+ ")"
      else ", description: LocalizedStringResource(" +:+ dq +:+ d +:+ dq +:+ ")"
    else EmptyString in
  "    @Parameter(title: " +:+ titleValue +:+ descriptionPart +:+ ")".

(** The declaration of one parameter: the callback of [parameters.map]. *)
Definition parameterDeclaration (useLocalization : bool)
    (shortcutIdentifier : string) (index : nat) (param : ShortcutParameter)
    : string :=
  let swiftType := mapParameterTypeToSwift (param_type param) in
  parameterAttribute useLocalization shortcutIdentifier index param +:+ nl
  +:+ "    var " +:+ param_name param +:+ ": " +:+ swiftType.

(** [generateParameterDeclarations]. *)
Definition generateParameterDeclarations
    (parameters : option (list ShortcutParameter)) (useLocalization : bool)
    (shortcutIdentifier : string) : string :=
  if hasParameters parameters
  then nl +:+ join nl (imap (parameterDeclaration useLocalization shortcutIdentifier)
                            (default [] parameters)) +:+ nl
  else EmptyString.

Section Intents.
(** The text of a number in a template literal, and the case conversions of
    JavaScript: [toUpperCase] of one character and [toLowerCase] of a
    string. *)
Variable numberToString : float → string.
Variable toUpperCase : ascii → string.
Variable toLowerCase : string → string.

(** [generateInitializers]. *)
Definition initializerParameter (param : ShortcutParameter) : string :=
  param_name param +:+ ": " +:+ mapParameterTypeToSwift (param_type param).

Definition initializerAssignment (param : ShortcutParameter) : string :=
  "        self." +:+ param_name param +:+ " = " +:+ param_name param.

Definition generateInitializers (parameters : option (list ShortcutParameter)) : string :=
  if hasParameters parameters
  then
    let paramList := join ", " (map initializerParameter (default [] parameters)) in
    let assignments := join nl (map initializerAssignment (default [] parameters)) in
    nl
    +:+ "    init() {}" +:+ nl
    +:+ nl
    +:+ "    init(" +:+ paramList +:+ ") {" +:+ nl
    +:+ assignments +:+ nl
    +:+ "    }" +:+ nl
  else EmptyString.

(** The callback of [parameters.map] in [generateParameterRequests]. *)
Definition parameterRequest (useLocalization : bool) (shortcutIdentifier : string)
    (index : nat) (param : ShortcutParameter) : string :=
  let promptKey :=
    shortcutIdentifier +:+ ".parameters." +:+ pretty index +:+ ".prompt" in
  let defaultPrompt := "What " +:+ toLowerCase (param_title param) +:+ "?" in
  let promptValue :=
    if useLocalization
    then "IntentDialog(stringLiteral: String(localized: " +:+ dq +:+ promptKey +:+ dq +:+ ", defaultValue: " +:+ dq +:+ escapeForSwift defaultPrompt +:+ dq +:+ "))"
    else "IntentDialog(stringLiteral: " +:+ dq +:+ escapeForSwift defaultPrompt +:+ dq +:+ ")" in
  "        // Request " +:+ param_name param +:+ " if not provided" +:+ nl
  +:+ "        if " +:+ param_name param +:+ " == nil {" +:+ nl
  +:+ "            " +:+ param_name param +:+ " = try await $" +:+ param_name param +:+ ".requestValue(" +:+ promptValue +:+ ")" +:+ nl
  +:+ "        }".

(** [generateParameterRequests]. *)
Definition generateParameterRequests (parameters : option (list ShortcutParameter))
    (useLocalization : bool) (shortcutIdentifier : string) : string :=
  if hasParameters parameters
  then nl +:+ join nl (imap (parameterRequest useLocalization shortcutIdentifier)
                            (default [] parameters)) +:+ nl
  else EmptyString.

(** The callback of [parameters.map] in [generateParameterWrites]. *)
Definition parameterWrite (param : ShortcutParameter) : string :=
  let key := "IosIntentsParam_" +:+ param_name param in
  let typeKey := "IosIntentsParamType_" +:+ param_name param in
  match param_type param with
  | TDate =>
      "        if let " +:+ param_name param +:+ " = " +:+ param_name param +:+ " {" +:+ nl
      +:+ "            print(" +:+ dq +:+ "[AddTaskIntent] Writing parameter " +:+ param_name param +:+ " (Date): " +:+ bs +:+ "(" +:+ param_name param +:+ ")" +:+ dq +:+ ")" +:+ nl
      +:+ "            defaults.set(" +:+ param_name param +:+ ".timeIntervalSince1970, forKey: " +:+ dq +:+ key +:+ dq +:+ ")" +:+ nl
      +:+ "            defaults.set(" +:+ dq +:+ "date" +:+ dq +:+ ", forKey: " +:+ dq +:+ typeKey +:+ dq +:+ ")" +:+ nl
      +:+ "        } else {" +:+ nl
      +:+ "            print(" +:+ dq +:+ "[AddTaskIntent] Parameter " +:+ param_name param +:+ " is nil" +:+ dq +:+ ")" +:+ nl
      +:+ "        }"
  | TBoolean =>
      "        if let " +:+ param_name param +:+ " = " +:+ param_name param +:+ " {" +:+ nl
      +:+ "            print(" +:+ dq +:+ "[AddTaskIntent] Writing parameter " +:+ param_name param +:+ ": " +:+ bs +:+ "(" +:+ param_name param +:+ ")" +:+ dq +:+ ")" +:+ nl
      +:+ "            defaults.set(" +:+ param_name param +:+ ", forKey: " +:+ dq +:+ key +:+ dq +:+ ")" +:+ nl
      +:+ "            defaults.set(" +:+ dq +:+ "boolean" +:+ dq +:+ ", forKey: " +:+ dq +:+ typeKey +:+ dq +:+ ")" +:+ nl
      +:+ "        } else {" +:+ nl
      +:+ "            print(" +:+ dq +:+ "[AddTaskIntent] Parameter " +:+ param_name param +:+ " is nil" +:+ dq +:+ ")" +:+ nl
      +:+ "        }"
  | _ =>
      "        if let " +:+ param_name param +:+ " = " +:+ param_name param +:+ " {" +:+ nl
      +:+ "            print(" +:+ dq +:+ "[AddTaskIntent] Writing parameter " +:+ param_name param +:+ ": " +:+ bs +:+ "(" +:+ param_name param +:+ ")" +:+ dq +:+ ")" +:+ nl
      +:+ "            defaults.set(" +:+ param_name param +:+ ", forKey: " +:+ dq +:+ key +:+ dq +:+ ")" +:+ nl
      +:+ "        } else {" +:+ nl
      +:+ "            print(" +:+ dq +:+ "[AddTaskIntent] Parameter " +:+ param_name param +:+ " is nil" +:+ dq +:+ ")" +:+ nl
      +:+ "        }"
  end.

(** [generateParameterWrites]. *)
Definition generateParameterWrites (parameters : option (list ShortcutParameter))
    : string :=
  if hasParameters parameters
  then
    let writes := join nl (map parameterWrite (default [] parameters)) in
    nl
    +:+ "        // Write parameter values to shared UserDefaults" +:+ nl
    +:+ writes +:+ nl
  else EmptyString.

(** The state dialogs of a shortcut, as [generateIntentStruct] turns them
    into code. *)
Definition dialogParams (shortcut : ShortcutDefinition) (useLocalization : bool)
    (index : nat) (dialog : StateDialog) : DialogParams :=
  {| dp_index := index;
     dp_className := pascalCase toUpperCase (identifier shortcut) +:+ "Intent";
     dp_dialog := dialog;
     dp_condition := dialogCondition numberToString dialog;
     dp_localizationKey := dialogLocalizationKey (identifier shortcut) index;
     dp_useLocalization := useLocalization |}.

Definition dialogResults (shortcut : ShortcutDefinition) (useLocalization : bool)
    : list DialogCode :=
  imap (λ index dialog,
          generateStateDialogSwift numberToString
            (dialogParams shortcut useLocalization index dialog))
       (default [] (stateDialogs shortcut)).

Definition hasConfirmationDialogs (shortcut : ShortcutDefinition)
    (useLocalization : bool) : bool :=
  existsb isConfirmation (dialogResults shortcut useLocalization).

Definition dialogCode (shortcut : ShortcutDefinition) (useLocalization : bool)
    : string :=
  match stateDialogs shortcut with
  | Some (_ :: _) =>
      let checks := join nl (map code (dialogResults shortcut useLocalization)) in
      let variableDeclaration :=
        if hasConfirmationDialogs shortcut useLocalization
        then nl
             +:+ "        // Track whether user confirmed any state-based dialogs" +:+ nl
             +:+ "        var userConfirmedOverride = false" +:+ nl
             +:+ "        "
        else EmptyString in
      nl
      +:+ "        // Check app state for state-based dialogs" +:+ nl
      +:+ "        " +:+ variableDeclaration +:+ checks +:+ nl
      +:+ "    "
  | _ => EmptyString
  end.

(** The code of [perform] after the dialogs: the command is published, the
    notification is posted and the response is polled. *)
Definition publicationCode (shortcut : ShortcutDefinition) (useLocalization : bool)
    : string :=
  let className := pascalCase toUpperCase (identifier shortcut) +:+ "Intent" in
  let parameterWrites := generateParameterWrites (parameters shortcut) in
  let timeoutMessage :=
    if useLocalization
    then "String(localized: " +:+ dq +:+ "system.timeout" +:+ dq +:+ ", defaultValue: " +:+ dq +:+ "Done" +:+ dq +:+ ")"
    else dq +:+ "Done" +:+ dq in
  let userConfirmedWrite :=
    if hasConfirmationDialogs shortcut useLocalization
    then nl
         +:+ "        defaults.set(userConfirmedOverride, forKey: " +:+ dq +:+ "IosIntentsUserConfirmed" +:+ dq +:+ ")"
    else EmptyString in
  nl
  +:+ "        let nonce = UUID().uuidString" +:+ nl
  +:+ parameterWrites +:+ nl
  +:+ "        defaults.set(" +:+ dq +:+ identifier shortcut +:+ dq +:+ ", forKey: " +:+ dq +:+ "IosIntentsPendingCommand" +:+ dq +:+ ")" +:+ nl
  +:+ "        defaults.set(nonce, forKey: " +:+ dq +:+ "IosIntentsCommandNonce" +:+ dq +:+ ")" +:+ nl
  +:+ "        defaults.set(Date().timeIntervalSince1970, forKey: " +:+ dq +:+ "IosIntentsCommandTimestamp" +:+ dq +:+ ")" +:+ userConfirmedWrite +:+ nl
  +:+ nl
  +:+ "        print(" +:+ dq +:+ "[" +:+ className +:+ "] Command written to shared UserDefaults" +:+ dq +:+ ")" +:+ nl
  +:+ nl
  +:+ "        // Post Darwin notification to wake up main app (cross-process notification)" +:+ nl
  +:+ "        CFNotificationCenterPostNotification(" +:+ nl
  +:+ "            CFNotificationCenterGetDarwinNotifyCenter()," +:+ nl
  +:+ "            CFNotificationName(" +:+ dq +:+ "eu.eblank.likrot.iosintents.shortcut" +:+ dq +:+ " as CFString)," +:+ nl
  +:+ "            nil, nil, true" +:+ nl
  +:+ "        )" +:+ nl
  +:+ nl
  +:+ "        print(" +:+ dq +:+ "[" +:+ className +:+ "] Darwin notification posted" +:+ dq +:+ ")" +:+ nl
  +:+ nl
  +:+ "        // Poll UserDefaults for response from React Native (with timeout)" +:+ nl
  +:+ "        // This is necessary because App Intents and React Native run in separate processes." +:+ nl
  +:+ "        // The nonce ensures we don't receive stale responses from previous executions." +:+ nl
  +:+ "        // Note: " +:+ bs +:+ "(nonce) is Swift string interpolation syntax in the generated code (not JS)" +:+ nl
  +:+ "        let responseKey = " +:+ dq +:+ "IosIntentsResponse_" +:+ bs +:+ "(nonce)" +:+ dq +:+ nl
  +:+ "        let timeout: TimeInterval = 5.0      // 5 second timeout (balance between UX and resource usage)" +:+ nl
  +:+ "        let pollInterval: TimeInterval = 0.1  // Check every 100ms (frequent but not CPU-intensive)" +:+ nl
  +:+ "        let startTime = Date()" +:+ nl
  +:+ nl
  +:+ "        print(" +:+ dq +:+ "[" +:+ className +:+ "] Waiting for response..." +:+ dq +:+ ")" +:+ nl
  +:+ nl
  +:+ "        while Date().timeIntervalSince(startTime) < timeout {" +:+ nl
  +:+ "            // Check for response with this specific nonce" +:+ nl
  +:+ "            if let responseMessage = defaults.string(forKey: responseKey) {" +:+ nl
  +:+ "                print(" +:+ dq +:+ "[" +:+ className +:+ "] Received response: " +:+ bs +:+ "(responseMessage)" +:+ dq +:+ ")" +:+ nl
  +:+ nl
  +:+ "                // Clean up to prevent memory leaks and duplicate processing" +:+ nl
  +:+ "                defaults.removeObject(forKey: responseKey)" +:+ nl
  +:+ nl
  +:+ "                // Return result with dialog" +:+ nl
  +:+ "                // NOTE: When responseMessage is empty (" +:+ dq +:+ dq +:+ "), Siri typically speaks a default" +:+ nl
  +:+ "                // response like " +:+ dq +:+ "Done" +:+ dq +:+ " or " +:+ dq +:+ "OK" +:+ dq +:+ ". This is observed iOS behavior - Apple's" +:+ nl
  +:+ "                // documentation does not specify what happens with empty IntentDialog strings." +:+ nl
  +:+ "                // See: https://developer.apple.com/forums/thread/124730" +:+ nl
  +:+ "                return .result(dialog: IntentDialog(stringLiteral: responseMessage))" +:+ nl
  +:+ "            }" +:+ nl
  +:+ nl
  +:+ "            // Non-blocking sleep to reduce CPU usage while polling" +:+ nl
  +:+ "            try? await Task.sleep(nanoseconds: UInt64(pollInterval * 1_000_000_000))" +:+ nl
  +:+ "        }" +:+ nl
  +:+ nl
  +:+ "        print(" +:+ dq +:+ "[" +:+ className +:+ "] Timeout waiting for response" +:+ dq +:+ ")" +:+ nl
  +:+ nl
  +:+ "        // Timeout reached - this could indicate app crashed, handler error, or slow response" +:+ nl
  +:+ "        return .result(dialog: IntentDialog(stringLiteral: " +:+ timeoutMessage +:+ "))" +:+ nl
  +:+ "    }" +:+ nl
  +:+ "}".

(** The code of the struct up to the dialogs. *)
Definition preambleCode (shortcut : ShortcutDefinition) (useLocalization : bool)
    : string :=
  let className := pascalCase toUpperCase (identifier shortcut) +:+ "Intent" in
  let parameterDeclarations :=
    generateParameterDeclarations (parameters shortcut) useLocalization
      (identifier shortcut) in
  let initializers := generateInitializers (parameters shortcut) in
  let parameterRequests :=
    generateParameterRequests (parameters shortcut) useLocalization
      (identifier shortcut) in
  let titleValue :=
    if useLocalization
    then dq +:+ identifier shortcut +:+ ".title" +:+ dq
    else dq +:+ escapeForSwift (title shortcut) +:+ dq in
  let descriptionValue :=
    if truthyString (description shortcut)
    then if useLocalization
         then "static var description = IntentDescription(" +:+ dq +:+ identifier shortcut +:+ ".description" +:+ dq +:+ ")"
         else "static var description = IntentDescription(" +:+ dq +:+ escapeForSwift (default EmptyString (description shortcut)) +:+ dq +:+ ")"
    else EmptyString in
  let errorMessage :=
    if useLocalization
    then "String(localized: " +:+ dq +:+ "system.error.appGroupFailed" +:+ dq +:+ ", defaultValue: " +:+ dq +:+ "Failed to communicate with app" +:+ dq +:+ ")"
    else dq +:+ "Failed to communicate with app" +:+ dq in
  nl
  +:+ "@available(iOS 16.0, *)" +:+ nl
  +:+ "struct " +:+ className +:+ ": AppIntent {" +:+ nl
  +:+ "    static var title: LocalizedStringResource = " +:+ titleValue +:+ nl
  +:+ "    " +:+ descriptionValue +:+ nl
  +:+ "    static var openAppWhenRun: Bool { true }" +:+ nl
  +:+ parameterDeclarations +:+ initializers +:+ nl
  +:+ "    func perform() async throws -> some IntentResult & ProvidesDialog {" +:+ nl
  +:+ "        print(" +:+ dq +:+ "[" +:+ className +:+ "] Performing shortcut: " +:+ identifier shortcut +:+ dq +:+ ")" +:+ nl
  +:+ nl
  +:+ "        // App Intents run in a separate process with sandbox restrictions." +:+ nl
  +:+ "        // Inter-process communication happens via UserDefaults with App Groups" +:+ nl
  +:+ "        // (configured via App Capabilities in Xcode: group.<bundle-id>)." +:+ nl
  +:+ "        // This allows data exchange between the App Intent extension and React Native app." +:+ nl
  +:+ "        guard let defaults = UserDefaults(suiteName: APP_GROUP_ID) else {" +:+ nl
  +:+ "            print(" +:+ dq +:+ "[" +:+ className +:+ "] ERROR: Failed to access App Group" +:+ dq +:+ ")" +:+ nl
  +:+ "            return .result(dialog: IntentDialog(stringLiteral: " +:+ errorMessage +:+ "))" +:+ nl
  +:+ "        }" +:+ nl
  +:+ parameterRequests.

(** [generateIntentStruct]. *)
Definition generateIntentStruct (shortcut : ShortcutDefinition)
    (useLocalization : bool) : string :=
  preambleCode shortcut useLocalization
  +:+ dialogCode shortcut useLocalization
  +:+ publicationCode shortcut useLocalization.

(** One phrase of a registration entry: the application name is appended
    unless the phrase already names it. *)
Definition registrationPhrase (phrase : string) : string :=
  if includes "applicationName" phrase
  then dq +:+ escapeForSwift phrase +:+ dq
  else dq +:+ escapeForSwift phrase +:+ " in " +:+ bs +:+ "(.applicationName)" +:+ dq.

(** [generateAppShortcut]. *)
Definition generateAppShortcut (shortcut : ShortcutDefinition)
    (useLocalization : bool) : string :=
  let className := pascalCase toUpperCase (identifier shortcut) +:+ "Intent" in
  let phrases :=
    join ("," +:+ nl +:+ "                ") (map registrationPhrase (phrases shortcut)) in
  let shortTitle :=
    if useLocalization
    then "LocalizedStringResource(" +:+ dq +:+ identifier shortcut +:+ ".title" +:+ dq +:+ ", defaultValue: " +:+ dq +:+ escapeForSwift (title shortcut) +:+ dq +:+ ")"
    else dq +:+ escapeForSwift (title shortcut) +:+ dq in
  let icon :=
    if truthyString (systemImageName shortcut)
    then default EmptyString (systemImageName shortcut) else "app" in
  "        AppShortcut(" +:+ nl
  +:+ "            intent: " +:+ className +:+ "()," +:+ nl
  +:+ "            phrases: [" +:+ nl
  +:+ "                " +:+ phrases +:+ nl
  +:+ "            ]," +:+ nl
  +:+ "            shortTitle: " +:+ shortTitle +:+ "," +:+ nl
  +:+ "            systemImageName: " +:+ dq +:+ icon +:+ dq +:+ nl
  +:+ "        )".

(** [generateSwiftFile]. *)
Definition generateSwiftFile (config : ShortcutsConfig) (useLocalization : bool)
    : string :=
  let intents :=
    join nl (map (λ s, generateIntentStruct s useLocalization) (shortcuts config)) in
  let appShortcuts :=
    join nl (map (λ s, generateAppShortcut s useLocalization) (shortcuts config)) in
  let appGroup :=
    if truthyString (appGroupId config)
    then "private let APP_GROUP_ID = " +:+ dq +:+ default EmptyString (appGroupId config) +:+ dq
    else "private var APP_GROUP_ID: String {" +:+ nl
         +:+ "    guard let bundleId = Bundle.main.bundleIdentifier else {" +:+ nl
         +:+ "        fatalError(" +:+ dq +:+ "Cannot determine bundle identifier" +:+ dq +:+ ")" +:+ nl
         +:+ "    }" +:+ nl
         +:+ "    return " +:+ dq +:+ "group." +:+ bs +:+ "(bundleId)" +:+ dq +:+ nl
         +:+ "}" in
  "//" +:+ nl
  +:+ "// GeneratedAppIntents.swift" +:+ nl
  +:+ "//" +:+ nl
  +:+ "// AUTO-GENERATED - DO NOT EDIT" +:+ nl
  +:+ "// Generated from shortcuts.config.ts" +:+ nl
  +:+ "// Run 'npx react-native-ios-intents generate' to regenerate" +:+ nl
  +:+ "//" +:+ nl
  +:+ nl
  +:+ "import Foundation" +:+ nl
  +:+ "import AppIntents" +:+ nl
  +:+ nl
  +:+ "// App Group for inter-process communication" +:+ nl
  +:+ "// App Intents run in a separate process, so we use UserDefaults with App Group" +:+ nl
  +:+ "// The App Group ID should be configured in your app's capabilities:" +:+ nl
  +:+ "// Format: group.<bundle-identifier>" +:+ nl
  +:+ appGroup +:+ nl
  +:+ nl
  +:+ intents +:+ nl
  +:+ nl
  +:+ "@available(iOS 16.0, *)" +:+ nl
  +:+ "struct GeneratedAppShortcutsProvider: AppShortcutsProvider {" +:+ nl
  +:+ "    static var appShortcuts: [AppShortcut] {" +:+ nl
  +:+ appShortcuts +:+ nl
  +:+ "    }" +:+ nl
  +:+ "}" +:+ nl.

End Intents.

End SwiftCodegen.

Import SwiftCodegen.

(** ** src/cli/utils.ts: the type surface *)

Module TypeSurface.

(** [mapParameterTypeToTS]. *)
Definition mapParameterTypeToTS (type : ParameterType) : string :=
  match type with
  | TString => "string"
  | TNumber => "number"
  | TBoolean => "boolean"
  | TDate => "Date"
  end.

(** One field of the [parameters] object type. [optional !== false]. *)
Definition paramField (param : ShortcutParameter) : string :=
  let tsType := mapParameterTypeToTS (param_type param) in
  let optional :=
    match param_optional param with
    | Some false => EmptyString
    | _ => "?"
    end in
  "    " +:+ param_name param +:+ optional +:+ ": " +:+ tsType +:+ ";".

(** The variant of a shortcut without parameters. *)
Definition variantWithoutParameters (shortcut : ShortcutDefinition) : string :=
  "  | {" +:+ nl
  +:+ "      identifier: '" +:+ identifier shortcut +:+ "';" +:+ nl
  +:+ "      nonce: string;" +:+ nl
  +:+ "      parameters?: never;" +:+ nl
  +:+ "      userConfirmed?: boolean;" +:+ nl
  +:+ "    }".

(** The variant of a shortcut with parameters. *)
Definition variantWithParameters (shortcut : ShortcutDefinition) : string :=
  "  | {" +:+ nl
  +:+ "      identifier: '" +:+ identifier shortcut +:+ "';" +:+ nl
  +:+ "      nonce: string;" +:+ nl
  +:+ "      parameters: {" +:+ nl
  +:+ join nl (map paramField (default [] (parameters shortcut))) +:+ nl
  +:+ "      };" +:+ nl
  +:+ "      userConfirmed?: boolean;" +:+ nl
  +:+ "    }".

(** The callback of [config.shortcuts.map] in [generateTypeScriptTypes]. *)
Definition shortcutType (shortcut : ShortcutDefinition) : string :=
  if hasParameters (parameters shortcut)
  then variantWithParameters shortcut
  else variantWithoutParameters shortcut.

Definition importsText : string :=
  join nl [
    "// AUTO-GENERATED - DO NOT EDIT";
    "// Generated from shortcuts.config.ts";
    "// Run 'npx react-native-ios-intents generate' to regenerate";
    "";
    "// This file augments react-native-ios-intents types with your shortcuts";
    "// No manual import needed - types are automatically applied!";
    "";
    "" ].

Definition typeDefinitionHead : string :=
  join nl [
    "/**";
    " * Type-safe shortcut invocation";
    " * Provides autocomplete and type checking for shortcut identifiers and parameters";
    " *";
    " * Usage in your code:";
    " * import type { ShortcutInvocation } from './shortcuts.generated';";
    " *";
    " * Or use the type assertion:";
    " * const shortcut = data as ShortcutInvocation;";
    " */";
    "export type ShortcutInvocation =";
    "" ].

Definition typeDefinitionTail : string :=
  join nl [
    ";";
    "";
    "/**";
    " * Callback function for responding to Siri";
    " */";
    "export type RespondCallback = (response?: { message?: string }) => void;";
    "";
    "/**";
    " * Listener function for shortcut events";
    " * Receives typed shortcut data with autocomplete";
    " */";
    "export type ShortcutListener = (";
    "  shortcut: ShortcutInvocation,";
    "  respond: RespondCallback";
    ") => void | Promise<void>;";
    "" ].

(** [generateTypeScriptTypes]. *)
Definition generateTypeScriptTypes (config : ShortcutsConfig) : string :=
  importsText +:+ typeDefinitionHead
  +:+ join nl (map shortcutType (shortcuts config)) +:+ typeDefinitionTail.

End TypeSurface.

Import TypeSurface.

(** ** ios/IosIntents.swift: the native bridge *)

Module Bridge.

(** A value held by the shared UserDefaults. *)
Inductive PlistValue : Type :=
| PString (s : string)
| PDouble (d : float)
| PBool (b : bool).

(** A decoded parameter, as the dictionary [parameters] holds it. *)
Inductive ParamValue : Type :=
| VBool (b : bool)
| VString (s : string)
| VDouble (d : float)
| VDate (timeIntervalSince1970 : float).

Record NativeShortcutData : Type := {
  nsd_identifier : string;
  nsd_nonce : string;
  nsd_parameters : option (gmap string ParamValue);
  nsd_userConfirmed : option bool
}.

Definition keyPendingCommand : string := "IosIntentsPendingCommand".
Definition keyCommandNonce : string := "IosIntentsCommandNonce".
Definition keyCommandTimestamp : string := "IosIntentsCommandTimestamp".
Definition keyUserConfirmed : string := "IosIntentsUserConfirmed".
Definition prefixParam : string := "IosIntentsParam_".
Definition prefixParamType : string := "IosIntentsParamType_".

(** [darwinNotificationName]: the notification that the bridge observes. *)
Definition darwinNotificationName : string :=
  "eu.eblank.likrot.iosintents.shortcut".

(** [hasPrefix] and [dropFirst]. *)
Definition hasPrefix (p s : string) : bool := String.prefix p s.
Fixpoint dropFirst (n : nat) (s : string) : string :=
  match n, s with
  | S n', String _ s' => dropFirst n' s'
  | _, _ => s
  end.

(** [object(forKey:) as? NSNumber]. *)
Definition numberForKey (defaults : gmap string PlistValue) (key : string)
    : option PlistValue :=
  match defaults !! key with
  | Some (PDouble d) => Some (PDouble d)
  | Some (PBool b) => Some (PBool b)
  | _ => None
  end.

(** [boolValue] and [doubleValue] of a number. *)
Definition boolValue (v : PlistValue) : bool :=
  match v with
  | PBool b => b
  | PDouble d => negb (PrimFloat.eqb d 0)
  | PString _ => false
  end.
Definition doubleValue (v : PlistValue) : float :=
  match v with
  | PDouble d => d
  | PBool b => if b then 1%float else 0%float
  | PString _ => 0%float
  end.

Section Foundation.
(** What Foundation answers when a number is read as a string and a
    string as a double. *)
Variable numberAsString : PlistValue → option string.
Variable stringAsDouble : string → float.

(** [string(forKey:)]. *)
Definition stringForKey (defaults : gmap string PlistValue) (key : string)
    : option string :=
  match defaults !! key with
  | Some (PString s) => Some s
  | Some v => numberAsString v
  | None => None
  end.

(** [double(forKey:)]: zero when the key is absent. *)
Definition doubleForKey (defaults : gmap string PlistValue) (key : string)
    : float :=
  match defaults !! key with
  | Some (PString s) => stringAsDouble s
  | Some v => doubleValue v
  | None => 0%float
  end.

(** The value of one parameter key, by its type marker. *)
Definition decodeParameter (defaults : gmap string PlistValue) (key : string)
    : option ParamValue :=
  let paramName := dropFirst (String.length prefixParam) key in
  let paramType := stringForKey defaults (prefixParamType +:+ paramName) in
  if decide (paramType = Some "date")
  then Some (VDate (doubleForKey defaults key))
  else
    match (if decide (paramType = Some "boolean")
           then numberForKey defaults key else None) with
    | Some boolNumber => Some (VBool (boolValue boolNumber))
    | None =>
        match stringForKey defaults key with
        | Some stringValue => Some (VString stringValue)
        | None =>
            match numberForKey defaults key with
            | Some numberValue => Some (VDouble (doubleValue numberValue))
            | None => None
            end
        end
    end.

(** The loop that reads every key with the parameter prefix. *)
Definition readParameters (defaults : gmap string PlistValue)
    (allKeys : list string) : gmap string ParamValue :=
  foldl (λ parameters key,
           if hasPrefix prefixParam key
           then match decodeParameter defaults key with
                | Some v =>
                    <[dropFirst (String.length prefixParam) key := v]> parameters
                | None => parameters
                end
           else parameters)
        ∅ allKeys.

(** The body of [if currentNonce == commandNonce]: the four command keys
    and every parameter and type-marker key of [allKeys] are removed. *)
Definition removeCommandKeys (allKeys : list string)
    (defaults : gmap string PlistValue) : gmap string PlistValue :=
  foldl (λ d key,
           if hasPrefix prefixParam key || hasPrefix prefixParamType key
           then delete key d else d)
        (delete keyUserConfirmed
          (delete keyCommandTimestamp
            (delete keyCommandNonce
              (delete keyPendingCommand defaults))))
        allKeys.

(** The clear, guarded by the nonce that is in the store now. *)
Definition clearIfCurrent (commandNonce : string) (allKeys : list string)
    (defaults : gmap string PlistValue) : gmap string PlistValue :=
  let currentNonce := stringForKey defaults keyCommandNonce in
  if decide (currentNonce = Some commandNonce)
  then removeCommandKeys allKeys defaults
  else defaults.

(** [handleDarwinNotification]. The intent process shares the store:
    [interim] is what it writes after the command was read and before the
    nonce is read again (the identity when it writes nothing). The result
    is the store and the data handed to [invokeShortcut]. *)
Definition handleDarwinNotification
    (interim : gmap string PlistValue → gmap string PlistValue)
    (sharedDefaults : option (gmap string PlistValue))
    : option (gmap string PlistValue) * option NativeShortcutData :=
  match sharedDefaults with
  | None => (None, None)
  | Some defaults =>
      match stringForKey defaults keyPendingCommand,
            stringForKey defaults keyCommandNonce with
      | Some pendingCommand, Some commandNonce =>
          let userConfirmed :=
            boolValue <$> numberForKey defaults keyUserConfirmed in
          let allKeys := elements (dom defaults) in
          let parameters := readParameters defaults allKeys in
          let defaults' := clearIfCurrent commandNonce allKeys (interim defaults) in
          (Some defaults',
           Some {| nsd_identifier := pendingCommand;
                   nsd_nonce := commandNonce;
                   nsd_parameters :=
                     if decide (parameters = ∅) then None else Some parameters;
                   nsd_userConfirmed := userConfirmed |})
      | _, _ => (Some defaults, None)
      end
  end.
End Foundation.

(** [setSharedString] and [setSharedNumber]: an inaccessible App Group
    throws; [nil] removes the key. *)
Definition setSharedString (sharedDefaults : option (gmap string PlistValue))
    (key : string) (value : option string)
    : Result (option (gmap string PlistValue)) :=
  match sharedDefaults with
  | None => Throw NativeError
  | Some defaults =>
      match value with
      | Some v => Ok (Some (<[key := PString v]> defaults))
      | None => Ok (Some (delete key defaults))
      end
  end.

Definition setSharedNumber (sharedDefaults : option (gmap string PlistValue))
    (key : string) (value : option float)
    : Result (option (gmap string PlistValue)) :=
  match sharedDefaults with
  | None => Throw NativeError
  | Some defaults =>
      match value with
      | Some v => Ok (Some (<[key := PDouble v]> defaults))
      | None => Ok (Some (delete key defaults))
      end
  end.

Section Getters.
Variable numberAsString : PlistValue → option string.
Variable stringAsDouble : string → float.

(** [getSharedString]. *)
Definition getSharedString (sharedDefaults : option (gmap string PlistValue))
    (key : string) : Result (option string) :=
  match sharedDefaults with
  | None => Throw NativeError
  | Some defaults => Ok (stringForKey numberAsString defaults key)
  end.

(** [getSharedNumber]: [nil] when the key holds no object, and otherwise
    what [double(forKey:)] makes of the object. *)
Definition getSharedNumber (sharedDefaults : option (gmap string PlistValue))
    (key : string) : Result (option float) :=
  match sharedDefaults with
  | None => Throw NativeError
  | Some defaults =>
      match defaults !! key with
      | None => Ok None
      | Some _ => Ok (Some (doubleForKey stringAsDouble defaults key))
      end
  end.
End Getters.

End Bridge.

Import Bridge.

(** ** src/SiriShortcutsManager.ts: the manager *)

Module Manager.

(** [AppStateValue]. An object or array is carried as what
    [JSON.stringify] makes of it: its text, or [None] when it throws. *)
Inductive AppStateValue : Type :=
| AVBoolean (b : bool)
| AVNumber (n : float)
| AVString (s : string)
| AVNull
| AVUndefined
| AVObject (serialized : option string).

Record ShortcutInvocation : Type := {
  inv_identifier : string;
  inv_nonce : string;
  inv_parameters : option (gmap string ParamValue);
  inv_userConfirmed : option bool
}.

Record ShortcutResponse : Type := { resp_message : option string }.

(** A listener, by what it does with an invocation before it returns: the
    responses it sends through [respond], and whether it throws. *)
Record ListenerRun : Type := {
  responses : list ShortcutResponse;
  throws : bool
}.
Definition Listener : Type := ShortcutInvocation → ListenerRun.

(** The native module: [None] off iOS; its store is [None] when the App
    Group is inaccessible. *)
Record NativeModule : Type := { sharedDefaults : option (gmap string PlistValue) }.

Record ManagerState : Type := {
  listeners : gmap string (list Listener);
  nativeCallbackRegistered : bool;
  trackedStateKeys : gset string
}.

Definition EVENT_SHORTCUT : string := "shortcut".

(** The dispatch on the type of one app-state value. *)
Definition writeStateValue (defaults : option (gmap string PlistValue))
    (stateKey : string) (value : AppStateValue)
    : Result (option (gmap string PlistValue)) :=
  match value with
  | AVBoolean b => setSharedNumber defaults stateKey (Some (if b then 1%float else 0%float))
  | AVNumber n => setSharedNumber defaults stateKey (Some n)
  | AVString s => setSharedString defaults stateKey (Some s)
  | AVNull | AVUndefined => setSharedString defaults stateKey None
  | AVObject (Some text) =>
      match setSharedString defaults stateKey (Some text) with
      | Ok d => Ok d
      | Throw _ => Ok defaults
      end
  | AVObject None => Ok defaults
  end.

(** [Object.entries(state).forEach]: the key is tracked, then written; an
    exception ends the loop (the outer [catch] logs it). *)
Fixpoint updateLoop (entries : list (string * AppStateValue))
    (tracked : gset string) (defaults : option (gmap string PlistValue))
    : gset string * option (gmap string PlistValue) :=
  match entries with
  | [] => (tracked, defaults)
  | (key, value) :: rest =>
      let tracked' := {[ key ]} ∪ tracked in
      match writeStateValue defaults ("appState_" +:+ key) value with
      | Ok defaults' => updateLoop rest tracked' defaults'
      | Throw _ => (tracked', defaults)
      end
  end.

(** [updateAppState]. The state is given by its entries, in the order of
    [Object.entries]. *)
Definition updateAppState (m : ManagerState) (module : option NativeModule)
    (entries : list (string * AppStateValue)) : ManagerState * option NativeModule :=
  match module with
  | None => (m, None)
  | Some native =>
      let '(tracked, defaults) :=
        updateLoop entries (trackedStateKeys m) (sharedDefaults native) in
      ({| listeners := listeners m;
          nativeCallbackRegistered := nativeCallbackRegistered m;
          trackedStateKeys := tracked |},
       Some {| sharedDefaults := defaults |})
  end.

(** The [respond] callback of one invocation: the message, or the empty
    string, is written under the response key; a failure is logged. *)
Definition respond (nonce : string) (module : option NativeModule)
    (response : ShortcutResponse) : option NativeModule :=
  match module with
  | None => None
  | Some native =>
      let message := default EmptyString (resp_message response) in
      match setSharedString (sharedDefaults native)
              ("IosIntentsResponse_" +:+ nonce) (Some message) with
      | Ok d => Some {| sharedDefaults := d |}
      | Throw _ => Some native
      end
  end.

(** One call of a listener, as the log keeps it. *)
Record Delivery : Type := {
  delivered_to : nat;
  delivered : ShortcutInvocation
}.

(** [handleShortcutInvocation]: every listener is called with the
    invocation; a listener that throws does not stop the others. *)
Definition handleShortcutInvocation (m : ManagerState)
    (module : option NativeModule) (shortcut : ShortcutInvocation)
    : option NativeModule * list Delivery :=
  match listeners m !! EVENT_SHORTCUT with
  | Some (l :: ls) =>
      (foldl (λ current listener,
                foldl (respond (inv_nonce shortcut)) current
                      (responses (listener shortcut)))
             module (l :: ls),
       imap (λ i _, {| delivered_to := i; delivered := shortcut |}) (l :: ls))
  | _ => (module, [])
  end.

(** The callback that [ensureNativeCallback] registers with the bridge. *)
Definition nativeCallback (m : ManagerState) (module : option NativeModule)
    (nativeData : NativeShortcutData) : option NativeModule * list Delivery :=
  let shortcut :=
    {| inv_identifier := nsd_identifier nativeData;
       inv_nonce := nsd_nonce nativeData;
       inv_parameters := Some (default ∅ (nsd_parameters nativeData));
       inv_userConfirmed := nsd_userConfirmed nativeData |} in
  handleShortcutInvocation m module shortcut.

(** [ensureNativeCallback]: registers once, and only with a module. *)
Definition ensureNativeCallback (m : ManagerState) (module : option NativeModule)
    : ManagerState :=
  if nativeCallbackRegistered m then m
  else match module with
       | None => m
       | Some _ =>
           {| listeners := listeners m;
              nativeCallbackRegistered := true;
              trackedStateKeys := trackedStateKeys m |}
       end.

Section Subscriptions.
(** Whether two listeners are the same function object: the comparison
    that a [Set] of functions makes. *)
Variable sameListener : Listener → Listener → bool.

(** [Set.prototype.add] and [Set.prototype.delete] on the listeners of an
    event, kept in insertion order. *)
Definition addListener (listener : Listener) (set : list Listener) : list Listener :=
  if existsb (sameListener listener) set then set else set ++ [listener].

Definition deleteListener (listener : Listener) (set : list Listener)
    : list Listener :=
  filter (λ other, sameListener listener other = false) set.

(** [addEventListener]: the set of the event is created when missing, the
    listener is added to it and the native callback is ensured. *)
Definition addEventListener (m : ManagerState) (module : option NativeModule)
    (listener : Listener) : ManagerState :=
  let listeners1 :=
    match listeners m !! EVENT_SHORTCUT with
    | Some _ => listeners m
    | None => <[EVENT_SHORTCUT := []]> (listeners m)
    end in
  let eventListeners := default [] (listeners1 !! EVENT_SHORTCUT) in
  ensureNativeCallback
    {| listeners := <[EVENT_SHORTCUT := addListener listener eventListeners]> listeners1;
       nativeCallbackRegistered := nativeCallbackRegistered m;
       trackedStateKeys := trackedStateKeys m |}
    module.

(** The [remove] of the subscription that [addEventListener] returns for
    [listener]: it reads the set that the event has when it is called. *)
Definition remove (m : ManagerState) (listener : Listener) : ManagerState :=
  match listeners m !! EVENT_SHORTCUT with
  | Some eventListeners =>
      let eventListeners' := deleteListener listener eventListeners in
      {| listeners := <[EVENT_SHORTCUT := eventListeners']> (listeners m);
         nativeCallbackRegistered :=
           if decide (length eventListeners' = 0) then false
           else nativeCallbackRegistered m;
         trackedStateKeys := trackedStateKeys m |}
  | None => m
  end.
End Subscriptions.

(** [keysToClean.forEach]: the app-state key of every name is removed; the
    first call that throws ends the loop. *)
Fixpoint clearStateKeys (keys : list string)
    (defaults : option (gmap string PlistValue))
    : option (gmap string PlistValue) * option Error :=
  match keys with
  | [] => (defaults, None)
  | key :: rest =>
      match setSharedString defaults ("appState_" +:+ key) None with
      | Ok defaults' => clearStateKeys rest defaults'
      | Throw e => (defaults, Some e)
      end
  end.

(** [cleanup]. The result is the manager, the native module and the
    exception that left the function, if any: nothing catches what
    [setSharedString] throws, so the statements after the loop are then not
    reached. *)
Definition cleanup (m : ManagerState) (module : option NativeModule)
    (stateKeys : option (list string))
    : ManagerState * option NativeModule * option Error :=
  let cleared :=
    {| listeners := ∅;
       nativeCallbackRegistered := false;
       trackedStateKeys := trackedStateKeys m |} in
  let keysToClean := default (elements (trackedStateKeys m)) stateKeys in
  let '(module', thrown) :=
    match keysToClean, module with
    | _ :: _, Some native =>
        let '(defaults, thrown) := clearStateKeys keysToClean (sharedDefaults native) in
        (Some {| sharedDefaults := defaults |}, thrown)
    | _, _ => (module, None)
    end in
  match thrown with
  | Some e => (cleared, module', Some e)
  | None =>
      ({| listeners := ∅;
          nativeCallbackRegistered := false;
          trackedStateKeys :=
            match stateKeys with
            | None => ∅
            | Some _ => trackedStateKeys m
            end |},
       module', None)
  end.

End Manager.

Import Manager.

(** ** The generated intent, when it runs *)

Module Intent.

(** What [defaults.set] stores for the value of a parameter: a date is
    stored as its [timeIntervalSince1970]. *)
Definition storedParameter (value : ParamValue) : PlistValue :=
  match value with
  | VBool b => PBool b
  | VString s => PString s
  | VDouble d => PDouble d
  | VDate t => PDouble t
  end.

(** The value of a parameter has the Swift type of its declaration. *)
Definition hasType (value : ParamValue) (type : ParameterType) : bool :=
  match value, type with
  | VString _, TString | VDouble _, TNumber | VBool _, TBoolean | VDate _, TDate => true
  | _, _ => false
  end.

(** The statements that [generateParameterWrites] generates for one
    parameter, run with the value of the parameter ([None] is [nil]): the
    value is written under the parameter key, and for a date and a boolean
    the type marker is written under the type key. *)
Definition writeParameter (param : ShortcutParameter) (value : option ParamValue)
    (defaults : gmap string PlistValue) : gmap string PlistValue :=
  let key := "IosIntentsParam_" +:+ param_name param in
  let typeKey := "IosIntentsParamType_" +:+ param_name param in
  match value with
  | Some v =>
      match param_type param with
      | TDate => <[typeKey := PString "date"]> (<[key := storedParameter v]> defaults)
      | TBoolean =>
          <[typeKey := PString "boolean"]> (<[key := storedParameter v]> defaults)
      | _ => <[key := storedParameter v]> defaults
      end
  | None => defaults
  end.

(** The statements of the generated [perform] from the nonce to the
    notification: the parameters are written in the order of their
    declarations, then the command, the nonce and the timestamp, and the
    confirmation flag when the shortcut has a confirmation dialog. *)
Definition publish (shortcut : ShortcutDefinition) (hasConfirmationDialogs : bool)
    (nonce : string) (now : float) (userConfirmedOverride : bool)
    (arguments : string → option ParamValue)
    (defaults : gmap string PlistValue) : gmap string PlistValue :=
  let written :=
    foldl (λ d param, writeParameter param (arguments (param_name param)) d)
          defaults (default [] (parameters shortcut)) in
  let command :=
    <["IosIntentsCommandTimestamp" := PDouble now]>
      (<["IosIntentsCommandNonce" := PString nonce]>
        (<["IosIntentsPendingCommand" := PString (identifier shortcut)]> written)) in
  if hasConfirmationDialogs
  then <["IosIntentsUserConfirmed" := PBool userConfirmedOverride]> command
  else command.

Section Polling.
Variable numberAsString : PlistValue → option string.

(** One round of the polling loop of the generated [perform]: a response
    found under the response key of the nonce is removed and returned. *)
Definition pollResponse (nonce : string) (defaults : gmap string PlistValue)
    : gmap string PlistValue * option string :=
  let responseKey := "IosIntentsResponse_" +:+ nonce in
  match stringForKey numberAsString defaults responseKey with
  | Some responseMessage => (delete responseKey defaults, Some responseMessage)
  | None => (defaults, None)
  end.
End Polling.

End Intent.

Import Intent.

(** * Properties *)

(** ** Strings *)

Section StringFacts.

Lemma app_cons (c : ascii) (s t : string) : String c s +:+ t = String c (s +:+ t).
Proof. reflexivity. Qed.

Lemma app_empty_l (s : string) : EmptyString +:+ s = s.
Proof. reflexivity. Qed.

Lemma app_empty_r (s : string) : s +:+ EmptyString = s.
Proof. induction s as [|c s IH]; [done|]. by rewrite app_cons, IH. Qed.

Lemma app_assoc_str (s t u : string) : (s +:+ t) +:+ u = s +:+ (t +:+ u).
Proof. induction s as [|c s IH]; [done|]. by rewrite !app_cons, IH. Qed.

Lemma ascii_eqb_false (a b : ascii) : a ≠ b → Ascii.eqb a b = false.
Proof. intros H. by apply Ascii.eqb_neq. Qed.

Lemma list_ascii_of_string_app (s t : string) :
  list_ascii_of_string (s +:+ t) = list_ascii_of_string s ++ list_ascii_of_string t.
Proof. induction s as [|c s IH]; [done|]. rewrite app_cons. simpl. by rewrite IH. Qed.

End StringFacts.

(** ** Placeholder extraction *)

Section PlaceholderExtraction.

(** A placeholder name: one word character or more. *)
Definition isIdentifier (name : string) : bool :=
  negb (String.eqb name EmptyString)
  && forallb isWordChar (list_ascii_of_string name).

Definition placeholder (name : string) : string := "${" +:+ name +:+ "}".

Definition dollarFree (text : string) : bool :=
  forallb (λ c, negb (Ascii.eqb c "$")) (list_ascii_of_string text).

(** A template written as literal texts, each followed by a placeholder,
    and a last text. *)
Fixpoint template (segments : list (string * string)) (tail : string) : string :=
  match segments with
  | [] => tail
  | (text, name) :: rest => text +:+ placeholder name +:+ template rest tail
  end.

(** A placeholder occurs in a message. *)
Definition occursIn (name message : string) : Prop :=
  ∃ before after, message = before +:+ placeholder name +:+ after.

Lemma extractVariables_unfold (message : string) :
  extractVariables message =
  match message with
  | EmptyString => []
  | String _ s =>
      match matchPlaceholder message with
      | Some (name, rest) =>
          (if decide (name = EmptyString) then [] else [name])
          ++ extractVariables rest
      | None => extractVariables s
      end
  end.
Proof.
  funelim (extractVariables message); [reflexivity|..];
    match goal with H : matchPlaceholder _ = _ |- _ => rewrite H end;
    reflexivity.
Qed.

Lemma takeWord_spec (s w r : string) :
  takeWord s = (w, r) →
  s = w +:+ r ∧ forallb isWordChar (list_ascii_of_string w) = true.
Proof.
  revert w r. induction s as [|c s IH]; intros w r; simpl.
  - by intros [= <- <-].
  - destruct (isWordChar c) eqn:Hc.
    + destruct (takeWord s) as [w' r'] eqn:Hw. intros [= <- <-].
      destruct (IH w' r' eq_refl) as [-> Hall]. split; [done|].
      simpl. by rewrite Hc, Hall.
    + by intros [= <- <-].
Qed.

Lemma takeWord_word (name after : string) :
  forallb isWordChar (list_ascii_of_string name) = true →
  takeWord (name +:+ String "}" after) = (name, String "}" after).
Proof.
  induction name as [|c name IH]; simpl; [done|].
  intros [Hc Hall]%andb_true_iff. rewrite ?app_cons. simpl.
  by rewrite Hc, (IH Hall).
Qed.

Lemma placeholder_app (name after : string) :
  placeholder name +:+ after = String "$" (String "{" (name +:+ String "}" after)).
Proof. unfold placeholder. by rewrite !app_cons, app_empty_l, app_assoc_str. Qed.

Lemma matchPlaceholder_placeholder (name after : string) :
  isIdentifier name = true →
  matchPlaceholder (placeholder name +:+ after) = Some (name, after).
Proof.
  unfold isIdentifier. intros [Hne Hall]%andb_true_iff.
  rewrite placeholder_app. unfold matchPlaceholder.
  rewrite (takeWord_word _ _ Hall).
  destruct name as [|c name]; [done|]. reflexivity.
Qed.

Lemma matchPlaceholder_inv (s name rest : string) :
  matchPlaceholder s = Some (name, rest) →
  s = placeholder name +:+ rest ∧ isIdentifier name = true.
Proof.
  unfold matchPlaceholder.
  destruct s as [|a s]; [done|].
  destruct (Ascii.eqb_spec a "$"); [subst|by destruct a as [[] [] [] [] [] [] [] []]].
  destruct s as [|b s]; [done|].
  destruct (Ascii.eqb_spec b "{"); [subst|by destruct b as [[] [] [] [] [] [] [] []]].
  destruct (takeWord s) as [w r] eqn:Hw.
  destruct (takeWord_spec _ _ _ Hw) as [-> Hall].
  destruct w as [|c w]; [done|]. destruct r as [|d r]; [done|].
  destruct (Ascii.eqb_spec d "}"); [subst|by destruct d as [[] [] [] [] [] [] [] []]].
  intros [= <- <-]. split; [by rewrite placeholder_app|].
  unfold isIdentifier. by rewrite Hall.
Qed.

Lemma isIdentifier_nonempty (name : string) :
  isIdentifier name = true → name ≠ EmptyString.
Proof. by destruct name. Qed.

(** A placeholder at the start of the message is the first name returned,
    and the search goes on after it. *)
Lemma extractVariables_placeholder (name after : string) :
  isIdentifier name = true →
  extractVariables (placeholder name +:+ after) = name :: extractVariables after.
Proof.
  intros Hid. rewrite extractVariables_unfold.
  rewrite (matchPlaceholder_placeholder _ _ Hid).
  rewrite placeholder_app.
  destruct (decide (name = EmptyString)) as [Hn|_]; [|done].
  by apply isIdentifier_nonempty in Hid.
Qed.

(** Text without a dollar sign holds no placeholder and starts none. *)
Lemma extractVariables_dollarFree (text after : string) :
  dollarFree text = true →
  extractVariables (text +:+ after) = extractVariables after.
Proof.
  induction text as [|c text IH]; [done|].
  unfold dollarFree. simpl. intros [Hc Hall]%andb_true_iff.
  rewrite app_cons, extractVariables_unfold.
  assert (matchPlaceholder (String c (text +:+ after)) = None) as ->.
  { unfold matchPlaceholder.
    destruct (Ascii.eqb_spec c "$") as [->|Hne]; [done|].
    by destruct c as [[] [] [] [] [] [] [] []]. }
  by apply IH.
Qed.

Lemma extractVariables_template (segments : list (string * string)) (tail : string) :
  Forall (λ seg, dollarFree seg.1 = true ∧ isIdentifier seg.2 = true) segments →
  extractVariables (template segments tail) = segments.*2 ++ extractVariables tail.
Proof.
  induction 1 as [|[text name] segments [Htext Hname] _ IH]; [done|].
  simpl in *. rewrite extractVariables_dollarFree by done.
  rewrite extractVariables_placeholder by done. by rewrite IH.
Qed.

(** Without a placeholder in the message, nothing is returned. *)
Lemma extractVariables_none (message : string) :
  (∀ name, isIdentifier name = true → ¬ occursIn name message) →
  extractVariables message = [].
Proof.
  induction message as [|c s IH]; intros Hno; [done|].
  rewrite extractVariables_unfold.
  destruct (matchPlaceholder (String c s)) as [[name rest]|] eqn:Hm.
  - destruct (matchPlaceholder_inv _ _ _ Hm) as [Heq Hid].
    destruct (Hno name Hid). exists EmptyString, rest. by rewrite app_empty_l.
  - apply IH. intros name Hid (before & after & ->).
    apply (Hno name Hid). exists (String c before), after. by rewrite app_cons.
Qed.

(** Every name returned is the name of a placeholder of the message. *)
Lemma extractVariables_sound (message name : string) :
  name ∈ extractVariables message →
  isIdentifier name = true ∧ occursIn name message.
Proof.
  remember (String.length message) as n eqn:Hn.
  revert message Hn. induction (lt_wf n) as [n _ IH]. intros message -> Hin.
  rewrite extractVariables_unfold in Hin.
  destruct message as [|c s]; [by apply elem_of_nil in Hin|].
  destruct (matchPlaceholder (String c s)) as [[name' rest]|] eqn:Hm.
  - pose proof (matchPlaceholder_shorter _ _ _ Hm) as Hlt.
    destruct (matchPlaceholder_inv _ _ _ Hm) as [Heq Hid].
    apply elem_of_app in Hin as [Hin|Hin].
    + destruct (decide (name' = EmptyString)); [by apply elem_of_nil in Hin|].
      apply list_elem_of_singleton in Hin as ->. split; [done|].
      exists EmptyString, rest. by rewrite app_empty_l.
    + destruct (IH _ Hlt rest eq_refl Hin) as [Hid' (before & after & ->)].
      split; [done|]. rewrite Heq.
      exists (placeholder name' +:+ before), after. by rewrite app_assoc_str.
  - destruct (IH (String.length s) ltac:(simpl; lia) s eq_refl Hin)
      as [Hid' (before & after & ->)].
    split; [done|]. exists (String c before), after. by rewrite app_cons.
Qed.

End PlaceholderExtraction.

(** A placeholder occurs in the message at the offset [i]. *)
Definition occursAt (i : nat) (name message : string) : Prop :=
  ∃ before after,
    message = before +:+ placeholder name +:+ after
    ∧ String.length before = i ∧ isIdentifier name = true.

Lemma occursAt_S (i : nat) (name : string) (c : ascii) (s : string) :
  occursAt (S i) name (String c s) ↔ occursAt i name s.
Proof.
  split.
  - intros (before & after & Heq & Hlen & Hid).
    destruct before as [|b before]; [done|]. rewrite app_cons in Heq.
    injection Heq as -> ->. simpl in Hlen. exists before, after. by injection Hlen as ->.
  - intros (before & after & -> & <- & Hid).
    exists (String c before), after. by rewrite app_cons.
Qed.

Lemma occursAt_0 (name message : string) :
  occursAt 0 name message ↔ ∃ after, matchPlaceholder message = Some (name, after).
Proof.
  split.
  - intros (before & after & -> & Hlen & Hid).
    destruct before; [|done]. rewrite app_empty_l. exists after.
    by apply matchPlaceholder_placeholder.
  - intros [after Hm]. apply matchPlaceholder_inv in Hm as [-> Hid].
    exists EmptyString, after. by rewrite app_empty_l.
Qed.

(** No placeholder starts at a character other than the dollar sign. *)
Lemma occursAt_0_dollar (name : string) (c : ascii) (s : string) :
  occursAt 0 name (String c s) → c = "$"%char.
Proof.
  intros (before & after & Heq & Hlen & _). destruct before; [|done].
  rewrite app_empty_l, placeholder_app in Heq. by injection Heq as ->.
Qed.

Lemma occursAt_skip (w rest : string) (i : nat) (name : string) :
  dollarFree w = true →
  occursAt i name (w +:+ rest)
  ↔ String.length w ≤ i ∧ occursAt (i - String.length w) name rest.
Proof.
  revert i. induction w as [|c w IH]; intros i Hw.
  - rewrite app_empty_l. simpl. rewrite Nat.sub_0_r. split; [|by intros [_ ?]].
    intros H. split; [lia|done].
  - apply andb_true_iff in Hw as [Hc Hw]. apply negb_true_iff in Hc.
    rewrite app_cons. destruct i as [|i].
    + split; [|simpl; lia]. intros H%occursAt_0_dollar. subst c. done.
    + rewrite occursAt_S, (IH i Hw). simpl. split; intros [? ?]; (split; [lia|done]).
Qed.

Lemma isIdentifier_dollarFree (name : string) :
  isIdentifier name = true → dollarFree name = true.
Proof.
  unfold isIdentifier, dollarFree. intros [_ Hw]%andb_true_iff.
  induction name as [|c name IH]; [done|]. simpl in *.
  apply andb_true_iff in Hw as [Hc Hw]. rewrite (IH Hw), andb_true_r.
  by destruct c as [[] [] [] [] [] [] [] []].
Qed.

Lemma dollarFree_app (s t : string) :
  dollarFree (s +:+ t) = dollarFree s && dollarFree t.
Proof. unfold dollarFree. by rewrite list_ascii_of_string_app, forallb_app. Qed.

(** The offsets and names of a list of occurrences, moved [d] characters on. *)
Definition shiftBy (d : nat) (occurrences : list (nat * string)) : list (nat * string) :=
  prod_map (Nat.add d) id <$> occurrences.

Lemma shiftBy_names (d : nat) (occurrences : list (nat * string)) :
  (shiftBy d occurrences).*2 = occurrences.*2.
Proof.
  unfold shiftBy. rewrite <- list_fmap_compose. apply list_fmap_ext.
  by intros _ [i n] _.
Qed.

Lemma elem_of_shiftBy (d i : nat) (name : string) (occurrences : list (nat * string)) :
  (i, name) ∈ shiftBy d occurrences ↔ d ≤ i ∧ (i - d, name) ∈ occurrences.
Proof.
  unfold shiftBy. rewrite list_elem_of_fmap. split.
  - intros ([j n] & [= -> ->] & Hin). simpl. split; [lia|].
    by replace (d + j - d) with j by lia.
  - intros [Hle Hin]. exists (i - d, name). split; [|done].
    simpl. f_equal. lia.
Qed.

Lemma shiftBy_sorted (d : nat) (occurrences : list (nat * string)) :
  StronglySorted lt occurrences.*1 → StronglySorted lt (shiftBy d occurrences).*1.
Proof.
  unfold shiftBy. rewrite <- list_fmap_compose.
  replace (fst ∘ prod_map (Nat.add d) id <$> occurrences)
    with (Nat.add d <$> occurrences.*1)
    by (rewrite <- list_fmap_compose; apply list_fmap_ext; by intros _ [i n] _).
  intros Hs. apply StronglySorted_fmap with (R1 := lt); [|done].
  intros x y. simpl. lia.
Qed.

Lemma shiftBy_lower (d : nat) (occurrences : list (nat * string)) :
  Forall (λ i, d ≤ i) (shiftBy d occurrences).*1.
Proof.
  apply Forall_forall. intros i Hi. apply list_elem_of_fmap in Hi as ([j n] & -> & Hin).
  apply list_elem_of_fmap in Hin as ([j' n'] & [= -> ->] & _). simpl. lia.
Qed.

(** The names that are returned are the names of all the placeholders of
    the message, by increasing offset. *)
Lemma extractVariables_occurrences (message : string) :
  ∃ occurrences : list (nat * string),
    extractVariables message = occurrences.*2
    ∧ StronglySorted lt occurrences.*1
    ∧ ∀ i name, (i, name) ∈ occurrences ↔ occursAt i name message.
Proof.
  remember (String.length message) as n eqn:Hn. revert message Hn.
  induction (lt_wf n) as [n _ IH]. intros message ->.
  rewrite extractVariables_unfold. destruct message as [|c s].
  { exists []. split; [done|]. split; [constructor|]. intros i name. split.
    - by intros ?%elem_of_nil.
    - intros (before & after & Heq & _). destruct before; [|done].
      rewrite app_empty_l, placeholder_app in Heq. done. }
  destruct (matchPlaceholder (String c s)) as [[name rest]|] eqn:Hm.
  - pose proof (matchPlaceholder_shorter _ _ _ Hm) as Hshort.
    pose proof (matchPlaceholder_inv _ _ _ Hm) as [Heq Hid].
    destruct (IH _ Hshort rest eq_refl) as (occs & Hnames & Hsorted & Hocc).
    set (d := String.length (placeholder name)).
    exists ((0, name) :: shiftBy d occs). split; [|split].
    + rewrite decide_False by by apply isIdentifier_nonempty.
      simpl. by rewrite shiftBy_names, Hnames.
    + simpl. constructor; [by apply shiftBy_sorted|].
      eapply Forall_impl; [apply (shiftBy_lower d)|]. intros i Hi. simpl in Hi.
      unfold d in Hi. unfold placeholder in Hi. rewrite !app_cons in Hi. simpl in Hi. lia.
    + intros i n. rewrite elem_of_cons, elem_of_shiftBy, Hocc.
      set (w := "{" +:+ name +:+ "}").
      assert (String c s = String "$" (w +:+ rest)) as Hsplit.
      { rewrite Heq, placeholder_app. unfold w.
        by rewrite !app_cons, app_empty_l, !app_assoc_str. }
      assert (dollarFree w = true) as Hw.
      { unfold w. by rewrite !dollarFree_app, (isIdentifier_dollarFree name Hid). }
      assert (d = S (String.length w)) as Hd.
      { unfold d, placeholder, w. by rewrite !app_cons, !app_empty_l. }
      destruct i as [|i].
      * rewrite occursAt_0, Hm. split.
        -- intros [[= ->]|[Hle _]]; [by eexists|lia].
        -- intros [after [= <- _]]. by left.
      * rewrite Hsplit, occursAt_S, (occursAt_skip w rest i n Hw), Hd. simpl.
        split.
        -- intros [[=]|[Hle H]]. split; [lia|done].
        -- intros [Hle H]. right. split; [lia|done].
  - assert (String.length s < String.length (String c s)) as Hshort by (simpl; lia).
    destruct (IH _ Hshort s eq_refl) as (occs & Hnames & Hsorted & Hocc).
    exists (shiftBy 1 occs). split; [|split].
    + by rewrite shiftBy_names.
    + by apply shiftBy_sorted.
    + intros i n. rewrite elem_of_shiftBy, Hocc. destruct i as [|i].
      * split; [lia|]. intros [after Ha]%occursAt_0. congruence.
      * rewrite occursAt_S. simpl. rewrite Nat.sub_0_r. split; [by intros [_ ?]|].
        intros H. split; [lia|done].
Qed.

(** C9. extractVariables, for every message: the names it returns are the
    names of all the placeholders of the message, each as often as it
    occurs, by increasing offset of the occurrence. A placeholder is a
    dollar sign, an opening brace, one word character or more and a closing
    brace. So a template made of dollar-free texts and placeholders gives
    back exactly its names; the template of the specification gives a, b,
    a; a dollar sign or a brace that belongs to no placeholder is passed
    over; and a message without any placeholder gives the empty list. *)
Theorem extractVariables_order_and_duplicates :
  (∀ message, ∃ occurrences : list (nat * string),
     extractVariables message = occurrences.*2
     ∧ StronglySorted lt occurrences.*1
     ∧ ∀ i name, (i, name) ∈ occurrences ↔ occursAt i name message)
  ∧ (∀ (segments : list (string * string)) (tail : string),
       Forall (λ seg, dollarFree seg.1 = true ∧ isIdentifier seg.2 = true) segments →
       dollarFree tail = true →
       extractVariables (template segments tail) = segments.*2)
  ∧ extractVariables "${a} mid ${b}${a}" = ["a"; "b"; "a"]
  ∧ extractVariables "$name ${valid} {invalid}" = ["valid"]
  ∧ (∀ message,
       (∀ name, isIdentifier name = true → ¬ occursIn name message) →
       extractVariables message = []).
Proof.
  split; [apply extractVariables_occurrences|]. split; [|split; [|split]].
  - intros segments tail Hsegs Htail.
    rewrite extractVariables_template by done.
    rewrite <- (app_empty_r tail), extractVariables_dollarFree by done.
    by rewrite app_nil_r.
  - reflexivity.
  - reflexivity.
  - apply extractVariables_none.
Qed.

(** The theorem at a template with a repeated name. *)
Lemma extractVariables_order_and_duplicates_witness :
  extractVariables
    (template [("Timer ", "task"); (" ran ", "elapsed"); (", ", "task")] "!")
  = ["task"; "elapsed"; "task"].
Proof.
  apply (proj1 (proj2 extractVariables_order_and_duplicates)); [|reflexivity].
  repeat constructor.
Defined.


(** ** The phrase table *)

Section PhraseTable.

Lemma startsWith_app (p r : string) : startsWith p (p +:+ r) = true.
Proof.
  unfold startsWith. induction p as [|c p IH]; [by destruct r|].
  rewrite app_cons. simpl. destruct (ascii_dec c c); [done|congruence].
Qed.

Lemma startsWith_cons (a b : ascii) (p s : string) :
  startsWith (String a p) (String b s) = true ↔ a = b ∧ startsWith p s = true.
Proof.
  unfold startsWith. simpl. destruct (ascii_dec a b); [|split; [done|by intros [? _]]].
  split; [done|by intros [_ ?]].
Qed.

Lemma startsWith_empty (p : string) :
  startsWith p EmptyString = true → p = EmptyString.
Proof. by destruct p. Qed.

Lemma identityLine_quoted (phrase : string) :
  identityLine phrase = quoted phrase +:+ (" = " +:+ quoted phrase +:+ ";").
Proof. unfold identityLine, quoted. by rewrite !app_assoc_str. Qed.

Lemma identityLine_represents (phrase : string) :
  startsWith (quoted phrase) (identityLine phrase) = true.
Proof. rewrite identityLine_quoted. apply startsWith_app. Qed.

(** The lines of the existing file that the first loop reads. *)
Definition linesOf (existingContent : option string) : list string :=
  match existingContent with
  | Some content =>
      if decide (content = EmptyString) then [] else splitOn newline content
  | None => []
  end.

Definition matches (line : string) : Prop := is_Some (matchLine line).

Global Instance matches_dec (line : string) : Decision (matches line).
Proof. unfold matches. apply _. Defined.

Lemma retainLine_matches (set : list string) (line : string) :
  matches line → retainLine set line = setAdd line set.
Proof. intros [kv H]. unfold retainLine. by rewrite H. Qed.

Lemma retainLine_other (set : list string) (line : string) :
  ¬ matches line → retainLine set line = set.
Proof.
  intros H. unfold retainLine. destruct (matchLine line) eqn:Hm; [|done].
  destruct H. by eexists.
Qed.

Lemma foldl_retainLine_spec (lines set : list string) :
  NoDup set →
  ∃ kept,
    foldl retainLine set lines = set ++ kept
    ∧ NoDup (set ++ kept)
    ∧ kept `sublist_of` lines
    ∧ Forall matches kept
    ∧ (∀ l, l ∈ lines → matches l → l ∈ set ++ kept).
Proof.
  revert set. induction lines as [|line lines IH]; intros set Hnd; simpl.
  - exists []. rewrite app_nil_r. repeat split; try done.
    intros l Hl. by apply elem_of_nil in Hl.
  - destruct (decide (matches line)) as [Hm|Hm].
    + rewrite retainLine_matches by done. unfold setAdd.
      destruct (decide (line ∈ set)) as [Hin|Hin].
      * destruct (IH set Hnd) as (kept & Heq & Hnd' & Hsub & Hall & Hcov).
        exists kept. repeat split; try done.
        { by apply sublist_cons. }
        intros l [->|Hl]%elem_of_cons Hl'; [set_solver|by apply Hcov].
      * assert (NoDup (set ++ [line])) as Hnd1.
        { apply NoDup_app. repeat split; [done| |apply NoDup_singleton].
          intros x Hx ->%list_elem_of_singleton. done. }
        destruct (IH _ Hnd1) as (kept & Heq & Hnd' & Hsub & Hall & Hcov).
        exists (line :: kept). rewrite <- app_assoc in Heq, Hnd', Hcov.
        repeat split; try done.
        { by apply sublist_skip. }
        { by constructor. }
        intros l [->|Hl]%elem_of_cons Hl'; [set_solver|by apply Hcov].
    + rewrite retainLine_other by done.
      destruct (IH set Hnd) as (kept & Heq & Hnd' & Hsub & Hall & Hcov).
      exists kept. repeat split; try done.
      { by apply sublist_cons. }
      intros l [->|Hl]%elem_of_cons Hl'; [done|by apply Hcov].
Qed.

Lemma foldl_retainLine_distinct (lines set : list string) :
  NoDup (set ++ lines) →
  foldl retainLine set lines = set ++ filter matches lines.
Proof.
  revert set. induction lines as [|line lines IH]; intros set Hnd; simpl.
  - by rewrite app_nil_r.
  - assert (NoDup ((set ++ [line]) ++ lines)) as Hnd1 by by rewrite <- app_assoc.
    assert (line ∉ set) as Hnotin.
    { apply NoDup_app in Hnd as (_ & Hdisj & _). intros Hin.
      apply (Hdisj _ Hin). by left. }
    assert (NoDup (set ++ lines)) as Hnd2.
    { apply NoDup_app in Hnd as (? & Hdisj & Hl). apply NoDup_app.
      repeat split; [done| |by apply NoDup_cons in Hl as [_ ?]].
      intros x Hx Hx'. apply (Hdisj x Hx). by right. }
    destruct (decide (matches line)) as [Hm|Hm].
    + rewrite retainLine_matches by done. unfold setAdd.
      rewrite decide_False by done. rewrite (IH _ Hnd1).
      by rewrite filter_cons_True, <- app_assoc.
    + rewrite retainLine_other by done. rewrite (IH _ Hnd2).
      by rewrite filter_cons_False.
Qed.

(** The retained lines: the matching lines of the file, each once, in the
    order of the file. *)
Lemma existingLines_spec (existingContent : option string) :
  let retained := existingLines existingContent in
  let lines := linesOf existingContent in
  (∀ l, l ∈ retained ↔ l ∈ lines ∧ matches l)
  ∧ NoDup retained
  ∧ retained `sublist_of` lines
  ∧ (NoDup lines → retained = filter matches lines).
Proof.
  assert (existingLines existingContent
          = foldl retainLine [] (linesOf existingContent)) as Heq.
  { unfold existingLines, linesOf. destruct existingContent as [content|]; [|done].
    by destruct (decide (content = EmptyString)). }
  simpl. rewrite Heq.
  destruct (foldl_retainLine_spec (linesOf existingContent) [] (NoDup_nil_2))
    as (kept & Hk & Hnd & Hsub & Hall & Hcov).
  simpl in *. rewrite Hk. split; [|split; [|split]]; try done.
  - intros l. split.
    + intros Hl. split; [by apply (elem_of_sublist _ _ _ Hl Hsub)|].
      rewrite Forall_forall in Hall. by apply Hall.
    + intros [? ?]. by apply Hcov.
  - intros Hlines. rewrite <- Hk. by apply (foldl_retainLine_distinct _ []).
Qed.

(** A line that holds a quoted phrase at its start represents the phrase:
    this is the test of the second loop. *)
Definition represents (phrase : string) : string → bool :=
  startsWith (quoted phrase).

Lemma addPhrase_represented (set : list string) (phrase : string) :
  existsb (represents phrase) set = true → addPhrase set phrase = set.
Proof. intros H. unfold addPhrase. fold (represents phrase). by rewrite H. Qed.

Lemma addPhrase_new (set : list string) (phrase : string) :
  existsb (represents phrase) set = false →
  addPhrase set phrase = set ++ [identityLine phrase].
Proof.
  intros H. unfold addPhrase. fold (represents phrase). rewrite H.
  unfold setAdd. destruct (decide (identityLine phrase ∈ set)) as [Hin|]; [|done].
  assert (existsb (represents phrase) set = true) as Ht; [|congruence].
  apply existsb_exists. exists (identityLine phrase).
  split; [by apply list_elem_of_In|apply identityLine_represents].
Qed.

Lemma existsb_false_Forall (f : string → bool) (l : list string) :
  existsb f l = false → Forall (λ x, f x = false) l.
Proof.
  induction l as [|x l IH]; simpl; [done|].
  intros [? ?]%orb_false_iff. constructor; auto.
Qed.

Lemma existsb_true_Exists (f : string → bool) (l : list string) :
  existsb f l = true → Exists (λ x, f x = true) l.
Proof.
  induction l as [|x l IH]; simpl; [done|].
  intros [?|?]%orb_true_iff; [by left|right; auto].
Qed.

(** The second loop, for every set of lines it starts from. *)
Lemma foldl_addPhrase_spec (newPhrases set : list string) :
  ∃ chosen,
    foldl addPhrase set newPhrases = set ++ (identityLine <$> chosen)
    ∧ chosen `sublist_of` newPhrases
    ∧ (∀ before p after, chosen = before ++ p :: after →
         Forall (λ l, represents p l = false) (set ++ (identityLine <$> before)))
    ∧ (∀ p, p ∈ newPhrases →
         Exists (λ l, represents p l = true) (set ++ (identityLine <$> chosen))).
Proof.
  revert set. induction newPhrases as [|p ps IH]; intros set; simpl.
  - exists []. simpl. rewrite app_nil_r. repeat split; try done.
    + intros [|??] ???; discriminate.
    + intros q Hq. by apply elem_of_nil in Hq.
  - destruct (existsb (represents p) set) eqn:Hex.
    + rewrite addPhrase_represented by done.
      destruct (IH set) as (chosen & Heq & Hsub & Honly & Hall).
      exists chosen. repeat split; try done.
      { by apply sublist_cons. }
      intros q [->|Hq]%elem_of_cons; [|by apply Hall].
      apply Exists_app. left. by apply existsb_true_Exists.
    + rewrite addPhrase_new by done.
      destruct (IH (set ++ [identityLine p])) as (chosen & Heq & Hsub & Honly & Hall).
      exists (p :: chosen). simpl.
      rewrite <- app_assoc in Heq, Hall. simpl in Heq, Hall.
      repeat split; try done.
      { by apply sublist_skip. }
      { intros [|p' before] q after Hc; simplify_eq/=.
        - rewrite app_nil_r. by apply existsb_false_Forall.
        - specialize (Honly before q after eq_refl).
          by rewrite <- app_assoc in Honly. }
      intros q [->|Hq]%elem_of_cons; [|by apply Hall].
      apply Exists_app. right. left. apply identityLine_represents.
Qed.

Lemma scanQuoted_cons (c : ascii) (s' : string) :
  scanQuoted (String c s') =
  if Ascii.eqb c dquote then Some (EmptyString, s')
  else if Ascii.eqb c backslash then
    match s' with
    | EmptyString => None
    | String d s'' =>
        if isLineTerminator d then None
        else match scanQuoted s'' with
             | Some (body, rest) => Some (String c (String d body), rest)
             | None => None
             end
    end
  else match scanQuoted s' with
       | Some (body, rest) => Some (String c body, rest)
       | None => None
       end.
Proof. reflexivity. Qed.

(** The text between the quotes is followed by the closing quote. *)
Lemma scanQuoted_spec (s body rest : string) :
  scanQuoted s = Some (body, rest) → s = body +:+ dq +:+ rest.
Proof.
  remember (String.length s) as n eqn:Hn. revert s body rest Hn.
  induction (lt_wf n) as [n _ IH]. intros s body rest -> Hs.
  destruct s as [|c s]; [done|]. rewrite scanQuoted_cons in Hs.
  destruct (Ascii.eqb_spec c dquote) as [->|Hq].
  { injection Hs as <- <-. reflexivity. }
  destruct (Ascii.eqb c backslash).
  - destruct s as [|d s]; [done|].
    destruct (isLineTerminator d); [done|].
    destruct (scanQuoted s) as [[b r]|] eqn:Hb; [|done].
    injection Hs as <- <-.
    rewrite (IH (String.length s) ltac:(simpl; lia) s b r eq_refl Hb).
    by rewrite !app_cons.
  - destruct (scanQuoted s) as [[b r]|] eqn:Hb; [|done].
    injection Hs as <- <-.
    rewrite (IH (String.length s) ltac:(simpl; lia) s b r eq_refl Hb).
    by rewrite !app_cons.
Qed.

(** A line of the grammar starts with its quoted key. *)
Lemma matchLine_represents (line key value : string) :
  matchLine line = Some (key, value) → represents key line = true.
Proof.
  unfold matchLine, represents. destruct line as [|c s1]; [done|].
  destruct (Ascii.eqb_spec c dquote) as [->|]; [|done].
  destruct (scanQuoted s1) as [[k r1]|] eqn:Hk; [|done].
  apply scanQuoted_spec in Hk as ->. intros Hm.
  assert (k = key) as ->.
  { destruct (skipSpaces r1) as [|e r2]; [done|].
    destruct (Ascii.eqb_spec e "=") as [->|];
      [|by destruct e as [[] [] [] [] [] [] [] []]].
    destruct (skipSpaces r2) as [|c3 r3]; [done|].
    destruct (Ascii.eqb c3 dquote); [|done].
    destruct (scanQuoted r3) as [[v [|d r4]]|]; try done.
    destruct (Ascii.eqb_spec d ";") as [->|];
      [|by destruct d as [[] [] [] [] [] [] [] []]].
    by simplify_eq. }
  unfold quoted.
  change (String dquote (key +:+ dq +:+ r1)) with (dq +:+ key +:+ dq +:+ r1).
  replace (dq +:+ key +:+ dq +:+ r1) with ((dq +:+ key +:+ dq) +:+ r1)
    by by rewrite !app_assoc_str.
  apply startsWith_app.
Qed.


(** A plain phrase holds no double quote and no backslash. *)
Definition plainPhrase (phrase : string) : bool :=
  forallb (λ c, negb (Ascii.eqb c dquote) && negb (Ascii.eqb c backslash))
          (list_ascii_of_string phrase).

Lemma plainPhrase_cons (c : ascii) (p : string) :
  plainPhrase (String c p) = true →
  Ascii.eqb c dquote = false ∧ Ascii.eqb c backslash = false
  ∧ plainPhrase p = true.
Proof.
  unfold plainPhrase. simpl.
  intros [[?%negb_true_iff ?%negb_true_iff]%andb_true_iff ?]%andb_true_iff.
  done.
Qed.

Lemma scanQuoted_plain (phrase s key rest : string) :
  plainPhrase phrase = true →
  startsWith (phrase +:+ dq) s = true →
  scanQuoted s = Some (key, rest) → key = phrase.
Proof.
  revert s key. induction phrase as [|c p IH]; intros s key Hplain Hpre Hs.
  - destruct s as [|d s]; [done|].
    rewrite app_empty_l in Hpre. apply startsWith_cons in Hpre as [<- _].
    rewrite scanQuoted_cons in Hs. rewrite Ascii.eqb_refl in Hs. congruence.
  - apply plainPhrase_cons in Hplain as (Hq & Hb & Hplain).
    destruct s as [|d s]; [done|].
    rewrite app_cons in Hpre. apply startsWith_cons in Hpre as [<- Hpre].
    rewrite scanQuoted_cons, Hq, Hb in Hs.
    destruct (scanQuoted s) as [[b r]|] eqn:Hb'; [|done].
    injection Hs as <- <-. f_equal. by eapply IH.
Qed.

(** For a plain phrase, a line of the grammar represents it exactly when
    the phrase is the key of the line. *)
Lemma matchLine_plain (phrase line key value : string) :
  plainPhrase phrase = true →
  matchLine line = Some (key, value) →
  represents phrase line = true → key = phrase.
Proof.
  intros Hplain Hm Hrep. unfold matchLine in Hm. unfold represents, quoted in Hrep.
  destruct line as [|c s1]; [done|].
  change (dq +:+ phrase +:+ dq) with (String dquote (phrase +:+ dq)) in Hrep.
  apply startsWith_cons in Hrep as [<- Hrep]. rewrite Ascii.eqb_refl in Hm.
  destruct (scanQuoted s1) as [[k r1]|] eqn:Hk; [|done].
  assert (k = key) as ->.
  { destruct (skipSpaces r1) as [|e r2]; [done|].
    destruct (Ascii.eqb_spec e "=") as [->|];
      [|by destruct e as [[] [] [] [] [] [] [] []]].
    destruct (skipSpaces r2) as [|c3 r3]; [done|].
    destruct (Ascii.eqb c3 dquote); [|done].
    destruct (scanQuoted r3) as [[v [|d r4]]|]; try done.
    destruct (Ascii.eqb_spec d ";") as [->|];
      [|by destruct d as [[] [] [] [] [] [] [] []]].
    congruence. }
  by eapply scanQuoted_plain.
Qed.

Lemma plain_prefix_eq (p q rest : string) :
  plainPhrase p = true → plainPhrase q = true →
  startsWith (p +:+ dq) (q +:+ dq +:+ rest) = true → p = q.
Proof.
  revert q. induction p as [|c p IH]; intros q Hp Hq Hpre.
  - destruct q as [|d q]; [done|].
    apply plainPhrase_cons in Hq as (Hd & _ & _).
    rewrite app_empty_l, app_cons in Hpre.
    apply startsWith_cons in Hpre as [<- _]. by rewrite Ascii.eqb_refl in Hd.
  - apply plainPhrase_cons in Hp as (Hc & _ & Hp).
    destruct q as [|d q].
    + rewrite app_empty_l, app_cons in Hpre.
      apply startsWith_cons in Hpre as [-> _]. by rewrite Ascii.eqb_refl in Hc.
    + apply plainPhrase_cons in Hq as (_ & _ & Hq).
      rewrite !app_cons in Hpre. apply startsWith_cons in Hpre as [<- Hpre].
      f_equal. by apply IH.
Qed.

Lemma identityLine_plain (p q : string) :
  plainPhrase p = true → plainPhrase q = true →
  represents p (identityLine q) = true → p = q.
Proof.
  intros Hp Hq. unfold represents, quoted, identityLine.
  change (dq +:+ p +:+ dq) with (String dquote (p +:+ dq)).
  change (dq +:+ q +:+ dq +:+ " = " +:+ dq +:+ q +:+ dq +:+ ";")
    with (String dquote (q +:+ dq +:+ (" = " +:+ dq +:+ q +:+ dq +:+ ";"))).
  intros [_ Hpre]%startsWith_cons. by eapply plain_prefix_eq.
Qed.

(** The second loop in the words of the specification: a new phrase is
    appended unless it is a key of the table or was appended before. *)
Fixpoint appendNew (keys added newPhrases : list string) : list string :=
  match newPhrases with
  | [] => added
  | p :: rest =>
      if decide (p ∈ keys ∨ p ∈ added) then appendNew keys added rest
      else appendNew keys (added ++ [p]) rest
  end.

(** The keys of the lines of a table. *)
Definition keysOf (lines : list string) : list string :=
  omap (λ line, fst <$> matchLine line) lines.

Lemma elem_of_keysOf (key : string) (lines : list string) :
  key ∈ keysOf lines ↔ ∃ line value, line ∈ lines ∧ matchLine line = Some (key, value).
Proof.
  unfold keysOf. rewrite list_elem_of_omap. split.
  - intros (line & Hin & Hk). destruct (matchLine line) as [[k v]|] eqn:Hm; [|done].
    simpl in Hk. injection Hk as ->. by exists line, v.
  - intros (line & value & Hin & Hm). exists line. by rewrite Hm.
Qed.

Lemma represented_plain (retained added : list string) (p : string) :
  Forall matches retained → Forall (λ q, plainPhrase q = true) added →
  plainPhrase p = true →
  existsb (represents p) (retained ++ (identityLine <$> added)) = true
  ↔ p ∈ keysOf retained ∨ p ∈ added.
Proof.
  intros Hret Hadd Hp. rewrite existsb_exists. split.
  - intros (l & Hin & Hrep). apply list_elem_of_In, elem_of_app in Hin as [Hin|Hin].
    + left. rewrite Forall_forall in Hret. destruct (Hret l Hin) as [[k v] Hm].
      apply elem_of_keysOf. exists l, v. split; [done|].
      by rewrite (matchLine_plain p l k v Hp Hm Hrep) in Hm.
    + right. apply list_elem_of_fmap in Hin as (q & -> & Hq).
      rewrite Forall_forall in Hadd.
      by rewrite (identityLine_plain p q Hp (Hadd q Hq) Hrep).
  - intros [Hk|Hin].
    + apply elem_of_keysOf in Hk as (line & value & Hin & Hm). exists line.
      split; [apply list_elem_of_In, elem_of_app; by left|].
      by eapply matchLine_represents.
    + exists (identityLine p).
      split; [|apply identityLine_represents].
      apply list_elem_of_In, elem_of_app. right. by apply list_elem_of_fmap_2.
Qed.

(** On plain phrases the second loop is [appendNew]. *)
Lemma foldl_addPhrase_plain (newPhrases retained added : list string) :
  Forall matches retained → Forall (λ q, plainPhrase q = true) added →
  Forall (λ q, plainPhrase q = true) newPhrases →
  foldl addPhrase (retained ++ (identityLine <$> added)) newPhrases
  = retained ++ (identityLine <$> (appendNew (keysOf retained) added newPhrases)).
Proof.
  intros Hret. revert added.
  induction newPhrases as [|p ps IH]; intros added Hadd Hps; [done|].
  apply Forall_cons in Hps as [Hp Hps]. simpl.
  pose proof (represented_plain retained added p Hret Hadd Hp) as Hiff.
  destruct (decide (p ∈ keysOf retained ∨ p ∈ added)) as [Hin|Hnot].
  - rewrite addPhrase_represented by by apply Hiff. by apply IH.
  - rewrite addPhrase_new.
    + rewrite <- app_assoc.
      replace ((identityLine <$> added) ++ [identityLine p])
        with ((identityLine <$> (added ++ [p]))) by by rewrite fmap_app.
      apply IH; [|done]. apply Forall_app. split; [done|]. by constructor.
    + destruct (existsb _ _) eqn:Hex; [|done]. destruct Hnot. by apply Hiff.
Qed.

End PhraseTable.

(** The identity line determines its phrase. *)
Lemma app_inj_length (a b x y : string) :
  String.length a = String.length b → a +:+ x = b +:+ y → a = b ∧ x = y.
Proof.
  revert b. induction a as [|c a IH]; intros [|d b] Hlen Heq; try discriminate.
  - by rewrite !app_empty_l in Heq.
  - rewrite !app_cons in Heq. injection Heq as -> Heq. injection Hlen as Hlen.
    destruct (IH b Hlen Heq) as [-> ->]. done.
Qed.

Lemma length_app_str (a b : string) :
  String.length (a +:+ b) = String.length a + String.length b.
Proof.
  induction a as [|c a IH]; [by rewrite app_empty_l|].
  rewrite app_cons. simpl. by rewrite IH.
Qed.

Lemma identityLine_length (p : string) :
  String.length (identityLine p) = 2 * String.length p + 8.
Proof.
  unfold identityLine. rewrite !length_app_str.
  change (String.length dq) with 1. simpl String.length. lia.
Qed.

#[global] Instance identityLine_inj : Inj (=) (=) identityLine.
Proof.
  intros p q Heq.
  assert (String.length p = String.length q) as Hlen.
  { pose proof (f_equal String.length Heq) as H.
    rewrite !identityLine_length in H. lia. }
  unfold identityLine, dq in Heq. rewrite !app_cons, !app_empty_l in Heq.
  injection Heq as Heq.
  by destruct (app_inj_length _ _ _ _ Hlen Heq).
Qed.






(** ** The localization catalog *)

Section CatalogMerge.

Variable JSON_parse : string → option JSON.
Variable JSON_stringify : JSON → string.

(** A key that the catalog reads from [Object.prototype] when it has no
    entry of that name. *)
Definition inheritedKey (inherited : bool) (key : string) : bool :=
  bool_decide (key ∈ objectPrototypeNames)
  || (inherited && bool_decide (key = "localizations")).

(** The entry that one iteration leaves under its key, from the entry it
    finds there. *)
Definition mergedEntry (inherited : bool) (key value : string)
    (found : option JSON) : Result (option JSON) :=
  match found with
  | Some entry =>
      if truthy entry
      then match updateEnglish inherited entry (englishUnit value) with
           | Ok entry' => Ok (Some entry')
           | Throw e => Throw e
           end
      else Ok (Some (freshEntry value))
  | None =>
      if inheritedKey inherited key then Ok None else Ok (Some (freshEntry value))
  end.

(** Whether [Object.prototype] has the object [localizations] after the
    iterations under [keys]: it had it before, or [__proto__] is one of the
    keys and the catalog has no entry of that name. *)
Definition inheritedAfter (inherited : bool) (strs : gmap string JSON)
    (keys : list string) : bool :=
  inherited
  || (bool_decide ("__proto__" ∈ keys) && bool_decide (strs !! "__proto__" = None)).

Lemma mergeEntry_mergedEntry (inherited : bool) (strs : gmap string JSON)
    (key value : string) :
  mergeEntry inherited strs (key, value) =
  (match mergedEntry inherited key value (strs !! key) with
   | Ok (Some entry) => Ok (<[key := entry]> strs)
   | Ok None => Ok strs
   | Throw e => Throw e
   end,
   inheritedAfter inherited strs [key]).
Proof.
  unfold mergeEntry, mergedEntry, readKey, inheritedKey, inheritedAfter.
  destruct (strs !! key) as [entry|] eqn:Hkey.
  - assert (bool_decide ("__proto__" ∈ [key]) && bool_decide (strs !! "__proto__" = None)
            = false) as ->.
    { destruct (decide (key = "__proto__")) as [->|Hne].
      - rewrite Hkey. by rewrite andb_false_r.
      - rewrite bool_decide_eq_false_2; [done|]. by intros ?%list_elem_of_singleton. }
    rewrite orb_false_r. destruct (truthy entry); [|done].
    by destruct (updateEnglish inherited entry (englishUnit value)).
  - destruct (decide (key = "__proto__")) as [->|Hne].
    + rewrite Hkey. cbn. by rewrite orb_true_r.
    + assert (bool_decide ("__proto__" ∈ [key]) = false) as ->.
      { apply bool_decide_eq_false_2. by intros ?%list_elem_of_singleton. }
      rewrite andb_false_l, orb_false_r.
      destruct (decide (key ∈ objectPrototypeNames)) as [Hin|Hin].
      * by rewrite bool_decide_eq_true_2.
      * rewrite (bool_decide_eq_false_2 _ Hin), orb_false_l.
        by destruct (inherited && bool_decide (key = "localizations")).
Qed.

Lemma inheritedAfter_nil (inherited : bool) (strs : gmap string JSON) :
  inheritedAfter inherited strs [] = inherited.
Proof.
  unfold inheritedAfter. rewrite bool_decide_eq_false_2; [by rewrite orb_false_r|].
  by intros ?%elem_of_nil.
Qed.

Lemma proto_inherited : "__proto__" ∈ objectPrototypeNames.
Proof. unfold objectPrototypeNames. do 7 right. left. Qed.

(** The own entry under [__proto__] is there after an iteration exactly when
    it was there before. *)
Lemma mergedEntry_own_proto (inherited : bool) (strs strs' : gmap string JSON)
    (key value : string) :
  (mergeEntry inherited strs (key, value)).1 = Ok strs' →
  bool_decide (strs' !! "__proto__" = None) = bool_decide (strs !! "__proto__" = None).
Proof.
  rewrite mergeEntry_mergedEntry. cbn [fst].
  destruct (mergedEntry inherited key value (strs !! key)) as [[entry|]|] eqn:Hm;
    [|by intros [= <-]|done].
  intros [= <-]. destruct (decide (key = "__proto__")) as [->|Hne].
  - rewrite lookup_insert_eq. unfold mergedEntry, inheritedKey in Hm.
    destruct (strs !! "__proto__") as [old|] eqn:Hold; [done|].
    by rewrite (bool_decide_eq_true_2 _ proto_inherited) in Hm.
  - by rewrite lookup_insert_ne.
Qed.

Lemma inheritedAfter_cons (inherited : bool) (strs strs' : gmap string JSON)
    (key value : string) (keys : list string) :
  key ∉ keys →
  (mergeEntry inherited strs (key, value)).1 = Ok strs' →
  inheritedAfter (inheritedAfter inherited strs [key]) strs' keys
  = inheritedAfter inherited strs (key :: keys).
Proof.
  intros Hkey Hstep. unfold inheritedAfter.
  rewrite (mergedEntry_own_proto _ _ _ _ _ Hstep).
  destruct inherited; [done|]. cbn [orb].
  destruct (decide (key = "__proto__")) as [->|Hne].
  - rewrite (bool_decide_eq_true_2 ("__proto__" ∈ ["__proto__"])) by by left.
    rewrite (bool_decide_eq_true_2 ("__proto__" ∈ "__proto__" :: keys)) by by left.
    rewrite (bool_decide_eq_false_2 _ Hkey). cbn.
    by rewrite orb_false_r.
  - rewrite (bool_decide_eq_false_2 ("__proto__" ∈ [key]))
      by by intros ?%list_elem_of_singleton.
    cbn. f_equal. apply bool_decide_ext. rewrite elem_of_cons.
    split; [by right|]. by intros [?|?].
Qed.

Lemma mergeLoop_cons (inherited : bool) (strs : gmap string JSON)
    (key value : string) (rest : list (string * string)) :
  mergeLoop ((key, value) :: rest) inherited strs =
  match mergedEntry inherited key value (strs !! key) with
  | Ok (Some entry) =>
      mergeLoop rest (inheritedAfter inherited strs [key]) (<[key := entry]> strs)
  | Ok None => mergeLoop rest (inheritedAfter inherited strs [key]) strs
  | Throw e => (Throw e, inheritedAfter inherited strs [key])
  end.
Proof.
  cbn [mergeLoop]. rewrite mergeEntry_mergedEntry.
  by destruct (mergedEntry inherited key value (strs !! key)) as [[entry|]|].
Qed.

(** The loop over entries with distinct keys, key by key: each key is
    merged once, from the entry the catalog had under it, in the state in
    which the keys before it left [Object.prototype]. *)
Lemma mergeLoop_spec (entries : list (string * string)) (inherited : bool)
    (strs strs' : gmap string JSON) (inherited' : bool) :
  NoDup entries.*1 →
  mergeLoop entries inherited strs = (Ok strs', inherited') →
  inherited' = inheritedAfter inherited strs entries.*1
  ∧ (∀ k, k ∉ entries.*1 → strs' !! k = strs !! k)
  ∧ (∀ before k v after, entries = before ++ (k, v) :: after →
       mergedEntry (inheritedAfter inherited strs before.*1) k v (strs !! k)
       = Ok (strs' !! k)).
Proof.
  revert inherited strs.
  induction entries as [|[key value] entries IH]; intros inherited strs Hnd Hrun.
  - cbn in Hrun. injection Hrun as <- <-. rewrite inheritedAfter_nil.
    split; [done|]. split; [done|]. intros [|??] ????; done.
  - cbn [fmap list_fmap fst] in Hnd. apply NoDup_cons in Hnd as [Hkey Hnd].
    assert (∃ strs1, (mergeEntry inherited strs (key, value)).1 = Ok strs1
                     ∧ mergeLoop entries (inheritedAfter inherited strs [key]) strs1
                       = (Ok strs', inherited')
                     ∧ (∀ k, k ≠ key → strs1 !! k = strs !! k)
                     ∧ mergedEntry inherited key value (strs !! key)
                       = Ok (strs1 !! key))
      as (strs1 & Hstep & Hrest & Hother & Hmerged).
    { rewrite mergeLoop_cons in Hrun. rewrite mergeEntry_mergedEntry. cbn [fst].
      destruct (mergedEntry inherited key value (strs !! key)) as [[entry|]|] eqn:Hm;
        [| |done].
      - exists (<[key := entry]> strs). repeat split; try done.
        + intros k Hk. by rewrite lookup_insert_ne.
        + by rewrite lookup_insert_eq.
      - exists strs. repeat split; try done.
        unfold mergedEntry in Hm. destruct (strs !! key) as [old|]; [|done].
        destruct (truthy old); [|done].
        by destruct (updateEnglish inherited old (englishUnit value)). }
    destruct (IH _ _ Hnd Hrest) as (Hinh & Hframe & Hall).
    split; [|split].
    + rewrite Hinh. by eapply inheritedAfter_cons.
    + intros k Hk. cbn [fmap list_fmap fst] in Hk.
      apply not_elem_of_cons in Hk as [Hne Hk].
      by rewrite (Hframe k Hk), (Hother k Hne).
    + intros before k v after Heq. destruct before as [|[k0 v0] before].
      * cbn in Heq. injection Heq as <- <- <-. rewrite inheritedAfter_nil.
        by rewrite (Hframe key Hkey).
      * cbn in Heq. injection Heq as <- <- ->.
        assert (k ≠ key) as Hne.
        { intros ->. apply Hkey. rewrite fmap_app, elem_of_app. right. by left. }
        assert (key ∉ before.*1) as Hk0.
        { intros Hin. apply Hkey. rewrite fmap_app, elem_of_app. by left. }
        specialize (Hall before k v after eq_refl).
        rewrite (Hother k Hne) in Hall.
        cbn [fmap list_fmap fst].
        by rewrite <- (inheritedAfter_cons _ _ _ _ _ _ Hk0 Hstep).
Qed.

Lemma mergeLoop_total (entries : list (string * string)) (inherited : bool)
    (strs : gmap string JSON) :
  NoDup entries.*1 →
  (∀ before k v after, entries = before ++ (k, v) :: after →
     ∃ o, mergedEntry (inheritedAfter inherited strs before.*1) k v (strs !! k) = Ok o) →
  ∃ strs', mergeLoop entries inherited strs
           = (Ok strs', inheritedAfter inherited strs entries.*1).
Proof.
  revert inherited strs.
  induction entries as [|[key value] entries IH]; intros inherited strs Hnd Hok.
  - exists strs. cbn. by rewrite inheritedAfter_nil.
  - cbn [fmap list_fmap fst] in Hnd. apply NoDup_cons in Hnd as [Hkey Hnd].
    destruct (Hok [] key value entries eq_refl) as [o Ho].
    rewrite inheritedAfter_nil in Ho.
    pose proof (mergeEntry_mergedEntry inherited strs key value) as Hstep.
    rewrite Ho in Hstep.
    set (strs1 := match o with Some entry => <[key := entry]> strs | None => strs end).
    assert ((mergeEntry inherited strs (key, value)).1 = Ok strs1) as Hstep1.
    { rewrite Hstep. by destruct o. }
    assert (∀ k, k ≠ key → strs1 !! k = strs !! k) as Hother.
    { intros k Hk. subst strs1. destruct o; [by rewrite lookup_insert_ne|done]. }
    destruct (IH (inheritedAfter inherited strs [key]) strs1 Hnd) as [strs' Hrun].
    { intros before k v after Heq.
      assert (k ≠ key) as Hne.
      { intros ->. apply Hkey. rewrite Heq, fmap_app, elem_of_app. right. by left. }
      assert (key ∉ before.*1) as Hk0.
      { intros Hin. apply Hkey. rewrite Heq, fmap_app, elem_of_app. by left. }
      rewrite (Hother k Hne), (inheritedAfter_cons _ _ _ _ _ _ Hk0 Hstep1).
      apply (Hok ((key, value) :: before) k v after). by rewrite Heq. }
    exists strs'. rewrite mergeLoop_cons, Ho.
    rewrite (inheritedAfter_cons _ _ _ _ _ _ Hkey Hstep1) in Hrun.
    by destruct o.
Qed.

(** No iteration removes a key, and a key that is not among the new ones
    keeps its entry: for every list of entries. *)
Lemma mergeLoop_frame (entries : list (string * string)) (inherited : bool)
    (strs strs' : gmap string JSON) (inherited' : bool) :
  mergeLoop entries inherited strs = (Ok strs', inherited') →
  (∀ k, is_Some (strs !! k) → is_Some (strs' !! k))
  ∧ (∀ k, k ∉ entries.*1 → strs' !! k = strs !! k).
Proof.
  revert inherited strs.
  induction entries as [|[key value] entries IH]; intros inherited strs Hrun.
  - cbn in Hrun. by injection Hrun as <- <-.
  - rewrite mergeLoop_cons in Hrun.
    destruct (mergedEntry inherited key value (strs !! key)) as [[entry|]|];
      [| |done].
    + destruct (IH _ _ Hrun) as [Hkeep Hframe]. split.
      * intros k Hk. apply Hkeep. destruct (decide (k = key)) as [->|Hne].
        { rewrite lookup_insert_eq. by eexists. }
        by rewrite lookup_insert_ne.
      * intros k Hk. cbn [fmap list_fmap fst] in Hk.
        apply not_elem_of_cons in Hk as [Hne Hk].
        rewrite (Hframe k Hk). by rewrite lookup_insert_ne.
    + destruct (IH _ _ Hrun) as [Hkeep Hframe]. split; [done|].
      intros k Hk. cbn [fmap list_fmap fst] in Hk.
      apply not_elem_of_cons in Hk as [Hne Hk]. by apply Hframe.
Qed.

(** An entry of the expected structure is updated without an exception,
    and what is left has the expected structure. *)
Lemma updateEnglish_expected (inherited : bool) (fields : gmap string JSON)
    (unit : JSON) :
  entryHasExpectedStructure (JObject fields) = true →
  ∃ entry', updateEnglish inherited (JObject fields) unit = Ok entry'
            ∧ entryHasExpectedStructure entry' = true.
Proof.
  unfold entryHasExpectedStructure, updateEnglish.
  destruct (fields !! "localizations") as [l|] eqn:Hl.
  - intros Hwf. destruct (truthy l) eqn:Ht.
    + destruct l as [| b | n | s | items | locs];
        try (rewrite Ht in Hwf; discriminate); try discriminate.
      rewrite Hl. eexists. split; [done|]. cbv beta iota.
      by rewrite lookup_insert_eq.
    + rewrite lookup_insert_eq. eexists. split; [done|]. cbv beta iota.
      by rewrite lookup_insert_eq.
  - intros _. destruct inherited.
    + rewrite Hl. eexists. split; [done|]. cbv beta iota. by rewrite Hl.
    + rewrite lookup_insert_eq. eexists. split; [done|]. cbv beta iota.
      by rewrite lookup_insert_eq.
Qed.


Lemma mergeLoop_expected (entries : list (string * string)) (inherited : bool)
    (strs : gmap string JSON) :
  (∀ k entry, k ∈ entries.*1 → strs !! k = Some entry →
     entryHasExpectedStructure entry = true) →
  ∃ strs' inherited', mergeLoop entries inherited strs = (Ok strs', inherited').
Proof.
  revert inherited strs.
  induction entries as [|[key value] entries IH]; intros inherited strs Hwf.
  - by exists strs, inherited.
  - rewrite mergeLoop_cons.
    assert (∃ o, mergedEntry inherited key value (strs !! key) = Ok o
                 ∧ ∀ entry, o = Some entry → entryHasExpectedStructure entry = true)
      as (o & -> & Ho).
    { unfold mergedEntry. destruct (strs !! key) as [old|] eqn:Hold.
      - specialize (Hwf key old ltac:(left) Hold).
        destruct old as [| | | | |fields]; try done. cbn [truthy].
        destruct (updateEnglish_expected inherited fields (englishUnit value) Hwf)
          as (entry' & -> & Hentry').
        eexists. split; [done|]. by intros ? [= <-].
      - destruct (inheritedKey inherited key); eexists; (split; [done|]); [done|].
        by intros ? [= <-]. }
    destruct o as [entry|].
    + apply IH. intros k e Hk. destruct (decide (k = key)) as [->|Hne].
      * rewrite lookup_insert_eq. intros [= <-]. by apply Ho.
      * rewrite lookup_insert_ne by done. apply Hwf. by right.
    + apply IH. intros k e Hk. apply Hwf. by right.
Qed.

(** What the [try] block loads from a parsed object whose [strings] is an
    object. *)
Lemma loadExisting_strings (text : string) (top entries : gmap string JSON) :
  text ≠ EmptyString →
  JSON_parse text = Some (JObject top) →
  top !! "strings" = Some (JObject entries) →
  strings (loadExisting JSON_parse (Some text)) = entries.
Proof.
  intros Hne Hparse Hstrings. unfold loadExisting, tryLoad.
  rewrite decide_False by done. rewrite Hparse. simpl. rewrite Hstrings. simpl.
  by destruct (top !! "sourceLanguage") as [[]|], (top !! "version") as [[]|];
    simpl; repeat case_match.
Qed.

Lemma mergeStringCatalog_of_catalog (inherited : bool)
    (newStrings : list (string * string))
    (existing : option string) (catalog : Catalog) (inherited' : bool) :
  mergeCatalog JSON_parse inherited newStrings existing = (Ok catalog, inherited') →
  mergeStringCatalog JSON_parse JSON_stringify inherited newStrings existing
  = (Ok (JSON_stringify (catalogObject catalog)), inherited').
Proof. intros H. unfold mergeStringCatalog. by rewrite H. Qed.

Lemma mergeCatalog_inv (inherited : bool) (newStrings : list (string * string))
    (existing : option string) (catalog : Catalog) (inherited' : bool) :
  mergeCatalog JSON_parse inherited newStrings existing = (Ok catalog, inherited') →
  mergeLoop newStrings inherited (strings (loadExisting JSON_parse existing))
  = (Ok (strings catalog), inherited')
  ∧ sourceLanguage catalog = sourceLanguage (loadExisting JSON_parse existing)
  ∧ version catalog = version (loadExisting JSON_parse existing).
Proof.
  unfold mergeCatalog.
  destruct (mergeLoop _ _ _) as [[strs'|] inh'] eqn:Hrun; [|done].
  intros [= <- <-]. done.
Qed.

Lemma mergeCatalog_intro (inherited : bool) (newStrings : list (string * string))
    (existing : option string) (strs' : gmap string JSON) (inherited' : bool) :
  mergeLoop newStrings inherited (strings (loadExisting JSON_parse existing))
  = (Ok strs', inherited') →
  mergeCatalog JSON_parse inherited newStrings existing
  = (Ok {| sourceLanguage := sourceLanguage (loadExisting JSON_parse existing);
           strings := strs';
           version := version (loadExisting JSON_parse existing) |}, inherited').
Proof. intros H. unfold mergeCatalog. by rewrite H. Qed.




(** C3. For a catalog text that parses to an object whose [strings] is an
    object: merging the empty map returns the serialized catalog with
    exactly the existing entries; whenever a merge returns a catalog, every
    key of the existing catalog is a key of the result and every key absent
    from the new map has the entry it had; and the merge does return a
    catalog when the entries under the keys of the new map have the expected
    structure. This holds whether or not Object.prototype has a member
    [localizations]. *)
Theorem mergeStringCatalog_never_deletes
    (inherited : bool) (newStrings : list (string * string)) (text : string)
    (top entries : gmap string JSON) :
  text ≠ EmptyString →
  JSON_parse text = Some (JObject top) →
  top !! "strings" = Some (JObject entries) →
  (∃ catalog,
     mergeStringCatalog JSON_parse JSON_stringify inherited [] (Some text)
     = (Ok (JSON_stringify (catalogObject catalog)), inherited)
     ∧ strings catalog = entries)
  ∧ (∀ catalog inherited',
       mergeCatalog JSON_parse inherited newStrings (Some text)
       = (Ok catalog, inherited') →
       mergeStringCatalog JSON_parse JSON_stringify inherited newStrings (Some text)
       = (Ok (JSON_stringify (catalogObject catalog)), inherited')
       ∧ (∀ k, is_Some (entries !! k) → is_Some (strings catalog !! k))
       ∧ (∀ k, k ∉ newStrings.*1 → strings catalog !! k = entries !! k))
  ∧ ((∀ k entry, k ∈ newStrings.*1 → entries !! k = Some entry →
        entryHasExpectedStructure entry = true) →
     ∃ catalog inherited',
       mergeCatalog JSON_parse inherited newStrings (Some text)
       = (Ok catalog, inherited')).
Proof.
  intros Hne Hparse Hstrings.
  pose proof (loadExisting_strings text top entries Hne Hparse Hstrings) as Hload.
  split; [|split].
  - eexists. split.
    + apply mergeStringCatalog_of_catalog. by apply mergeCatalog_intro.
    + done.
  - intros catalog inherited' Hcat.
    split; [by apply mergeStringCatalog_of_catalog|].
    apply mergeCatalog_inv in Hcat as (Hrun & _ & _). rewrite Hload in Hrun.
    by apply mergeLoop_frame in Hrun.
  - intros Hwf.
    destruct (mergeLoop_expected newStrings inherited entries Hwf)
      as (strs' & inherited' & Hrun).
    rewrite <- Hload in Hrun. eexists _, inherited'. by apply mergeCatalog_intro.
Qed.



(** The loop on the empty catalog. *)
Lemma mergeLoop_fresh (inherited : bool) (newStrings : list (string * string)) :
  NoDup newStrings.*1 →
  ∃ entries inherited',
    mergeLoop newStrings inherited ∅ = (Ok entries, inherited')
    ∧ (∀ k, k ∉ newStrings.*1 → entries !! k = None)
    ∧ (∀ before k v after, newStrings = before ++ (k, v) :: after →
         entries !! k
         = if bool_decide (k ∈ objectPrototypeNames)
              || ((inherited || bool_decide ("__proto__" ∈ before.*1))
                  && bool_decide (k = "localizations"))
           then None
           else Some (freshEntry v))
    ∧ (inherited = false →
       (∀ k, k ∈ newStrings.*1 → k ∉ objectPrototypeNames) →
       inherited' = false
       ∧ entries = freshEntry <$> (list_to_map newStrings : gmap string string)).
Proof.
  intros Hnd.
  assert (∀ inh keys, inheritedAfter inh ∅ keys
                      = inh || bool_decide ("__proto__" ∈ keys)) as Hafter.
  { intros inh keys. unfold inheritedAfter. rewrite lookup_empty.
    rewrite (bool_decide_eq_true_2 (None = None)) by done.
    by rewrite andb_true_r. }
  destruct (mergeLoop_total newStrings inherited ∅ Hnd) as [strs' Hrun].
  { intros before k v after _. rewrite lookup_empty. unfold mergedEntry.
    destruct (inheritedKey _ k); by eexists. }
  destruct (mergeLoop_spec _ _ _ _ _ Hnd Hrun) as (_ & Hframe & Hall).
  assert (∀ before k v after, newStrings = before ++ (k, v) :: after →
            strs' !! k
            = if bool_decide (k ∈ objectPrototypeNames)
                 || ((inherited || bool_decide ("__proto__" ∈ before.*1))
                     && bool_decide (k = "localizations"))
              then None
              else Some (freshEntry v)) as Hexact.
  { intros before k v after Heq. specialize (Hall before k v after Heq).
    rewrite lookup_empty, Hafter in Hall. unfold mergedEntry, inheritedKey in Hall.
    destruct (bool_decide (k ∈ objectPrototypeNames)
              || ((inherited || bool_decide ("__proto__" ∈ before.*1))
                  && bool_decide (k = "localizations")));
      by injection Hall as <-. }
  exists strs', (inheritedAfter inherited ∅ newStrings.*1).
  split; [done|]. split; [|split].
  - intros k Hk. by rewrite (Hframe k Hk), lookup_empty.
  - exact Hexact.
  - intros -> Hnames. split.
    + rewrite Hafter. cbn. apply bool_decide_eq_false_2. intros Hin.
      by apply (Hnames _ Hin), proto_inherited.
    + apply map_eq. intros k. rewrite lookup_fmap.
      destruct (decide (k ∈ newStrings.*1)) as [Hk|Hk].
      * assert (k ∉ objectPrototypeNames) as Hname by by apply Hnames.
        apply list_elem_of_fmap in Hk as ([k' v] & -> & Hkv). cbn [fst] in *.
        rewrite (elem_of_list_to_map_1 _ _ _ Hnd Hkv).
        apply list_elem_of_split in Hkv as (before & after & Heq).
        rewrite (Hexact before k' v after Heq).
        rewrite (bool_decide_eq_false_2 _ Hname). cbn [orb].
        rewrite (bool_decide_eq_false_2 ("__proto__" ∈ before.*1)); [done|].
        intros Hin. apply (Hnames "__proto__"); [|apply proto_inherited].
        rewrite Heq, fmap_app. apply elem_of_app. by left.
      * rewrite (Hframe k Hk), lookup_empty.
        by rewrite (not_elem_of_list_to_map_1 _ _ Hk).
Qed.


End CatalogMerge.

(** A catalog with one key translated into Spanish, the parser that reads
    it from its file text, and a serializer. *)
Definition sampleEntries : gmap string JSON :=
  {[ "k" := JObject
       (<["extractionState" := JString "manual"]>
        {[ "localizations" :=
             JObject (<["en" := englishUnit "Old"]> {[ "es" := englishUnit "Vieja" ]}) ]}) ]}.

Definition sampleTop : gmap string JSON :=
  <["sourceLanguage" := JString "en"]>
  (<["strings" := JObject sampleEntries]> {[ "version" := JString "1.0" ]}).

Definition sampleParse (text : string) : option JSON :=
  if decide (text = "existing.xcstrings") then Some (JObject sampleTop)
  else if decide (text = "{}") then Some (JObject ∅)
  else None.

Definition sampleStringify (v : JSON) : string :=
  match v with
  | JObject _ => "{...}"
  | _ => "?"
  end.

Ltac distinctKeys :=
  cbn;
  repeat (apply NoDup_cons;
          split; [rewrite ?not_elem_of_cons; repeat split; try discriminate;
                  apply not_elem_of_nil|]);
  apply NoDup_nil_2.
Ltac notAmong :=
  unfold objectPrototypeNames; cbn;
  rewrite ?not_elem_of_cons; repeat split; try discriminate; apply not_elem_of_nil.




Lemma mergeStringCatalog_never_deletes_witness :
  (∃ catalog,
     mergeStringCatalog sampleParse sampleStringify false [] (Some "existing.xcstrings")
     = (Ok (sampleStringify (catalogObject catalog)), false)
     ∧ strings catalog = sampleEntries)
  ∧ (∀ catalog inherited',
       mergeCatalog sampleParse false [("new.key", "New Key")]
         (Some "existing.xcstrings") = (Ok catalog, inherited') →
       mergeStringCatalog sampleParse sampleStringify false [("new.key", "New Key")]
         (Some "existing.xcstrings")
       = (Ok (sampleStringify (catalogObject catalog)), inherited')
       ∧ (∀ k, is_Some (sampleEntries !! k) → is_Some (strings catalog !! k))
       ∧ (∀ k, k ∉ [("new.key", "New Key")].*1 →
            strings catalog !! k = sampleEntries !! k))
  ∧ ((∀ k entry, k ∈ [("new.key", "New Key")].*1 →
        sampleEntries !! k = Some entry →
        entryHasExpectedStructure entry = true) →
     ∃ catalog inherited',
       mergeCatalog sampleParse false [("new.key", "New Key")]
         (Some "existing.xcstrings") = (Ok catalog, inherited')).
Proof.
  apply (mergeStringCatalog_never_deletes sampleParse sampleStringify false
           [("new.key", "New Key")] "existing.xcstrings" sampleTop sampleEntries).
  - discriminate.
  - reflexivity.
  - reflexivity.
Defined.



(** ** The keys that the generator merges *)

Section GeneratedKeys.

Lemma includes_unfold (needle hay : string) :
  includes needle hay
  = startsWith needle hay
    || match hay with
       | EmptyString => false
       | String _ rest => includes needle rest
       end.
Proof. by destruct hay. Qed.

Lemma includes_app (needle before after : string) :
  includes needle (before +:+ needle +:+ after) = true.
Proof.
  induction before as [|c before IH].
  - by rewrite app_empty_l, includes_unfold, startsWith_app.
  - rewrite app_cons, includes_unfold, IH. apply orb_true_r.
Qed.

(** Every key of the map is a dotted name. *)
Definition dottedKeys (strings : gmap string string) : Prop :=
  ∀ k, is_Some (strings !! k) → includes "." k = true.

Lemma dottedKeys_insert (key value : string) (strings : gmap string string) :
  includes "." key = true → dottedKeys strings → dottedKeys (<[key := value]> strings).
Proof.
  intros Hkey Hall k Hk. destruct (decide (key = k)) as [<-|Hne]; [done|].
  rewrite lookup_insert_ne in Hk by done. by apply Hall.
Qed.

Lemma dotted_key (id middle last : string) :
  includes "." (id +:+ "." +:+ middle +:+ last) = true.
Proof. apply includes_app. Qed.

Variable toLowerCase : string → string.

Lemma dottedKeys_parameters (id : string) (entries : list (nat * ShortcutParameter))
    (strings : gmap string string) :
  dottedKeys strings → dottedKeys (foldl (parameterStrings toLowerCase id) strings entries).
Proof.
  revert strings. induction entries as [|[index param] entries IH]; intros strings H;
    [done|].
  cbn [foldl]. apply IH. unfold parameterStrings.
  apply dottedKeys_insert; [apply (dotted_key id "parameters")|].
  destruct (truthyString (param_description param));
    repeat (apply dottedKeys_insert; [apply (dotted_key id "parameters")|]); done.
Qed.

Lemma dottedKeys_dialogs (id : string) (entries : list (nat * StateDialog))
    (strings : gmap string string) :
  dottedKeys strings → dottedKeys (foldl (dialogStrings id) strings entries).
Proof.
  revert strings. induction entries as [|[index dialog] entries IH]; intros strings H;
    [done|].
  cbn [foldl]. apply IH. unfold dialogStrings.
  by apply dottedKeys_insert; [apply (dotted_key id "stateDialogs")|].
Qed.

(** The keys that the generator derives from a configuration are dotted
    names, so none of them is a name that a plain object inherits: on them,
    reading a property of the catalog is reading one of its own keys. *)
Lemma extractLocalizableStrings_keys (config : ShortcutsConfig) (k : string) :
  is_Some (extractLocalizableStrings toLowerCase config !! k) →
  includes "." k = true ∧ k ∉ objectPrototypeNames.
Proof.
  assert (dottedKeys (extractLocalizableStrings toLowerCase config)) as Hall.
  { unfold extractLocalizableStrings. do 2 (apply dottedKeys_insert; [done|]).
    generalize (shortcuts config). intros l.
    assert (dottedKeys (∅ : gmap string string)) as Hempty.
    { intros k' [v Hv]. by rewrite lookup_empty in Hv. }
    revert Hempty. generalize (∅ : gmap string string).
    induction l as [|shortcut l IH]; intros strings Hstrings; [done|].
    cbn [foldl]. apply IH. unfold shortcutStrings.
    apply dottedKeys_dialogs, dottedKeys_parameters.
    destruct (truthyString (description shortcut));
      repeat (apply dottedKeys_insert;
              [apply (includes_app "." (identifier shortcut))|]); done. }
  intros Hk. split; [by apply Hall|].
  intros Hin. apply Hall in Hk.
  unfold objectPrototypeNames in Hin. rewrite !elem_of_cons, elem_of_nil in Hin.
  by repeat destruct Hin as [->|Hin].
Qed.

End GeneratedKeys.

(** ** The stale-clear guard of the bridge *)

Section Clearing.

(** The keys of a command: the four fixed keys, and the parameter and
    type-marker keys among the keys that were listed when the command was
    read. *)
Definition isCommandKey (allKeys : list string) (key : string) : bool :=
  bool_decide (key ∈ [keyPendingCommand; keyCommandNonce;
                      keyCommandTimestamp; keyUserConfirmed])
  || (bool_decide (key ∈ allKeys)
      && (hasPrefix prefixParam key || hasPrefix prefixParamType key)).

Lemma foldl_delete_lookup (allKeys : list string)
    (defaults : gmap string PlistValue) (k : string) :
  foldl (λ d key,
           if hasPrefix prefixParam key || hasPrefix prefixParamType key
           then delete key d else d) defaults allKeys !! k
  = if bool_decide (k ∈ allKeys)
       && (hasPrefix prefixParam k || hasPrefix prefixParamType k)
    then None else defaults !! k.
Proof.
  revert defaults. induction allKeys as [|key keys IH]; intros defaults; [done|].
  cbn [foldl]. rewrite IH. destruct (decide (k = key)) as [->|Hne].
  - rewrite (bool_decide_eq_true_2 (key ∈ key :: keys)) by by left.
    destruct (hasPrefix prefixParam key || hasPrefix prefixParamType key) eqn:Hp.
    + rewrite lookup_delete_eq. simpl. by rewrite andb_true_r, Tauto.if_same.
    + by rewrite !andb_false_r.
  - assert (bool_decide (k ∈ key :: keys) = bool_decide (k ∈ keys)) as ->.
    { apply bool_decide_ext. rewrite elem_of_cons. split; [|by right].
      by intros [?|?]. }
    destruct (bool_decide (k ∈ keys)
              && (hasPrefix prefixParam k || hasPrefix prefixParamType k)); [done|].
    destruct (hasPrefix prefixParam key || hasPrefix prefixParamType key); [|done].
    by rewrite lookup_delete_ne.
Qed.

Lemma removeCommandKeys_lookup (allKeys : list string)
    (defaults : gmap string PlistValue) (k : string) :
  removeCommandKeys allKeys defaults !! k
  = if isCommandKey allKeys k then None else defaults !! k.
Proof.
  unfold removeCommandKeys, isCommandKey. rewrite foldl_delete_lookup.
  destruct (bool_decide (k ∈ allKeys)
            && (hasPrefix prefixParam k || hasPrefix prefixParamType k));
    [by rewrite orb_true_r|].
  rewrite orb_false_r.
  destruct (bool_decide_reflect
              (k ∈ [keyPendingCommand; keyCommandNonce;
                    keyCommandTimestamp; keyUserConfirmed])) as [Hin|Hnot].
  - rewrite !lookup_delete.
    rewrite !elem_of_cons, elem_of_nil in Hin.
    destruct Hin as [->|[->|[->|[->|[]]]]]; by repeat case_decide.
  - rewrite !lookup_delete.
    repeat case_decide; try done; subst; destruct Hnot; set_solver.
Qed.

Variable numberAsString : PlistValue → option string.
Variable stringAsDouble : string → float.

(** C1. One handling of a pending command by the application side. The
    command is read from [defaults] under the nonce [commandNonce]; the
    intent side may write to the store ([interim]) before the nonce is read
    again. If the nonce then stored is not [commandNonce], the store is left
    exactly as it is: no key is removed. If it is [commandNonce], the
    pending command, nonce, timestamp and confirmation keys and the listed
    parameter and type-marker keys are removed, and no other key changes. So
    a key is removed only when the nonces are equal. *)
Theorem clear_only_under_matching_nonce
    (interim : gmap string PlistValue → gmap string PlistValue)
    (defaults : gmap string PlistValue) (pendingCommand commandNonce : string) :
  stringForKey numberAsString defaults keyPendingCommand = Some pendingCommand →
  stringForKey numberAsString defaults keyCommandNonce = Some commandNonce →
  ∃ after data,
    handleDarwinNotification numberAsString stringAsDouble interim (Some defaults)
    = (Some after, Some data)
    ∧ nsd_identifier data = pendingCommand
    ∧ nsd_nonce data = commandNonce
    ∧ (stringForKey numberAsString (interim defaults) keyCommandNonce
         ≠ Some commandNonce →
       after = interim defaults)
    ∧ (stringForKey numberAsString (interim defaults) keyCommandNonce
         = Some commandNonce →
       ∀ k, after !! k
            = if isCommandKey (elements (dom defaults)) k then None
              else interim defaults !! k)
    ∧ (∀ k, after !! k ≠ interim defaults !! k →
         stringForKey numberAsString (interim defaults) keyCommandNonce
         = Some commandNonce).
Proof.
  intros Hcmd Hnonce. unfold handleDarwinNotification. rewrite Hcmd, Hnonce.
  eexists _, _. split; [reflexivity|]. cbn [nsd_identifier nsd_nonce].
  split; [done|]. split; [done|]. unfold clearIfCurrent.
  destruct (decide (stringForKey numberAsString (interim defaults) keyCommandNonce
                    = Some commandNonce)) as [Heq|Hne].
  - split; [done|]. split; [|done]. intros _ k. apply removeCommandKeys_lookup.
  - split; [done|]. split; [done|]. intros k Hk. by destruct Hk.
Qed.

End Clearing.

(** A store with the pending command [startTimer] under nonce N1 and one
    parameter; before the nonce is read again the intent side publishes
    [stopTimer] under nonce N2. *)
Definition sampleDefaults : gmap string PlistValue :=
  <[keyPendingCommand := PString "startTimer"]>
  (<[keyCommandNonce := PString "N1"]>
  (<[keyCommandTimestamp := PDouble 1%float]>
  {[ "IosIntentsParam_taskName" := PString "Work" ]})).

Definition sampleSecondCommand (d : gmap string PlistValue) : gmap string PlistValue :=
  <[keyPendingCommand := PString "stopTimer"]> (<[keyCommandNonce := PString "N2"]> d).

Definition noNumberAsString (v : PlistValue) : option string := None.
Definition zeroStringAsDouble (s : string) : float := 0%float.

Lemma clear_only_under_matching_nonce_witness :
  ∃ after data,
    handleDarwinNotification noNumberAsString zeroStringAsDouble
      sampleSecondCommand (Some sampleDefaults)
    = (Some after, Some data)
    ∧ nsd_identifier data = "startTimer"
    ∧ nsd_nonce data = "N1"
    ∧ (stringForKey noNumberAsString (sampleSecondCommand sampleDefaults)
         keyCommandNonce ≠ Some "N1" →
       after = sampleSecondCommand sampleDefaults)
    ∧ (stringForKey noNumberAsString (sampleSecondCommand sampleDefaults)
         keyCommandNonce = Some "N1" →
       ∀ k, after !! k
            = if isCommandKey (elements (dom sampleDefaults)) k then None
              else sampleSecondCommand sampleDefaults !! k)
    ∧ (∀ k, after !! k ≠ sampleSecondCommand sampleDefaults !! k →
         stringForKey noNumberAsString (sampleSecondCommand sampleDefaults)
           keyCommandNonce = Some "N1").
Proof.
  apply (clear_only_under_matching_nonce noNumberAsString zeroStringAsDouble
           sampleSecondCommand sampleDefaults "startTimer" "N1");
    reflexivity.
Defined.

(** ** App state: the two sides of the boolean encoding *)

Section AppState.

(** What one value leaves under its state key. *)
Definition storedValue (value : AppStateValue) (old : option PlistValue)
    : option PlistValue :=
  match value with
  | AVBoolean b => Some (PDouble (if b then 1%float else 0%float))
  | AVNumber n => Some (PDouble n)
  | AVString s => Some (PString s)
  | AVNull | AVUndefined => None
  | AVObject (Some text) => Some (PString text)
  | AVObject None => old
  end.

Lemma writeStateValue_accessible (defaults : gmap string PlistValue)
    (stateKey : string) (value : AppStateValue) :
  ∃ defaults',
    writeStateValue (Some defaults) stateKey value = Ok (Some defaults')
    ∧ defaults' !! stateKey = storedValue value (defaults !! stateKey)
    ∧ ∀ other, other ≠ stateKey → defaults' !! other = defaults !! other.
Proof.
  destruct value as [b|n|s| | |[text|]]; simpl; eexists; (split; [reflexivity|]);
    split; intros;
    rewrite ?lookup_insert_eq, ?lookup_delete_eq, ?lookup_insert_ne,
            ?lookup_delete_ne by done; done.
Qed.

Lemma stateKey_inj (k k' : string) : "appState_" +:+ k = "appState_" +:+ k' → k = k'.
Proof. apply (inj (String.app "appState_")). Qed.

Lemma updateLoop_accessible (entries : list (string * AppStateValue))
    (tracked : gset string) (defaults : gmap string PlistValue) :
  NoDup entries.*1 →
  ∃ defaults',
    (updateLoop entries tracked (Some defaults)).2 = Some defaults'
    ∧ (∀ k, k ∉ entries.*1 →
         defaults' !! ("appState_" +:+ k) = defaults !! ("appState_" +:+ k))
    ∧ (∀ k v, (k, v) ∈ entries →
         defaults' !! ("appState_" +:+ k)
         = storedValue v (defaults !! ("appState_" +:+ k))).
Proof.
  revert tracked defaults.
  induction entries as [|[key value] entries IH]; intros tracked defaults Hnd.
  - exists defaults. split; [done|]. split; [done|].
    intros k v Hin. by apply elem_of_nil in Hin.
  - simpl in Hnd. apply NoDup_cons in Hnd as [Hkey Hnd]. cbn [updateLoop].
    destruct (writeStateValue_accessible defaults ("appState_" +:+ key) value)
      as (d1 & Hwrite & Hsame & Hother).
    rewrite Hwrite.
    destruct (IH ({[key]} ∪ tracked) d1 Hnd) as (d2 & Heq & Hnot & Hin).
    exists d2. split; [done|]. split.
    + intros k Hk. apply not_elem_of_cons in Hk as [Hne Hk].
      rewrite (Hnot k Hk). apply Hother. intros Heq'. by apply stateKey_inj in Heq'.
    + intros k v [Hkv|Hkv]%elem_of_cons.
      * injection Hkv as -> ->. by rewrite (Hnot key Hkey).
      * rewrite (Hin k v Hkv). f_equal. apply Hother. intros Heq'.
        apply stateKey_inj in Heq' as ->. apply Hkey.
        apply list_elem_of_fmap. by exists (key, v).
Qed.

Variable numberToString : float → string.
Variable stringAsDouble : string → float.

(** C7. With the native module present and the App Group accessible, and
    whatever the order in which the entries of the state are enumerated,
    updateAppState leaves every boolean of the state under appState_key as
    the number 1 (true) or 0 (false), so that the double read back under that
    key equals the 1 or 0 of a boolean showWhen exactly when the two booleans
    agree. The synthesized condition of a boolean showWhen reads the key as a
    double and compares it with 1 or 0; of a number, a double read with the
    number; of a string, a string read with the quoted string; and any other
    value gives the existence check. *)
Theorem boolean_state_encoding
    (m : ManagerState) (defaults : gmap string PlistValue)
    (state : gmap string AppStateValue)
    (entries : list (string * AppStateValue)) :
  entries ≡ₚ map_to_list state →
  (∃ defaults',
     (updateAppState m (Some {| sharedDefaults := Some defaults |}) entries).2
     = Some {| sharedDefaults := Some defaults' |}
     ∧ ∀ key b, state !! key = Some (AVBoolean b) →
         defaults' !! ("appState_" +:+ key)
         = Some (PDouble (if b then 1%float else 0%float))
         ∧ ∀ b' : bool, PrimFloat.eqb
                   (doubleForKey stringAsDouble defaults' ("appState_" +:+ key))
                   (if b' then 1%float else 0%float)
                 = Bool.eqb b b')
  ∧ (∀ stateKey b,
       generateSwiftCondition numberToString stateKey (SWBoolean b)
       = "defaults.double(forKey: " +:+ dq +:+ stateKey +:+ dq +:+ ") == "
         +:+ (if b then "1" else "0"))
  ∧ (∀ stateKey n,
       generateSwiftCondition numberToString stateKey (SWNumber n)
       = "defaults.double(forKey: " +:+ dq +:+ stateKey +:+ dq +:+ ") == "
         +:+ numberToString n)
  ∧ (∀ stateKey s,
       generateSwiftCondition numberToString stateKey (SWString s)
       = "defaults.string(forKey: " +:+ dq +:+ stateKey +:+ dq +:+ ") == "
         +:+ dq +:+ s +:+ dq)
  ∧ (∀ stateKey text,
       generateSwiftCondition numberToString stateKey (SWOther text)
       = "defaults.string(forKey: " +:+ dq +:+ stateKey +:+ dq +:+ ") != nil").
Proof.
  intros Hentries. split; [|by repeat split].
  unfold updateAppState. cbn [sharedDefaults].
  destruct (updateLoop_accessible entries (trackedStateKeys m) defaults)
    as (defaults' & Heq & _ & Hin).
  { rewrite Hentries. apply NoDup_fst_map_to_list. }
  destruct (updateLoop entries (trackedStateKeys m) (Some defaults))
    as [tracked d] eqn:Hloop.
  simpl in Heq. subst d. exists defaults'. split; [done|].
  intros key b Hkey. apply elem_of_map_to_list in Hkey. rewrite <- Hentries in Hkey.
  pose proof (Hin key (AVBoolean b) Hkey) as Hstored. simpl in Hstored.
  split; [done|]. intros b'. unfold doubleForKey. rewrite Hstored.
  by destruct b, b'.
Qed.

End AppState.

(** The state of the README: a running timer and a task name. *)
Example updateAppState_timerRunning :
  (updateAppState
     {| listeners := ∅; nativeCallbackRegistered := false; trackedStateKeys := ∅ |}
     (Some {| sharedDefaults := Some ∅ |})
     [("timerRunning", AVBoolean true); ("taskName", AVString "Work")]).2
  = Some {| sharedDefaults :=
              Some (<["appState_timerRunning" := PDouble 1%float]>
                    {[ "appState_taskName" := PString "Work" ]}) |}.
Proof. vm_compute. reflexivity. Qed.

(** ** Delivery to listeners *)

Section Delivery.

Lemma readParameters_none (numberAsString : PlistValue → option string)
    (stringAsDouble : string → float)
    (defaults : gmap string PlistValue) (allKeys : list string) :
  Forall (λ key, hasPrefix prefixParam key = false) allKeys →
  readParameters numberAsString stringAsDouble defaults allKeys = ∅.
Proof.
  intros Hall. unfold readParameters. generalize (∅ : gmap string ParamValue).
  induction Hall as [|key keys Hkey _ IH]; intros acc; [done|].
  cbn [foldl]. by rewrite Hkey.
Qed.

Lemma handleShortcutInvocation_deliveries (m : ManagerState)
    (module : option NativeModule) (shortcut : ShortcutInvocation) :
  (handleShortcutInvocation m module shortcut).2
  = imap (λ i _, {| delivered_to := i; delivered := shortcut |})
         (default [] (listeners m !! EVENT_SHORTCUT)).
Proof.
  unfold handleShortcutInvocation.
  by destruct (listeners m !! EVENT_SHORTCUT) as [[|l ls]|].
Qed.

Variable numberAsString : PlistValue → option string.
Variable stringAsDouble : string → float.

(** C10. Every listener registered for the shortcut event is called once
    with the invocation built from the native data, and the parameters field
    of that invocation is always present: it is the native parameters, or
    the empty object when the native data has none. The bridge hands over no
    parameters whenever the store holds no parameter key. The type generated
    for a shortcut without parameters nevertheless declares the field as
    [parameters?: never]. *)
Theorem delivered_parameters_always_object
    (m : ManagerState) (module : option NativeModule)
    (nativeData : NativeShortcutData) :
  let deliveries := (nativeCallback m module nativeData).2 in
  length deliveries = length (default [] (listeners m !! EVENT_SHORTCUT))
  ∧ (∀ d, d ∈ deliveries →
       inv_parameters (delivered d)
       = Some (default ∅ (nsd_parameters nativeData)))
  ∧ (nsd_parameters nativeData = None →
     ∀ d, d ∈ deliveries → inv_parameters (delivered d) = Some ∅)
  ∧ (∀ interim defaults after data,
       handleDarwinNotification numberAsString stringAsDouble interim (Some defaults)
       = (Some after, Some data) →
       (∀ key, key ∈ dom defaults → hasPrefix prefixParam key = false) →
       nsd_parameters data = None)
  ∧ (∀ shortcut, hasParameters (parameters shortcut) = false →
       shortcutType shortcut
       = ("  | {" +:+ nl
          +:+ "      identifier: '" +:+ identifier shortcut +:+ "';" +:+ nl
          +:+ "      nonce: string;" +:+ nl +:+ "      ")
         +:+ "parameters?: never;"
         +:+ (nl +:+ "      userConfirmed?: boolean;" +:+ nl +:+ "    }")).
Proof.
  intros deliveries. subst deliveries. unfold nativeCallback.
  rewrite handleShortcutInvocation_deliveries.
  split; [by rewrite length_imap|]. split; [|split; [|split]].
  - intros d (i & l & -> & _)%elem_of_lookup_imap. reflexivity.
  - intros Hnone d (i & l & -> & _)%elem_of_lookup_imap. simpl. by rewrite Hnone.
  - intros interim defaults after data Hrun Hkeys.
    unfold handleDarwinNotification in Hrun.
    destruct (stringForKey numberAsString defaults keyPendingCommand); [|done].
    destruct (stringForKey numberAsString defaults keyCommandNonce); [|done].
    injection Hrun as _ <-. cbn [nsd_parameters].
    rewrite readParameters_none; [done|].
    apply Forall_forall. intros key Hkey. apply Hkeys. by apply elem_of_elements.
  - intros shortcut Hno. unfold shortcutType. rewrite Hno.
    unfold variantWithoutParameters. by rewrite !app_assoc_str.
Qed.

End Delivery.

(** Two listeners and a command without parameters. *)
Example delivered_parameters_startTimer :
  (nativeCallback
     {| listeners :=
          {[ EVENT_SHORTCUT :=
               [ (λ _, {| responses := [ {| resp_message := Some "Started" |} ]; throws := false |});
                 (λ _, {| responses := []; throws := true |}) ] ]};
        nativeCallbackRegistered := true;
        trackedStateKeys := ∅ |}
     (Some {| sharedDefaults := Some ∅ |})
     {| nsd_identifier := "startTimer"; nsd_nonce := "N1";
        nsd_parameters := None; nsd_userConfirmed := None |})
  = (Some {| sharedDefaults := Some {[ "IosIntentsResponse_N1" := PString "Started" ]} |},
     [ {| delivered_to := 0;
          delivered := {| inv_identifier := "startTimer"; inv_nonce := "N1";
                          inv_parameters := Some ∅; inv_userConfirmed := None |} |};
       {| delivered_to := 1;
          delivered := {| inv_identifier := "startTimer"; inv_nonce := "N1";
                          inv_parameters := Some ∅; inv_userConfirmed := None |} |} ]).
Proof. vm_compute. reflexivity. Qed.

(** ** Texts that a needle cannot straddle *)

Lemma includes_cons (needle : string) (c : ascii) (hay : string) :
  includes needle hay = true → includes needle (String c hay) = true.
Proof. intros H. rewrite includes_unfold, H. apply orb_true_r. Qed.

Lemma includes_r (needle a b : string) :
  includes needle b = true → includes needle (a +:+ b) = true.
Proof.
  intros H. induction a as [|c a IH]; [done|]. rewrite app_cons.
  by apply includes_cons.
Qed.

Lemma startsWith_app_l (p s t : string) :
  startsWith p s = true → startsWith p (s +:+ t) = true.
Proof.
  revert s. induction p as [|c p IH]; intros s Hs; [by destruct (s +:+ t)|].
  destruct s as [|d s]; [done|]. apply startsWith_cons in Hs as [<- Hs].
  rewrite app_cons. apply startsWith_cons. split; [done|]. by apply IH.
Qed.

Lemma includes_l (needle a b : string) :
  includes needle a = true → includes needle (a +:+ b) = true.
Proof.
  induction a as [|c a IH]; intros H.
  - rewrite includes_unfold in H. apply orb_true_iff in H as [H|H]; [|done].
    apply startsWith_empty in H as ->. by destruct b.
  - rewrite includes_unfold in H. apply orb_true_iff in H as [H|H].
    + rewrite includes_unfold. apply orb_true_iff. left. by apply startsWith_app_l.
    + rewrite app_cons. apply includes_cons. by apply IH.
Qed.

Section Separators.
Variable needle : string.

(** [avoids c]: the character [c] does not occur in the needle. *)
Fixpoint avoidsIn (c : ascii) (s : string) : bool :=
  match s with
  | EmptyString => true
  | String n ns => negb (Ascii.eqb n c) && avoidsIn c ns
  end.

Definition startsApart (s : string) : bool :=
  match s with
  | EmptyString => false
  | String c _ => avoidsIn c needle
  end.

Fixpoint endsApart (s : string) : bool :=
  match s with
  | EmptyString => false
  | String c EmptyString => avoidsIn c needle
  | String _ rest => endsApart rest
  end.

Fixpoint apart (s : string) : bool :=
  match s with
  | EmptyString => true
  | String c rest => avoidsIn c needle && apart rest
  end.

Lemma startsWith_apart (p x : string) (c : ascii) (rest : string) :
  avoidsIn c p = true →
  startsWith p (x +:+ String c rest) = startsWith p x.
Proof.
  unfold startsWith. revert x. induction p as [|n p IH]; intros x Hc.
  - by destruct x.
  - cbn [avoidsIn] in Hc. apply andb_true_iff in Hc as [Hn Hp].
    destruct x as [|d x].
    + rewrite app_empty_l. cbn [String.prefix].
      destruct (ascii_dec n c) as [->|]; [|done].
      by rewrite Ascii.eqb_refl in Hn.
    + rewrite app_cons. cbn [String.prefix].
      destruct (ascii_dec n d); [|done]. by apply IH.
Qed.

Lemma includes_apart_cons (c : ascii) (rest : string) :
  avoidsIn c needle = true →
  includes needle (String c rest) = includes needle rest.
Proof.
  intros Hc. rewrite includes_unfold.
  pose proof (startsWith_apart needle EmptyString c rest Hc) as H.
  rewrite app_empty_l in H. rewrite H.
  destruct needle as [|n p] eqn:Hneedle; [|done].
  by destruct rest.
Qed.

Lemma includes_at_separator (a : string) (c : ascii) (rest : string) :
  avoidsIn c needle = true →
  includes needle (a +:+ String c rest) = includes needle a || includes needle rest.
Proof.
  intros Hc. induction a as [|d a IH].
  - rewrite app_empty_l, includes_apart_cons by done.
    destruct needle; [by destruct rest|done].
  - rewrite app_cons, (includes_unfold _ (String d a)),
      (includes_unfold _ (String d (a +:+ _))), IH.
    rewrite <- app_cons, startsWith_apart by done.
    by rewrite orb_assoc.
Qed.

Lemma endsApart_inv (s : string) :
  endsApart s = true → ∃ s' c, s = s' +:+ String c EmptyString ∧ avoidsIn c needle = true.
Proof.
  induction s as [|d s IH]; [done|]. destruct s as [|e s].
  - intros H. by exists EmptyString, d.
  - intros H. destruct (IH H) as (s' & c & -> & Hc).
    exists (String d s'), c. by rewrite app_cons.
Qed.

(** A needle does not straddle a boundary that has a character outside the
    needle on one side. *)
Lemma includes_boundary (a b : string) :
  endsApart a = true ∨ startsApart b = true →
  includes needle (a +:+ b) = includes needle a || includes needle b.
Proof.
  intros [Ha|Hb].
  - apply endsApart_inv in Ha as (a' & c & -> & Hc).
    rewrite app_assoc_str, app_cons, app_empty_l.
    rewrite !includes_at_separator by done.
    rewrite <- orb_assoc. f_equal.
    destruct needle; [by destruct b|done].
  - destruct b as [|c b]; [done|]. cbn [startsApart] in Hb.
    rewrite includes_at_separator by done.
    by rewrite (includes_apart_cons c b).
Qed.

Lemma startsApart_app (a b : string) :
  startsApart a = true → startsApart (a +:+ b) = true.
Proof. destruct a; [done|]. by rewrite app_cons. Qed.

Lemma endsApart_app (a b : string) :
  endsApart b = true → endsApart (a +:+ b) = true.
Proof.
  intros Hb. induction a as [|c a IH]; [done|]. rewrite app_cons.
  cbn [endsApart]. destruct (a +:+ b) eqn:Hab; [|done].
  by destruct a, b.
Qed.

Lemma includes_apart (s : string) :
  needle ≠ EmptyString → apart s = true → includes needle s = false.
Proof.
  intros Hne. induction s as [|c s IH]; intros Hs.
  - by destruct needle.
  - cbn [apart] in Hs. apply andb_true_iff in Hs as [Hc Hs].
    rewrite includes_apart_cons by done. by apply IH.
Qed.

Lemma apart_pretty_N_go (x : N) (s : string) :
  (∀ d, avoidsIn (pretty_N_char d) needle = true) →
  apart s = true → apart (pretty_N_go x s) = true.
Proof.
  intros Hdigits. revert s.
  induction (N.lt_wf_0 x) as [x _ IH]; intros s Hs.
  destruct (decide (x = 0%N)) as [->|Hx]; [by rewrite pretty_N_go_0|].
  rewrite pretty_N_go_step by lia. apply IH.
  - apply N.div_lt; lia.
  - cbn [apart]. by rewrite Hdigits, Hs.
Qed.

Lemma apart_pretty_nat (n : nat) :
  (∀ d, avoidsIn (pretty_N_char d) needle = true) →
  apart (pretty n) = true.
Proof.
  intros Hdigits. unfold pretty, pretty_nat, pretty, pretty_N.
  destruct (decide (N.of_nat n = 0%N)).
  - pose proof (Hdigits 0%N) as H0.
    change (pretty_N_char 0) with "0"%char in H0.
    change (apart "0") with (avoidsIn "0" needle && true).
    by rewrite H0.
  - by apply apart_pretty_N_go.
Qed.
End Separators.

Lemma avoids_digit (needle : string) :
  forallb (λ c, avoidsIn c needle) (list_ascii_of_string "0123456789") = true →
  ∀ d, avoidsIn (pretty_N_char d) needle = true.
Proof.
  intros H d. cbn in H. rewrite !andb_true_iff in H.
  destruct H as (?&?&?&?&?&?&?&?&?&?&_).
  unfold pretty_N_char.
  destruct d as [|p]; [done|].
  do 4 (try destruct p as [p|p|]); done.
Qed.

Lemma replaceAllChar_app (c : ascii) (rep a b : string) :
  replaceAllChar c rep (a +:+ b) = replaceAllChar c rep a +:+ replaceAllChar c rep b.
Proof.
  induction a as [|d a IH]; [done|]. rewrite app_cons. cbn [replaceAllChar].
  destruct (Ascii.eqb d c); by rewrite IH, ?app_cons, ?app_assoc_str.
Qed.

Lemma escapeForSwift_app (a b : string) :
  escapeForSwift (a +:+ b) = escapeForSwift a +:+ escapeForSwift b.
Proof. unfold escapeForSwift. by rewrite !replaceAllChar_app. Qed.

Lemma replaceAllChar_word (c : ascii) (rep name : string) :
  isWordChar c = false →
  forallb isWordChar (list_ascii_of_string name) = true →
  replaceAllChar c rep name = name.
Proof.
  intros Hc. induction name as [|d name IH]; [done|].
  cbn [list_ascii_of_string forallb replaceAllChar].
  intros [Hd Hname]%andb_true_iff.
  destruct (Ascii.eqb_spec d c) as [->|_]; [congruence|]. by rewrite IH.
Qed.

Lemma escapeForSwift_identifier (name : string) :
  isIdentifier name = true → escapeForSwift name = name.
Proof.
  unfold isIdentifier. intros [_ Hname]%andb_true_iff.
  unfold escapeForSwift.
  rewrite (replaceAllChar_word backslash _ name) by done.
  rewrite (replaceAllChar_word dquote _ name) by done.
  rewrite (replaceAllChar_word newline _ name) by done.
  rewrite (replaceAllChar_word creturn _ name) by done.
  by rewrite (replaceAllChar_word tab _ name).
Qed.

(** A name that [extractVariables] finds stands in the escaped message. *)
Lemma extractVariables_escaped (needle message name : string) :
  name ∈ extractVariables message →
  includes needle name = true →
  includes needle (escapeForSwift message) = true.
Proof.
  intros Hname Hneedle.
  destruct (extractVariables_occurrences message) as (occurrences & Heq & _ & Hocc).
  rewrite Heq in Hname. apply list_elem_of_fmap in Hname as ([i name'] & -> & Hin).
  apply Hocc in Hin as (before & after & -> & _ & Hid). cbn [snd] in *.
  unfold placeholder. rewrite !escapeForSwift_app, (escapeForSwift_identifier name') by done.
  by apply includes_r, includes_l, includes_r, includes_l.
Qed.

(** ** Generated intent code *)

Section GeneratedCode.

Lemma join_lookup (sep : string) (l : list string) (i : nat) (x : string) :
  l !! i = Some x → ∃ before after, join sep l = before +:+ x +:+ after.
Proof.
  revert i. induction l as [|y l IH]; intros i Hi; [done|].
  destruct i as [|i]; simpl in Hi.
  - injection Hi as ->. exists EmptyString. destruct l as [|z l].
    + exists EmptyString. by rewrite app_empty_l, app_empty_r.
    + by exists (sep +:+ join sep (z :: l)).
  - destruct (IH i Hi) as (before & after & Heq). destruct l as [|z l]; [done|].
    exists (y +:+ sep +:+ before), after.
    change (join sep (y :: z :: l)) with (y +:+ sep +:+ join sep (z :: l)).
    by rewrite Heq, !app_assoc_str.
Qed.

Variable numberToString : float → string.
Variable toUpperCase : ascii → string.
Variable toLowerCase : string → string.

(** In the struct of a shortcut, the block of each state dialog stands
    before the code that publishes the command, posts the notification and
    polls for the response. *)
Lemma dialog_block_precedes_publication
    (shortcut : ShortcutDefinition) (useLocalization : bool)
    (dialogs : list StateDialog) (index : nat) (dialog : StateDialog) :
  stateDialogs shortcut = Some dialogs →
  dialogs !! index = Some dialog →
  ∃ before between,
    generateIntentStruct numberToString toUpperCase toLowerCase shortcut useLocalization
    = before
      +:+ code (generateStateDialogSwift numberToString
                  (dialogParams numberToString toUpperCase shortcut useLocalization
                     index dialog))
      +:+ between
      +:+ publicationCode numberToString toUpperCase shortcut useLocalization.
Proof.
  intros Hdialogs Hindex. unfold generateIntentStruct.
  generalize (publicationCode numberToString toUpperCase shortcut useLocalization).
  generalize (preambleCode toUpperCase toLowerCase shortcut useLocalization).
  intros preamble publication. unfold dialogCode.
  rewrite Hdialogs. destruct dialogs as [|d ds]; [done|].
  assert (map code (dialogResults numberToString toUpperCase shortcut useLocalization)
          !! index
          = Some (code (generateStateDialogSwift numberToString
                          (dialogParams numberToString toUpperCase shortcut
                             useLocalization index dialog)))) as Hcode.
  { unfold dialogResults. rewrite Hdialogs. cbn [from_option]. unfold id.
    change (map code ?l) with (code <$> l).
    rewrite list_lookup_fmap, list_lookup_imap, Hindex. reflexivity. }
  destruct (join_lookup nl _ _ _ Hcode) as (pre & post & ->).
  cbv zeta.
  generalize (if hasConfirmationDialogs numberToString toUpperCase shortcut
                   useLocalization
              then nl +:+ "        // Track whether user confirmed any state-based dialogs"
                   +:+ nl +:+ "        var userConfirmedOverride = false" +:+ nl
                   +:+ "        "
              else EmptyString).
  intros declaration.
  exists (preamble +:+ nl +:+ "        // Check app state for state-based dialogs"
          +:+ nl +:+ "        " +:+ declaration +:+ pre),
         (post +:+ nl +:+ "    ").
  rewrite !app_assoc_str. reflexivity.
Qed.

Lemma foldl_interpolate (f : string → string) (init : string) (l : list string) :
  foldl (λ swiftCode varName, swiftCode +:+ f varName) init l
  = init +:+ foldr (λ varName rest, f varName +:+ rest) EmptyString l.
Proof.
  revert init. induction l as [|x l IH]; intros init; cbn [foldl foldr].
  - by rewrite app_empty_r.
  - by rewrite IH, app_assoc_str.
Qed.

Ltac splitAtBoundaries :=
  repeat (rewrite includes_boundary
            by first [ left; vm_compute; reflexivity
                     | right; vm_compute; reflexivity ]);
  rewrite ?orb_false_iff; repeat split;
  first [ assumption | vm_compute; reflexivity | idtac ].

Lemma interpolations_apart (needle : string) (l : list string) :
  includes needle EmptyString = false →
  avoidsIn newline needle = true →
  Forall (λ v, includes needle (interpolateVariable v) = false) l →
  includes needle (foldr (λ v rest, interpolateVariable v +:+ rest) EmptyString l)
  = false.
Proof.
  intros Hempty Hnl. induction 1 as [|v l Hv _ IH]; cbn [foldr]; [done|].
  rewrite includes_boundary, Hv, IH; [done|].
  left. unfold interpolateVariable. repeat apply endsApart_app.
  cbn [endsApart nl]. done.
Qed.

Lemma interpolateVariable_apart (v : string) :
  includes "requestConfirmation" v = false →
  includes "requestConfirmation" (interpolateVariable v) = false.
Proof. intros Hv. unfold interpolateVariable. splitAtBoundaries. Qed.

(** C4. For a dialog with requiresConfirmation false, the generated block is
    not a confirmation. The block is the comment line, the guard
    [if <condition> {], the log line, the code that interpolates the message
    (only when the message has placeholders), the statement that returns the
    dialog value as the result of the intent, and the closing brace of the
    guard right after it. The dialog value is the interpolated [message]
    variable when the message has placeholders, and the message literal (or
    its localized lookup) otherwise. The block holds no [requestConfirmation],
    provided none of the texts that the configuration puts into it (class
    name, state key, printed showWhen, condition, localization key, escaped
    message) holds one. In the struct of a shortcut that has the dialog, the
    block stands before the code that publishes the command, posts the
    notification and polls. *)
Theorem message_only_dialog_returns (params : DialogParams) :
  requiresConfirmation (dp_dialog params) = Some false →
  let dialog := dp_dialog params in
  let result := generateStateDialogSwift numberToString params in
  let shown :=
    match showWhen dialog with
    | SWBoolean true => "true"
    | SWBoolean false => "false"
    | SWNumber n => numberToString n
    | SWString s => s
    | SWOther text => text
    end in
  let literal :=
    if dp_useLocalization params
    then "String(localized: " +:+ dq +:+ dp_localizationKey params +:+ dq
         +:+ ", defaultValue: " +:+ dq +:+ escapeForSwift (message dialog) +:+ dq
         +:+ ")"
    else dq +:+ escapeForSwift (message dialog) +:+ dq in
  let substitution (varName : string) :=
    "        // Interpolate " +:+ varName +:+ nl
    +:+ "        if let value = defaults.string(forKey: " +:+ dq +:+ "appState_"
        +:+ varName +:+ dq +:+ ") {" +:+ nl
    +:+ "            message = message.replacingOccurrences(of: " +:+ dq +:+ "${"
        +:+ varName +:+ "}" +:+ dq +:+ ", with: value)" +:+ nl
    +:+ "        } else if let numValue = defaults.object(forKey: " +:+ dq
        +:+ "appState_" +:+ varName +:+ dq +:+ ") as? NSNumber {" +:+ nl
    +:+ "            message = message.replacingOccurrences(of: " +:+ dq +:+ "${"
        +:+ varName +:+ "}" +:+ dq +:+ ", with: " +:+ dq +:+ bs +:+ "(numValue)"
        +:+ dq +:+ ")" +:+ nl
    +:+ "        }" +:+ nl in
  let block (messageCode dialogValue : string) :=
    nl +:+ "        // State dialog #" +:+ pretty (dp_index params + 1)
    +:+ ": Show message and return when " +:+ stateKey dialog +:+ " == " +:+ shown
    +:+ nl
    +:+ "        if " +:+ dp_condition params +:+ " {" +:+ nl
    +:+ "            print(" +:+ dq +:+ "[" +:+ dp_className params
    +:+ "] Showing message (no confirmation): " +:+ stateKey dialog +:+ " is "
    +:+ shown +:+ dq +:+ ")" +:+ nl
    +:+ "            " +:+ messageCode
    +:+ "return .result(dialog: IntentDialog(stringLiteral: " +:+ dialogValue
    +:+ "))" +:+ nl
    +:+ "        }" in
  isConfirmation result = false
  ∧ (extractVariables (message dialog) = [] →
     code result = block EmptyString literal)
  ∧ (extractVariables (message dialog) ≠ [] →
     code result
     = block ("// Interpolate message with current app state" +:+ nl
              +:+ "            "
              +:+ foldl (λ swiftCode varName, swiftCode +:+ substitution varName)
                    ("var message = " +:+ literal +:+ nl)
                    (extractVariables (message dialog))
              +:+ nl +:+ "            ")
         "message")
  ∧ (Forall (λ text, includes "requestConfirmation" text = false)
       [dp_className params; stateKey dialog; shown; dp_condition params;
        dp_localizationKey params; escapeForSwift (message dialog)] →
     includes "requestConfirmation" (code result) = false)
  ∧ (∀ shortcut useLocalization dialogs index,
       stateDialogs shortcut = Some dialogs →
       dialogs !! index = Some dialog →
       params = dialogParams numberToString toUpperCase shortcut useLocalization
                  index dialog →
       ∃ before between,
         generateIntentStruct numberToString toUpperCase toLowerCase shortcut
           useLocalization
         = before +:+ code result +:+ between
           +:+ publicationCode numberToString toUpperCase shortcut useLocalization).
Proof.
  intros Hreq dialog result shown literal substitution block.
  set (dialog' := dp_dialog params) in *. subst dialog. rename dialog' into dialog.
  assert (needsConfirmation dialog = false) as Hneeds
    by (unfold needsConfirmation; by rewrite Hreq).
  assert (showWhenText numberToString (showWhen dialog) = shown) as Hshown.
  { subst shown. destruct (showWhen dialog) as [[]| | |]; reflexivity. }
  assert (messageLiteral (message dialog) (dp_localizationKey params)
            (dp_useLocalization params) = literal) as Hliteral by reflexivity.
  assert (extractVariables (message dialog) = [] →
          code result = block EmptyString literal) as Hplain.
  { intros Hvars. subst result block. cbn [code generateStateDialogSwift].
    unfold dialogHeader, messageCode, actionCode, dialogValue, hasInterpolation,
      returnCode.
    cbv zeta. fold dialog. rewrite Hvars, Hneeds, Hshown, Hliteral. cbv zeta.
    by rewrite !app_assoc_str. }
  assert (extractVariables (message dialog) ≠ [] →
          code result
          = block ("// Interpolate message with current app state" +:+ nl
                   +:+ "            "
                   +:+ foldl (λ swiftCode varName, swiftCode +:+ substitution varName)
                         ("var message = " +:+ literal +:+ nl)
                         (extractVariables (message dialog))
                   +:+ nl +:+ "            ")
              "message") as Hvars.
  { intros Hvars. subst result block. cbn [code generateStateDialogSwift].
    unfold dialogHeader, messageCode, actionCode, dialogValue, hasInterpolation,
      returnCode, generateMessageInterpolation.
    cbv zeta. fold dialog. rewrite Hneeds, Hshown, Hliteral. cbv zeta.
    destruct (extractVariables (message dialog)) as [|v vs]; [done|].
    by rewrite !app_assoc_str. }
  split; [exact Hneeds|].
  split; [exact Hplain|]. split; [exact Hvars|]. split.
  - intros Htexts. rewrite !Forall_cons in Htexts.
    destruct Htexts as (Hclass & Hkey & Hshow & Hcond & Hloc & Hmsg & _).
    assert (includes "requestConfirmation" (pretty (dp_index params + 1)) = false)
      as Hindex.
    { apply includes_apart; [done|]. by apply apart_pretty_nat, avoids_digit. }
    assert (includes "requestConfirmation" literal = false) as Hlit.
    { subst literal. destruct (dp_useLocalization params); splitAtBoundaries. }
    destruct (extractVariables (message dialog)) as [|v vs] eqn:Hextract.
    + rewrite (Hplain eq_refl). subst block. cbv beta. rewrite app_empty_l.
      generalize dependent literal. intros literal _ _ _ Hlit.
      splitAtBoundaries.
    + rewrite (Hvars ltac:(done)). subst block. cbv beta.
      rewrite foldl_interpolate, !app_assoc_str.
      assert (includes "requestConfirmation"
                (foldr (λ varName rest, substitution varName +:+ rest) EmptyString
                   (v :: vs)) = false) as Hsubst.
      { apply (interpolations_apart "requestConfirmation"); [done|done|].
        apply Forall_forall. intros name Hname.
        apply interpolateVariable_apart.
        destruct (includes "requestConfirmation" name) eqn:Hin; [|done].
        rewrite <- Hextract in Hname.
        by rewrite (extractVariables_escaped _ _ _ Hname Hin) in Hmsg. }
      generalize dependent (foldr (λ varName rest, substitution varName +:+ rest)
                              EmptyString (v :: vs)).
      intros interpolations Hsubst.
      generalize dependent literal. intros literal _ _ _ Hlit.
      splitAtBoundaries.
  - intros shortcut useLocalization dialogs index Hdialogs Hindex Hparams.
    destruct (dialog_block_precedes_publication shortcut useLocalization dialogs
                index dialog Hdialogs Hindex) as (before & between & Heq).
    exists before, between. rewrite Heq. subst result. by rewrite <- Hparams.
Qed.

End GeneratedCode.

(** The dialog of the repository's test: a running timer, no confirmation. *)
Definition sampleMessageDialog : DialogParams :=
  {| dp_index := 0;
     dp_className := "TestIntent";
     dp_dialog := {| stateKey := "running"; showWhen := SWBoolean true;
                     message := "Timer is running";
                     requiresConfirmation := Some false |};
     dp_condition := "defaults.double(forKey: " +:+ dq +:+ "appState_running"
                     +:+ dq +:+ ") == 1";
     dp_localizationKey := "test.dialog.0";
     dp_useLocalization := false |}.

(** Case conversions on the letters a to z, for the examples. *)
Definition asciiUpper (c : ascii) : string :=
  let n := nat_of_ascii c in
  String (if (97 <=? n) && (n <=? 122) then ascii_of_nat (n - 32) else c) EmptyString.

Fixpoint asciiLower (s : string) : string :=
  match s with
  | EmptyString => EmptyString
  | String c rest =>
      let n := nat_of_ascii c in
      String (if (65 <=? n) && (n <=? 90) then ascii_of_nat (n + 32) else c)
             (asciiLower rest)
  end.

Lemma message_only_dialog_returns_witness :
  isConfirmation (generateStateDialogSwift (λ _, "0") sampleMessageDialog) = false
  ∧ code (generateStateDialogSwift (λ _, "0") sampleMessageDialog)
    = nl +:+ "        // State dialog #1: Show message and return when running == true"
      +:+ nl +:+ "        if defaults.double(forKey: " +:+ dq +:+ "appState_running"
      +:+ dq +:+ ") == 1 {" +:+ nl
      +:+ "            print(" +:+ dq
      +:+ "[TestIntent] Showing message (no confirmation): running is true"
      +:+ dq +:+ ")" +:+ nl
      +:+ "            return .result(dialog: IntentDialog(stringLiteral: "
      +:+ dq +:+ "Timer is running" +:+ dq +:+ "))" +:+ nl +:+ "        }"
  ∧ includes "requestConfirmation"
      (code (generateStateDialogSwift (λ _, "0") sampleMessageDialog)) = false.
Proof.
  destruct (message_only_dialog_returns (λ _, "0") asciiUpper asciiLower
              sampleMessageDialog eq_refl)
    as (Hconf & Hcode & _ & Hnone & _).
  split; [exact Hconf|]. split.
  - rewrite (Hcode eq_refl). reflexivity.
  - apply Hnone. repeat constructor.
Defined.

(** ** Parameter declarations *)

Section ParameterDeclarations.

(** The same parameter with another [optional] flag. *)
Definition withOptional (flag : option bool) (param : ShortcutParameter)
    : ShortcutParameter :=
  {| param_name := param_name param;
     param_title := param_title param;
     param_type := param_type param;
     param_optional := flag;
     param_description := param_description param |}.

Lemma parameterDeclaration_optional (useLocalization : bool)
    (shortcutIdentifier : string) (index : nat) (flag : option bool)
    (param : ShortcutParameter) :
  parameterDeclaration useLocalization shortcutIdentifier index
    (withOptional flag param)
  = parameterDeclaration useLocalization shortcutIdentifier index param.
Proof. reflexivity. Qed.

Lemma imap_withOptional (useLocalization : bool) (shortcutIdentifier : string)
    (flags : ShortcutParameter → option bool) (params : list ShortcutParameter) :
  imap (parameterDeclaration useLocalization shortcutIdentifier)
       ((λ p, withOptional (flags p) p) <$> params)
  = imap (parameterDeclaration useLocalization shortcutIdentifier) params.
Proof.
  rewrite imap_fmap. apply imap_ext. intros i p _. reflexivity.
Qed.

(** The same shortcut with other [optional] flags on its parameters. *)
Definition withOptionalFlags (flags : ShortcutParameter → option bool)
    (shortcut : ShortcutDefinition) : ShortcutDefinition :=
  {| identifier := identifier shortcut;
     title := title shortcut;
     phrases := phrases shortcut;
     systemImageName := systemImageName shortcut;
     description := description shortcut;
     stateDialogs := stateDialogs shortcut;
     parameters := fmap (M := list) (λ p, withOptional (flags p) p)
                     <$> parameters shortcut |}.

Lemma hasParameters_withOptional (flags : ShortcutParameter → option bool)
    (params : option (list ShortcutParameter)) :
  hasParameters (fmap (M := list) (λ p, withOptional (flags p) p) <$> params)
  = hasParameters params.
Proof. by destruct params as [[|p ps]|]. Qed.

Lemma generateParameterDeclarations_optional
    (flags : ShortcutParameter → option bool)
    (params : option (list ShortcutParameter))
    (useLocalization : bool) (shortcutIdentifier : string) :
  generateParameterDeclarations
    (fmap (M := list) (λ p, withOptional (flags p) p) <$> params)
    useLocalization shortcutIdentifier
  = generateParameterDeclarations params useLocalization shortcutIdentifier.
Proof.
  unfold generateParameterDeclarations. rewrite hasParameters_withOptional.
  destruct params as [ps|]; [|done]. cbn [fmap option_fmap option_map from_option].
  unfold id. by rewrite imap_withOptional.
Qed.

Lemma generateInitializers_optional (flags : ShortcutParameter → option bool)
    (params : option (list ShortcutParameter)) :
  generateInitializers (fmap (M := list) (λ p, withOptional (flags p) p) <$> params)
  = generateInitializers params.
Proof.
  unfold generateInitializers. rewrite hasParameters_withOptional.
  destruct params as [ps|]; [|done]. cbn [fmap option_fmap option_map from_option].
  unfold id. by rewrite !map_map.
Qed.

Lemma generateParameterWrites_optional (flags : ShortcutParameter → option bool)
    (params : option (list ShortcutParameter)) :
  generateParameterWrites (fmap (M := list) (λ p, withOptional (flags p) p) <$> params)
  = generateParameterWrites params.
Proof.
  unfold generateParameterWrites. rewrite hasParameters_withOptional.
  destruct params as [ps|]; [|done]. cbn [fmap option_fmap option_map from_option].
  unfold id. by rewrite !map_map.
Qed.

Lemma generateParameterRequests_optional (toLowerCase : string → string)
    (flags : ShortcutParameter → option bool)
    (params : option (list ShortcutParameter))
    (useLocalization : bool) (shortcutIdentifier : string) :
  generateParameterRequests toLowerCase
    (fmap (M := list) (λ p, withOptional (flags p) p) <$> params)
    useLocalization shortcutIdentifier
  = generateParameterRequests toLowerCase params useLocalization shortcutIdentifier.
Proof.
  unfold generateParameterRequests. rewrite hasParameters_withOptional.
  destruct params as [ps|]; [|done]. cbn [fmap option_fmap option_map from_option].
  unfold id. by rewrite imap_fmap.
Qed.

Variable numberToString : float → string.
Variable toUpperCase : ascii → string.
Variable toLowerCase : string → string.

(** The generated struct does not read the optional flags. *)
Lemma generateIntentStruct_optional (flags : ShortcutParameter → option bool)
    (shortcut : ShortcutDefinition) (useLocalization : bool) :
  generateIntentStruct numberToString toUpperCase toLowerCase
    (withOptionalFlags flags shortcut) useLocalization
  = generateIntentStruct numberToString toUpperCase toLowerCase shortcut
      useLocalization.
Proof.
  assert (Hpreamble :
    preambleCode toUpperCase toLowerCase (withOptionalFlags flags shortcut)
      useLocalization
    = preambleCode toUpperCase toLowerCase shortcut useLocalization).
  { unfold preambleCode.
    cbn [identifier title description parameters withOptionalFlags].
    by rewrite generateParameterDeclarations_optional,
      generateInitializers_optional, generateParameterRequests_optional. }
  assert (Hdialogs :
    dialogCode numberToString toUpperCase (withOptionalFlags flags shortcut)
      useLocalization
    = dialogCode numberToString toUpperCase shortcut useLocalization)
    by reflexivity.
  assert (Hpublication :
    publicationCode numberToString toUpperCase
      (withOptionalFlags flags shortcut) useLocalization
    = publicationCode numberToString toUpperCase shortcut useLocalization).
  { unfold publicationCode.
    cbn [identifier title description parameters withOptionalFlags].
    by rewrite generateParameterWrites_optional. }
  unfold generateIntentStruct. by rewrite Hpreamble, Hdialogs, Hpublication.
Qed.

End ParameterDeclarations.

(** The parameters of the repository's test: a required string, an optional
    date and a number without the flag. *)
Example generateParameterDeclarations_test :
  generateParameterDeclarations
    (Some [ {| param_name := "taskName"; param_title := "Task Name";
               param_type := TString; param_optional := Some false;
               param_description := None |};
            {| param_name := "dueDate"; param_title := "Due Date";
               param_type := TDate; param_optional := Some true;
               param_description := None |};
            {| param_name := "priority"; param_title := "Priority";
               param_type := TNumber; param_optional := None;
               param_description := Some "Task priority level" |} ])
    false "addTask"
  = nl +:+ join nl [
      "    @Parameter(title: LocalizedStringResource(" +:+ dq +:+ "Task Name" +:+ dq +:+ "))";
      "    var taskName: String?";
      "    @Parameter(title: LocalizedStringResource(" +:+ dq +:+ "Due Date" +:+ dq +:+ "))";
      "    var dueDate: Date?";
      "    @Parameter(title: LocalizedStringResource(" +:+ dq +:+ "Priority" +:+ dq
        +:+ "), description: LocalizedStringResource(" +:+ dq
        +:+ "Task priority level" +:+ dq +:+ "))";
      "    var priority: Double?" ] +:+ nl.
Proof. vm_compute. reflexivity. Qed.

(** ** The repository's tests, evaluated *)

Example extractVariables_test_1 :
  extractVariables "$name ${valid} {invalid}" = ["valid"].
Proof. reflexivity. Qed.

Example extractVariables_test_2 :
  extractVariables "${task_name} is ${elapsed_time}" = ["task_name"; "elapsed_time"].
Proof. reflexivity. Qed.

Example extractVariables_test_3 : extractVariables "Hello World" = [].
Proof. reflexivity. Qed.

Example escapeForSwift_test :
  escapeForSwift ("say " +:+ dq +:+ "hello" +:+ dq +:+ nl +:+ "world")
  = "say " +:+ bs +:+ dq +:+ "hello" +:+ bs +:+ dq +:+ bs +:+ "nworld".
Proof. reflexivity. Qed.

Example generateSwiftCondition_test_true :
  generateSwiftCondition (λ _, "42") "appState_running" (SWBoolean true)
  = "defaults.double(forKey: " +:+ dq +:+ "appState_running" +:+ dq +:+ ") == 1".
Proof. reflexivity. Qed.

Example generateSwiftCondition_test_string :
  generateSwiftCondition (λ _, "42") "appState_status" (SWString "active")
  = "defaults.string(forKey: " +:+ dq +:+ "appState_status" +:+ dq +:+ ") == "
    +:+ dq +:+ "active" +:+ dq.
Proof. reflexivity. Qed.

Example matchLine_test :
  matchLine (quoted "Start timer" +:+ " = " +:+ quoted "Begin the timer" +:+ ";")
  = Some ("Start timer", "Begin the timer").
Proof. reflexivity. Qed.

Example matchLine_test_malformed : matchLine "This is not a valid line" = None.
Proof. reflexivity. Qed.

Example mergeAppShortcutsStrings_test_dup :
  mergeAppShortcutsStrings ["Start timer"; "Start timer"]
    (Some (identityLine "Start timer"))
  = identityLine "Start timer".
Proof. vm_compute. reflexivity. Qed.

Example mergeAppShortcutsStrings_test_custom :
  mergeAppShortcutsStrings ["Start timer"; "Pause timer"]
    (Some (quoted "Start timer" +:+ " = " +:+ quoted "Begin the timer" +:+ ";" +:+ nl
           +:+ quoted "Stop timer" +:+ " = " +:+ quoted "End the timer" +:+ ";"))
  = join nl [ quoted "Start timer" +:+ " = " +:+ quoted "Begin the timer" +:+ ";";
              quoted "Stop timer" +:+ " = " +:+ quoted "End the timer" +:+ ";";
              identityLine "Pause timer" ].
Proof. vm_compute. reflexivity. Qed.

Example generateMessageInterpolation_test :
  let result := generateMessageInterpolation "Hello ${name}" "test.key" false in
  includes ("var message = " +:+ dq +:+ "Hello ${name}" +:+ dq) result = true
  ∧ includes ("if let value = defaults.string(forKey: " +:+ dq +:+ "appState_name"
               +:+ dq +:+ ")") result = true
  ∧ includes ("message.replacingOccurrences(of: " +:+ dq +:+ "${name}" +:+ dq
               +:+ ", with: value)") result = true
  ∧ includes ("if let numValue = defaults.object(forKey: " +:+ dq +:+ "appState_name"
               +:+ dq +:+ ") as? NSNumber") result = true.
Proof. vm_compute. done. Qed.

Example generateStateDialogSwift_test_message_only :
  let result := generateStateDialogSwift (λ _, "0") sampleMessageDialog in
  isConfirmation result = false
  ∧ includes "return .result(dialog:" (code result) = true
  ∧ includes "requestConfirmation" (code result) = false
  ∧ includes "Showing message (no confirmation)" (code result) = true
  ∧ includes "State dialog #1" (code result) = true.
Proof. vm_compute. done. Qed.

Example generateStateDialogSwift_test_confirmation :
  let result :=
    generateStateDialogSwift (λ _, "0")
      {| dp_index := 2;
         dp_className := "TestIntent";
         dp_dialog := {| stateKey := "status"; showWhen := SWString "active";
                         message := "Test"; requiresConfirmation := None |};
         dp_condition := "custom.condition";
         dp_localizationKey := "test.dialog.2";
         dp_useLocalization := false |} in
  isConfirmation result = true
  ∧ includes "try await requestConfirmation" (code result) = true
  ∧ includes "userConfirmedOverride = true" (code result) = true
  ∧ includes "State dialog #3" (code result) = true
  ∧ includes "if custom.condition" (code result) = true.
Proof. vm_compute. done. Qed.

Example shortcutType_test_startTimer :
  includes "parameters?: never;"
    (generateTypeScriptTypes
       {| shortcuts := [ {| identifier := "startTimer"; title := "Start Timer";
                            phrases := ["start timer"]; systemImageName := None;
                            description := None; stateDialogs := None;
                            parameters := None |} ];
          localization := None; appGroupId := None |}) = true.
Proof. vm_compute. reflexivity. Qed.

(** The merge of the specification, evaluated: en becomes New and es stays
    Vieja. *)
Example mergeCatalog_translation_preserved :
  mergeCatalog sampleParse false [("k", "New")] (Some "existing.xcstrings")
  = (Ok {| sourceLanguage := JString "en";
           strings :=
             {[ "k" := JObject
                  (<["extractionState" := JString "manual"]>
                   {[ "localizations" :=
                        JObject (<["en" := englishUnit "New"]>
                                 {[ "es" := englishUnit "Vieja" ]}) ]}) ]};
           version := JString "1.0" |}, false).
Proof. vm_compute. reflexivity. Qed.

(** An entry that is not an object makes the merge throw. *)
Example mergeEntry_string_entry_throws :
  mergeEntry false {[ "k" := JString "hello" ]} ("k", "New")
  = (Throw TypeError, false).
Proof. reflexivity. Qed.

(** After the key [__proto__] the same entry reads the inherited object, and
    is left as it is. *)
Example mergeLoop_after_proto :
  mergeLoop [("__proto__", "P"); ("k", "New")] false {[ "k" := JString "hello" ]}
  = (Ok {[ "k" := JString "hello" ]}, true).
Proof. reflexivity. Qed.

(** A key that the catalog inherits gets no entry in a merge, and gets one
    in a generated catalog unless it is [__proto__]. *)
Example mergeLoop_inherited_keys :
  mergeLoop [("constructor", "C"); ("valueOf", "V")] false ∅ = (Ok ∅, false).
Proof. reflexivity. Qed.

Example generateStringCatalog_inherited_keys (JSON_stringify : JSON → string) :
  generateStringCatalog JSON_stringify [("__proto__", "P"); ("valueOf", "V")]
  = JSON_stringify
      (catalogObject {| sourceLanguage := JString "en";
                        strings := {[ "valueOf" := freshEntry "V" ]};
                        version := JString "1.0" |}).
Proof. reflexivity. Qed.

Example pascalCase_test :
  map (pascalCase asciiUpper)
      ["startTimer"; "start-timer"; "start_timer"; "start timer";
       "start-timer_action test"; "StartTimer"; "timer"; ""; "start--timer"]
  = ["StartTimer"; "StartTimer"; "StartTimer"; "StartTimer";
     "StartTimerActionTest"; "StartTimer"; "Timer"; ""; "StartTimer"].
Proof. vm_compute. reflexivity. Qed.

Definition basicShortcut : ShortcutDefinition :=
  {| identifier := "testAction"; title := "Test Action";
     phrases := ["test action"; "run test"]; systemImageName := None;
     description := None; stateDialogs := None; parameters := None |}.

Example generateIntentStruct_test_basic :
  let result := generateIntentStruct (λ _, "0") asciiUpper asciiLower basicShortcut false in
  includes "struct TestActionIntent: AppIntent" result = true
  ∧ includes ("static var title: LocalizedStringResource = " +:+ dq +:+ "Test Action" +:+ dq)
      result = true
  ∧ includes "func perform() async throws -> some IntentResult & ProvidesDialog" result
    = true
  ∧ includes "@available(iOS 16.0, *)" result = true
  ∧ includes "CFNotificationCenterPostNotification" result = true
  ∧ includes "eu.eblank.likrot.iosintents.shortcut" result = true
  ∧ includes "let timeout: TimeInterval = 5.0" result = true
  ∧ includes "let pollInterval: TimeInterval = 0.1" result = true
  ∧ includes "while Date().timeIntervalSince(startTime) < timeout" result = true
  ∧ includes "let nonce = UUID().uuidString" result = true
  ∧ includes ("IosIntentsResponse_" +:+ bs +:+ "(nonce)") result = true
  ∧ includes "Check app state for state-based dialogs" result = false.
Proof. vm_compute. done. Qed.

Example generateIntentStruct_test_parameters :
  let result :=
    generateIntentStruct (λ _, "0") asciiUpper asciiLower
      {| identifier := "testParams"; title := "Test Parameters";
         phrases := ["test params"]; systemImageName := None;
         description := None; stateDialogs := None;
         parameters :=
           Some [ {| param_name := "text"; param_title := "Text"; param_type := TString;
                     param_optional := None; param_description := None |};
                  {| param_name := "count"; param_title := "Count"; param_type := TNumber;
                     param_optional := None; param_description := None |};
                  {| param_name := "enabled"; param_title := "Enabled";
                     param_type := TBoolean; param_optional := Some false;
                     param_description := None |};
                  {| param_name := "when"; param_title := "When"; param_type := TDate;
                     param_optional := None; param_description := None |} ] |}
      false in
  includes "var text: String?" result = true
  ∧ includes "var count: Double?" result = true
  ∧ includes "var enabled: Bool?" result = true
  ∧ includes "var when: Date?" result = true
  ∧ includes "Write parameter values to shared UserDefaults" result = true
  ∧ includes ("defaults.set(text, forKey: " +:+ dq +:+ "IosIntentsParam_text" +:+ dq +:+ ")")
      result = true
  ∧ includes ("defaults.set(when.timeIntervalSince1970, forKey: " +:+ dq
               +:+ "IosIntentsParam_when" +:+ dq +:+ ")") result = true
  ∧ includes ("IntentDialog(stringLiteral: " +:+ dq +:+ "What count?" +:+ dq +:+ ")") result
    = true.
Proof. vm_compute. done. Qed.

(** The scenario of the specification: a shortcut with one dialog that only
    shows a message while the timer runs. *)
Definition startTimerShortcut : ShortcutDefinition :=
  {| identifier := "startTimer"; title := "Start Timer";
     phrases := ["Start timer"]; systemImageName := None; description := None;
     stateDialogs :=
       Some [ {| stateKey := "running"; showWhen := SWBoolean true;
                 message := "Timer running"; requiresConfirmation := Some false |} ];
     parameters := None |}.

Example generateIntentStruct_test_scenario :
  let result :=
    generateIntentStruct (λ _, "0") asciiUpper asciiLower startTimerShortcut false in
  includes ("if defaults.double(forKey: " +:+ dq +:+ "appState_running" +:+ dq
            +:+ ") == 1 {") result = true
  ∧ includes ("return .result(dialog: IntentDialog(stringLiteral: " +:+ dq
               +:+ "Timer running" +:+ dq +:+ "))") result = true
  ∧ includes "requestConfirmation" result = false
  ∧ includes "userConfirmedOverride" result = false.
Proof. vm_compute. done. Qed.

Example generateIntentStruct_test_confirmation :
  let result :=
    generateIntentStruct (λ _, "0") asciiUpper asciiLower
      {| identifier := "testAction"; title := "Test Action";
         phrases := ["test action"]; systemImageName := None; description := None;
         stateDialogs :=
           Some [ {| stateKey := "running"; showWhen := SWBoolean true;
                     message := "Are you sure?"; requiresConfirmation := Some true |} ];
         parameters := None |} false in
  includes "var userConfirmedOverride = false" result = true
  ∧ includes ("defaults.set(userConfirmedOverride, forKey: " +:+ dq
               +:+ "IosIntentsUserConfirmed" +:+ dq +:+ ")") result = true
  ∧ includes "// Check app state for state-based dialogs" result = true
  ∧ includes "appState_running" result = true.
Proof. vm_compute. done. Qed.

Example generateAppShortcut_test :
  let result := generateAppShortcut asciiUpper basicShortcut false in
  includes "intent: TestActionIntent()" result = true
  ∧ includes (dq +:+ "test action in " +:+ bs +:+ "(.applicationName)" +:+ dq) result = true
  ∧ includes (dq +:+ "run test in " +:+ bs +:+ "(.applicationName)" +:+ dq) result = true
  ∧ includes ("shortTitle: " +:+ dq +:+ "Test Action" +:+ dq) result = true
  ∧ includes ("systemImageName: " +:+ dq +:+ "app" +:+ dq) result = true.
Proof. vm_compute. done. Qed.

Example generateSwiftFile_test :
  let result :=
    generateSwiftFile (λ _, "0") asciiUpper asciiLower
      {| shortcuts := [basicShortcut; startTimerShortcut];
         localization := None; appGroupId := Some "group.com.example.app" |} false in
  includes "// GeneratedAppIntents.swift" result = true
  ∧ includes "import AppIntents" result = true
  ∧ includes "struct TestActionIntent: AppIntent" result = true
  ∧ includes "struct StartTimerIntent: AppIntent" result = true
  ∧ includes "struct GeneratedAppShortcutsProvider: AppShortcutsProvider" result = true
  ∧ includes ("private let APP_GROUP_ID = " +:+ dq +:+ "group.com.example.app" +:+ dq)
      result = true.
Proof. vm_compute. done. Qed.

(** * Further properties of the code *)

(** ** The grammar of a phrase table line *)

Section PhraseGrammar.

(** The text between the quotes of a token: characters other than the quote
    and the backslash, and escapes made of a backslash and a character that
    is not a line terminator. *)
Fixpoint isQuotedBody (s : string) : bool :=
  match s with
  | EmptyString => true
  | String c s' =>
      if Ascii.eqb c dquote then false
      else if Ascii.eqb c backslash then
        match s' with
        | EmptyString => false
        | String d s'' => negb (isLineTerminator d) && isQuotedBody s''
        end
      else isQuotedBody s'
  end.

Definition allSpaces (s : string) : bool :=
  forallb isSpaceChar (list_ascii_of_string s).

Lemma isQuotedBody_cons (c : ascii) (s' : string) :
  isQuotedBody (String c s') =
  if Ascii.eqb c dquote then false
  else if Ascii.eqb c backslash then
    match s' with
    | EmptyString => false
    | String d s'' => negb (isLineTerminator d) && isQuotedBody s''
    end
  else isQuotedBody s'.
Proof. reflexivity. Qed.

Lemma scanQuoted_body (s body rest : string) :
  scanQuoted s = Some (body, rest) → isQuotedBody body = true.
Proof.
  remember (String.length s) as n eqn:Hn. revert s body rest Hn.
  induction (lt_wf n) as [n _ IH]. intros s body rest -> Hs.
  destruct s as [|c s]; [done|]. rewrite scanQuoted_cons in Hs.
  destruct (Ascii.eqb c dquote) eqn:Hq.
  { by injection Hs as <- <-. }
  destruct (Ascii.eqb c backslash) eqn:Hb.
  - destruct s as [|d s]; [done|].
    destruct (isLineTerminator d) eqn:Hd; [done|].
    destruct (scanQuoted s) as [[b r]|] eqn:Hscan; [|done].
    injection Hs as <- <-. rewrite isQuotedBody_cons, Hq, Hb, Hd. simpl.
    by apply (IH (String.length s) ltac:(simpl; lia) s b r eq_refl).
  - destruct (scanQuoted s) as [[b r]|] eqn:Hscan; [|done].
    injection Hs as <- <-. rewrite isQuotedBody_cons, Hq, Hb.
    by apply (IH (String.length s) ltac:(simpl; lia) s b r eq_refl).
Qed.

Lemma scanQuoted_complete (body rest : string) :
  isQuotedBody body = true →
  scanQuoted (body +:+ dq +:+ rest) = Some (body, rest).
Proof.
  remember (String.length body) as n eqn:Hn. revert body Hn.
  induction (lt_wf n) as [n _ IH]. intros body -> Hbody.
  destruct body as [|c body].
  { rewrite app_empty_l. unfold dq. rewrite app_cons, scanQuoted_cons.
    by rewrite Ascii.eqb_refl. }
  rewrite isQuotedBody_cons in Hbody. rewrite app_cons, scanQuoted_cons.
  destruct (Ascii.eqb c dquote); [done|].
  destruct (Ascii.eqb c backslash).
  - destruct body as [|d body]; [done|].
    apply andb_true_iff in Hbody as [Hd%negb_true_iff Hbody].
    rewrite app_cons, Hd.
    by rewrite (IH (String.length body) ltac:(simpl; lia) body eq_refl Hbody).
  - by rewrite (IH (String.length body) ltac:(simpl; lia) body eq_refl Hbody).
Qed.

Lemma skipSpaces_spec (s : string) :
  ∃ ws, s = ws +:+ skipSpaces s ∧ allSpaces ws = true.
Proof.
  induction s as [|c s (ws & Hs & Hws)]; [by exists EmptyString|].
  simpl. destruct (isSpaceChar c) eqn:Hc.
  - exists (String c ws). rewrite app_cons, <- Hs. split; [done|].
    unfold allSpaces in *. simpl. by rewrite Hc.
  - by exists EmptyString.
Qed.

Lemma skipSpaces_app (ws : string) (c : ascii) (r : string) :
  allSpaces ws = true → isSpaceChar c = false →
  skipSpaces (ws +:+ String c r) = String c r.
Proof.
  intros Hws Hc. induction ws as [|a ws IH].
  - rewrite app_empty_l. simpl. by rewrite Hc.
  - unfold allSpaces in Hws. simpl in Hws. apply andb_true_iff in Hws as [Ha Hws].
    rewrite app_cons. simpl. rewrite Ha. by apply IH.
Qed.

Lemma matchLine_complete (key value ws1 ws2 rest : string) :
  isQuotedBody key = true → isQuotedBody value = true →
  allSpaces ws1 = true → allSpaces ws2 = true →
  matchLine (quoted key +:+ ws1 +:+ "=" +:+ ws2 +:+ quoted value +:+ ";" +:+ rest)
  = Some (key, value).
Proof.
  intros Hkey Hvalue Hws1 Hws2. unfold quoted.
  rewrite !app_assoc_str. unfold dq at 1. rewrite app_cons, app_empty_l.
  unfold matchLine. rewrite Ascii.eqb_refl.
  rewrite (scanQuoted_complete key _ Hkey).
  change ("=" +:+ ?x) with (String "="%char x).
  replace (ws1 +:+ "=" +:+ ws2 +:+ dq +:+ value +:+ dq +:+ ";" +:+ rest)
    with (ws1 +:+ String "=" (ws2 +:+ dq +:+ value +:+ dq +:+ ";" +:+ rest)) by done.
  rewrite (skipSpaces_app ws1 "=" _ Hws1 eq_refl).
  replace (ws2 +:+ dq +:+ value +:+ dq +:+ ";" +:+ rest)
    with (ws2 +:+ String dquote (value +:+ dq +:+ ";" +:+ rest)) by done.
  rewrite (skipSpaces_app ws2 dquote _ Hws2 eq_refl).
  rewrite Ascii.eqb_refl.
  by rewrite (scanQuoted_complete value _ Hvalue).
Qed.

Lemma matchLine_sound (line key value : string) :
  matchLine line = Some (key, value) →
  ∃ ws1 ws2 rest,
    line = quoted key +:+ ws1 +:+ "=" +:+ ws2 +:+ quoted value +:+ ";" +:+ rest
    ∧ isQuotedBody key = true ∧ isQuotedBody value = true
    ∧ allSpaces ws1 = true ∧ allSpaces ws2 = true.
Proof.
  unfold matchLine. destruct line as [|c s1]; [done|].
  destruct (Ascii.eqb_spec c dquote) as [->|]; [|done].
  destruct (scanQuoted s1) as [[k r1]|] eqn:Hk; [|done].
  destruct (skipSpaces_spec r1) as (ws1 & Hr1 & Hws1).
  destruct (skipSpaces r1) as [|e r2]; [done|].
  destruct (Ascii.eqb_spec e "=") as [->|];
    [|by destruct e as [[] [] [] [] [] [] [] []]].
  destruct (skipSpaces_spec r2) as (ws2 & Hr2 & Hws2).
  destruct (skipSpaces r2) as [|c3 r3]; [done|].
  destruct (Ascii.eqb_spec c3 dquote) as [->|]; [|done].
  destruct (scanQuoted r3) as [[v [|d r4]]|] eqn:Hv; try done.
  destruct (Ascii.eqb_spec d ";") as [->|];
    [|by destruct d as [[] [] [] [] [] [] [] []]].
  intros [= <- <-]. exists ws1, ws2, r4.
  pose proof (scanQuoted_body _ _ _ Hk) as Hkey.
  pose proof (scanQuoted_body _ _ _ Hv) as Hvalue.
  apply scanQuoted_spec in Hk, Hv. subst s1 r3. rewrite Hr1, Hr2.
  split; [|done]. unfold quoted. by rewrite !app_assoc_str.
Qed.

End PhraseGrammar.

(** X1. The grammar of a phrase table line, in both directions: [matchLine]
    answers the key and the value of a line exactly when the line is a quoted
    key, white space, an equals sign, white space, a quoted value and a
    semicolon, followed by anything; both quoted texts are made of plain
    characters and escapes. *)
Theorem matchLine_grammar (line key value : string) :
  matchLine line = Some (key, value)
  ↔ ∃ ws1 ws2 rest,
      line = quoted key +:+ ws1 +:+ "=" +:+ ws2 +:+ quoted value +:+ ";" +:+ rest
      ∧ isQuotedBody key = true ∧ isQuotedBody value = true
      ∧ allSpaces ws1 = true ∧ allSpaces ws2 = true.
Proof.
  split; [apply matchLine_sound|].
  intros (ws1 & ws2 & rest & -> & Hk & Hv & H1 & H2). by apply matchLine_complete.
Qed.

(** ** Regenerating the phrase table *)

Section PhraseRegeneration.

(** A text without a line feed. *)
Definition singleLine (s : string) : bool :=
  forallb (λ c, negb (Ascii.eqb c newline)) (list_ascii_of_string s).

Lemma singleLine_cons (c : ascii) (s : string) :
  singleLine (String c s) = negb (Ascii.eqb c newline) && singleLine s.
Proof. reflexivity. Qed.

Lemma singleLine_app (s t : string) :
  singleLine (s +:+ t) = singleLine s && singleLine t.
Proof.
  induction s as [|c s IH]; [done|].
  rewrite app_cons, !singleLine_cons, IH. by rewrite andb_assoc.
Qed.

Lemma splitOn_singleLine (s : string) :
  Forall (λ l, singleLine l = true) (splitOn newline s).
Proof.
  induction s as [|c s IH]; simpl; [by repeat constructor|].
  destruct (Ascii.eqb c newline) eqn:Hc; [by constructor|].
  destruct (splitOn newline s) as [|x rest].
  - repeat constructor. by rewrite singleLine_cons, Hc.
  - apply Forall_cons in IH as [Hx Hrest]. constructor; [|done].
    by rewrite singleLine_cons, Hc.
Qed.

Lemma splitOn_line (x : string) :
  singleLine x = true → splitOn newline x = [x].
Proof.
  induction x as [|c x IH]; [done|].
  rewrite singleLine_cons. intros [Hc%negb_true_iff Hx]%andb_true_iff.
  simpl. rewrite Hc. by rewrite (IH Hx).
Qed.

Lemma splitOn_line_app (x s : string) :
  singleLine x = true →
  splitOn newline (x +:+ nl +:+ s) = x :: splitOn newline s.
Proof.
  induction x as [|c x IH].
  - intros _. reflexivity.
  - rewrite singleLine_cons. intros [Hc%negb_true_iff Hx]%andb_true_iff.
    rewrite app_cons. simpl. rewrite Hc. by rewrite (IH Hx).
Qed.

Lemma join_cons (sep x y : string) (rest : list string) :
  join sep (x :: y :: rest) = x +:+ sep +:+ join sep (y :: rest).
Proof. reflexivity. Qed.

(** Lines without line feeds are read back from their joined text. *)
Lemma splitOn_join (lines : list string) :
  lines ≠ [] → Forall (λ l, singleLine l = true) lines →
  splitOn newline (join nl lines) = lines.
Proof.
  induction lines as [|x [|y rest] IH]; intros Hne Hall; [done| |].
  - apply Forall_cons in Hall as [Hx _]. by apply splitOn_line.
  - apply Forall_cons in Hall as [Hx Hall].
    rewrite join_cons, splitOn_line_app by done. f_equal. by apply IH.
Qed.

Lemma join_nonempty (sep x : string) (rest : list string) :
  x ≠ EmptyString → join sep (x :: rest) ≠ EmptyString.
Proof. destruct x as [|c x]; [done|]. by destruct rest. Qed.

Lemma matches_nonempty (line : string) : matches line → line ≠ EmptyString.
Proof. intros [kv H] ->. done. Qed.

Lemma Forall_sublist_of {A : Type} (P : A → Prop) (k l : list A) :
  k `sublist_of` l → Forall P l → Forall P k.
Proof.
  intros Hsub Hall. apply Forall_forall. intros x Hx.
  rewrite Forall_forall in Hall. apply Hall. by apply (elem_of_sublist _ _ _ Hx Hsub).
Qed.

Lemma filter_Forall {A : Type} (P : A → Prop) `{!∀ x, Decision (P x)} (l : list A) :
  Forall P l → filter P l = l.
Proof.
  induction 1 as [|x l Hx _ IH]; [done|]. by rewrite filter_cons_True, IH.
Qed.

(** The lines that the first loop keeps from the text of a table whose
    lines all match, are distinct and hold no line feed. *)
Lemma existingLines_join (lines : list string) :
  Forall matches lines → Forall (λ l, singleLine l = true) lines → NoDup lines →
  existingLines (Some (join nl lines)) = lines.
Proof.
  intros Hm Hs Hnd. destruct lines as [|x rest]; [done|].
  unfold existingLines. rewrite decide_False.
  - rewrite splitOn_join by done.
    rewrite (foldl_retainLine_distinct _ []) by done. simpl.
    by apply filter_Forall.
  - apply join_nonempty, matches_nonempty. by apply Forall_cons in Hm as [? _].
Qed.

Lemma foldl_addPhrase_represented (newPhrases set : list string) :
  (∀ p, p ∈ newPhrases → existsb (represents p) set = true) →
  foldl addPhrase set newPhrases = set.
Proof.
  induction newPhrases as [|p ps IH]; intros Hall; [done|].
  simpl. rewrite addPhrase_represented by (apply Hall; by left).
  apply IH. intros q Hq. apply Hall. by right.
Qed.

Lemma Exists_existsb (f : string → bool) (l : list string) :
  Exists (λ x, f x = true) l → existsb f l = true.
Proof.
  induction 1 as [x l Hx|x l _ IH]; simpl; [by rewrite Hx|].
  rewrite IH. apply orb_true_r.
Qed.

Lemma identityLine_matches (phrase : string) :
  isQuotedBody phrase = true → matchLine (identityLine phrase) = Some (phrase, phrase).
Proof.
  intros Hp.
  replace (identityLine phrase)
    with (quoted phrase +:+ " " +:+ "=" +:+ " " +:+ quoted phrase +:+ ";" +:+ "").
  - by apply matchLine_complete.
  - unfold identityLine, quoted. by rewrite !app_assoc_str, app_empty_r.
Qed.

Lemma identityLine_singleLine (phrase : string) :
  singleLine phrase = true → singleLine (identityLine phrase) = true.
Proof.
  intros Hp. unfold identityLine. rewrite !singleLine_app, Hp. reflexivity.
Qed.

(** The appended lines are new: none of them is a retained line or an
    earlier appended line. *)
Lemma appended_lines_distinct (set chosen : list string) :
  NoDup set →
  (∀ before p after, chosen = before ++ p :: after →
     Forall (λ l, represents p l = false) (set ++ (identityLine <$> before))) →
  NoDup (set ++ (identityLine <$> chosen)).
Proof.
  intros Hset. induction chosen as [|p chosen IH] using rev_ind; intros Honly.
  - simpl. by rewrite app_nil_r.
  - rewrite fmap_app, app_assoc. simpl. apply NoDup_app. split; [|split].
    + apply IH. intros before q after ->.
      specialize (Honly before q (after ++ [p])).
      rewrite <- app_assoc in Honly. by apply Honly.
    + intros l Hl ->%list_elem_of_singleton.
      specialize (Honly chosen p [] eq_refl). rewrite Forall_forall in Honly.
      specialize (Honly _ Hl). simpl in Honly.
      pose proof (identityLine_represents p) as Hrep.
      unfold represents in Honly. congruence.
    + apply NoDup_singleton.
Qed.

Lemma existingLines_singleLine (existingContent : option string) :
  Forall (λ l, singleLine l = true) (existingLines existingContent).
Proof.
  destruct (existingLines_spec existingContent) as (_ & _ & Hsub & _).
  eapply Forall_sublist_of; [exact Hsub|]. unfold linesOf.
  destruct existingContent as [content|]; [|done].
  destruct (decide (content = EmptyString)); [done|]. apply splitOn_singleLine.
Qed.

End PhraseRegeneration.

(** X2. Regenerating the phrase table is stable. When every new phrase is made
    of plain characters and escapes and holds no line feed, merging the same
    phrases into the text that a merge returned gives that text again,
    whatever the table the first merge started from. *)
Theorem mergeAppShortcutsStrings_idempotent
    (newPhrases : list string) (existingContent : option string) :
  Forall (λ p, isQuotedBody p = true ∧ singleLine p = true) newPhrases →
  mergeAppShortcutsStrings newPhrases
    (Some (mergeAppShortcutsStrings newPhrases existingContent))
  = mergeAppShortcutsStrings newPhrases existingContent.
Proof.
  intros Hphrases. unfold mergeAppShortcutsStrings at 1 3.
  destruct (foldl_addPhrase_spec newPhrases (existingLines existingContent))
    as (chosen & Heq & Hsub & Honly & Hall).
  destruct (existingLines_spec existingContent) as (Hin & Hnd & _ & _).
  unfold mergeAppShortcutsStrings. rewrite Heq.
  assert (Forall (λ p, isQuotedBody p = true ∧ singleLine p = true) chosen) as Hchosen
    by by eapply Forall_sublist_of.
  rewrite existingLines_join.
  - f_equal. apply foldl_addPhrase_represented. intros p Hp.
    by apply Exists_existsb, Hall.
  - apply Forall_app. split.
    + apply Forall_forall. intros l Hl. by apply Hin.
    + apply Forall_fmap, (Forall_impl _ _ _ Hchosen). intros p [Hp _]. simpl.
      exists (p, p). by apply identityLine_matches.
  - apply Forall_app. split; [apply existingLines_singleLine|].
    apply Forall_fmap, (Forall_impl _ _ _ Hchosen). intros p [_ Hp]. simpl.
    by apply identityLine_singleLine.
  - by apply appended_lines_distinct.
Qed.

(** The theorem at a table with a translated line, merged with two
    phrases. *)
Lemma mergeAppShortcutsStrings_idempotent_witness :
  mergeAppShortcutsStrings ["Start"; "Pause"]
    (Some (mergeAppShortcutsStrings ["Start"; "Pause"]
             (Some (quoted "Start" +:+ " = " +:+ quoted "Begin" +:+ ";"))))
  = mergeAppShortcutsStrings ["Start"; "Pause"]
      (Some (quoted "Start" +:+ " = " +:+ quoted "Begin" +:+ ";")).
Proof.
  apply (mergeAppShortcutsStrings_idempotent ["Start"; "Pause"]).
  repeat constructor.
Defined.

Section FreshPhraseTable.

Lemma appendNew_fresh (added phrases : list string) :
  NoDup (added ++ phrases) → appendNew [] added phrases = added ++ phrases.
Proof.
  revert added. induction phrases as [|p ps IH]; intros added Hnd; simpl.
  - by rewrite app_nil_r.
  - rewrite decide_False.
    + rewrite IH; rewrite <- app_assoc; done.
    + intros [Hin|Hin]; [by apply elem_of_nil in Hin|].
      apply NoDup_app in Hnd as (_ & Hdisj & _). apply (Hdisj p Hin). by left.
Qed.

End FreshPhraseTable.

(** X3. Without an existing table (absent or empty), merging distinct phrases
    that hold no quote and no backslash gives the table that
    [generateAppShortcutsStrings] writes for them: one identity line per
    phrase, in the order of the phrases. *)
Theorem mergeAppShortcutsStrings_fresh (phrases : list string) :
  NoDup phrases → Forall (λ p, plainPhrase p = true) phrases →
  mergeAppShortcutsStrings phrases None = generateAppShortcutsStrings phrases
  ∧ mergeAppShortcutsStrings phrases (Some EmptyString)
    = generateAppShortcutsStrings phrases.
Proof.
  intros Hnd Hplain.
  assert (foldl addPhrase [] phrases = identityLine <$> phrases) as Hloop.
  { pose proof (foldl_addPhrase_plain phrases [] [] (Forall_nil_2 _)
                  (Forall_nil_2 _) Hplain) as Hloop.
    simpl in Hloop. rewrite Hloop. by rewrite appendNew_fresh. }
  unfold mergeAppShortcutsStrings, generateAppShortcutsStrings. simpl.
  by rewrite Hloop.
Qed.

Lemma mergeAppShortcutsStrings_fresh_witness :
  mergeAppShortcutsStrings ["Start timer in ${applicationName}"; "Stop"] None
  = generateAppShortcutsStrings ["Start timer in ${applicationName}"; "Stop"]
  ∧ mergeAppShortcutsStrings ["Start timer in ${applicationName}"; "Stop"]
      (Some EmptyString)
    = generateAppShortcutsStrings ["Start timer in ${applicationName}"; "Stop"].
Proof.
  apply (mergeAppShortcutsStrings_fresh ["Start timer in ${applicationName}"; "Stop"]).
  - apply NoDup_cons. split; [|apply NoDup_singleton].
    intros H%list_elem_of_singleton. discriminate.
  - repeat constructor.
Defined.

(** ** Regenerating the localization catalog *)

Section CatalogRegeneration.

Variable JSON_parse : string → option JSON.
Variable JSON_stringify : JSON → string.

Lemma foldl_insert_fresh (entries : list (string * string))
    (acc : gmap string JSON) (k : string) :
  NoDup entries.*1 →
  foldl (λ (acc : gmap string JSON) (kv : string * string),
           if decide (kv.1 = "__proto__") then acc
           else <[kv.1 := freshEntry kv.2]> acc) acc entries !! k
  = match (delete "__proto__" (list_to_map entries) : gmap string string) !! k with
    | Some v => Some (freshEntry v)
    | None => acc !! k
    end.
Proof.
  revert acc. induction entries as [|[k0 v0] entries IH]; intros acc Hnd.
  { cbn. by rewrite delete_empty, lookup_empty. }
  simpl in Hnd. apply NoDup_cons in Hnd as [Hk0 Hnd].
  cbn [foldl list_to_map foldr fst snd]. rewrite (IH _ Hnd).
  destruct (decide (k = "__proto__")) as [->|Hproto].
  { rewrite !lookup_delete_eq. destruct (decide (k0 = "__proto__")); [done|].
    by rewrite lookup_insert_ne. }
  rewrite !lookup_delete_ne by done. cbn [uncurry].
  destruct (decide (k0 = k)) as [<-|Hne].
  - rewrite (not_elem_of_list_to_map_1 _ _ Hk0), lookup_insert_eq.
    rewrite decide_False by done. by rewrite lookup_insert_eq.
  - rewrite lookup_insert_ne by done.
    destruct (decide (k0 = "__proto__")); [done|]. by rewrite lookup_insert_ne.
Qed.

Lemma fresh_entries (strings : list (string * string)) :
  NoDup strings.*1 →
  foldl (λ (acc : gmap string JSON) (kv : string * string),
           if decide (kv.1 = "__proto__") then acc
           else <[kv.1 := freshEntry kv.2]> acc) ∅ strings
  = freshEntry <$> delete "__proto__" (list_to_map strings : gmap string string).
Proof.
  intros Hnd. apply map_eq. intros k.
  rewrite foldl_insert_fresh by done.
  rewrite lookup_fmap, lookup_empty.
  by destruct (delete "__proto__" (list_to_map strings : gmap string string) !! k).
Qed.

(** The source language and the version that the [try] block leaves are
    truthy: the defaults, or truthy values of the existing catalog. *)
Lemma tryLoad_truthy (catalog : Catalog) (text : string) :
  truthy (sourceLanguage catalog) = true → truthy (version catalog) = true →
  truthy (sourceLanguage (tryLoad JSON_parse catalog text).1) = true
  ∧ truthy (version (tryLoad JSON_parse catalog text).1) = true.
Proof.
  intros Hs Hv. unfold tryLoad.
  destruct (JSON_parse text) as [existing|]; [|done].
  destruct (getProp existing "strings") as [strs|]; [|done].
  assert (∀ c, truthy (sourceLanguage c) = true → truthy (version c) = true →
     truthy (sourceLanguage
       (match getProp existing "sourceLanguage" with
        | Throw e => (c, Some e)
        | Ok sl =>
            let catalog2 :=
              match sl with
              | Some v =>
                  if truthy v
                  then {| sourceLanguage := v; strings := strings c;
                          version := version c |}
                  else c
              | None => c
              end in
            match getProp existing "version" with
            | Throw e => (catalog2, Some e)
            | Ok ver =>
                (match ver with
                 | Some v =>
                     if truthy v
                     then {| sourceLanguage := sourceLanguage catalog2;
                             strings := strings catalog2; version := v |}
                     else catalog2
                 | None => catalog2
                 end, None)
            end
        end).1) = true
     ∧ truthy (version
       (match getProp existing "sourceLanguage" with
        | Throw e => (c, Some e)
        | Ok sl =>
            let catalog2 :=
              match sl with
              | Some v =>
                  if truthy v
                  then {| sourceLanguage := v; strings := strings c;
                          version := version c |}
                  else c
              | None => c
              end in
            match getProp existing "version" with
            | Throw e => (catalog2, Some e)
            | Ok ver =>
                (match ver with
                 | Some v =>
                     if truthy v
                     then {| sourceLanguage := sourceLanguage catalog2;
                             strings := strings catalog2; version := v |}
                     else catalog2
                 | None => catalog2
                 end, None)
            end
        end).1) = true) as Hrest.
  { intros c Hcs Hcv.
    destruct (getProp existing "sourceLanguage") as [[sl|]|]; [| |done].
    - destruct (truthy sl) eqn:Hsl;
        destruct (getProp existing "version") as [[ver|]|]; try done;
        destruct (truthy ver) eqn:Hver; done.
    - destruct (getProp existing "version") as [[ver|]|]; try done.
      by destruct (truthy ver) eqn:Hver. }
  destruct strs as [v|]; [destruct (truthy v)|]; by apply Hrest.
Qed.

Lemma loadExisting_truthy (existing : option string) :
  truthy (sourceLanguage (loadExisting JSON_parse existing)) = true
  ∧ truthy (version (loadExisting JSON_parse existing)) = true.
Proof.
  unfold loadExisting. destruct existing as [text|]; [|done].
  destruct (decide (text = EmptyString)); [done|]. by apply tryLoad_truthy.
Qed.

(** A catalog whose source language and version are truthy is read back
    from its own object. *)
Lemma loadExisting_catalogObject (catalog : Catalog) (text : string) :
  text ≠ EmptyString →
  JSON_parse text = Some (catalogObject catalog) →
  truthy (sourceLanguage catalog) = true → truthy (version catalog) = true →
  loadExisting JSON_parse (Some text) = catalog.
Proof.
  intros Hne Hparse Hs Hv. unfold loadExisting, tryLoad.
  rewrite decide_False by done. rewrite Hparse.
  assert (getProp (catalogObject catalog) "strings"
          = Ok (Some (JObject (strings catalog)))) as -> by reflexivity.
  assert (getProp (catalogObject catalog) "sourceLanguage"
          = Ok (Some (sourceLanguage catalog))) as -> by reflexivity.
  assert (getProp (catalogObject catalog) "version"
          = Ok (Some (version catalog))) as -> by reflexivity.
  cbn [truthy spread sourceLanguage strings version]. rewrite Hs, Hv.
  by destruct catalog.
Qed.

(** The update of an entry leaves an entry that the same update, when
    Object.prototype has at least what it had, leaves as it is. *)
Lemma updateEnglish_stable (inherited again : bool) (old entry unit : JSON) :
  (inherited = true → again = true) →
  truthy old = true →
  updateEnglish inherited old unit = Ok entry →
  truthy entry = true ∧ updateEnglish again entry unit = Ok entry.
Proof.
  intros Hle Hold. unfold updateEnglish at 1.
  destruct old as [|b|n|s|items|fields].
  - done.
  - destruct inherited; [|done]. intros [= <-]. by rewrite (Hle eq_refl).
  - destruct inherited; [|done]. intros [= <-]. by rewrite (Hle eq_refl).
  - destruct inherited; [|done]. intros [= <-]. by rewrite (Hle eq_refl).
  - by intros [= <-].
  - destruct (fields !! "localizations") as [l|] eqn:Hl.
    + destruct (truthy l) eqn:Ht.
      * rewrite Hl. destruct l as [|b|n|s|items|locs]; try done.
        -- intros [= <-]. split; [done|]. unfold updateEnglish. by rewrite Hl, Ht, Hl.
        -- intros [= <-]. split; [done|]. unfold updateEnglish.
           rewrite lookup_insert_eq. cbn [truthy]. rewrite lookup_insert_eq.
           by rewrite !insert_insert_eq.
      * rewrite lookup_insert_eq. intros [= <-]. split; [done|].
        unfold updateEnglish. rewrite lookup_insert_eq. cbn [truthy].
        rewrite lookup_insert_eq. by rewrite !insert_insert_eq.
    + destruct inherited.
      * rewrite Hl. intros [= <-]. split; [done|]. unfold updateEnglish.
        by rewrite Hl, (Hle eq_refl), Hl.
      * rewrite lookup_insert_eq. intros [= <-]. split; [done|].
        unfold updateEnglish. rewrite lookup_insert_eq. cbn [truthy].
        rewrite lookup_insert_eq. by rewrite !insert_insert_eq.
Qed.

Lemma inheritedKey_mono (inherited again : bool) (key : string) :
  (inherited = true → again = true) →
  inheritedKey inherited key = true → inheritedKey again key = true.
Proof.
  intros Hle. unfold inheritedKey. destruct inherited; [by rewrite (Hle eq_refl)|].
  cbn. rewrite orb_false_r. intros ->. done.
Qed.

(** One iteration leaves an entry that a second iteration with the same
    value leaves as it is. *)
Lemma mergedEntry_stable (inherited again : bool) (key value : string)
    (found left : option JSON) :
  (inherited = true → again = true) →
  mergedEntry inherited key value found = Ok left →
  mergedEntry again key value left = Ok left.
Proof.
  intros Hle.
  assert (mergedEntry again key value (Some (freshEntry value))
          = Ok (Some (freshEntry value))) as Hfresh.
  { by destruct again. }
  unfold mergedEntry at 1. destruct found as [old|].
  - destruct (truthy old) eqn:Hold; [|by intros [= <-]].
    destruct (updateEnglish inherited old (englishUnit value)) as [entry|] eqn:Hup;
      [|done].
    intros [= <-].
    destruct (updateEnglish_stable _ again _ _ _ Hle Hold Hup) as [Ht Hagain].
    unfold mergedEntry. by rewrite Ht, Hagain.
  - destruct (inheritedKey inherited key) eqn:Hkey; [|by intros [= <-]].
    intros [= <-]. unfold mergedEntry.
    by rewrite (inheritedKey_mono _ _ _ Hle Hkey).
Qed.

(** A catalog that every iteration leaves as it is. *)
Lemma mergeLoop_fixed (entries : list (string * string)) (inherited : bool)
    (strs : gmap string JSON) :
  NoDup entries.*1 →
  (∀ before k v after, entries = before ++ (k, v) :: after →
     mergedEntry (inheritedAfter inherited strs before.*1) k v (strs !! k)
     = Ok (strs !! k)) →
  mergeLoop entries inherited strs
  = (Ok strs, inheritedAfter inherited strs entries.*1).
Proof.
  revert inherited.
  induction entries as [|[key value] entries IH]; intros inherited Hnd Hall.
  - cbn. by rewrite inheritedAfter_nil.
  - cbn [fmap list_fmap fst] in Hnd. apply NoDup_cons in Hnd as [Hkey Hnd].
    pose proof (Hall [] key value entries eq_refl) as Hfirst.
    rewrite inheritedAfter_nil in Hfirst.
    assert ((mergeEntry inherited strs (key, value)).1 = Ok strs) as Hstep.
    { rewrite mergeEntry_mergedEntry, Hfirst. cbn [fst].
      destruct (strs !! key) as [entry|] eqn:Hentry; [|done].
      by rewrite insert_id. }
    rewrite mergeLoop_cons, Hfirst.
    assert (mergeLoop entries (inheritedAfter inherited strs [key]) strs
            = (Ok strs, inheritedAfter inherited strs (key :: entries.*1))) as Hrest.
    { rewrite <- (inheritedAfter_cons _ _ _ _ value _ Hkey Hstep).
      apply IH; [done|]. intros before k v after Heq.
      assert (key ∉ before.*1) as Hk0.
      { intros Hin. apply Hkey. rewrite Heq, fmap_app, elem_of_app. by left. }
      rewrite (inheritedAfter_cons _ _ _ _ value _ Hk0 Hstep).
      apply (Hall ((key, value) :: before) k v after). by rewrite Heq. }
    destruct (strs !! key) as [entry|] eqn:Hentry; [|done].
    by rewrite insert_id.
Qed.

Lemma mergeLoop_own_proto (entries : list (string * string)) (inherited : bool)
    (strs strs' : gmap string JSON) (inherited' : bool) :
  mergeLoop entries inherited strs = (Ok strs', inherited') →
  bool_decide (strs' !! "__proto__" = None) = bool_decide (strs !! "__proto__" = None).
Proof.
  revert inherited strs.
  induction entries as [|[key value] entries IH]; intros inherited strs Hrun.
  - cbn in Hrun. by injection Hrun as <- <-.
  - cbn [mergeLoop] in Hrun.
    destruct (mergeEntry inherited strs (key, value)) as [[strs1|] inh1] eqn:Hstep;
      [|done].
    rewrite (IH _ _ Hrun). apply (mergedEntry_own_proto inherited _ _ key value).
    by rewrite Hstep.
Qed.

(** The second run of the loop, on the entries that a first run left. *)
Lemma mergeLoop_stable (entries : list (string * string)) (inherited again : bool)
    (strs strs' : gmap string JSON) (inherited' : bool) :
  NoDup entries.*1 →
  (inherited = true → again = true) →
  mergeLoop entries inherited strs = (Ok strs', inherited') →
  mergeLoop entries again strs' = (Ok strs', again || inherited').
Proof.
  intros Hnd Hle Hrun.
  destruct (mergeLoop_spec _ _ _ _ _ Hnd Hrun) as (Hinh & _ & Hall).
  pose proof (mergeLoop_own_proto _ _ _ _ _ Hrun) as Hproto.
  rewrite (mergeLoop_fixed entries again strs' Hnd).
  - f_equal. rewrite Hinh. unfold inheritedAfter. rewrite Hproto.
    destruct inherited; [by rewrite (Hle eq_refl)|]. done.
  - intros before k v after Heq.
    apply (mergedEntry_stable (inheritedAfter inherited strs before.*1) _ _ _
             (strs !! k)); [|by eapply Hall].
    unfold inheritedAfter. rewrite Hproto.
    destruct inherited; [by rewrite (Hle eq_refl)|]. cbn.
    intros ->. apply orb_true_r.
Qed.

(** X4. Regenerating the catalog is stable. When a merge returned a catalog and
    [JSON.parse] reads the text of that catalog back (the empty text is
    never the text of an object), merging the same strings into that text
    returns the same text: in the process of the first merge, and in any
    other whose Object.prototype has at least what it had when the first
    merge began. *)
Theorem mergeStringCatalog_idempotent
    (inherited : bool) (newStrings : list (string * string))
    (existing : option string) (catalog : Catalog) (inherited' : bool) :
  NoDup newStrings.*1 →
  mergeCatalog JSON_parse inherited newStrings existing = (Ok catalog, inherited') →
  JSON_stringify (catalogObject catalog) ≠ EmptyString →
  JSON_parse (JSON_stringify (catalogObject catalog)) = Some (catalogObject catalog) →
  mergeStringCatalog JSON_parse JSON_stringify inherited newStrings existing
  = (Ok (JSON_stringify (catalogObject catalog)), inherited')
  ∧ ∀ again, (inherited = true → again = true) →
      mergeStringCatalog JSON_parse JSON_stringify again newStrings
        (Some (JSON_stringify (catalogObject catalog)))
      = (Ok (JSON_stringify (catalogObject catalog)), again || inherited').
Proof.
  intros Hnd Hcat Hne Hparse. split; [by apply mergeStringCatalog_of_catalog|].
  intros again Hle.
  apply mergeStringCatalog_of_catalog.
  destruct (mergeCatalog_inv _ _ _ _ _ _ Hcat) as (Hrun & Hs & Hv).
  destruct (loadExisting_truthy existing) as [Hts Htv].
  rewrite <- Hs in Hts. rewrite <- Hv in Htv.
  unfold mergeCatalog.
  rewrite (loadExisting_catalogObject catalog _ Hne Hparse Hts Htv).
  rewrite (mergeLoop_stable _ _ _ _ _ _ Hnd Hle Hrun). by destruct catalog.
Qed.

(** X5. [generateStringCatalog] writes the catalog with source language en,
    version 1.0 and one fresh entry per string, except for a string named
    [__proto__], which gets none. When no string has the name of a member of
    Object.prototype, and Object.prototype has no [localizations], this is
    what [mergeStringCatalog] writes when there is no catalog to merge with
    (no text, or the empty text). For a string named toString the two differ:
    the generated catalog has its entry, the merged one has not. *)
Theorem generateStringCatalog_is_fresh_merge (newStrings : list (string * string)) :
  NoDup newStrings.*1 →
  let unit (value : string) :=
    JObject {[ "stringUnit" :=
      JObject (<["state" := JString "translated"]> {[ "value" := JString value ]}) ]} in
  let fresh (value : string) :=
    JObject (<["extractionState" := JString "manual"]>
            {[ "localizations" := JObject {[ "en" := unit value ]} ]}) in
  generateStringCatalog JSON_stringify newStrings
  = JSON_stringify
      (catalogObject
         {| sourceLanguage := JString "en";
            strings := fresh <$> delete "__proto__"
                                   (list_to_map newStrings : gmap string string);
            version := JString "1.0" |})
  ∧ ((∀ k, k ∈ newStrings.*1 → k ∉ objectPrototypeNames) →
     mergeStringCatalog JSON_parse JSON_stringify false newStrings None
     = (Ok (generateStringCatalog JSON_stringify newStrings), false)
     ∧ mergeStringCatalog JSON_parse JSON_stringify false newStrings
         (Some EmptyString)
       = (Ok (generateStringCatalog JSON_stringify newStrings), false))
  ∧ generateStringCatalog JSON_stringify [("toString", "T")]
    = JSON_stringify
        (catalogObject {| sourceLanguage := JString "en";
                          strings := {[ "toString" := fresh "T" ]};
                          version := JString "1.0" |})
  ∧ mergeStringCatalog JSON_parse JSON_stringify false [("toString", "T")] None
    = (Ok (JSON_stringify
             (catalogObject {| sourceLanguage := JString "en";
                               strings := ∅;
                               version := JString "1.0" |})), false).
Proof.
  intros Hnd unit fresh.
  assert (generateStringCatalog JSON_stringify newStrings
          = JSON_stringify
              (catalogObject
                 {| sourceLanguage := JString "en";
                    strings := fresh <$> delete "__proto__"
                                 (list_to_map newStrings : gmap string string);
                    version := JString "1.0" |})) as Hgen.
  { unfold generateStringCatalog. by rewrite fresh_entries. }
  split; [exact Hgen|]. split; [|split; reflexivity].
  intros Hnames.
  assert (delete "__proto__" (list_to_map newStrings : gmap string string)
          = list_to_map newStrings) as Hdel.
  { apply delete_id, not_elem_of_list_to_map_1. intros Hin.
    by apply (Hnames _ Hin), proto_inherited. }
  rewrite Hgen, Hdel.
  destruct (mergeLoop_fresh false newStrings Hnd)
    as (entries & inherited' & Hrun & _ & _ & Hexact).
  destruct (Hexact eq_refl Hnames) as [-> ->].
  split; unfold mergeStringCatalog, mergeCatalog; cbn [loadExisting];
    rewrite ?decide_True by done; cbn [strings baseCatalog]; by rewrite Hrun.
Qed.









(** X7. The source language and the version of an existing catalog survive the
    merge when they are truthy, and are en and 1.0 otherwise; the catalog
    that is written has these two fields and [strings], and no other
    top-level field of the existing catalog. *)
Theorem mergeStringCatalog_metadata
    (inherited : bool) (newStrings : list (string * string)) (text : string)
    (top : gmap string JSON) (catalog : Catalog) (inherited' : bool) :
  text ≠ EmptyString →
  JSON_parse text = Some (JObject top) →
  mergeCatalog JSON_parse inherited newStrings (Some text)
  = (Ok catalog, inherited') →
  sourceLanguage catalog
  = match top !! "sourceLanguage" with
    | Some v => if truthy v then v else JString "en"
    | None => JString "en"
    end
  ∧ version catalog
    = match top !! "version" with
      | Some v => if truthy v then v else JString "1.0"
      | None => JString "1.0"
      end
  ∧ ∃ fields, catalogObject catalog = JObject fields
              ∧ dom fields = {[ "sourceLanguage"; "strings"; "version" ]}.
Proof.
  intros Hne Hparse Hcat.
  apply mergeCatalog_inv in Hcat as (_ & -> & ->).
  unfold loadExisting, tryLoad. rewrite decide_False by done. rewrite Hparse.
  cbn [getProp]. split; [|split].
  - destruct (top !! "strings") as [s|]; [destruct (truthy s)|];
      destruct (top !! "sourceLanguage") as [sl|]; try destruct (truthy sl);
      destruct (top !! "version") as [ver|]; try destruct (truthy ver); done.
  - destruct (top !! "strings") as [s|]; [destruct (truthy s)|];
      destruct (top !! "sourceLanguage") as [sl|]; try destruct (truthy sl);
      destruct (top !! "version") as [ver|]; try destruct (truthy ver); done.
  - eexists. split; [reflexivity|]. rewrite !dom_insert_L, dom_empty_L.
    set_solver.
Qed.

End CatalogRegeneration.

(** ** Phrase keys *)

Section PhraseKeys.

Lemma replaceApplicationName_unfold (phrase : string) :
  replaceApplicationName phrase =
  match phrase with
  | EmptyString => EmptyString
  | String c s' =>
      match matchApplicationName phrase with
      | Some rest => applicationNameKey +:+ replaceApplicationName rest
      | None => String c (replaceApplicationName s')
      end
  end.
Proof.
  funelim (replaceApplicationName phrase); [done| |].
  - match goal with H : matchApplicationName _ = Some _ |- _ => by rewrite H end.
  - match goal with H : matchApplicationName _ = None |- _ => by rewrite H end.
Qed.

Lemma stripPrefix_spec (p s rest : string) :
  stripPrefix p s = Some rest → s = p +:+ rest.
Proof.
  revert s. induction p as [|a p IH]; intros [|b s]; simpl; try done.
  - by intros [= <-].
  - by intros [= <-].
  - destruct (Ascii.eqb_spec a b) as [->|]; [|done]. intros H%IH. by rewrite H.
Qed.

(** The nonempty suffixes of a text. *)
Fixpoint tails (p : string) : list string :=
  match p with
  | EmptyString => []
  | String _ p' => p :: tails p'
  end.

(** A prefix found in a concatenation lies in the first part, or ends in
    the second part. *)
Lemma stripPrefix_app_inv (p x y rest : string) :
  stripPrefix p (x +:+ y) = Some rest →
  (∃ rest', stripPrefix p x = Some rest')
  ∨ (∃ p', p' ∈ tails p ∧ stripPrefix p' y = Some rest).
Proof.
  revert x. induction p as [|a p IH]; intros x Hp.
  { left. by exists x. }
  destruct x as [|b x].
  { right. exists (String a p). split; [by left|]. by rewrite app_empty_l in Hp. }
  rewrite app_cons in Hp. cbn [stripPrefix] in *.
  destruct (Ascii.eqb a b); [|done].
  destruct (IH x Hp) as [Hl|(p' & Hin & Hp')]; [by left|].
  right. exists p'. split; [by right|done].
Qed.

Lemma matchApplicationName_inv (s rest : string) :
  matchApplicationName s = Some rest →
  stripPrefix (bs +:+ applicationNameToken) s = Some rest
  ∨ stripPrefix applicationNameToken s = Some rest.
Proof.
  unfold matchApplicationName.
  destruct (stripPrefix (bs +:+ applicationNameToken) s); [|by right].
  intros [= <-]. by left.
Qed.

Lemma includes_cons_false (needle : string) (c : ascii) (hay : string) :
  includes needle (String c hay) = false → includes needle hay = false.
Proof. rewrite includes_unfold. by intros [_ ?]%orb_false_iff. Qed.

(** A match of the token names the application. *)
Lemma matchApplicationName_includes (s rest : string) :
  matchApplicationName s = Some rest → includes "applicationName" s = true.
Proof.
  intros [H|H]%matchApplicationName_inv; apply stripPrefix_spec in H as ->.
  - apply (includes_app "applicationName" (bs +:+ "(.") (")" +:+ rest)).
  - apply (includes_app "applicationName" "(." (")" +:+ rest)).
Qed.

(** The phrase of the registration entry of a phrase that does not name the
    application: no match of the token starts inside the phrase. *)
Lemma matchApplicationName_appended (c : ascii) (p : string) :
  includes "applicationName" (String c p) = false →
  matchApplicationName
    (String c p +:+ " in " +:+ bs +:+ applicationNameToken) = None.
Proof.
  intros Hno.
  destruct (matchApplicationName _) as [rest|] eqn:Hm; [|done].
  assert (∀ pat, pat ∈ [bs +:+ applicationNameToken; applicationNameToken] →
            stripPrefix pat (String c p +:+ " in " +:+ bs +:+ applicationNameToken)
            ≠ Some rest) as Hnone.
  { intros pat Hpat Hp.
    apply stripPrefix_app_inv in Hp as [[rest' Hin]|(p' & Hin & Hp')].
    - assert (matchApplicationName (String c p) = Some rest') as Hc.
      { unfold matchApplicationName.
        apply elem_of_cons in Hpat as [->|Hpat]; [by rewrite Hin|].
        apply list_elem_of_singleton in Hpat as ->.
        destruct (stripPrefix (bs +:+ applicationNameToken) (String c p)) eqn:Hb;
          [|done].
        exfalso. apply stripPrefix_spec in Hb, Hin. rewrite Hb in Hin.
        discriminate. }
      apply matchApplicationName_includes in Hc. congruence.
    - assert (Forall (λ t, stripPrefix t (" in " +:+ bs +:+ applicationNameToken)
                           = None)
                (tails (bs +:+ applicationNameToken))) as Htails.
      { repeat constructor. }
      rewrite Forall_forall in Htails.
      assert (p' ∈ tails (bs +:+ applicationNameToken)) as Hin'.
      { apply elem_of_cons in Hpat as [->|Hpat]; [done|].
        apply list_elem_of_singleton in Hpat as ->. by right. }
      rewrite (Htails p' Hin') in Hp'. done. }
  apply matchApplicationName_inv in Hm as [Hm|Hm].
  - destruct (Hnone (bs +:+ applicationNameToken)); [by left|done].
  - destruct (Hnone applicationNameToken); [by right; left|done].
Qed.

Lemma replaceApplicationName_appended (phrase : string) :
  includes "applicationName" phrase = false →
  replaceApplicationName (phrase +:+ " in " +:+ bs +:+ applicationNameToken)
  = phrase +:+ " in " +:+ applicationNameKey.
Proof.
  induction phrase as [|c p IH]; intros Hno; [reflexivity|].
  rewrite replaceApplicationName_unfold.
  rewrite (matchApplicationName_appended c p Hno). rewrite app_cons.
  rewrite IH; [done|]. by eapply includes_cons_false.
Qed.

(** A character that starts no match. *)
Lemma matchApplicationName_other (c : ascii) (s : string) :
  Ascii.eqb backslash c = false → Ascii.eqb "(" c = false →
  matchApplicationName (String c s) = None.
Proof.
  intros Hb Hp. unfold matchApplicationName.
  change (bs +:+ applicationNameToken) with (String backslash applicationNameToken).
  change applicationNameToken with (String "(" ".applicationName)").
  cbn [stripPrefix]. by rewrite Hb, Hp.
Qed.

Lemma replaceApplicationName_keeps_word (w s : string) :
  forallb (λ c, negb (Ascii.eqb backslash c) && negb (Ascii.eqb "(" c))
          (list_ascii_of_string w) = true →
  startsWith w s = true → startsWith w (replaceApplicationName s) = true.
Proof.
  revert s. induction w as [|a w IH]; intros s Hw Hs; [by destruct (replaceApplicationName s)|].
  destruct s as [|b s]; [done|].
  apply startsWith_cons in Hs as [<- Hs]. simpl in Hw.
  apply andb_true_iff in Hw as [[Hb%negb_true_iff Hp%negb_true_iff]%andb_true_iff Hw].
  rewrite replaceApplicationName_unfold, (matchApplicationName_other a s Hb Hp).
  apply startsWith_cons. split; [done|]. by apply IH.
Qed.

Lemma replaceApplicationName_includes (s : string) :
  includes "applicationName" s = true →
  includes "applicationName" (replaceApplicationName s) = true.
Proof.
  remember (String.length s) as n eqn:Hn. revert s Hn.
  induction (lt_wf n) as [n _ IH]. intros s -> Hs.
  destruct s as [|c s]; [done|].
  rewrite replaceApplicationName_unfold.
  destruct (matchApplicationName (String c s)) as [rest|] eqn:Hm.
  - apply (includes_app "applicationName" "${" ("}" +:+ replaceApplicationName rest)).
  - rewrite includes_unfold in Hs. apply orb_true_iff in Hs as [Hs|Hs].
    + assert (replaceApplicationName (String c s)
              = String c (replaceApplicationName s)) as Heq.
      { by rewrite replaceApplicationName_unfold, Hm. }
      rewrite <- Heq, includes_unfold. apply orb_true_iff. left.
      by apply replaceApplicationName_keeps_word.
    + apply includes_cons. by apply (IH (String.length s) ltac:(simpl; lia) s).
Qed.

Lemma phraseKey_includes (phrase : string) :
  includes "applicationName" (phraseKey phrase) = true.
Proof.
  unfold phraseKey. destruct (includes "applicationName" phrase) eqn:Hp.
  - by apply replaceApplicationName_includes.
  - replace (phrase +:+ " in " +:+ applicationNameKey)
      with ((phrase +:+ " in ${") +:+ "applicationName" +:+ "}")
      by by rewrite !app_assoc_str.
    apply includes_app.
Qed.

End PhraseKeys.

(** X8. Every key of the phrase table names the application, and the keys are
    the keys of the phrases of the shortcuts, in the order of the
    configuration (none is dropped, none is added). *)
Theorem extractAppShortcutsPhrases_name_application (config : ShortcutsConfig) :
  Forall (λ key, includes "applicationName" key = true)
         (extractAppShortcutsPhrases config)
  ∧ extractAppShortcutsPhrases config
    = phraseKey <$> concat (phrases <$> shortcuts config).
Proof.
  assert (extractAppShortcutsPhrases config
          = phraseKey <$> concat (phrases <$> shortcuts config)) as Heq.
  { unfold extractAppShortcutsPhrases.
    induction (shortcuts config) as [|shortcut l IH]; [done|].
    simpl. rewrite fmap_app. by f_equal. }
  split; [|done]. rewrite Heq. apply Forall_fmap, Forall_forall.
  intros phrase _. apply phraseKey_includes.
Qed.

(** X9. The key of a phrase is the phrase that the registration entry gives to
    Siri, with the application-name token in its key form. For a phrase that
    escaping leaves as it is, the registration entry quotes a Swift phrase
    and the key is that phrase after the replacement. *)
Theorem phraseKey_of_registrationPhrase (phrase : string) :
  escapeForSwift phrase = phrase →
  ∃ swiftPhrase,
    registrationPhrase phrase = quoted swiftPhrase
    ∧ phraseKey phrase = replaceApplicationName swiftPhrase.
Proof.
  intros Hplain. unfold registrationPhrase, phraseKey. rewrite Hplain.
  destruct (includes "applicationName" phrase) eqn:Hp.
  - by exists phrase.
  - exists (phrase +:+ " in " +:+ bs +:+ applicationNameToken). split.
    + unfold quoted, applicationNameToken. by rewrite !app_assoc_str.
    + by rewrite (replaceApplicationName_appended phrase Hp).
Qed.

Lemma phraseKey_of_registrationPhrase_witness :
  ∃ swiftPhrase,
    registrationPhrase "Start timer" = quoted swiftPhrase
    ∧ phraseKey "Start timer" = replaceApplicationName swiftPhrase.
Proof. apply (phraseKey_of_registrationPhrase "Start timer"). reflexivity. Defined.

(** ** The keys that the generated code looks up *)

Section LocalizedKeys.

Variable toLowerCase : string → string.

(** A fold whose steps keep a property, once one step has made it hold. *)
Lemma foldl_established {A S : Type} (f : S → A → S) (P : S → Prop)
    (l : list A) (x : A) (s : S) :
  x ∈ l → (∀ s', P (f s' x)) → (∀ s' y, P s' → P (f s' y)) → P (foldl f s l).
Proof.
  intros Hin Hx Hkeep. revert s.
  induction l as [|y l IH]; intros s; [by apply elem_of_nil in Hin|].
  cbn [foldl]. apply elem_of_cons in Hin as [<-|Hin]; [|by apply IH].
  generalize (Hx s). generalize (f s x). clear IH.
  induction l as [|z l IH]; intros s' Hs'; [done|]. cbn [foldl]. by apply IH, Hkeep.
Qed.

Lemma foldl_kept {A S : Type} (f : S → A → S) (P : S → Prop) (l : list A) (s : S) :
  P s → (∀ s' y, P s' → P (f s' y)) → P (foldl f s l).
Proof.
  intros Hs Hkeep. revert s Hs.
  induction l as [|y l IH]; intros s Hs; [done|]. cbn [foldl]. by apply IH, Hkeep.
Qed.

Lemma is_Some_insert_kept (k k' v : string) (strings : gmap string string) :
  is_Some (strings !! k) → is_Some (<[k' := v]> strings !! k).
Proof.
  intros H. destruct (decide (k' = k)) as [->|Hne].
  - rewrite lookup_insert_eq. by eexists.
  - by rewrite lookup_insert_ne.
Qed.

Lemma parameterStrings_kept (id k : string) (strings : gmap string string)
    (entry : nat * ShortcutParameter) :
  is_Some (strings !! k) → is_Some (parameterStrings toLowerCase id strings entry !! k).
Proof.
  intros H. destruct entry as [index param]. unfold parameterStrings.
  destruct (truthyString (param_description param));
    by repeat apply is_Some_insert_kept.
Qed.

Lemma dialogStrings_kept (id k : string) (strings : gmap string string)
    (entry : nat * StateDialog) :
  is_Some (strings !! k) → is_Some (dialogStrings id strings entry !! k).
Proof.
  intros H. destruct entry as [index dialog]. by apply is_Some_insert_kept.
Qed.

Lemma shortcutStrings_kept (k : string) (strings : gmap string string)
    (shortcut : ShortcutDefinition) :
  is_Some (strings !! k) → is_Some (shortcutStrings toLowerCase strings shortcut !! k).
Proof.
  intros H. unfold shortcutStrings.
  apply (foldl_kept _ (λ s, is_Some (s !! k))); [|intros; by apply dialogStrings_kept].
  apply (foldl_kept _ (λ s, is_Some (s !! k)));
    [|intros; by apply parameterStrings_kept].
  destruct (truthyString (description shortcut));
    by repeat apply is_Some_insert_kept.
Qed.

Lemma is_Some_insert_eq (k v : string) (strings : gmap string string) :
  is_Some (<[k := v]> strings !! k).
Proof. rewrite lookup_insert_eq. by eexists. Qed.

(** The keys that one shortcut contributes. *)
Definition shortcutKey (shortcut : ShortcutDefinition) (k : string) : Prop :=
  let id := identifier shortcut in
  k = id +:+ ".title"
  ∨ (truthyString (description shortcut) = true ∧ k = id +:+ ".description")
  ∨ (∃ index param,
       default [] (parameters shortcut) !! index = Some param
       ∧ (k = id +:+ ".parameters." +:+ pretty index +:+ ".title"
          ∨ k = id +:+ ".parameters." +:+ pretty index +:+ ".prompt"
          ∨ (truthyString (param_description param) = true
             ∧ k = id +:+ ".parameters." +:+ pretty index +:+ ".description")))
  ∨ (∃ index dialog,
       default [] (stateDialogs shortcut) !! index = Some dialog
       ∧ k = dialogLocalizationKey id index).

Lemma shortcutStrings_established (k : string) (strings : gmap string string)
    (shortcut : ShortcutDefinition) :
  shortcutKey shortcut k →
  is_Some (shortcutStrings toLowerCase strings shortcut !! k).
Proof.
  unfold shortcutKey, shortcutStrings. cbv zeta.
  intros [->|[[Hd ->]|[(index & param & Hi & Hk)|(index & dialog & Hi & ->)]]].
  - apply (foldl_kept _ (λ s, is_Some (s !! _))); [|intros; by apply dialogStrings_kept].
    apply (foldl_kept _ (λ s, is_Some (s !! _)));
      [|intros; by apply parameterStrings_kept].
    destruct (truthyString (description shortcut));
      [apply is_Some_insert_kept|]; apply is_Some_insert_eq.
  - apply (foldl_kept _ (λ s, is_Some (s !! _))); [|intros; by apply dialogStrings_kept].
    apply (foldl_kept _ (λ s, is_Some (s !! _)));
      [|intros; by apply parameterStrings_kept].
    rewrite Hd. apply is_Some_insert_eq.
  - apply (foldl_kept _ (λ s, is_Some (s !! _))); [|intros; by apply dialogStrings_kept].
    apply (foldl_established _ (λ s, is_Some (s !! k)) _ (index, param)).
    + apply elem_of_lookup_imap. by exists index, param.
    + intros s'. unfold parameterStrings.
      destruct Hk as [->|[->|[Hd ->]]].
      * apply is_Some_insert_kept.
        destruct (truthyString (param_description param));
          [apply is_Some_insert_kept|]; apply is_Some_insert_eq.
      * apply is_Some_insert_eq.
      * rewrite Hd. apply is_Some_insert_kept, is_Some_insert_eq.
    + intros; by apply parameterStrings_kept.
  - apply (foldl_established _ (λ s, is_Some (s !! _)) _ (index, dialog)).
    + apply elem_of_lookup_imap. by exists index, dialog.
    + intros s'. apply is_Some_insert_eq.
    + intros; by apply dialogStrings_kept.
Qed.

(** The keys of the shortcuts of a configuration and the two system keys
    are keys of the strings that are extracted for the catalog. *)
Lemma extractLocalizableStrings_present
    (config : ShortcutsConfig) (shortcut : ShortcutDefinition) (k : string) :
  shortcut ∈ shortcuts config →
  shortcutKey shortcut k ∨ k = "system.timeout" ∨ k = "system.error.appGroupFailed" →
  is_Some (extractLocalizableStrings toLowerCase config !! k).
Proof.
  unfold extractLocalizableStrings.
  intros Hin [Hk|[-> | ->]].
  - do 2 apply is_Some_insert_kept.
    apply (foldl_established _ (λ s, is_Some (s !! k)) _ shortcut); [done| |].
    + intros s'. by apply shortcutStrings_established.
    + intros s' y. apply shortcutStrings_kept.
  - apply is_Some_insert_eq.
  - apply is_Some_insert_kept, is_Some_insert_eq.
Qed.

End LocalizedKeys.

(** ** Escaping for Swift string literals *)

Section Escaping.

(** What escaping makes of one character. *)
Definition escapeChar (c : ascii) : string :=
  if Ascii.eqb c backslash then bs +:+ bs
  else if Ascii.eqb c dquote then bs +:+ dq
  else if Ascii.eqb c newline then bs +:+ "n"
  else if Ascii.eqb c creturn then bs +:+ "r"
  else if Ascii.eqb c tab then bs +:+ "t"
  else String c EmptyString.

Lemma escapeForSwift_char (c : ascii) :
  escapeForSwift (String c EmptyString) = escapeChar c.
Proof. by destruct c as [[] [] [] [] [] [] [] []]. Qed.

(** Escaping works character by character: the text that one replacement
    writes holds no character that a later replacement looks for. *)
Lemma escapeForSwift_cons (c : ascii) (s : string) :
  escapeForSwift (String c s) = escapeChar c +:+ escapeForSwift s.
Proof.
  change (String c s) with (String c EmptyString +:+ s).
  by rewrite escapeForSwift_app, escapeForSwift_char.
Qed.

(** How a Swift string literal reads the escapes that [escapeForSwift]
    writes: a backslash and the character after it stand for one
    character. *)
Fixpoint unescapeSwift (s : string) : string :=
  match s with
  | EmptyString => EmptyString
  | String c s' =>
      if Ascii.eqb c backslash then
        match s' with
        | EmptyString => String c EmptyString
        | String d s'' =>
            String (if Ascii.eqb d "n" then newline
                    else if Ascii.eqb d "r" then creturn
                    else if Ascii.eqb d "t" then tab
                    else d)
                   (unescapeSwift s'')
        end
      else String c (unescapeSwift s')
  end.

Lemma unescapeSwift_escapeChar (c : ascii) (s : string) :
  unescapeSwift (escapeChar c +:+ s) = String c (unescapeSwift s).
Proof.
  unfold escapeChar.
  destruct (Ascii.eqb_spec c backslash) as [->|Hb]; [done|].
  destruct (Ascii.eqb_spec c dquote) as [->|Hq]; [done|].
  destruct (Ascii.eqb_spec c newline) as [->|Hn]; [done|].
  destruct (Ascii.eqb_spec c creturn) as [->|Hr]; [done|].
  destruct (Ascii.eqb_spec c tab) as [->|Ht]; [done|].
  rewrite app_cons, app_empty_l. cbn [unescapeSwift].
  by rewrite (ascii_eqb_false _ _ Hb).
Qed.

Lemma unescapeSwift_escapeForSwift (s : string) :
  unescapeSwift (escapeForSwift s) = s.
Proof.
  induction s as [|c s IH]; [done|].
  by rewrite escapeForSwift_cons, unescapeSwift_escapeChar, IH.
Qed.

Lemma isQuotedBody_escapeChar (c : ascii) (s : string) :
  isQuotedBody (escapeChar c +:+ s) = isQuotedBody s.
Proof.
  unfold escapeChar.
  destruct (Ascii.eqb_spec c backslash) as [->|Hb]; [done|].
  destruct (Ascii.eqb_spec c dquote) as [->|Hq]; [done|].
  destruct (Ascii.eqb_spec c newline) as [->|Hn]; [done|].
  destruct (Ascii.eqb_spec c creturn) as [->|Hr]; [done|].
  destruct (Ascii.eqb_spec c tab) as [->|Ht]; [done|].
  rewrite app_cons, app_empty_l, isQuotedBody_cons.
  by rewrite (ascii_eqb_false _ _ Hq), (ascii_eqb_false _ _ Hb).
Qed.

(** A character of a literal that must not be written as it is: the line
    feed, the carriage return and the tab. *)
Definition isRawControl (c : ascii) : bool :=
  Ascii.eqb c newline || Ascii.eqb c creturn || Ascii.eqb c tab.

Lemma escapeChar_no_control (c : ascii) :
  forallb (λ a, negb (isRawControl a)) (list_ascii_of_string (escapeChar c)) = true.
Proof. by destruct c as [[] [] [] [] [] [] [] []]. Qed.

End Escaping.

(** X10. [escapeForSwift] loses nothing and leaves nothing raw. Reading the
    escapes back gives the text that was escaped, so two texts with the same
    escaped form are the same text. The escaped form holds no line feed, no
    carriage return and no tab, and every quote and backslash in it is part
    of an escape: between two quotes it is read as one quoted text, up to the
    closing quote. *)
Theorem escapeForSwift_faithful (s : string) :
  unescapeSwift (escapeForSwift s) = s
  ∧ (∀ t, escapeForSwift s = escapeForSwift t → s = t)
  ∧ forallb (λ c, negb (isRawControl c)) (list_ascii_of_string (escapeForSwift s))
    = true
  ∧ isQuotedBody (escapeForSwift s) = true
  ∧ (∀ rest, scanQuoted (escapeForSwift s +:+ dq +:+ rest)
             = Some (escapeForSwift s, rest)).
Proof.
  split; [apply unescapeSwift_escapeForSwift|]. split; [|split].
  - intros t Heq. rewrite <- (unescapeSwift_escapeForSwift s), Heq.
    apply unescapeSwift_escapeForSwift.
  - induction s as [|c s IH]; [done|].
    rewrite escapeForSwift_cons, list_ascii_of_string_app, forallb_app, IH.
    by rewrite escapeChar_no_control.
  - assert (isQuotedBody (escapeForSwift s) = true) as Hbody.
    { induction s as [|c s IH]; [done|].
      by rewrite escapeForSwift_cons, isQuotedBody_escapeChar. }
    split; [done|]. intros rest. by apply scanQuoted_complete.
Qed.

(** ** The bridge: what a handled command leaves and delivers *)

Section BridgeProtocol.

Lemma hasPrefix_app (p s : string) : hasPrefix p (p +:+ s) = true.
Proof. apply startsWith_app. Qed.

Lemma dropFirst_app (p s : string) : dropFirst (String.length p) (p +:+ s) = s.
Proof. induction p as [|c p IH]; [by destruct s|]. by rewrite app_cons. Qed.

Lemma hasPrefix_dropFirst (p s : string) :
  hasPrefix p s = true → s = p +:+ dropFirst (String.length p) s.
Proof.
  revert s. induction p as [|c p IH]; intros s Hs; [by destruct s|].
  destruct s as [|d s]; [done|].
  apply startsWith_cons in Hs as [<- Hs]. rewrite app_cons. simpl.
  f_equal. by apply IH.
Qed.

Lemma parameterName_inj (name name' : string) :
  prefixParam +:+ name = prefixParam +:+ name' → name = name'.
Proof. apply (inj (String.app prefixParam)). Qed.

Variable numberAsString : PlistValue → option string.
Variable stringAsDouble : string → float.

(** A parameter key that is in the store always decodes. *)
Lemma decodeParameter_total (defaults : gmap string PlistValue) (key : string) :
  is_Some (defaults !! key) →
  is_Some (decodeParameter numberAsString stringAsDouble defaults key).
Proof.
  intros [v Hv]. unfold decodeParameter.
  destruct (decide (_ = Some "date")); [by eexists|].
  destruct (decide (_ = Some "boolean")).
  - unfold numberForKey, stringForKey. rewrite Hv.
    destruct v as [s|d|b]; try by eexists.
  - unfold numberForKey, stringForKey. rewrite Hv.
    destruct v as [s|d|b]; try by eexists.
    + destruct (numberAsString (PDouble d)); by eexists.
    + destruct (numberAsString (PBool b)); by eexists.
Qed.

Lemma readParameters_lookup (defaults : gmap string PlistValue)
    (allKeys : list string) (name : string) :
  readParameters numberAsString stringAsDouble defaults allKeys !! name
  = if bool_decide (prefixParam +:+ name ∈ allKeys)
    then decodeParameter numberAsString stringAsDouble defaults (prefixParam +:+ name)
    else None.
Proof.
  unfold readParameters.
  assert (∀ acc : gmap string ParamValue,
    foldl (λ parameters key,
             if hasPrefix prefixParam key
             then match decodeParameter numberAsString stringAsDouble defaults key with
                  | Some v =>
                      <[dropFirst (String.length prefixParam) key := v]> parameters
                  | None => parameters
                  end
             else parameters) acc allKeys !! name
    = if bool_decide (prefixParam +:+ name ∈ allKeys)
      then match decodeParameter numberAsString stringAsDouble defaults
                   (prefixParam +:+ name) with
           | Some v => Some v
           | None => acc !! name
           end
      else acc !! name) as Hgen.
  { induction allKeys as [|key keys IH]; intros acc; [done|].
    cbn [foldl]. rewrite IH. clear IH.
    destruct (decide (key = prefixParam +:+ name)) as [->|Hne].
    - rewrite (bool_decide_eq_true_2 (_ ∈ _ :: keys)) by by left.
      rewrite hasPrefix_app, dropFirst_app.
      destruct (decodeParameter _ _ defaults (prefixParam +:+ name)) as [v|].
      + rewrite lookup_insert_eq. by destruct (bool_decide _).
      + by destruct (bool_decide _).
    - assert (bool_decide (prefixParam +:+ name ∈ key :: keys)
              = bool_decide (prefixParam +:+ name ∈ keys)) as ->.
      { apply bool_decide_ext. rewrite elem_of_cons. split; [|by right].
        by intros [?|?]. }
      assert ((if hasPrefix prefixParam key
               then match decodeParameter numberAsString stringAsDouble defaults key with
                    | Some v =>
                        <[dropFirst (String.length prefixParam) key := v]> acc
                    | None => acc
                    end
               else acc) !! name = acc !! name) as ->; [|done].
      destruct (hasPrefix prefixParam key) eqn:Hp; [|done].
      destruct (decodeParameter _ _ defaults key); [|done].
      rewrite lookup_insert_ne; [done|]. intros Heq. apply Hne.
      rewrite (hasPrefix_dropFirst _ _ Hp). by rewrite Heq. }
  rewrite Hgen, lookup_empty.
  destruct (bool_decide _); [|done].
  by destruct (decodeParameter _ _ defaults (prefixParam +:+ name)).
Qed.

(** X11. The parameters that are handed over are the parameter keys of the
    store when the command is read, whichever command wrote them: a name is
    delivered exactly when its key is in the store, and its value is what the
    key decodes to. *)
Theorem delivered_parameters_are_stored
    (defaults : gmap string PlistValue) (name : string) :
  let parameters :=
    readParameters numberAsString stringAsDouble defaults (elements (dom defaults)) in
  parameters !! name
  = match defaults !! (prefixParam +:+ name) with
    | Some _ =>
        decodeParameter numberAsString stringAsDouble defaults (prefixParam +:+ name)
    | None => None
    end
  ∧ (is_Some (parameters !! name) ↔ is_Some (defaults !! (prefixParam +:+ name))).
Proof.
  cbv zeta. rewrite readParameters_lookup.
  destruct (defaults !! (prefixParam +:+ name)) as [v|] eqn:Hv.
  - rewrite bool_decide_eq_true_2.
    + split; [done|]. split; [by eexists|]. intros _.
      apply decodeParameter_total. by rewrite Hv.
    + apply elem_of_elements, elem_of_dom. by rewrite Hv.
  - rewrite bool_decide_eq_false_2.
    + split; [done|]. split; by intros [? ?].
    + rewrite elem_of_elements, elem_of_dom, Hv. by intros [? ?].
Qed.

Lemma stringForKey_removed (defaults : gmap string PlistValue) (key : string) :
  defaults !! key = None → stringForKey numberAsString defaults key = None.
Proof. intros H. unfold stringForKey. by rewrite H. Qed.

(** X12. A command is delivered once. When a notification found a command and no
    other process wrote to the store meanwhile, the next notification (or the
    check that [setShortcutCallback] makes) finds no command: it delivers
    nothing and leaves the store as it is. *)
Theorem command_delivered_once
    (again : gmap string PlistValue → gmap string PlistValue)
    (defaults after : gmap string PlistValue) (data : NativeShortcutData) :
  handleDarwinNotification numberAsString stringAsDouble (λ d, d) (Some defaults)
  = (Some after, Some data) →
  handleDarwinNotification numberAsString stringAsDouble again (Some after)
  = (Some after, None).
Proof.
  unfold handleDarwinNotification at 1.
  destruct (stringForKey numberAsString defaults keyPendingCommand) as [cmd|];
    [|done].
  destruct (stringForKey numberAsString defaults keyCommandNonce) as [nonce|] eqn:Hn;
    [|done].
  intros [= <- _]. unfold clearIfCurrent. rewrite Hn, decide_True by done.
  unfold handleDarwinNotification.
  rewrite (stringForKey_removed _ keyPendingCommand); [done|].
  by rewrite removeCommandKeys_lookup.
Qed.

(** X13. Handling a notification never touches the app state and the responses:
    every key with the prefix [appState_] or [IosIntentsResponse_] holds
    afterwards what it held. *)
Theorem handling_keeps_state_and_responses
    (interim : gmap string PlistValue → gmap string PlistValue)
    (defaults after : gmap string PlistValue) (data : option NativeShortcutData)
    (k : string) :
  handleDarwinNotification numberAsString stringAsDouble interim (Some defaults)
  = (Some after, data) →
  hasPrefix "appState_" k = true ∨ hasPrefix "IosIntentsResponse_" k = true →
  after !! k = match data with
               | Some _ => interim defaults !! k
               | None => defaults !! k
               end.
Proof.
  intros Hrun Hk.
  assert (∀ keys, isCommandKey keys k = false) as Hnot.
  { intros keys. unfold isCommandKey.
    destruct Hk as [Hk|Hk]; apply hasPrefix_dropFirst in Hk; rewrite Hk;
      rewrite bool_decide_eq_false_2;
      try (rewrite !elem_of_cons, elem_of_nil; intros [?|[?|[?|[?|[]]]]]; discriminate);
      by rewrite andb_false_r. }
  unfold handleDarwinNotification in Hrun.
  destruct (stringForKey numberAsString defaults keyPendingCommand) as [cmd|];
    [|by injection Hrun as <- <-].
  destruct (stringForKey numberAsString defaults keyCommandNonce) as [nonce|];
    [|by injection Hrun as <- <-].
  injection Hrun as <- <-. unfold clearIfCurrent.
  destruct (decide _); [|done]. by rewrite removeCommandKeys_lookup, Hnot.
Qed.

(** X14. What is written under a key is what is read under it. A string comes
    back as that string, a number as that number, and after a removal both
    reads answer nothing; a write changes no other key; a string is read as
    a number through the conversion of Foundation, never as nothing; and with
    an inaccessible App Group every read and write throws. *)
Theorem shared_values_round_trip
    (defaults : gmap string PlistValue) (key : string) :
  (∀ v, ∃ defaults',
     setSharedString (Some defaults) key (Some v) = Ok (Some defaults')
     ∧ getSharedString numberAsString (Some defaults') key = Ok (Some v)
     ∧ getSharedNumber stringAsDouble (Some defaults') key
       = Ok (Some (stringAsDouble v))
     ∧ ∀ other, other ≠ key → defaults' !! other = defaults !! other)
  ∧ (∀ v, ∃ defaults',
       setSharedNumber (Some defaults) key (Some v) = Ok (Some defaults')
       ∧ getSharedNumber stringAsDouble (Some defaults') key = Ok (Some v)
       ∧ ∀ other, other ≠ key → defaults' !! other = defaults !! other)
  ∧ (∃ defaults',
       setSharedString (Some defaults) key None = Ok (Some defaults')
       ∧ setSharedNumber (Some defaults) key None = Ok (Some defaults')
       ∧ getSharedString numberAsString (Some defaults') key = Ok None
       ∧ getSharedNumber stringAsDouble (Some defaults') key = Ok None
       ∧ ∀ other, other ≠ key → defaults' !! other = defaults !! other)
  ∧ (∀ s n, setSharedString None key s = Throw NativeError
            ∧ setSharedNumber None key n = Throw NativeError
            ∧ getSharedString numberAsString None key = Throw NativeError
            ∧ getSharedNumber stringAsDouble None key = Throw NativeError).
Proof.
  split; [|split; [|split]].
  - intros v. eexists. split; [reflexivity|].
    unfold getSharedString, getSharedNumber, stringForKey, doubleForKey.
    rewrite lookup_insert_eq. repeat split. intros other Hne.
    by rewrite lookup_insert_ne.
  - intros v. eexists. split; [reflexivity|].
    unfold getSharedNumber, doubleForKey. rewrite lookup_insert_eq.
    split; [done|]. intros other Hne. by rewrite lookup_insert_ne.
  - eexists. split; [reflexivity|]. split; [reflexivity|].
    unfold getSharedString, getSharedNumber, stringForKey.
    rewrite lookup_delete_eq. repeat split. intros other Hne.
    by rewrite lookup_delete_ne.
  - done.
Qed.

End BridgeProtocol.

(** ** The manager: app state and cleanup *)

Section ManagerState.

Lemma updateLoop_effect (entries : list (string * AppStateValue))
    (tracked : gset string) (defaults : gmap string PlistValue) :
  NoDup entries.*1 →
  ∃ defaults',
    updateLoop entries tracked (Some defaults)
    = (list_to_set entries.*1 ∪ tracked, Some defaults')
    ∧ (∀ k v, (k, v) ∈ entries →
         defaults' !! ("appState_" +:+ k)
         = storedValue v (defaults !! ("appState_" +:+ k)))
    ∧ (∀ key, (∀ k, k ∈ entries.*1 → key ≠ "appState_" +:+ k) →
         defaults' !! key = defaults !! key).
Proof.
  revert tracked defaults.
  induction entries as [|[key value] entries IH]; intros tracked defaults Hnd.
  - exists defaults. split; [|split; [|done]].
    + simpl. by rewrite (left_id_L ∅ (∪)).
    + intros k v Hin. by apply elem_of_nil in Hin.
  - simpl in Hnd. apply NoDup_cons in Hnd as [Hkey Hnd]. cbn [updateLoop].
    destruct (writeStateValue_accessible defaults ("appState_" +:+ key) value)
      as (d1 & Hwrite & Hsame & Hother).
    rewrite Hwrite.
    destruct (IH ({[key]} ∪ tracked) d1 Hnd) as (d2 & Heq & Hin & Hframe).
    exists d2. split; [|split].
    + rewrite Heq. f_equal. simpl.
      by rewrite (assoc_L (∪)), (comm_L (∪) (list_to_set _) {[key]}).
    + intros k v [Hkv|Hkv]%elem_of_cons.
      * injection Hkv as -> ->. rewrite Hframe; [done|].
        intros k Hk Heq'. apply stateKey_inj in Heq' as ->. done.
      * rewrite (Hin k v Hkv). f_equal. apply Hother. intros Heq'.
        apply stateKey_inj in Heq' as ->. apply Hkey.
        apply list_elem_of_fmap. by exists (key, v).
    + intros other Hno. rewrite Hframe.
      * apply Hother. apply Hno. by left.
      * intros k Hk. apply Hno. by right.
Qed.

Lemma clearStateKeys_effect (keys : list string) (defaults : gmap string PlistValue) :
  ∃ defaults',
    clearStateKeys keys (Some defaults) = (Some defaults', None)
    ∧ (∀ k, k ∈ keys → defaults' !! ("appState_" +:+ k) = None)
    ∧ (∀ key, (∀ k, k ∈ keys → key ≠ "appState_" +:+ k) →
         defaults' !! key = defaults !! key).
Proof.
  revert defaults. induction keys as [|key keys IH]; intros defaults.
  - exists defaults. split; [done|]. split; [|done].
    intros k Hk. by apply elem_of_nil in Hk.
  - cbn [clearStateKeys setSharedString].
    destruct (IH (delete ("appState_" +:+ key) defaults)) as (d' & Heq & Hin & Hframe).
    exists d'. split; [done|]. split.
    + intros k [->|Hk]%elem_of_cons; [|by apply Hin].
      destruct (decide (key ∈ keys)) as [Hkey|Hkey]; [by apply Hin|].
      rewrite Hframe; [apply lookup_delete_eq|].
      intros k Hk Heq'. apply stateKey_inj in Heq' as ->. done.
    + intros other Hno. rewrite Hframe.
      * apply lookup_delete_ne. intros Heq'. by apply (Hno key); [left|].
      * intros k Hk. apply Hno. by right.
Qed.

Lemma elem_of_fst_map_to_list (state : gmap string AppStateValue) (k : string) :
  k ∈ (map_to_list state).*1 ↔ is_Some (state !! k).
Proof.
  rewrite list_elem_of_fmap. split.
  - intros ([k' v] & -> & Hkv%elem_of_map_to_list). by eexists.
  - intros [v Hv]. exists (k, v). split; [done|]. by apply elem_of_map_to_list.
Qed.

Lemma list_to_set_entries (state : gmap string AppStateValue)
    (entries : list (string * AppStateValue)) :
  entries ≡ₚ map_to_list state →
  list_to_set entries.*1 =@{gset string} dom state.
Proof.
  intros Hentries. apply set_eq. intros k.
  by rewrite elem_of_list_to_set, Hentries, elem_of_dom, elem_of_fst_map_to_list.
Qed.

End ManagerState.

(** X15. What [updateAppState] leaves, with the native module present and the
    App Group accessible, whatever the order in which the entries of the
    state are enumerated. Every key of the state is tracked; under
    appState_key a boolean leaves 1 or 0, a number the number, a string the
    string, a serialized object its text, null and undefined nothing, and an
    object that cannot be serialized what was there before; no other key of
    the store changes, and the listeners are as they were. *)
Theorem updateAppState_effect
    (m : ManagerState) (defaults : gmap string PlistValue)
    (state : gmap string AppStateValue)
    (entries : list (string * AppStateValue)) :
  entries ≡ₚ map_to_list state →
  ∃ defaults',
    updateAppState m (Some {| sharedDefaults := Some defaults |}) entries
    = ({| listeners := listeners m;
          nativeCallbackRegistered := nativeCallbackRegistered m;
          trackedStateKeys := dom state ∪ trackedStateKeys m |},
       Some {| sharedDefaults := Some defaults' |})
    ∧ (∀ k v, state !! k = Some v →
         defaults' !! ("appState_" +:+ k)
         = storedValue v (defaults !! ("appState_" +:+ k)))
    ∧ (∀ key, (∀ k, is_Some (state !! k) → key ≠ "appState_" +:+ k) →
         defaults' !! key = defaults !! key).
Proof.
  intros Hentries.
  destruct (updateLoop_effect entries (trackedStateKeys m) defaults)
    as (defaults' & Heq & Hin & Hframe).
  { rewrite Hentries. apply NoDup_fst_map_to_list. }
  exists defaults'. split; [|split].
  - unfold updateAppState. cbn [sharedDefaults]. rewrite Heq.
    by rewrite (list_to_set_entries state entries Hentries).
  - intros k v Hk. apply Hin. rewrite Hentries. by apply elem_of_map_to_list.
  - intros key Hno. apply Hframe. intros k Hk. rewrite Hentries in Hk.
    apply elem_of_fst_map_to_list in Hk. by apply Hno.
Qed.

(** X16. [cleanup] without arguments undoes [updateAppState]. With the native
    module present and the App Group accessible, after any state was
    written (its entries in any order) and the manager was cleaned up, no key of that state and no key
    tracked before is left under its appState_ name; no other key of the
    store changed; the manager tracks no key and has no listener; and
    nothing was thrown. *)
Theorem cleanup_undoes_updateAppState
    (m : ManagerState) (defaults : gmap string PlistValue)
    (state : gmap string AppStateValue)
    (entries : list (string * AppStateValue)) :
  entries ≡ₚ map_to_list state →
  let updated :=
    updateAppState m (Some {| sharedDefaults := Some defaults |}) entries in
  ∃ defaults',
    cleanup updated.1 updated.2 None
    = ({| listeners := ∅; nativeCallbackRegistered := false; trackedStateKeys := ∅ |},
       Some {| sharedDefaults := Some defaults' |}, None)
    ∧ (∀ k, is_Some (state !! k) ∨ k ∈ trackedStateKeys m →
         defaults' !! ("appState_" +:+ k) = None)
    ∧ (∀ key, (∀ k, is_Some (state !! k) ∨ k ∈ trackedStateKeys m →
                    key ≠ "appState_" +:+ k) →
         defaults' !! key = defaults !! key).
Proof.
  intros Hentries. cbv zeta.
  destruct (updateLoop_effect entries (trackedStateKeys m) defaults)
    as (d1 & Heq & _ & Hframe).
  { rewrite Hentries. apply NoDup_fst_map_to_list. }
  assert (∀ key, (∀ k, is_Some (state !! k) → key ≠ "appState_" +:+ k) →
                 d1 !! key = defaults !! key) as Hframe1.
  { intros key Hno. apply Hframe. intros k Hk. rewrite Hentries in Hk.
    apply elem_of_fst_map_to_list in Hk. by apply Hno. }
  unfold updateAppState. cbn [sharedDefaults].
  rewrite Heq, (list_to_set_entries state entries Hentries).
  cbn [fst snd]. unfold cleanup. cbn [trackedStateKeys from_option sharedDefaults].
  destruct (clearStateKeys_effect (elements (dom state ∪ trackedStateKeys m)) d1)
    as (d2 & Hclear & Hin2 & Hframe2).
  assert (∀ k, k ∈ elements (dom state ∪ trackedStateKeys m)
               ↔ is_Some (state !! k) ∨ k ∈ trackedStateKeys m) as Hkeys.
  { intros k. by rewrite elem_of_elements, elem_of_union, elem_of_dom. }
  destruct (elements (dom state ∪ trackedStateKeys m)) as [|key keys] eqn:Hel.
  - exists d1. split; [done|]. split.
    + intros k Hk. apply Hkeys in Hk. by apply elem_of_nil in Hk.
    + intros key Hno. apply Hframe1. intros k Hk. apply Hno. by left.
  - rewrite Hclear. exists d2. split; [done|]. split.
    + intros k Hk. apply Hin2. by apply Hkeys.
    + intros other Hno. rewrite Hframe2.
      * apply Hframe1. intros k Hk. apply Hno. by left.
      * intros k Hk. apply Hno. by apply Hkeys.
Qed.

(** X17. [cleanup] with a list of keys. The listeners are dropped and the native
    callback is forgotten in every case. With the App Group accessible, the
    listed keys, and only they, are removed from the store, and the manager
    keeps tracking every key it tracked, the listed ones included; the empty
    list removes nothing. Without a native module the store is not
    touched. *)
Theorem cleanup_listed_keys
    (m : ManagerState) (defaults : gmap string PlistValue) (keys : list string) :
  (∃ defaults',
     cleanup m (Some {| sharedDefaults := Some defaults |}) (Some keys)
     = ({| listeners := ∅; nativeCallbackRegistered := false;
           trackedStateKeys := trackedStateKeys m |},
        Some {| sharedDefaults := Some defaults' |}, None)
     ∧ (∀ k, k ∈ keys → defaults' !! ("appState_" +:+ k) = None)
     ∧ (∀ key, (∀ k, k ∈ keys → key ≠ "appState_" +:+ k) →
          defaults' !! key = defaults !! key))
  ∧ cleanup m (Some {| sharedDefaults := Some defaults |}) (Some [])
    = ({| listeners := ∅; nativeCallbackRegistered := false;
          trackedStateKeys := trackedStateKeys m |},
       Some {| sharedDefaults := Some defaults |}, None)
  ∧ (∀ stateKeys,
       cleanup m None stateKeys
       = ({| listeners := ∅; nativeCallbackRegistered := false;
             trackedStateKeys := match stateKeys with
                                 | None => ∅
                                 | Some _ => trackedStateKeys m
                                 end |},
          None, None)).
Proof.
  split; [|split].
  - unfold cleanup. cbn [from_option sharedDefaults]. unfold id.
    destruct (clearStateKeys_effect keys defaults) as (d' & Hclear & Hin & Hframe).
    destruct keys as [|key keys].
    + exists defaults. split; [done|]. split; [|done].
      intros k Hk. by apply elem_of_nil in Hk.
    + rewrite Hclear. by exists d'.
  - reflexivity.
  - intros stateKeys. unfold cleanup.
    by destruct (default (elements (trackedStateKeys m)) stateKeys).
Qed.

(** X18. [cleanup] with an inaccessible App Group. When there is a key to clean,
    what [setSharedString] throws leaves [cleanup]: the listeners are already
    dropped, and the tracked keys are kept, so that a later cleanup will try
    them again. When there is no key to clean, nothing is thrown. *)
Theorem cleanup_inaccessible
    (m : ManagerState) (stateKeys : option (list string)) :
  let keysToClean := default (elements (trackedStateKeys m)) stateKeys in
  cleanup m (Some {| sharedDefaults := None |}) stateKeys
  = match keysToClean with
    | _ :: _ =>
        ({| listeners := ∅; nativeCallbackRegistered := false;
            trackedStateKeys := trackedStateKeys m |},
         Some {| sharedDefaults := None |}, Some NativeError)
    | [] =>
        ({| listeners := ∅; nativeCallbackRegistered := false;
            trackedStateKeys := match stateKeys with
                                | None => ∅
                                | Some _ => trackedStateKeys m
                                end |},
         Some {| sharedDefaults := None |}, None)
    end.
Proof.
  cbv zeta. unfold cleanup. cbn [sharedDefaults].
  by destruct (default (elements (trackedStateKeys m)) stateKeys).
Qed.

(** ** The manager: subscriptions and responses *)

Section SubscriptionLifecycle.

Variable sameListener : Listener → Listener → bool.

(** The listeners of the shortcut event. *)
Definition subscribed (m : ManagerState) : list Listener :=
  default [] (listeners m !! EVENT_SHORTCUT).

Lemma listeners_ensureNativeCallback (m : ManagerState)
    (module : option NativeModule) :
  listeners (ensureNativeCallback m module) = listeners m.
Proof. unfold ensureNativeCallback. by destruct (nativeCallbackRegistered m), module. Qed.

Lemma listeners_addEventListener (m : ManagerState) (module : option NativeModule)
    (listener : Listener) :
  listeners (addEventListener sameListener m module listener) !! EVENT_SHORTCUT
  = Some (addListener sameListener listener (subscribed m)).
Proof.
  unfold addEventListener. rewrite listeners_ensureNativeCallback.
  cbn [listeners]. rewrite lookup_insert_eq. unfold subscribed.
  destruct (listeners m !! EVENT_SHORTCUT) as [set|] eqn:Hset.
  - by rewrite Hset.
  - by rewrite lookup_insert_eq.
Qed.

Lemma subscribed_addEventListener (m : ManagerState) (module : option NativeModule)
    (listener : Listener) :
  subscribed (addEventListener sameListener m module listener)
  = addListener sameListener listener (subscribed m).
Proof. unfold subscribed at 1. by rewrite listeners_addEventListener. Qed.

Lemma registered_addEventListener (m : ManagerState) (module : option NativeModule)
    (listener : Listener) :
  nativeCallbackRegistered (addEventListener sameListener m module listener)
  = nativeCallbackRegistered m || bool_decide (is_Some module).
Proof.
  unfold addEventListener, ensureNativeCallback. cbn [nativeCallbackRegistered].
  by destruct (nativeCallbackRegistered m), module.
Qed.

Lemma subscribed_remove (m : ManagerState) (listener : Listener) :
  subscribed (remove sameListener m listener)
  = deleteListener sameListener listener (subscribed m).
Proof.
  unfold remove, subscribed.
  destruct (listeners m !! EVENT_SHORTCUT) as [set|] eqn:Hset; cbn [listeners].
  - by rewrite lookup_insert_eq.
  - by rewrite Hset.
Qed.

Lemma deleteListener_none (listener : Listener) (set : list Listener) :
  Forall (λ other, sameListener listener other = false)
         (deleteListener sameListener listener set).
Proof.
  apply Forall_forall. intros other Hin.
  by apply list_elem_of_filter in Hin as [? _].
Qed.

Lemma deleteListener_idem (listener : Listener) (set : list Listener) :
  deleteListener sameListener listener (deleteListener sameListener listener set)
  = deleteListener sameListener listener set.
Proof.
  unfold deleteListener. induction set as [|x set IH]; [done|].
  destruct (decide (sameListener listener x = false)) as [Hx|Hx].
  - rewrite (filter_cons_True _ x set Hx), (filter_cons_True _ x _ Hx). by f_equal.
  - by rewrite (filter_cons_False _ x set Hx).
Qed.

Lemma deliveries_length (m : ManagerState) (module : option NativeModule)
    (shortcut : ShortcutInvocation) :
  length (handleShortcutInvocation m module shortcut).2 = length (subscribed m).
Proof. by rewrite handleShortcutInvocation_deliveries, length_imap. Qed.

(** X19. [remove] unsubscribes. After the subscription of a listener is removed,
    no listener of the event is that listener, however many times it had
    been added; the other listeners stay, in their order, and they are the
    ones an invocation is delivered to. When no listener is left the manager
    forgets the native callback, so that the next [addEventListener]
    registers it again on iOS. Removing again changes nothing, and with no
    set for the event (after [cleanup]) removing changes nothing at all. *)
Theorem remove_unsubscribes
    (m : ManagerState) (module : option NativeModule) (listener next : Listener)
    (shortcut : ShortcutInvocation) :
  let m' := remove sameListener m listener in
  subscribed m' = deleteListener sameListener listener (subscribed m)
  ∧ Forall (λ other, sameListener listener other = false) (subscribed m')
  ∧ length (handleShortcutInvocation m' module shortcut).2
    = length (deleteListener sameListener listener (subscribed m))
  ∧ (is_Some (listeners m !! EVENT_SHORTCUT) → subscribed m' = [] →
       nativeCallbackRegistered m' = false
       ∧ nativeCallbackRegistered
           (addEventListener sameListener m' module next)
         = bool_decide (is_Some module))
  ∧ remove sameListener m' listener = m'
  ∧ (listeners m !! EVENT_SHORTCUT = None → m' = m).
Proof.
  cbv zeta. split; [apply subscribed_remove|]. split; [|split; [|split; [|split]]].
  - rewrite subscribed_remove. apply deleteListener_none.
  - by rewrite deliveries_length, subscribed_remove.
  - intros [set Hset] Hempty.
    assert (nativeCallbackRegistered (remove sameListener m listener) = false) as Hflag.
    { unfold remove, subscribed in *. rewrite Hset in *. cbn in Hempty |- *.
      rewrite lookup_insert_eq in Hempty. simpl in Hempty. by rewrite Hempty. }
    split; [done|]. by rewrite registered_addEventListener, Hflag.
  - unfold remove. destruct (listeners m !! EVENT_SHORTCUT) as [set|] eqn:Hset.
    + cbn [listeners nativeCallbackRegistered trackedStateKeys].
      rewrite lookup_insert_eq, deleteListener_idem, insert_insert_eq.
      f_equal. by destruct (decide _).
    + by rewrite Hset.
  - intros Hnone. unfold remove. by rewrite Hnone.
Qed.

(** X20. [addEventListener] subscribes once. The listener is added at the end of
    the listeners of the event unless it is there already, the listeners
    that were there stay, and on iOS the native callback is registered. A
    function compared with itself is the same function: adding a listener a
    second time changes nothing, and one [remove] then unsubscribes it. *)
Theorem addEventListener_subscribes_once
    (m : ManagerState) (module : option NativeModule) (listener : Listener) :
  (∀ l, sameListener l l = true) →
  let m' := addEventListener sameListener m module listener in
  subscribed m'
  = (if existsb (sameListener listener) (subscribed m) then subscribed m
     else subscribed m ++ [listener])
  ∧ existsb (sameListener listener) (subscribed m') = true
  ∧ nativeCallbackRegistered m'
    = nativeCallbackRegistered m || bool_decide (is_Some module)
  ∧ trackedStateKeys m' = trackedStateKeys m
  ∧ addEventListener sameListener m' module listener = m'
  ∧ Forall (λ other, sameListener listener other = false)
           (subscribed (remove sameListener m' listener)).
Proof.
  intros Hrefl. cbv zeta.
  assert (existsb (sameListener listener)
            (subscribed (addEventListener sameListener m module listener)) = true)
    as Hthere.
  { rewrite subscribed_addEventListener. unfold addListener.
    destruct (existsb (sameListener listener) (subscribed m)) eqn:Hex; [done|].
    rewrite existsb_app. simpl. by rewrite Hrefl, orb_true_r. }
  split; [apply subscribed_addEventListener|]. split; [done|].
  split; [apply registered_addEventListener|]. split; [|split].
  - unfold addEventListener, ensureNativeCallback.
    by destruct (nativeCallbackRegistered m), module.
  - pose proof Hthere as Hthere'. unfold subscribed in Hthere'.
    remember (addEventListener sameListener m module listener) as m' eqn:Hm'.
    assert (is_Some (listeners m' !! EVENT_SHORTCUT)) as [set Hset].
    { rewrite Hm', listeners_addEventListener. by eexists. }
    assert (nativeCallbackRegistered m' || bool_decide (is_Some module)
            = nativeCallbackRegistered m') as Hflag.
    { rewrite Hm', registered_addEventListener.
      by destruct (nativeCallbackRegistered m), module. }
    rewrite Hset in Hthere'. simpl in Hthere'.
    unfold addEventListener. rewrite Hset. cbv iota. rewrite Hset.
    cbn [from_option]. unfold addListener, id. rewrite Hthere'.
    rewrite (insert_id _ _ _ Hset).
    unfold ensureNativeCallback. cbn [nativeCallbackRegistered listeners trackedStateKeys].
    destruct m' as [ls flag tracked]. cbn in *.
    destruct flag; [done|]. destruct module; [done|done].
  - rewrite subscribed_remove. apply deleteListener_none.
Qed.

End SubscriptionLifecycle.

(** Two listeners told apart by whether they throw. *)
Definition sameOutcome (a b : Listener) : bool :=
  Bool.eqb
    (throws (a {| inv_identifier := ""; inv_nonce := "";
                  inv_parameters := None; inv_userConfirmed := None |}))
    (throws (b {| inv_identifier := ""; inv_nonce := "";
                  inv_parameters := None; inv_userConfirmed := None |})).

Definition quietListener : Listener :=
  λ _, {| responses := [ {| resp_message := Some "Started" |} ]; throws := false |}.

Lemma addEventListener_subscribes_once_witness :
  subscribed
    (addEventListener sameOutcome
       {| listeners := ∅; nativeCallbackRegistered := false; trackedStateKeys := ∅ |}
       (Some {| sharedDefaults := Some ∅ |}) quietListener)
  = [quietListener]
  ∧ nativeCallbackRegistered
      (addEventListener sameOutcome
         {| listeners := ∅; nativeCallbackRegistered := false; trackedStateKeys := ∅ |}
         (Some {| sharedDefaults := Some ∅ |}) quietListener)
    = true.
Proof.
  destruct (addEventListener_subscribes_once sameOutcome
              {| listeners := ∅; nativeCallbackRegistered := false;
                 trackedStateKeys := ∅ |}
              (Some {| sharedDefaults := Some ∅ |}) quietListener)
    as (Hset & _ & Hflag & _).
  - intros l. unfold sameOutcome. apply Bool.eqb_reflx.
  - split; [exact Hset|exact Hflag].
Defined.

Section Responses.

Lemma respond_accessible (nonce : string) (defaults : gmap string PlistValue)
    (response : ShortcutResponse) :
  respond nonce (Some {| sharedDefaults := Some defaults |}) response
  = Some {| sharedDefaults :=
              Some (<["IosIntentsResponse_" +:+ nonce
                      := PString (default EmptyString (resp_message response))]>
                    defaults) |}.
Proof. reflexivity. Qed.

Lemma foldl_respond_accessible (nonce : string) (all : list ShortcutResponse)
    (defaults : gmap string PlistValue) :
  ∃ defaults',
    foldl (respond nonce) (Some {| sharedDefaults := Some defaults |}) all
    = Some {| sharedDefaults := Some defaults' |}
    ∧ defaults' !! ("IosIntentsResponse_" +:+ nonce)
      = match last all with
        | Some response =>
            Some (PString (default EmptyString (resp_message response)))
        | None => defaults !! ("IosIntentsResponse_" +:+ nonce)
        end
    ∧ ∀ other, other ≠ "IosIntentsResponse_" +:+ nonce →
               defaults' !! other = defaults !! other.
Proof.
  revert defaults. induction all as [|response all IH]; intros defaults.
  - by exists defaults.
  - cbn [foldl]. rewrite respond_accessible.
    destruct (IH (<["IosIntentsResponse_" +:+ nonce
                    := PString (default EmptyString (resp_message response))]>
                  defaults)) as (d' & Heq & Hlast & Hframe).
    exists d'. split; [done|]. split.
    + rewrite Hlast. destruct all as [|r all'].
      * simpl. by rewrite lookup_insert_eq.
      * change (last (response :: r :: all')) with (last (r :: all')).
        destruct (last (r :: all')) eqn:Hl; [done|].
        by apply last_None in Hl.
    + intros other Hne. rewrite (Hframe other Hne). by rewrite lookup_insert_ne.
Qed.

Lemma foldl_respond_dropped (nonce : string) (all : list ShortcutResponse)
    (module : option NativeModule) :
  (module = None ∨ module = Some {| sharedDefaults := None |}) →
  foldl (respond nonce) module all = module.
Proof.
  intros Hmodule. induction all as [|response all IH]; [done|].
  cbn [foldl]. by destruct Hmodule as [->| ->].
Qed.

Lemma foldl_listeners_concat (nonce : string) (shortcut : ShortcutInvocation)
    (ls : list Listener) (module : option NativeModule) :
  foldl (λ current listener,
           foldl (respond nonce) current (responses (listener shortcut)))
        module ls
  = foldl (respond nonce) module
          (concat ((λ listener, responses (listener shortcut)) <$> ls)).
Proof.
  revert module. induction ls as [|l ls IH]; intros module; [done|].
  cbn [foldl fmap list_fmap concat]. by rewrite foldl_app, IH.
Qed.

End Responses.

(** X21. The responses of one invocation. Every response of every listener is
    written under the response key of the nonce of the invocation, so the
    intent reads the last response that was sent, with the empty text for a
    response without message; no other key of the store changes. Without a
    native module, or with an inaccessible App Group, the responses are
    dropped and nothing is thrown to the listener. *)
Theorem last_response_wins
    (m : ManagerState) (defaults : gmap string PlistValue)
    (shortcut : ShortcutInvocation) :
  let sent :=
    concat ((λ listener : Listener, responses (listener shortcut))
              <$> default [] (listeners m !! EVENT_SHORTCUT)) in
  let responseKey := "IosIntentsResponse_" +:+ inv_nonce shortcut in
  (∃ defaults',
     (handleShortcutInvocation m (Some {| sharedDefaults := Some defaults |})
        shortcut).1
     = Some {| sharedDefaults := Some defaults' |}
     ∧ defaults' !! responseKey
       = match last sent with
         | Some response =>
             Some (PString (default EmptyString (resp_message response)))
         | None => defaults !! responseKey
         end
     ∧ ∀ other, other ≠ responseKey → defaults' !! other = defaults !! other)
  ∧ (handleShortcutInvocation m None shortcut).1 = None
  ∧ (handleShortcutInvocation m (Some {| sharedDefaults := None |}) shortcut).1
    = Some {| sharedDefaults := None |}.
Proof.
  cbv zeta. unfold handleShortcutInvocation.
  destruct (listeners m !! EVENT_SHORTCUT) as [[|l ls]|]; cbn [fst from_option];
    try (split; [by exists defaults|done]).
  rewrite !foldl_listeners_concat. split; [apply foldl_respond_accessible|].
  split; apply foldl_respond_dropped; auto.
Qed.

(** ** The generated file refers to what it declares *)

Section GeneratedFile.

Lemma includes_self (needle rest : string) : includes needle (needle +:+ rest) = true.
Proof. by rewrite includes_unfold, startsWith_app. Qed.

Lemma includes_refl (needle : string) : includes needle needle = true.
Proof. rewrite <- (app_empty_r needle) at 2. apply includes_self. Qed.

Lemma includes_join (needle sep x : string) (l : list string) :
  x ∈ l → includes needle x = true → includes needle (join sep l) = true.
Proof.
  intros Hin Hx. apply list_elem_of_lookup in Hin as [i Hi].
  destruct (join_lookup sep l i x Hi) as (before & after & ->).
  by apply includes_r, includes_l.
Qed.

Lemma includes_quoted (k rest : string) :
  includes (quoted k) (dq +:+ k +:+ dq +:+ rest) = true.
Proof.
  replace (dq +:+ k +:+ dq +:+ rest) with (quoted k +:+ rest)
    by (unfold quoted; by rewrite !app_assoc_str).
  apply includes_self.
Qed.

Lemma includes_quoted2 (a b rest : string) :
  includes (quoted (a +:+ b)) (dq +:+ a +:+ b +:+ dq +:+ rest) = true.
Proof.
  replace (dq +:+ a +:+ b +:+ dq +:+ rest) with (quoted (a +:+ b) +:+ rest)
    by (unfold quoted; by rewrite !app_assoc_str).
  apply includes_self.
Qed.

Lemma includes_quoted4 (a b c d rest : string) :
  includes (quoted (a +:+ b +:+ c +:+ d))
           (dq +:+ a +:+ b +:+ c +:+ d +:+ dq +:+ rest) = true.
Proof.
  replace (dq +:+ a +:+ b +:+ c +:+ d +:+ dq +:+ rest)
    with (quoted (a +:+ b +:+ c +:+ d) +:+ rest)
    by (unfold quoted; by rewrite !app_assoc_str).
  apply includes_self.
Qed.

Lemma includes_foldl_app {A : Type} (needle : string) (f : A → string)
    (l : list A) (init : string) :
  includes needle init = true →
  includes needle (foldl (λ acc x, acc +:+ f x) init l) = true.
Proof.
  revert init. induction l as [|x l IH]; intros init H; [done|].
  cbn [foldl]. by apply IH, includes_l.
Qed.

(** The part of a concatenation that a tactic proves to include the
    needle is looked for from the left. *)
Ltac seek tac :=
  first [ solve [tac] | solve [apply includes_l; tac] | apply includes_r; seek tac ].

Variable numberToString : float → string.
Variable toUpperCase : ascii → string.
Variable toLowerCase : string → string.

(** The name of the struct of a shortcut. *)
Definition intentClassName (shortcut : ShortcutDefinition) : string :=
  pascalCase toUpperCase (identifier shortcut) +:+ "Intent".

Lemma preambleCode_declares (shortcut : ShortcutDefinition) (useLocalization : bool) :
  includes ("struct " +:+ intentClassName shortcut +:+ ": AppIntent {")
    (preambleCode toUpperCase toLowerCase shortcut useLocalization) = true.
Proof.
  unfold preambleCode, intentClassName. cbv zeta.
  generalize (pascalCase toUpperCase (identifier shortcut) +:+ "Intent").
  intros className.
  do 3 apply includes_r.
  match goal with
  | |- includes _ ("struct " +:+ className +:+ ": AppIntent {" +:+ ?rest) = true =>
      replace ("struct " +:+ className +:+ ": AppIntent {" +:+ rest)
        with (("struct " +:+ className +:+ ": AppIntent {") +:+ rest)
        by (by rewrite !app_assoc_str)
  end.
  apply includes_self.
Qed.

Lemma generateAppShortcut_registers (shortcut : ShortcutDefinition)
    (useLocalization : bool) :
  includes ("intent: " +:+ intentClassName shortcut +:+ "()")
    (generateAppShortcut toUpperCase shortcut useLocalization) = true
  ∧ ∀ phrase, phrase ∈ phrases shortcut →
      includes (registrationPhrase phrase)
        (generateAppShortcut toUpperCase shortcut useLocalization) = true.
Proof.
  unfold generateAppShortcut, intentClassName. cbv zeta.
  generalize (pascalCase toUpperCase (identifier shortcut) +:+ "Intent").
  intros className. split.
  - do 2 apply includes_r.
    match goal with
    | |- includes ?n ("            intent: " +:+ className +:+ "()," +:+ ?rest) = true =>
        replace ("            intent: " +:+ className +:+ "()," +:+ rest)
          with ("            " +:+ n +:+ ("," +:+ rest))
          by (by rewrite !app_assoc_str)
    end.
    apply includes_app.
  - intros phrase Hin.
    assert (includes (registrationPhrase phrase)
              (join ("," +:+ nl +:+ "                ")
                    (map registrationPhrase (phrases shortcut))) = true) as Hjoin.
    { apply (includes_join _ _ (registrationPhrase phrase));
        [by apply (list_elem_of_fmap_2 registrationPhrase)|apply includes_refl]. }
    revert Hjoin.
    generalize (join ("," +:+ nl +:+ "                ")
                     (map registrationPhrase (phrases shortcut))).
    intros joined Hjoin. seek ltac:(exact Hjoin).
Qed.

Lemma generateSwiftFile_intents (needle : string) (config : ShortcutsConfig)
    (useLocalization : bool) (shortcut : ShortcutDefinition) :
  shortcut ∈ shortcuts config →
  includes needle
    (generateIntentStruct numberToString toUpperCase toLowerCase shortcut
       useLocalization) = true →
  includes needle
    (generateSwiftFile numberToString toUpperCase toLowerCase config
       useLocalization) = true.
Proof.
  intros Hin Hneedle.
  assert (includes needle
            (join nl (map (λ s, generateIntentStruct numberToString toUpperCase
                                  toLowerCase s useLocalization)
                          (shortcuts config))) = true) as Hjoin.
  { apply (includes_join _ _
             (generateIntentStruct numberToString toUpperCase toLowerCase
                shortcut useLocalization)); [|done].
    by apply (list_elem_of_fmap_2
                (λ s, generateIntentStruct numberToString toUpperCase
                        toLowerCase s useLocalization)). }
  unfold generateSwiftFile. cbv zeta. revert Hjoin.
  generalize (join nl (map (λ s, generateIntentStruct numberToString toUpperCase
                                   toLowerCase s useLocalization)
                           (shortcuts config))).
  generalize (join nl (map (λ s, generateAppShortcut toUpperCase s useLocalization)
                           (shortcuts config))).
  intros appShortcuts intents Hjoin. seek ltac:(exact Hjoin).
Qed.

Lemma generateSwiftFile_appShortcuts (needle : string) (config : ShortcutsConfig)
    (useLocalization : bool) (shortcut : ShortcutDefinition) :
  shortcut ∈ shortcuts config →
  includes needle (generateAppShortcut toUpperCase shortcut useLocalization) = true →
  includes needle
    (generateSwiftFile numberToString toUpperCase toLowerCase config
       useLocalization) = true.
Proof.
  intros Hin Hneedle.
  assert (includes needle
            (join nl (map (λ s, generateAppShortcut toUpperCase s useLocalization)
                          (shortcuts config))) = true) as Hjoin.
  { apply (includes_join _ _
             (generateAppShortcut toUpperCase shortcut useLocalization)); [|done].
    by apply (list_elem_of_fmap_2
                (λ s, generateAppShortcut toUpperCase s useLocalization)). }
  unfold generateSwiftFile. cbv zeta. revert Hjoin.
  generalize (join nl (map (λ s, generateIntentStruct numberToString toUpperCase
                                   toLowerCase s useLocalization)
                           (shortcuts config))).
  generalize (join nl (map (λ s, generateAppShortcut toUpperCase s useLocalization)
                           (shortcuts config))).
  intros appShortcuts intents Hjoin. seek ltac:(exact Hjoin).
Qed.

Lemma includes_join_lookup (needle sep x : string) (l : list string) (i : nat) :
  l !! i = Some x → includes needle x = true → includes needle (join sep l) = true.
Proof.
  intros Hi Hx. apply (includes_join _ _ x); [|done]. by eapply list_elem_of_lookup_2.
Qed.

Lemma messageLiteral_key (message key : string) :
  includes (quoted key) (messageLiteral message key true) = true.
Proof. unfold messageLiteral. apply includes_r, includes_quoted. Qed.

Lemma generateMessageInterpolation_key (message key : string) :
  includes (quoted key) (generateMessageInterpolation message key true) = true.
Proof.
  unfold generateMessageInterpolation. cbv zeta.
  destruct (extractVariables message) as [|v vs]; [apply messageLiteral_key|].
  apply includes_foldl_app, includes_r, includes_l, messageLiteral_key.
Qed.

Lemma generateStateDialogSwift_key (params : DialogParams) :
  dp_useLocalization params = true →
  includes (quoted (dp_localizationKey params))
    (code (generateStateDialogSwift numberToString params)) = true.
Proof.
  intros Hloc. cbn [generateStateDialogSwift code]. apply includes_r.
  unfold messageCode, actionCode, dialogValue. rewrite Hloc.
  pose proof (generateMessageInterpolation_key (message (dp_dialog params))
                (dp_localizationKey params)) as Hcode.
  pose proof (messageLiteral_key (message (dp_dialog params))
                (dp_localizationKey params)) as Hliteral.
  revert Hcode Hliteral.
  generalize (generateMessageInterpolation (message (dp_dialog params))
                (dp_localizationKey params) true).
  generalize (messageLiteral (message (dp_dialog params))
                (dp_localizationKey params) true).
  intros literal interpolation Hcode Hliteral.
  destruct (hasInterpolation (dp_dialog params)).
  - apply includes_l. seek ltac:(exact Hcode).
  - apply includes_r, includes_l.
    destruct (needsConfirmation (dp_dialog params)).
    + unfold confirmationCode. seek ltac:(exact Hliteral).
    + unfold returnCode. seek ltac:(exact Hliteral).
Qed.

Lemma dialogCode_key (shortcut : ShortcutDefinition) (index : nat)
    (dialog : StateDialog) :
  default [] (stateDialogs shortcut) !! index = Some dialog →
  includes (quoted (dialogLocalizationKey (identifier shortcut) index))
    (dialogCode numberToString toUpperCase shortcut true) = true.
Proof.
  intros Hi.
  assert (includes (quoted (dialogLocalizationKey (identifier shortcut) index))
            (join nl (map code (dialogResults numberToString toUpperCase shortcut true)))
          = true) as Hjoin.
  { apply (includes_join_lookup _ _
             (code (generateStateDialogSwift numberToString
                      (dialogParams numberToString toUpperCase shortcut true index
                         dialog)))
             _ index).
    - unfold dialogResults. change (map code ?l) with (code <$> l).
      by rewrite list_lookup_fmap, list_lookup_imap, Hi.
    - by apply (generateStateDialogSwift_key
                  (dialogParams numberToString toUpperCase shortcut true index dialog)). }
  unfold dialogCode.
  destruct (stateDialogs shortcut) as [[|d ds]|] eqn:Hd; try done.
  cbv zeta. revert Hjoin.
  generalize (join nl (map code (dialogResults numberToString toUpperCase shortcut true))).
  generalize (hasConfirmationDialogs numberToString toUpperCase shortcut true).
  intros confirmations checks Hjoin. seek ltac:(exact Hjoin).
Qed.

Lemma hasParameters_lookup (params : option (list ShortcutParameter))
    (index : nat) (param : ShortcutParameter) :
  default [] params !! index = Some param → hasParameters params = true.
Proof. by destruct params as [[|p ps]|]. Qed.

Lemma generateParameterDeclarations_key (shortcut : ShortcutDefinition)
    (index : nat) (param : ShortcutParameter) :
  default [] (parameters shortcut) !! index = Some param →
  includes (quoted (identifier shortcut +:+ ".parameters." +:+ pretty index
                    +:+ ".title"))
    (generateParameterDeclarations (parameters shortcut) true (identifier shortcut))
  = true
  ∧ (truthyString (param_description param) = true →
     includes (quoted (identifier shortcut +:+ ".parameters." +:+ pretty index
                       +:+ ".description"))
       (generateParameterDeclarations (parameters shortcut) true (identifier shortcut))
     = true).
Proof.
  intros Hi. unfold generateParameterDeclarations.
  rewrite (hasParameters_lookup _ _ _ Hi).
  assert (imap (parameterDeclaration true (identifier shortcut))
               (default [] (parameters shortcut)) !! index
          = Some (parameterDeclaration true (identifier shortcut) index param)) as Hx.
  { by rewrite list_lookup_imap, Hi. }
  split.
  - apply includes_r, includes_l, (includes_join_lookup _ _ _ _ index Hx).
    unfold parameterDeclaration, parameterAttribute. cbv zeta.
    apply includes_l, includes_r, includes_l, includes_r, includes_quoted4.
  - intros Hd. apply includes_r, includes_l, (includes_join_lookup _ _ _ _ index Hx).
    unfold parameterDeclaration, parameterAttribute. cbv zeta. rewrite Hd.
    apply includes_l, includes_r, includes_r, includes_l, includes_r, includes_quoted4.
Qed.

Lemma generateParameterRequests_key (shortcut : ShortcutDefinition)
    (index : nat) (param : ShortcutParameter) :
  default [] (parameters shortcut) !! index = Some param →
  includes (quoted (identifier shortcut +:+ ".parameters." +:+ pretty index
                    +:+ ".prompt"))
    (generateParameterRequests toLowerCase (parameters shortcut) true
       (identifier shortcut)) = true.
Proof.
  intros Hi. unfold generateParameterRequests.
  rewrite (hasParameters_lookup _ _ _ Hi).
  assert (imap (parameterRequest toLowerCase true (identifier shortcut))
               (default [] (parameters shortcut)) !! index
          = Some (parameterRequest toLowerCase true (identifier shortcut) index param))
    as Hx.
  { by rewrite list_lookup_imap, Hi. }
  apply includes_r, includes_l, (includes_join_lookup _ _ _ _ index Hx).
  unfold parameterRequest. cbv zeta.
  pose proof (includes_quoted
                (identifier shortcut +:+ ".parameters." +:+ pretty index +:+ ".prompt")
                (", defaultValue: " +:+ dq
                 +:+ escapeForSwift ("What " +:+ toLowerCase (param_title param) +:+ "?")
                 +:+ dq +:+ "))")) as Hkey.
  apply (includes_r _ "IntentDialog(stringLiteral: String(localized: ") in Hkey.
  revert Hkey.
  match goal with
  | |- includes _ ?value = true → _ => generalize value
  end.
  intros value Hkey. seek ltac:(exact Hkey).
Qed.

Lemma includes_quoted2_end (a b : string) :
  includes (quoted (a +:+ b)) (dq +:+ a +:+ b +:+ dq) = true.
Proof.
  replace (dq +:+ a +:+ b +:+ dq) with (quoted (a +:+ b))
    by (unfold quoted; by rewrite !app_assoc_str).
  apply includes_refl.
Qed.

Lemma preambleCode_keys (shortcut : ShortcutDefinition) :
  includes (quoted (identifier shortcut +:+ ".title"))
    (preambleCode toUpperCase toLowerCase shortcut true) = true
  ∧ (truthyString (description shortcut) = true →
     includes (quoted (identifier shortcut +:+ ".description"))
       (preambleCode toUpperCase toLowerCase shortcut true) = true)
  ∧ includes (quoted "system.error.appGroupFailed")
      (preambleCode toUpperCase toLowerCase shortcut true) = true
  ∧ (∀ needle,
       includes needle
         (generateParameterDeclarations (parameters shortcut) true
            (identifier shortcut)) = true
       ∨ includes needle
           (generateParameterRequests toLowerCase (parameters shortcut) true
              (identifier shortcut)) = true →
       includes needle (preambleCode toUpperCase toLowerCase shortcut true) = true).
Proof.
  unfold preambleCode. cbv zeta.
  generalize (pascalCase toUpperCase (identifier shortcut) +:+ "Intent").
  generalize (generateParameterDeclarations (parameters shortcut) true
                (identifier shortcut)).
  generalize (generateParameterRequests toLowerCase (parameters shortcut) true
                (identifier shortcut)).
  generalize (generateInitializers (parameters shortcut)).
  intros initializers requests declarations className.
  split; [|split; [|split]].
  - pose proof (includes_quoted2_end (identifier shortcut) ".title") as Hkey.
    revert Hkey. generalize (dq +:+ identifier shortcut +:+ ".title" +:+ dq).
    intros value Hkey. seek ltac:(exact Hkey).
  - intros ->.
    pose proof (includes_quoted2 (identifier shortcut) ".description" ")") as Hkey.
    apply (includes_r _ "static var description = IntentDescription(") in Hkey.
    revert Hkey.
    match goal with
    | |- includes _ ?value = true → _ => generalize value
    end.
    intros value Hkey. seek ltac:(exact Hkey).
  - pose proof (includes_quoted "system.error.appGroupFailed"
                  (", defaultValue: " +:+ dq +:+ "Failed to communicate with app"
                   +:+ dq +:+ ")")) as Hkey.
    apply (includes_r _ "String(localized: ") in Hkey.
    revert Hkey.
    match goal with
    | |- includes _ ?value = true → _ => generalize value
    end.
    intros value Hkey. seek ltac:(exact Hkey).
  - intros needle [H|H]; seek ltac:(exact H).
Qed.

Lemma publicationCode_key (shortcut : ShortcutDefinition) :
  includes (quoted "system.timeout")
    (publicationCode numberToString toUpperCase shortcut true) = true.
Proof.
  unfold publicationCode. cbv zeta.
  generalize (pascalCase toUpperCase (identifier shortcut) +:+ "Intent").
  generalize (generateParameterWrites (parameters shortcut)).
  intros writes className.
  pose proof (includes_quoted "system.timeout"
                (", defaultValue: " +:+ dq +:+ "Done" +:+ dq +:+ ")")) as Hkey.
  apply (includes_r _ "String(localized: ") in Hkey.
  revert Hkey.
  match goal with
  | |- includes _ ?value = true → _ => generalize value
  end.
  intros value Hkey. seek ltac:(exact Hkey).
Qed.

(** The struct of a shortcut, generated with localization, names each of
    the keys of the shortcut and the two system keys between quotes. *)
Lemma generateIntentStruct_keys (shortcut : ShortcutDefinition) (k : string) :
  shortcutKey shortcut k ∨ k = "system.timeout" ∨ k = "system.error.appGroupFailed" →
  includes (quoted k)
    (generateIntentStruct numberToString toUpperCase toLowerCase shortcut true)
  = true.
Proof.
  unfold generateIntentStruct, shortcutKey. cbv zeta.
  destruct (preambleCode_keys shortcut) as (Htitle & Hdescription & Herror & Hparams).
  intros [[->|[[Hd ->]|[(index & param & Hi & Hk)|(index & dialog & Hi & ->)]]]
         |[-> | ->]].
  - by apply includes_l.
  - by apply includes_l, Hdescription.
  - apply includes_l, Hparams.
    destruct (generateParameterDeclarations_key shortcut index param Hi)
      as [Hptitle Hpdescription].
    destruct Hk as [-> |[-> |[Hd ->]]].
    + by left.
    + right. by apply (generateParameterRequests_key shortcut index param).
    + left. by apply Hpdescription.
  - apply includes_r, includes_l. by eapply dialogCode_key.
  - do 2 apply includes_r. apply publicationCode_key.
  - by apply includes_l.
Qed.

(** X22. The generated file refers to what it declares. For every shortcut of
    the configuration the file declares the struct of the shortcut and the
    provider registers that struct, with one registration phrase per phrase
    of the shortcut. *)
Theorem generateSwiftFile_declares_what_it_registers
    (config : ShortcutsConfig) (useLocalization : bool)
    (shortcut : ShortcutDefinition) :
  shortcut ∈ shortcuts config →
  let file :=
    generateSwiftFile numberToString toUpperCase toLowerCase config useLocalization in
  let className := pascalCase toUpperCase (identifier shortcut) +:+ "Intent" in
  includes ("struct " +:+ className +:+ ": AppIntent {") file = true
  ∧ includes ("intent: " +:+ className +:+ "()") file = true
  ∧ ∀ phrase, phrase ∈ phrases shortcut →
      includes (registrationPhrase phrase) file = true.
Proof.
  intros Hin. cbv zeta.
  destruct (generateAppShortcut_registers shortcut useLocalization)
    as [Hintent Hphrases].
  split; [|split].
  - apply (generateSwiftFile_intents _ _ _ shortcut Hin).
    unfold generateIntentStruct. apply includes_l, preambleCode_declares.
  - by apply (generateSwiftFile_appShortcuts _ _ _ shortcut Hin).
  - intros phrase Hphrase.
    apply (generateSwiftFile_appShortcuts _ _ _ shortcut Hin). by apply Hphrases.
Qed.

(** X23. The localization keys of the generated code are in the catalog. With
    localization, the generated file names, between quotes, the title key of
    every shortcut, its description key when it has a description, the
    title, prompt and description keys of its parameters, the message keys
    of its state dialogs, and the two system keys; and each of these keys is
    a key of the strings that are extracted for the catalog. *)
Theorem localized_keys_are_extracted
    (config : ShortcutsConfig) (shortcut : ShortcutDefinition) (k : string) :
  shortcut ∈ shortcuts config →
  shortcutKey shortcut k ∨ k = "system.timeout" ∨ k = "system.error.appGroupFailed" →
  includes (quoted k)
    (generateSwiftFile numberToString toUpperCase toLowerCase config true) = true
  ∧ is_Some (extractLocalizableStrings toLowerCase config !! k).
Proof.
  intros Hin Hk. split.
  - apply (generateSwiftFile_intents _ _ _ shortcut Hin).
    by apply generateIntentStruct_keys.
  - by apply (extractLocalizableStrings_present toLowerCase config shortcut).
Qed.

End GeneratedFile.

(** ** The round trip of a command *)

Section CommandRoundTrip.

Lemma parameterKey_not_typeKey (name name' : string) :
  prefixParam +:+ name ≠ prefixParamType +:+ name'.
Proof. intros [=]. Qed.

(** The keys of the protocol of a command: the four command keys and every
    parameter and type-marker key. *)
Definition isProtocolKey (k : string) : bool :=
  bool_decide (k ∈ [keyPendingCommand; keyCommandNonce;
                    keyCommandTimestamp; keyUserConfirmed])
  || hasPrefix prefixParam k || hasPrefix prefixParamType k.

(** A store without command: no key of the protocol is set. *)
Definition noCommand (defaults : gmap string PlistValue) : Prop :=
  ∀ k, isProtocolKey k = true → defaults !! k = None.

(** How the application receives what the intent stored for a value. *)
Definition receivedAs (numberAsString : PlistValue → option string)
    (value : ParamValue) : ParamValue :=
  match value with
  | VDouble d =>
      match numberAsString (PDouble d) with
      | Some s => VString s
      | None => VDouble d
      end
  | v => v
  end.

(** The type marker that the writes leave for a parameter. *)
Definition markerOf (type : ParameterType) : option PlistValue :=
  match type with
  | TDate => Some (PString "date")
  | TBoolean => Some (PString "boolean")
  | _ => None
  end.

Lemma writeParameter_lookup (param : ShortcutParameter) (value : option ParamValue)
    (defaults : gmap string PlistValue) (k : string) :
  writeParameter param value defaults !! k
  = match value with
    | Some v =>
        if decide (k = prefixParam +:+ param_name param)
        then Some (storedParameter v)
        else if decide (k = prefixParamType +:+ param_name param)
             then match markerOf (param_type param) with
                  | Some marker => Some marker
                  | None => defaults !! k
                  end
             else defaults !! k
    | None => defaults !! k
    end.
Proof.
  unfold writeParameter. destruct value as [v|]; [|done]. cbv zeta.
  change ("IosIntentsParam_" +:+ param_name param)
    with (prefixParam +:+ param_name param).
  change ("IosIntentsParamType_" +:+ param_name param)
    with (prefixParamType +:+ param_name param).
  pose proof (parameterKey_not_typeKey (param_name param) (param_name param)) as Hne.
  destruct (param_type param); simpl; rewrite ?lookup_insert;
    repeat case_decide; subst; try done; congruence.
Qed.

(** The parameter writes, on a store that holds no parameter key and no
    type marker. *)
Lemma writes_lookup (params : list ShortcutParameter)
    (arguments : string → option ParamValue)
    (defaults : gmap string PlistValue) :
  NoDup (param_name <$> params) →
  let written :=
    foldl (λ d param, writeParameter param (arguments (param_name param)) d)
          defaults params in
  (∀ param v, param ∈ params → arguments (param_name param) = Some v →
     written !! (prefixParam +:+ param_name param) = Some (storedParameter v)
     ∧ written !! (prefixParamType +:+ param_name param)
       = match markerOf (param_type param) with
         | Some marker => Some marker
         | None => defaults !! (prefixParamType +:+ param_name param)
         end)
  ∧ (∀ k, (∀ param, param ∈ params → is_Some (arguments (param_name param)) →
             k ≠ prefixParam +:+ param_name param
             ∧ k ≠ prefixParamType +:+ param_name param) →
       written !! k = defaults !! k).
Proof.
  cbv zeta. revert defaults.
  induction params as [|p params IH]; intros defaults Hnd.
  { split; [|done]. intros param v Hin. by apply elem_of_nil in Hin. }
  simpl in Hnd. apply NoDup_cons in Hnd as [Hp Hnd]. cbn [foldl].
  destruct (IH (writeParameter p (arguments (param_name p)) defaults) Hnd)
    as [Hin Hframe].
  split.
  - intros param v [->|Hparam]%elem_of_cons Hv.
    + rewrite !Hframe.
      * rewrite !writeParameter_lookup, Hv.
        rewrite decide_True by done.
        rewrite decide_False by (intros H; symmetry in H;
                                 by apply parameterKey_not_typeKey in H).
        by rewrite decide_True by done.
      * intros q Hq _. split; [by apply not_eq_sym, parameterKey_not_typeKey|].
        intros Heq. apply (inj (String.app prefixParamType)) in Heq.
        apply Hp. rewrite Heq. by apply list_elem_of_fmap_2.
      * intros q Hq _. split; [|apply parameterKey_not_typeKey].
        intros Heq. apply (inj (String.app prefixParam)) in Heq.
        apply Hp. rewrite Heq. by apply list_elem_of_fmap_2.
    + destruct (Hin param v Hparam Hv) as [Hkey Hmarker]. split; [done|].
      rewrite Hmarker. destruct (markerOf (param_type param)); [done|].
      rewrite writeParameter_lookup.
      destruct (arguments (param_name p)) as [w|]; [|done].
      rewrite decide_False by (intros H; symmetry in H;
                               by apply parameterKey_not_typeKey in H).
      rewrite decide_False; [done|].
      intros Heq. apply (inj (String.app prefixParamType)) in Heq.
      apply Hp. rewrite <- Heq. by apply list_elem_of_fmap_2.
  - intros k Hk. rewrite Hframe.
    + rewrite writeParameter_lookup.
      destruct (arguments (param_name p)) as [w|] eqn:Hw; [|done].
      destruct (Hk p) as [Hk1 Hk2]; [by left|by rewrite Hw|].
      by rewrite !decide_False by done.
    + intros param Hparam Hsome. apply Hk; [by right|done].
Qed.

Variable numberAsString : PlistValue → option string.
Variable stringAsDouble : string → float.

Lemma decode_received (defaults : gmap string PlistValue) (name : string)
    (v : ParamValue) (type : ParameterType) :
  hasType v type = true →
  defaults !! (prefixParam +:+ name) = Some (storedParameter v) →
  defaults !! (prefixParamType +:+ name) = markerOf type →
  decodeParameter numberAsString stringAsDouble defaults (prefixParam +:+ name)
  = Some (receivedAs numberAsString v).
Proof.
  intros Htype Hkey Hmarker. unfold decodeParameter. rewrite dropFirst_app.
  assert (stringForKey numberAsString defaults (prefixParamType +:+ name)
          = match type with
            | TDate => Some "date"
            | TBoolean => Some "boolean"
            | _ => None
            end) as ->.
  { unfold stringForKey. rewrite Hmarker. by destruct type. }
  unfold numberForKey, stringForKey, doubleForKey. rewrite Hkey.
  destruct v as [b|s|d|t], type; try done; simpl;
    try (by destruct (numberAsString (PDouble d))).
Qed.

(** X24. A published command is delivered. The generated [perform] publishes a
    command into a store without command; the values of the parameters have
    the types of their declarations and the parameters have distinct names.
    The application then reads the identifier of the shortcut, the nonce of
    the intent and the confirmation flag (only when the shortcut has a
    confirmation dialog); under the name of every parameter that has a
    value it reads that value (a date, a boolean and a string as they are,
    a number as a string when Foundation renders numbers as strings), and
    it reads no other parameter; and it leaves the store as it was before
    the command. *)
Theorem published_command_is_delivered
    (shortcut : ShortcutDefinition) (hasConfirmationDialogs : bool)
    (nonce : string) (now : float) (userConfirmedOverride : bool)
    (arguments : string → option ParamValue)
    (defaults : gmap string PlistValue) :
  noCommand defaults →
  NoDup (param_name <$> default [] (parameters shortcut)) →
  (∀ param v, param ∈ default [] (parameters shortcut) →
     arguments (param_name param) = Some v → hasType v (param_type param) = true) →
  ∃ data,
    handleDarwinNotification numberAsString stringAsDouble (λ d, d)
      (Some (publish shortcut hasConfirmationDialogs nonce now userConfirmedOverride
               arguments defaults))
    = (Some defaults, Some data)
    ∧ nsd_identifier data = identifier shortcut
    ∧ nsd_nonce data = nonce
    ∧ nsd_userConfirmed data
      = (if hasConfirmationDialogs then Some userConfirmedOverride else None)
    ∧ (∀ param, param ∈ default [] (parameters shortcut) →
         default ∅ (nsd_parameters data) !! param_name param
         = receivedAs numberAsString <$> arguments (param_name param))
    ∧ (∀ name, name ∉ param_name <$> default [] (parameters shortcut) →
         default ∅ (nsd_parameters data) !! name = None).
Proof.
  intros Hclean Hnd Htypes.
  destruct (writes_lookup (default [] (parameters shortcut)) arguments defaults Hnd)
    as [Hwritten Hframe].
  set (written :=
         foldl (λ d param, writeParameter param (arguments (param_name param)) d)
               defaults (default [] (parameters shortcut))) in *.
  set (published := publish shortcut hasConfirmationDialogs nonce now
                      userConfirmedOverride arguments defaults).
  assert (∀ k, hasPrefix prefixParam k = true ∨ hasPrefix prefixParamType k = true →
               published !! k = written !! k) as Hparams.
  { intros k Hk. unfold published, publish. fold written.
    assert (k ∉ [keyPendingCommand; keyCommandNonce;
                 keyCommandTimestamp; keyUserConfirmed]) as Hfixed.
    { rewrite !elem_of_cons, elem_of_nil.
      intros [->|[->|[->|[->|[]]]]]; by destruct Hk. }
    rewrite !not_elem_of_cons in Hfixed.
    destruct Hfixed as (H1 & H2 & H3 & H4 & _).
    destruct hasConfirmationDialogs; by rewrite !lookup_insert_ne. }
  assert (published !! keyPendingCommand = Some (PString (identifier shortcut))
          ∧ published !! keyCommandNonce = Some (PString nonce)
          ∧ published !! keyUserConfirmed
            = if hasConfirmationDialogs then Some (PBool userConfirmedOverride)
              else None) as (Hcommand & Hnonce & Hconfirmed).
  { unfold published, publish. fold written.
    assert (written !! keyUserConfirmed = None) as Hnone.
    { rewrite Hframe; [by apply Hclean|]. intros param _ _. by split. }
    unfold keyPendingCommand, keyCommandNonce, keyUserConfirmed in *.
    repeat split; destruct hasConfirmationDialogs;
      rewrite ?lookup_insert; repeat case_decide; try done. }
  assert (∀ k, isProtocolKey k = false → published !! k = defaults !! k) as Hother.
  { intros k Hk. unfold isProtocolKey in Hk.
    apply orb_false_iff in Hk as [[Hfixed H1]%orb_false_iff H2].
    apply bool_decide_eq_false in Hfixed. rewrite !not_elem_of_cons in Hfixed.
    destruct Hfixed as (F1 & F2 & F3 & F4 & _).
    transitivity (written !! k).
    - unfold published, publish. fold written.
      destruct hasConfirmationDialogs; by rewrite !lookup_insert_ne.
    - apply Hframe. intros param _ _.
      split; intros ->; by rewrite hasPrefix_app in *. }
  assert (∀ param, param ∈ default [] (parameters shortcut) →
            readParameters numberAsString stringAsDouble published
              (elements (dom published)) !! param_name param
            = receivedAs numberAsString <$> arguments (param_name param)) as Hread.
  { intros param Hparam. rewrite readParameters_lookup.
    destruct (arguments (param_name param)) as [v|] eqn:Hv.
    - destruct (Hwritten param v Hparam Hv) as [Hkey Hmarker].
      rewrite bool_decide_eq_true_2.
      + simpl. apply (decode_received _ _ _ (param_type param)).
        * by apply (Htypes param).
        * rewrite Hparams; [done|]. left. apply hasPrefix_app.
        * rewrite Hparams; [|right; apply hasPrefix_app]. rewrite Hmarker.
          destruct (markerOf (param_type param)); [done|].
          apply Hclean. unfold isProtocolKey.
          by rewrite (hasPrefix_app prefixParamType), orb_true_r.
      + apply elem_of_elements, elem_of_dom.
        rewrite Hparams; [by rewrite Hkey|]. left. apply hasPrefix_app.
    - rewrite bool_decide_eq_false_2; [done|].
      rewrite elem_of_elements, elem_of_dom, Hparams by (left; apply hasPrefix_app).
      rewrite Hframe.
      + rewrite Hclean; [by intros [? ?]|]. unfold isProtocolKey.
        by rewrite (hasPrefix_app prefixParam), orb_true_r.
      + intros q Hq [w Hw].
        split; [|apply parameterKey_not_typeKey].
        intros Heq. apply (inj (String.app prefixParam)) in Heq.
        rewrite Heq in Hv. congruence. }
  assert (∀ name, name ∉ param_name <$> default [] (parameters shortcut) →
            readParameters numberAsString stringAsDouble published
              (elements (dom published)) !! name = None) as Hnone.
  { intros name Hname. rewrite readParameters_lookup.
    rewrite bool_decide_eq_false_2; [done|].
    rewrite elem_of_elements, elem_of_dom, Hparams by (left; apply hasPrefix_app).
    rewrite Hframe.
    - rewrite Hclean; [by intros [? ?]|]. unfold isProtocolKey.
      by rewrite (hasPrefix_app prefixParam), orb_true_r.
    - intros q Hq _. split; [|apply parameterKey_not_typeKey].
      intros Heq. apply (inj (String.app prefixParam)) in Heq.
      apply Hname. rewrite Heq. by apply list_elem_of_fmap_2. }
  unfold handleDarwinNotification.
  assert (stringForKey numberAsString published keyPendingCommand
          = Some (identifier shortcut)) as ->
    by (unfold stringForKey; by rewrite Hcommand).
  assert (stringForKey numberAsString published keyCommandNonce = Some nonce)
    as Hn by (unfold stringForKey; by rewrite Hnonce).
  rewrite Hn. eexists. split.
  { apply pair_equal_spec. split; [|reflexivity].
    f_equal. unfold clearIfCurrent. rewrite Hn, decide_True by done.
    apply map_eq. intros k. rewrite removeCommandKeys_lookup.
    destruct (isCommandKey (elements (dom published)) k) eqn:Hk.
    - symmetry. apply Hclean. unfold isCommandKey in Hk. unfold isProtocolKey.
      apply orb_true_iff in Hk as [->|[_ Hp]%andb_true_iff]; [done|].
      by rewrite <- orb_assoc, Hp, orb_true_r.
    - destruct (isProtocolKey k) eqn:Hp; [|by apply Hother].
      rewrite (Hclean k Hp). unfold isCommandKey in Hk. unfold isProtocolKey in Hp.
      apply orb_false_iff in Hk as [Hfixed Hk]. rewrite Hfixed in Hp. simpl in Hp.
      rewrite Hp, andb_true_r in Hk. apply bool_decide_eq_false in Hk.
      rewrite elem_of_elements, elem_of_dom in Hk.
      by destruct (published !! k) as [x|]; [destruct Hk; eexists|]. }
  cbn [nsd_identifier nsd_nonce nsd_userConfirmed nsd_parameters].
  split; [done|]. split; [done|]. split; [|split].
  - unfold numberForKey. rewrite Hconfirmed. by destruct hasConfirmationDialogs.
  - intros param Hparam. rewrite <- (Hread param Hparam).
    destruct (decide (_ = ∅)) as [->|]; [by rewrite lookup_empty|done].
  - intros name Hname. rewrite <- (Hnone name Hname).
    destruct (decide (_ = ∅)) as [->|]; [by rewrite lookup_empty|done].
Qed.

(** X25. The response reaches the intent. When the listeners of an invocation
    have run, one round of the polling loop of the intent finds the last
    response that was sent for the nonce of the invocation, returns its
    message (the empty text for a response without message) and removes it:
    the store is again as it was before the invocation. When no listener
    responded the round finds nothing, and the intent goes on waiting until
    its timeout. *)
Theorem response_reaches_the_intent
    (m : ManagerState) (defaults : gmap string PlistValue)
    (shortcut : ShortcutInvocation) :
  defaults !! ("IosIntentsResponse_" +:+ inv_nonce shortcut) = None →
  ∃ defaults',
    (handleShortcutInvocation m (Some {| sharedDefaults := Some defaults |})
       shortcut).1
    = Some {| sharedDefaults := Some defaults' |}
    ∧ pollResponse numberAsString (inv_nonce shortcut) defaults'
      = (defaults,
         (λ response, default EmptyString (resp_message response))
           <$> last (concat ((λ listener : Listener, responses (listener shortcut))
                               <$> default [] (listeners m !! EVENT_SHORTCUT)))).
Proof.
  intros Hfree.
  assert (∃ defaults',
    (handleShortcutInvocation m (Some {| sharedDefaults := Some defaults |})
       shortcut).1
    = Some {| sharedDefaults := Some defaults' |}
    ∧ defaults' !! ("IosIntentsResponse_" +:+ inv_nonce shortcut)
      = match last (concat ((λ listener : Listener, responses (listener shortcut))
                              <$> default [] (listeners m !! EVENT_SHORTCUT))) with
        | Some response =>
            Some (PString (default EmptyString (resp_message response)))
        | None => defaults !! ("IosIntentsResponse_" +:+ inv_nonce shortcut)
        end
    ∧ ∀ other, other ≠ "IosIntentsResponse_" +:+ inv_nonce shortcut →
               defaults' !! other = defaults !! other) as (d' & Hrun & Hkey & Hframe).
  { unfold handleShortcutInvocation.
    destruct (listeners m !! EVENT_SHORTCUT) as [[|l ls]|]; cbn [fst from_option];
      try by exists defaults.
    rewrite foldl_listeners_concat. apply foldl_respond_accessible. }
  exists d'. split; [done|]. unfold pollResponse, stringForKey. cbv zeta.
  rewrite Hkey.
  destruct (last _) as [response|]; simpl.
  - f_equal. apply map_eq. intros k.
    destruct (decide (k = "IosIntentsResponse_" +:+ inv_nonce shortcut)) as [->|Hne].
    + by rewrite lookup_delete_eq.
    + rewrite lookup_delete_ne by done. by apply Hframe.
  - rewrite Hfree. f_equal. apply map_eq. intros k.
    destruct (decide (k = "IosIntentsResponse_" +:+ inv_nonce shortcut)) as [->|Hne].
    + by rewrite Hkey.
    + by apply Hframe.
Qed.

End CommandRoundTrip.

(** ** The generated intent writes the keys that the bridge reads *)

Section GeneratedProtocol.

Variable numberToString : float → string.
Variable toUpperCase : ascii → string.
Variable toLowerCase : string → string.

(** The text of a [defaults.set] statement. *)
Definition setStatement (value key : string) : string :=
  "defaults.set(" +:+ value +:+ ", forKey: " +:+ dq +:+ key +:+ dq +:+ ")".

(** The Swift expression that the generated writes store for a parameter. *)
Definition storedExpression (param : ShortcutParameter) : string :=
  match param_type param with
  | TDate => param_name param +:+ ".timeIntervalSince1970"
  | _ => param_name param
  end.

Lemma includes_startsWith (needle hay : string) :
  startsWith needle hay = true → includes needle hay = true.
Proof. intros H. by rewrite includes_unfold, H. Qed.

Lemma startsWith_piece (p needle hay : string) :
  startsWith needle hay = true → startsWith (p +:+ needle) (p +:+ hay) = true.
Proof.
  intros H. induction p as [|c p IH]; [done|].
  rewrite !app_cons. by apply startsWith_cons.
Qed.

(** A needle and a text made of the same pieces, the text going on. *)
Ltac matchPieces :=
  first [ apply startsWith_app | apply startsWith_piece; matchPieces ].

(** The line of a concatenation that starts with a given text is looked for
    from the left. *)
Ltac seekLine lit :=
  lazymatch goal with
  | |- includes _ (String.append lit _) = true => idtac
  | |- includes _ (String.append _ _) = true => apply includes_r; seekLine lit
  end.

Ltac atLine :=
  change (String.append "            defaults.set(" ?x)
    with (String.append "            " (String.append "defaults.set(" x));
  apply includes_r, includes_startsWith; matchPieces.

Lemma publicationCode_protocol (shortcut : ShortcutDefinition) (useLocalization : bool) :
  let code := publicationCode numberToString toUpperCase shortcut useLocalization in
  includes (setStatement (quoted (identifier shortcut)) keyPendingCommand) code = true
  ∧ includes (setStatement "nonce" keyCommandNonce) code = true
  ∧ includes (setStatement "Date().timeIntervalSince1970" keyCommandTimestamp) code = true
  ∧ (hasConfirmationDialogs numberToString toUpperCase shortcut useLocalization = true →
     includes (setStatement "userConfirmedOverride" keyUserConfirmed) code = true)
  ∧ includes ("CFNotificationName(" +:+ dq +:+ darwinNotificationName +:+ dq
              +:+ " as CFString)") code = true
  ∧ includes ("let responseKey = " +:+ dq +:+ "IosIntentsResponse_" +:+ bs +:+ "(nonce)"
              +:+ dq) code = true.
Proof.
  cbv zeta. unfold publicationCode. cbv zeta.
  generalize (pascalCase toUpperCase (identifier shortcut) +:+ "Intent").
  generalize (generateParameterWrites (parameters shortcut)).
  intros writes className.
  unfold keyPendingCommand, keyCommandNonce, keyCommandTimestamp, keyUserConfirmed,
    darwinNotificationName, setStatement, quoted.
  split; [|split; [|split; [|split; [|split]]]].
  - rewrite !app_assoc_str. seekLine "        defaults.set(".
    change (String.append "        defaults.set(" ?x)
      with (String.append "        " (String.append "defaults.set(" x)).
    apply includes_r, includes_startsWith. matchPieces.
  - seekLine "        defaults.set(nonce, forKey: ".
    change (String.append "        defaults.set(nonce, forKey: " ?x)
      with (String.append "        "
              (String.append "defaults.set("
                 (String.append "nonce" (String.append ", forKey: " x)))).
    apply includes_r, includes_startsWith. matchPieces.
  - seekLine "        defaults.set(Date().timeIntervalSince1970, forKey: ".
    change (String.append "        defaults.set(Date().timeIntervalSince1970, forKey: " ?x)
      with (String.append "        "
              (String.append "defaults.set("
                 (String.append "Date().timeIntervalSince1970"
                    (String.append ", forKey: " x)))).
    apply includes_r, includes_startsWith. matchPieces.
  - intros Hconfirmation. rewrite Hconfirmation. cbv iota. rewrite !app_assoc_str.
    seekLine "        defaults.set(userConfirmedOverride, forKey: ".
    change (String.append "        defaults.set(userConfirmedOverride, forKey: " ?x)
      with (String.append "        "
              (String.append "defaults.set("
                 (String.append "userConfirmedOverride"
                    (String.append ", forKey: " x)))).
    apply includes_r, includes_startsWith. matchPieces.
  - seekLine "            CFNotificationName(".
    change (String.append "            CFNotificationName(" ?x)
      with (String.append "            " (String.append "CFNotificationName(" x)).
    change (String.append " as CFString)," ?x)
      with (String.append " as CFString)" (String.append "," x)).
    apply includes_r, includes_startsWith. matchPieces.
  - seekLine "        let responseKey = ".
    change (String.append "        let responseKey = " ?x)
      with (String.append "        " (String.append "let responseKey = " x)).
    apply includes_r, includes_startsWith. matchPieces.
Qed.

Lemma parameterWrite_protocol (param : ShortcutParameter) :
  includes (setStatement (storedExpression param) (prefixParam +:+ param_name param))
    (parameterWrite param) = true
  ∧ ∀ marker, markerOf (param_type param) = Some (PString marker) →
      includes (setStatement (quoted marker) (prefixParamType +:+ param_name param))
        (parameterWrite param) = true.
Proof.
  unfold parameterWrite, storedExpression, setStatement, quoted, prefixParam,
    prefixParamType, markerOf.
  cbv zeta. generalize (param_name param). intros name.
  destruct (param_type param); (split; [|intros marker [= <-]]);
    rewrite !app_assoc_str.
  all: try change (String.append ".timeIntervalSince1970" (String.append ", forKey: " ?x))
      with (String.append ".timeIntervalSince1970, forKey: " x).
  all: seekLine "            defaults.set(".
  all: first [ solve [atLine] | apply includes_r; seekLine "            defaults.set("; atLine ].
Qed.

Lemma generateParameterWrites_protocol (params : option (list ShortcutParameter))
    (param : ShortcutParameter) (needle : string) :
  param ∈ default [] params →
  includes needle (parameterWrite param) = true →
  includes needle (generateParameterWrites params) = true.
Proof.
  intros Hin Hneedle. unfold generateParameterWrites.
  assert (hasParameters params = true) as ->.
  { destruct params as [[|p ps]|]; try done; by apply elem_of_nil in Hin. }
  cbv zeta. do 3 apply includes_r. apply includes_l.
  apply (includes_join _ _ (parameterWrite param)); [|done].
  by apply (list_elem_of_fmap_2 parameterWrite).
Qed.

(** X26. The generated intent and the bridge agree on the protocol. Whatever
    the shortcut, the struct that is generated for it stores the identifier
    of the shortcut, the nonce and the timestamp under the three command
    keys that [handleDarwinNotification] reads, and the confirmation flag
    under the fourth when the shortcut has a confirmation dialog; it posts
    the notification under the name the bridge observes; it polls the key
    that the manager writes responses to; and for every parameter it stores
    the value (of a date, its time interval) under the parameter key, and
    for a date and a boolean the type marker that the bridge decodes by
    under the type key. *)
Theorem generated_intent_speaks_the_protocol
    (shortcut : ShortcutDefinition) (useLocalization : bool) :
  let code :=
    generateIntentStruct numberToString toUpperCase toLowerCase shortcut
      useLocalization in
  includes (setStatement (quoted (identifier shortcut)) keyPendingCommand) code = true
  ∧ includes (setStatement "nonce" keyCommandNonce) code = true
  ∧ includes (setStatement "Date().timeIntervalSince1970" keyCommandTimestamp) code = true
  ∧ (hasConfirmationDialogs numberToString toUpperCase shortcut useLocalization = true →
     includes (setStatement "userConfirmedOverride" keyUserConfirmed) code = true)
  ∧ includes ("CFNotificationName(" +:+ dq +:+ darwinNotificationName +:+ dq
              +:+ " as CFString)") code = true
  ∧ includes ("let responseKey = " +:+ dq +:+ "IosIntentsResponse_" +:+ bs +:+ "(nonce)"
              +:+ dq) code = true
  ∧ ∀ param, param ∈ default [] (parameters shortcut) →
      includes (setStatement (storedExpression param)
                  (prefixParam +:+ param_name param)) code = true
      ∧ ∀ marker, markerOf (param_type param) = Some (PString marker) →
          includes (setStatement (quoted marker)
                      (prefixParamType +:+ param_name param)) code = true.
Proof.
  cbv zeta. unfold generateIntentStruct.
  destruct (publicationCode_protocol shortcut useLocalization)
    as (Hcommand & Hnonce & Htimestamp & Hconfirmed & Hname & Hresponse).
  assert (∀ needle,
            includes needle
              (publicationCode numberToString toUpperCase shortcut useLocalization)
            = true →
            includes needle
              (preambleCode toUpperCase toLowerCase shortcut useLocalization
               +:+ dialogCode numberToString toUpperCase shortcut useLocalization
               +:+ publicationCode numberToString toUpperCase shortcut useLocalization)
            = true) as Hlast.
  { intros needle H. by do 2 apply includes_r. }
  assert (∀ needle,
            includes needle (generateParameterWrites (parameters shortcut)) = true →
            includes needle
              (publicationCode numberToString toUpperCase shortcut useLocalization)
            = true) as Hwrites.
  { intros needle H. unfold publicationCode. cbv zeta. revert H.
    generalize (generateParameterWrites (parameters shortcut)). intros writes H.
    do 3 apply includes_r. by apply includes_l. }
  repeat split; try by apply Hlast.
  - intros Hc. by apply Hlast, Hconfirmed.
  - apply Hlast, Hwrites, (generateParameterWrites_protocol _ param); [done|].
    apply parameterWrite_protocol.
  - intros marker Hmarker.
    apply Hlast, Hwrites, (generateParameterWrites_protocol _ param); [done|].
    by apply parameterWrite_protocol.
Qed.

End GeneratedProtocol.

(** ** The storage type of a parameter *)

Section ParameterStorage.

Variable numberToString : float → string.
Variable toUpperCase : ascii → string.
Variable toLowerCase : string → string.

(** Every element of a list that is joined, and then followed by the
    separator, is followed by the separator. *)
Lemma join_lookup_sep (sep : string) (l : list string) (i : nat) (x : string) :
  l !! i = Some x →
  ∃ before after, join sep l +:+ sep = before +:+ x +:+ sep +:+ after.
Proof.
  revert i. induction l as [|y l IH]; intros i Hi; [done|].
  destruct i as [|i]; simpl in Hi.
  - injection Hi as ->. exists EmptyString. destruct l as [|z l].
    + exists EmptyString. by rewrite app_empty_l, app_empty_r.
    + exists (join sep (z :: l) +:+ sep).
      change (join sep (x :: z :: l)) with (x +:+ sep +:+ join sep (z :: l)).
      by rewrite app_empty_l, !app_assoc_str.
  - destruct (IH i Hi) as (before & after & Heq). destruct l as [|z l]; [done|].
    exists (y +:+ sep +:+ before), after.
    change (join sep (y :: z :: l)) with (y +:+ sep +:+ join sep (z :: l)).
    rewrite !app_assoc_str. by rewrite Heq.
Qed.

(** The preamble of the struct holds the declarations block. *)
Lemma preambleCode_declarations (shortcut : ShortcutDefinition)
    (useLocalization : bool) (needle : string) :
  includes needle
    (generateParameterDeclarations (parameters shortcut) useLocalization
       (identifier shortcut)) = true →
  includes needle (preambleCode toUpperCase toLowerCase shortcut useLocalization)
  = true.
Proof.
  unfold preambleCode. cbv zeta.
  generalize (generateParameterDeclarations (parameters shortcut) useLocalization
                (identifier shortcut)).
  intros declarations H.
  repeat first [ solve [apply includes_l; exact H] | apply includes_r ].
Qed.

(** C8. The declarations block of a shortcut with parameters is, between
    two newlines, the declarations of its parameters in their order, one per
    parameter, joined by newlines; the declaration of a parameter is its
    [@Parameter] line and the line [var name: Type?], where Type is String,
    Double, Bool or Date by the type tag of the parameter. So for every
    parameter of a shortcut the block, and with it the generated struct,
    holds the line that declares the parameter with the optional type,
    whatever the optional flag of the parameter; and neither one
    declaration, nor the block, nor the struct changes when the optional
    flags of the parameters change. *)
Theorem parameter_storage_is_optional
    (useLocalization : bool) (shortcut : ShortcutDefinition) (index : nat)
    (param : ShortcutParameter) :
  default [] (parameters shortcut) !! index = Some param →
  let swiftName (p : ShortcutParameter) :=
    match param_type p with
    | TString => "String" | TNumber => "Double"
    | TBoolean => "Bool" | TDate => "Date"
    end in
  let storage :=
    nl +:+ "    var " +:+ param_name param +:+ ": " +:+ swiftName param +:+ "?"
    +:+ nl in
  generateParameterDeclarations (parameters shortcut) useLocalization
    (identifier shortcut)
  = nl
    +:+ join nl
          (imap (λ i p,
                   parameterAttribute useLocalization (identifier shortcut) i p
                   +:+ nl +:+ "    var " +:+ param_name p +:+ ": "
                   +:+ swiftName p +:+ "?")
                (default [] (parameters shortcut)))
    +:+ nl
  ∧ includes storage
      (generateParameterDeclarations (parameters shortcut) useLocalization
         (identifier shortcut)) = true
  ∧ includes storage
      (generateIntentStruct numberToString toUpperCase toLowerCase shortcut
         useLocalization) = true
  ∧ (∀ flag,
       parameterDeclaration useLocalization (identifier shortcut) index
         (withOptional flag param)
       = parameterDeclaration useLocalization (identifier shortcut) index param)
  ∧ (∀ flags : ShortcutParameter → option bool,
       generateParameterDeclarations
         (parameters (withOptionalFlags flags shortcut)) useLocalization
         (identifier shortcut)
       = generateParameterDeclarations (parameters shortcut) useLocalization
           (identifier shortcut)
       ∧ generateIntentStruct numberToString toUpperCase toLowerCase
           (withOptionalFlags flags shortcut) useLocalization
         = generateIntentStruct numberToString toUpperCase toLowerCase shortcut
             useLocalization).
Proof.
  intros Hi. cbv zeta.
  assert (generateParameterDeclarations (parameters shortcut) useLocalization
            (identifier shortcut)
          = nl
            +:+ join nl
                  (imap (λ i p,
                           parameterAttribute useLocalization (identifier shortcut)
                             i p
                           +:+ nl +:+ "    var " +:+ param_name p +:+ ": "
                           +:+ match param_type p with
                               | TString => "String" | TNumber => "Double"
                               | TBoolean => "Bool" | TDate => "Date"
                               end +:+ "?")
                        (default [] (parameters shortcut)))
            +:+ nl) as Hblock.
  { unfold generateParameterDeclarations.
    rewrite (hasParameters_lookup _ _ _ Hi). f_equal. f_equal. f_equal.
    apply imap_ext. intros i p _. unfold parameterDeclaration. cbv zeta.
    do 5 f_equal. by destruct (param_type p). }
  assert (includes
            (nl +:+ "    var " +:+ param_name param +:+ ": "
             +:+ match param_type param with
                 | TString => "String" | TNumber => "Double"
                 | TBoolean => "Bool" | TDate => "Date"
                 end +:+ "?" +:+ nl)
            (generateParameterDeclarations (parameters shortcut) useLocalization
               (identifier shortcut)) = true) as Hline.
  { rewrite Hblock. apply includes_r.
    match goal with
    | |- includes _ (join nl (imap ?f ?l) +:+ nl) = true =>
        destruct (join_lookup_sep nl (imap f l) index (f index param))
          as (before & after & ->); [by rewrite list_lookup_imap, Hi|]
    end.
    rewrite !app_assoc_str. apply includes_r, includes_r.
    rewrite <- !app_assoc_str. apply includes_l. rewrite !app_assoc_str.
    apply includes_refl. }
  split; [exact Hblock|]. split; [exact Hline|]. split; [|split].
  - unfold generateIntentStruct. by apply includes_l, preambleCode_declarations.
  - done.
  - intros flags. split.
    + apply (generateParameterDeclarations_optional flags (parameters shortcut)).
    + apply generateIntentStruct_optional.
Qed.

End ParameterStorage.

(** ** The texts of the configuration reach the catalog *)

Section LocalizedTexts.

Variable toLowerCase : string → string.

(** The texts of a shortcut that are localized. *)
Inductive TextKind : Type :=
| KTitle
| KDescription
| KParameterTitle (index : nat)
| KParameterDescription (index : nat)
| KParameterPrompt (index : nat)
| KDialogMessage (index : nat).

(** The key of a text of the shortcut [id]. *)
Definition keyOf (id : string) (kind : TextKind) : string :=
  match kind with
  | KTitle => id +:+ ".title"
  | KDescription => id +:+ ".description"
  | KParameterTitle index => id +:+ ".parameters." +:+ pretty index +:+ ".title"
  | KParameterDescription index =>
      id +:+ ".parameters." +:+ pretty index +:+ ".description"
  | KParameterPrompt index => id +:+ ".parameters." +:+ pretty index +:+ ".prompt"
  | KDialogMessage index => id +:+ ".stateDialogs." +:+ pretty index +:+ ".message"
  end.

(** The text itself, when the shortcut has it: a description must be
    truthy, a parameter or a state dialog must be there. *)
Definition textOf (shortcut : ShortcutDefinition) (kind : TextKind) : option string :=
  match kind with
  | KTitle => Some (title shortcut)
  | KDescription =>
      if truthyString (description shortcut) then description shortcut else None
  | KParameterTitle index =>
      param_title <$> default [] (parameters shortcut) !! index
  | KParameterDescription index =>
      param ← default [] (parameters shortcut) !! index;
      if truthyString (param_description param) then param_description param else None
  | KParameterPrompt index =>
      (λ param, "What " +:+ toLowerCase (param_title param) +:+ "?")
        <$> default [] (parameters shortcut) !! index
  | KDialogMessage index => message <$> default [] (stateDialogs shortcut) !! index
  end.

(** What follows the identifier and its dot in a key. *)
Definition keyTail (kind : TextKind) : string :=
  match kind with
  | KTitle => "title"
  | KDescription => "description"
  | KParameterTitle index => "parameters." +:+ pretty index +:+ ".title"
  | KParameterDescription index => "parameters." +:+ pretty index +:+ ".description"
  | KParameterPrompt index => "parameters." +:+ pretty index +:+ ".prompt"
  | KDialogMessage index => "stateDialogs." +:+ pretty index +:+ ".message"
  end.

Lemma keyOf_keyTail (id : string) (kind : TextKind) :
  keyOf id kind = id +:+ "." +:+ keyTail kind.
Proof. by destruct kind. Qed.

Lemma includes_dot_head (s : string) : includes "." (String "." s) = true.
Proof.
  rewrite includes_unfold.
  change (startsWith "." (String "." s)) with (startsWith "." ("." +:+ s)).
  by rewrite startsWith_app.
Qed.

(** A key is cut at its first dot. *)
Lemma first_dot_inj (id id' tail tail' : string) :
  includes "." id = false → includes "." id' = false →
  id +:+ "." +:+ tail = id' +:+ "." +:+ tail' → id = id' ∧ tail = tail'.
Proof.
  revert id'. induction id as [|c id IH]; intros [|c' id'] Hid Hid' Heq;
    rewrite ?app_empty_l, ?app_cons in Heq.
  - by apply (inj (String.app ".")) in Heq as ->.
  - change ("." +:+ tail) with (String "." tail) in Heq.
    injection Heq as <- _. by rewrite includes_dot_head in Hid'.
  - change ("." +:+ tail') with (String "." tail') in Heq.
    injection Heq as -> _. by rewrite includes_dot_head in Hid.
  - injection Heq as -> Heq.
    apply includes_cons_false in Hid, Hid'.
    destruct (IH id' Hid Hid' Heq) as [-> ->]. done.
Qed.

Lemma string_app_inv_tail (s s' t : string) : s +:+ t = s' +:+ t → s = s'.
Proof.
  intros H. apply (f_equal list_ascii_of_string) in H.
  rewrite !list_ascii_of_string_app in H. apply app_inv_tail in H.
  rewrite <- (string_of_list_ascii_of_string s),
    <- (string_of_list_ascii_of_string s'). by rewrite H.
Qed.

Lemma string_last_eq (s s' t t' : string) :
  s +:+ t = s' +:+ t' →
  last (list_ascii_of_string s ++ list_ascii_of_string t)
  = last (list_ascii_of_string s' ++ list_ascii_of_string t').
Proof. intros H. by rewrite <- !list_ascii_of_string_app, H. Qed.

Lemma keyTail_inj (kind kind' : TextKind) : keyTail kind = keyTail kind' → kind = kind'.
Proof.
  destruct kind as [| |i|i|i|i], kind' as [| |j|j|j|j]; unfold keyTail; intros H;
    try done; try (rewrite ?app_cons in H; discriminate).
  all: first [ apply (inj (String.app "parameters.")) in H
             | apply (inj (String.app "stateDialogs.")) in H ].
  all: try (apply string_app_inv_tail in H; by apply (inj pretty) in H as ->).
  all: apply string_last_eq in H; rewrite !last_app in H; by simpl in H.
Qed.

Lemma keyOf_inj (id id' : string) (kind kind' : TextKind) :
  includes "." id = false → includes "." id' = false →
  keyOf id kind = keyOf id' kind' → id = id' ∧ kind = kind'.
Proof.
  intros Hid Hid'. rewrite !keyOf_keyTail. intros H.
  destruct (first_dot_inj _ _ _ _ Hid Hid' H) as [-> Htail].
  by apply keyTail_inj in Htail as ->.
Qed.

(** A text of a shortcut of the list, under its key. *)
Definition textIn (l : list ShortcutDefinition) (k v : string) : Prop :=
  ∃ shortcut kind,
    shortcut ∈ l ∧ k = keyOf (identifier shortcut) kind
    ∧ textOf shortcut kind = Some v.

Definition onlyTexts (l : list ShortcutDefinition) (strings : gmap string string)
    : Prop :=
  ∀ k v, strings !! k = Some v → textIn l k v.

Lemma onlyTexts_insert (l : list ShortcutDefinition) (strings : gmap string string)
    (k v : string) :
  textIn l k v → onlyTexts l strings → onlyTexts l (<[k := v]> strings).
Proof.
  intros Hkv Hs k' v'. destruct (decide (k = k')) as [<-|Hne].
  - rewrite lookup_insert_eq. by intros [= <-].
  - rewrite lookup_insert_ne by done. apply Hs.
Qed.

Lemma foldl_invariant {A S : Type} (f : S → A → S) (P : S → Prop) (l : list A)
    (s : S) :
  P s → (∀ s' x, x ∈ l → P s' → P (f s' x)) → P (foldl f s l).
Proof.
  revert s. induction l as [|x l IH]; intros s Hs Hstep; [done|].
  cbn [foldl]. apply IH.
  - apply Hstep; [by left|done].
  - intros s' y Hy. apply Hstep. by right.
Qed.

(** One shortcut adds texts of its own only. *)
Lemma shortcutStrings_onlyTexts (l : list ShortcutDefinition)
    (strings : gmap string string) (shortcut : ShortcutDefinition) :
  shortcut ∈ l → onlyTexts l strings →
  onlyTexts l (shortcutStrings toLowerCase strings shortcut).
Proof.
  intros Hin Hs. unfold shortcutStrings. cbv zeta.
  assert (∀ kind v, textOf shortcut kind = Some v →
                    textIn l (keyOf (identifier shortcut) kind) v) as Htext.
  { intros kind v Hv. by exists shortcut, kind. }
  apply foldl_invariant; [apply foldl_invariant|].
  - assert (onlyTexts l (<[identifier shortcut +:+ ".title" := title shortcut]> strings))
      as Htitle.
    { apply onlyTexts_insert; [|done]. by apply (Htext KTitle). }
    destruct (truthyString (description shortcut)) eqn:Hd; [|done].
    apply onlyTexts_insert; [|done]. apply (Htext KDescription). simpl. rewrite Hd.
    by destruct (description shortcut).
  - intros s' [index param] (i & p & [= -> ->] & Hi)%elem_of_lookup_imap Hs'.
    unfold parameterStrings.
    apply onlyTexts_insert.
    { apply (Htext (KParameterPrompt i)). simpl. by rewrite Hi. }
    assert (onlyTexts l
              (<[identifier shortcut +:+ ".parameters." +:+ pretty i +:+ ".title"
                 := param_title p]> s')) as Htitle.
    { apply onlyTexts_insert; [|done]. apply (Htext (KParameterTitle i)). simpl.
      by rewrite Hi. }
    destruct (truthyString (param_description p)) eqn:Hd; [|done].
    apply onlyTexts_insert; [|done]. apply (Htext (KParameterDescription i)). simpl.
    rewrite Hi. simpl. rewrite Hd. by destruct (param_description p).
  - intros s' [index dialog] (i & d & [= -> ->] & Hi)%elem_of_lookup_imap Hs'.
    unfold dialogStrings. apply onlyTexts_insert; [|done].
    apply (Htext (KDialogMessage i)). simpl. by rewrite Hi.
Qed.

(** A text of a shortcut has one of the keys of the shortcut. *)
Lemma textOf_shortcutKey (shortcut : ShortcutDefinition) (kind : TextKind) (v : string) :
  textOf shortcut kind = Some v →
  shortcutKey shortcut (keyOf (identifier shortcut) kind).
Proof.
  unfold shortcutKey. cbv zeta. destruct kind as [| |i|i|i|i]; simpl.
  - by left.
  - destruct (truthyString (description shortcut)) eqn:Hd; [|done]. right. by left.
  - destruct (default [] (parameters shortcut) !! i) as [param|] eqn:Hi; [|done].
    intros _. right. right. left. exists i, param. split; [done|]. by left.
  - destruct (default [] (parameters shortcut) !! i) as [param|] eqn:Hi; [|done].
    simpl. destruct (truthyString (param_description param)) eqn:Hd; [|done].
    intros _. right. right. left. exists i, param. split; [done|]. right. by right.
  - destruct (default [] (parameters shortcut) !! i) as [param|] eqn:Hi; [|done].
    intros _. right. right. left. exists i, param. split; [done|]. right. by left.
  - destruct (default [] (stateDialogs shortcut) !! i) as [dialog|] eqn:Hi; [|done].
    intros _. right. right. right. by exists i, dialog.
Qed.

(** The key of a text is no system key. *)
Lemma keyOf_not_system (id : string) (kind : TextKind) :
  includes "." id = false →
  keyOf id kind ≠ "system.timeout" ∧ keyOf id kind ≠ "system.error.appGroupFailed".
Proof.
  intros Hid. rewrite keyOf_keyTail.
  split; intros H.
  - destruct (first_dot_inj id "system" (keyTail kind) "timeout" Hid eq_refl H)
      as [_ Htail].
    destruct kind; unfold keyTail in Htail; rewrite ?app_cons in Htail; discriminate.
  - destruct (first_dot_inj id "system" (keyTail kind) "error.appGroupFailed" Hid
                eq_refl H) as [_ Htail].
    destruct kind; unfold keyTail in Htail; rewrite ?app_cons in Htail; discriminate.
Qed.

Lemma NoDup_fmap_elem_inj {A B : Type} (f : A → B) (l : list A) (x y : A) :
  NoDup (f <$> l) → x ∈ l → y ∈ l → f x = f y → x = y.
Proof.
  induction l as [|z l IH]; intros Hnd Hx Hy Hf; [by apply elem_of_nil in Hx|].
  rewrite fmap_cons in Hnd. apply NoDup_cons in Hnd as [Hz Hnd].
  apply elem_of_cons in Hx as [->|Hx]; apply elem_of_cons in Hy as [->|Hy]; try done.
  - destruct Hz. rewrite Hf. by apply (list_elem_of_fmap_2 f).
  - destruct Hz. rewrite <- Hf. by apply (list_elem_of_fmap_2 f).
  - by apply IH.
Qed.

End LocalizedTexts.

(** X27. The texts of the configuration reach the catalog under their keys.
    Whatever the configuration, the strings that are extracted are the two
    system strings and texts of its shortcuts, each under its key: nothing
    else. When the identifiers of the shortcuts are distinct and hold no
    dot, the converse holds too: every title, every truthy description,
    every parameter title, prompt and truthy description and every dialog
    message of every shortcut is the string of its key. *)
Theorem extractLocalizableStrings_texts
    (toLowerCase : string → string) (config : ShortcutsConfig) (k v : string) :
  (extractLocalizableStrings toLowerCase config !! k = Some v →
   (k = "system.timeout" ∧ v = "Done")
   ∨ (k = "system.error.appGroupFailed" ∧ v = "Failed to communicate with app")
   ∨ textIn toLowerCase (shortcuts config) k v)
  ∧ (NoDup (identifier <$> shortcuts config) →
     Forall (λ shortcut, includes "." (identifier shortcut) = false)
            (shortcuts config) →
     textIn toLowerCase (shortcuts config) k v →
     extractLocalizableStrings toLowerCase config !! k = Some v).
Proof.
  assert (∀ k v,
            extractLocalizableStrings toLowerCase config !! k = Some v →
            (k = "system.timeout" ∧ v = "Done")
            ∨ (k = "system.error.appGroupFailed"
               ∧ v = "Failed to communicate with app")
            ∨ textIn toLowerCase (shortcuts config) k v) as Honly.
  { clear k v. intros k v. unfold extractLocalizableStrings.
    destruct (decide (k = "system.timeout")) as [->|Hk1].
    { rewrite lookup_insert_eq. intros [= <-]. by left. }
    rewrite lookup_insert_ne by done.
    destruct (decide (k = "system.error.appGroupFailed")) as [->|Hk2].
    { rewrite lookup_insert_eq. intros [= <-]. right. by left. }
    rewrite lookup_insert_ne by done. intros Hkv. right. right.
    clear Hk1 Hk2. revert k v Hkv.
    apply (foldl_invariant _ (onlyTexts toLowerCase (shortcuts config))).
    - intros k v Hkv. by rewrite lookup_empty in Hkv.
    - intros s' shortcut Hin Hs'. by apply shortcutStrings_onlyTexts. }
  split; [apply Honly|].
  intros Hnd Hdots (shortcut & kind & Hin & -> & Hv).
  pose proof (proj1 (Forall_forall _ _) Hdots) as Hdot.
  destruct (extractLocalizableStrings_present toLowerCase config shortcut
              (keyOf (identifier shortcut) kind) Hin) as [v' Hv'].
  { left. by eapply textOf_shortcutKey. }
  rewrite Hv'. f_equal.
  destruct (keyOf_not_system (identifier shortcut) kind (Hdot _ Hin)) as [Hk1 Hk2].
  destruct (Honly _ _ Hv')
    as [[Hk _]|[[Hk _]|(shortcut' & kind' & Hin' & Hk & Hv'')]]; try done.
  destruct (keyOf_inj _ _ _ _ (Hdot _ Hin) (Hdot _ Hin') Hk) as [Hid <-].
  assert (shortcut = shortcut') as <-
    by by apply (NoDup_fmap_elem_inj identifier (shortcuts config)).
  congruence.
Qed.

(** ** The names of the generated structs *)

Section ClassNames.

Variable toUpperCase : ascii → string.

(** A text without hyphen, underscore and white space. *)
Definition noSeparator (s : string) : bool :=
  forallb (λ c, negb (isSeparator c)) (list_ascii_of_string s).

Lemma noSeparator_app (s t : string) :
  noSeparator (s +:+ t) = noSeparator s && noSeparator t.
Proof. unfold noSeparator. by rewrite list_ascii_of_string_app, forallb_app. Qed.

Lemma noSeparator_cons (c : ascii) (s : string) :
  noSeparator (String c s) = negb (isSeparator c) && noSeparator s.
Proof. reflexivity. Qed.

Lemma isLineTerminator_isSeparator (c : ascii) :
  isLineTerminator c = true → isSeparator c = true.
Proof. by destruct c as [[] [] [] [] [] [] [] []]. Qed.

Hypothesis toUpperCase_noSeparator :
  ∀ c, isSeparator c = false → noSeparator (toUpperCase c) = true.

Lemma capitalizeAfterSeparators_noSeparator (pending : bool) (s : string) :
  noSeparator (capitalizeAfterSeparators toUpperCase pending s) = true.
Proof using toUpperCase_noSeparator.
  revert pending. induction s as [|c s IH]; intros pending; [done|].
  cbn [capitalizeAfterSeparators]. destruct (isSeparator c) eqn:Hc; [apply IH|].
  rewrite noSeparator_app, IH, andb_true_r.
  destruct pending; [by apply toUpperCase_noSeparator|].
  by rewrite noSeparator_cons, Hc.
Qed.

Lemma capitalizeAfterSeparators_plain (s : string) :
  noSeparator s = true → capitalizeAfterSeparators toUpperCase false s = s.
Proof.
  induction s as [|c s IH]; [done|]. rewrite noSeparator_cons.
  intros [Hc Hs]%andb_true_iff. apply negb_true_iff in Hc.
  cbn [capitalizeAfterSeparators]. rewrite Hc, (IH Hs). by rewrite app_cons, app_empty_l.
Qed.

End ClassNames.

(** X28. The name of a generated struct holds no separator. When putting a
    character that is no separator in upper case gives no separator,
    [pascalCase] returns a text without hyphen, underscore and white space,
    whatever the identifier; and an identifier that holds none of them, as
    a camel-case identifier, only has its first character put in upper
    case. *)
Theorem pascalCase_noSeparator (toUpperCase : ascii → string) (str : string) :
  (∀ c, isSeparator c = false → noSeparator (toUpperCase c) = true) →
  noSeparator (pascalCase toUpperCase str) = true
  ∧ (noSeparator str = true →
     pascalCase toUpperCase str
     = match str with
       | EmptyString => EmptyString
       | String c rest => toUpperCase c +:+ rest
       end).
Proof.
  intros Hupper. split.
  - unfold pascalCase.
    pose proof (capitalizeAfterSeparators_noSeparator toUpperCase Hupper false str)
      as Hrun.
    destruct (capitalizeAfterSeparators toUpperCase false str) as [|c rest]; [done|].
    destruct (isLineTerminator c); [done|].
    rewrite noSeparator_cons in Hrun. apply andb_true_iff in Hrun as [Hc Hrest].
    apply negb_true_iff in Hc. by rewrite noSeparator_app, (Hupper c Hc), Hrest.
  - intros Hplain. unfold pascalCase.
    rewrite (capitalizeAfterSeparators_plain toUpperCase str Hplain).
    destruct str as [|c rest]; [done|].
    rewrite noSeparator_cons in Hplain. apply andb_true_iff in Hplain as [Hc _].
    apply negb_true_iff in Hc.
    destruct (isLineTerminator c) eqn:Hl; [|done].
    apply isLineTerminator_isSeparator in Hl. congruence.
Qed.

(** ** The theorems at sample inputs *)

(** The catalog that merging the value New for k into the sample catalog
    leaves, a parser that also reads the text of that catalog, and the
    serializer that writes it. *)
Definition mergedSample : Catalog :=
  match (mergeCatalog sampleParse false [("k", "New")] (Some "existing.xcstrings")).1 with
  | Ok catalog => catalog
  | Throw _ => baseCatalog
  end.

Definition mergedParse (text : string) : option JSON :=
  if decide (text = "merged.xcstrings") then Some (catalogObject mergedSample)
  else sampleParse text.

Definition mergedStringify (v : JSON) : string := "merged.xcstrings".

Lemma mergeStringCatalog_idempotent_witness :
  mergeStringCatalog mergedParse mergedStringify false [("k", "New")]
    (Some "existing.xcstrings")
  = (Ok "merged.xcstrings", false)
  ∧ mergeStringCatalog mergedParse mergedStringify false [("k", "New")]
      (Some "merged.xcstrings")
    = (Ok "merged.xcstrings", false).
Proof.
  destruct (mergeStringCatalog_idempotent mergedParse mergedStringify false
              [("k", "New")] (Some "existing.xcstrings") mergedSample false)
    as [Hfirst Hsecond].
  - distinctKeys.
  - vm_compute. reflexivity.
  - discriminate.
  - reflexivity.
  - split; [exact Hfirst|]. exact (Hsecond false (λ H, H)).
Defined.

Lemma generateStringCatalog_is_fresh_merge_witness :
  mergeStringCatalog sampleParse sampleStringify false [("a.title", "A")] None
  = (Ok (generateStringCatalog sampleStringify [("a.title", "A")]), false).
Proof.
  apply (proj1 (proj2 (generateStringCatalog_is_fresh_merge sampleParse
                         sampleStringify [("a.title", "A")] ltac:(distinctKeys)))).
  intros k Hk%list_elem_of_singleton. subst k. notAmong.
Defined.

(** A catalog in German, version 2.0. *)
Definition germanTop : gmap string JSON :=
  <["sourceLanguage" := JString "de"]>
  (<["strings" := JObject sampleEntries]> {[ "version" := JString "2.0" ]}).

Definition germanParse (text : string) : option JSON :=
  if decide (text = "de.xcstrings") then Some (JObject germanTop) else None.

Lemma mergeStringCatalog_metadata_witness :
  ∃ catalog,
    mergeCatalog germanParse false [("k", "New")] (Some "de.xcstrings")
    = (Ok catalog, false)
    ∧ sourceLanguage catalog = JString "de"
    ∧ version catalog = JString "2.0".
Proof.
  destruct (mergeCatalog germanParse false [("k", "New")] (Some "de.xcstrings"))
    as [[catalog|e] inherited'] eqn:Hcat.
  - exists catalog.
    destruct (mergeStringCatalog_metadata germanParse false [("k", "New")]
                "de.xcstrings" germanTop catalog inherited') as (Hs & Hv & _).
    + discriminate.
    + reflexivity.
    + exact Hcat.
    + split; [|split; [exact Hs|exact Hv]].
      vm_compute in Hcat. injection Hcat as _ <-. reflexivity.
  - vm_compute in Hcat. discriminate.
Defined.

Lemma command_delivered_once_witness :
  ∃ after data,
    handleDarwinNotification noNumberAsString zeroStringAsDouble (λ d, d)
      (Some sampleDefaults)
    = (Some after, Some data)
    ∧ handleDarwinNotification noNumberAsString zeroStringAsDouble
        sampleSecondCommand (Some after)
      = (Some after, None).
Proof.
  eexists _, _. split; [reflexivity|].
  eapply (command_delivered_once noNumberAsString zeroStringAsDouble
            sampleSecondCommand sampleDefaults).
  reflexivity.
Defined.

Lemma handling_keeps_state_and_responses_witness :
  ∃ after data,
    handleDarwinNotification noNumberAsString zeroStringAsDouble (λ d, d)
      (Some (<["appState_timerRunning" := PDouble 1%float]> sampleDefaults))
    = (Some after, Some data)
    ∧ after !! "appState_timerRunning" = Some (PDouble 1%float).
Proof.
  eexists _, _. split; [reflexivity|].
  etrans.
  - eapply (handling_keeps_state_and_responses noNumberAsString zeroStringAsDouble
              (λ d, d) (<["appState_timerRunning" := PDouble 1%float]> sampleDefaults)
              _ _ "appState_timerRunning").
    + reflexivity.
    + left. reflexivity.
  - reflexivity.
Defined.

(** A configuration with one shortcut, which has a state dialog. *)
Definition sampleConfig : ShortcutsConfig :=
  {| shortcuts := [startTimerShortcut]; localization := Some true;
     appGroupId := None |}.

Lemma generateSwiftFile_declares_what_it_registers_witness :
  includes "struct StartTimerIntent: AppIntent {"
    (generateSwiftFile (λ _, "0") asciiUpper asciiLower sampleConfig false) = true
  ∧ includes "intent: StartTimerIntent()"
      (generateSwiftFile (λ _, "0") asciiUpper asciiLower sampleConfig false) = true
  ∧ ∀ phrase, phrase ∈ phrases startTimerShortcut →
      includes (registrationPhrase phrase)
        (generateSwiftFile (λ _, "0") asciiUpper asciiLower sampleConfig false) = true.
Proof.
  apply (generateSwiftFile_declares_what_it_registers (λ _, "0") asciiUpper asciiLower
           sampleConfig false startTimerShortcut).
  apply list_elem_of_singleton. reflexivity.
Defined.

Lemma localized_keys_are_extracted_witness :
  includes (quoted "startTimer.stateDialogs.0.message")
    (generateSwiftFile (λ _, "0") asciiUpper asciiLower sampleConfig true) = true
  ∧ is_Some (extractLocalizableStrings asciiLower sampleConfig
               !! "startTimer.stateDialogs.0.message").
Proof.
  apply (localized_keys_are_extracted (λ _, "0") asciiUpper asciiLower sampleConfig
           startTimerShortcut "startTimer.stateDialogs.0.message").
  - apply list_elem_of_singleton. reflexivity.
  - left. right. right. right.
    exists 0, {| stateKey := "running"; showWhen := SWBoolean true;
                 message := "Timer running"; requiresConfirmation := Some false |}.
    split; reflexivity.
Defined.

(** A shortcut with a text and a date, and the values that Siri collected
    for them. *)
Definition addTaskShortcut : ShortcutDefinition :=
  {| identifier := "addTask"; title := "Add Task"; phrases := ["Add a task"];
     systemImageName := None; description := None; stateDialogs := None;
     parameters :=
       Some [ {| param_name := "taskName"; param_title := "Task Name";
                 param_type := TString; param_optional := Some false;
                 param_description := None |};
              {| param_name := "dueDate"; param_title := "Due Date";
                 param_type := TDate; param_optional := None;
                 param_description := None |} ] |}.

Definition addTaskArguments (name : string) : option ParamValue :=
  if decide (name = "taskName") then Some (VString "Buy milk")
  else if decide (name = "dueDate") then Some (VDate 1700000000%float)
  else None.

Lemma published_command_is_delivered_witness :
  ∃ data,
    handleDarwinNotification noNumberAsString zeroStringAsDouble (λ d, d)
      (Some (publish addTaskShortcut false "N1" 1700000001%float false
               addTaskArguments ∅))
    = (Some ∅, Some data)
    ∧ nsd_identifier data = "addTask"
    ∧ nsd_nonce data = "N1"
    ∧ nsd_userConfirmed data = None
    ∧ (∀ param, param ∈ default [] (parameters addTaskShortcut) →
         default ∅ (nsd_parameters data) !! param_name param
         = receivedAs noNumberAsString <$> addTaskArguments (param_name param))
    ∧ (∀ name, name ∉ param_name <$> default [] (parameters addTaskShortcut) →
         default ∅ (nsd_parameters data) !! name = None).
Proof.
  apply (published_command_is_delivered noNumberAsString zeroStringAsDouble
           addTaskShortcut false "N1" 1700000001%float false addTaskArguments ∅).
  - intros k _. apply lookup_empty.
  - apply NoDup_cons. split; [|apply NoDup_singleton].
    intros H%list_elem_of_singleton. discriminate.
  - intros param v Hparam Hv.
    apply elem_of_cons in Hparam as [->|Hparam].
    + injection Hv as <-. reflexivity.
    + apply list_elem_of_singleton in Hparam as ->.
      injection Hv as <-. reflexivity.
Defined.

Lemma response_reaches_the_intent_witness :
  ∃ defaults',
    (handleShortcutInvocation
       {| listeners := {[ EVENT_SHORTCUT := [quietListener] ]};
          nativeCallbackRegistered := true; trackedStateKeys := ∅ |}
       (Some {| sharedDefaults := Some ∅ |})
       {| inv_identifier := "startTimer"; inv_nonce := "N1";
          inv_parameters := Some ∅; inv_userConfirmed := None |}).1
    = Some {| sharedDefaults := Some defaults' |}
    ∧ pollResponse noNumberAsString "N1" defaults' = (∅, Some "Started").
Proof.
  destruct (response_reaches_the_intent noNumberAsString
              {| listeners := {[ EVENT_SHORTCUT := [quietListener] ]};
                 nativeCallbackRegistered := true; trackedStateKeys := ∅ |}
              ∅
              {| inv_identifier := "startTimer"; inv_nonce := "N1";
                 inv_parameters := Some ∅; inv_userConfirmed := None |})
    as (defaults' & Hrun & Hpoll).
  - apply lookup_empty.
  - exists defaults'. split; [exact Hrun|exact Hpoll].
Defined.




Lemma extractLocalizableStrings_texts_witness :
  extractLocalizableStrings asciiLower sampleConfig
    !! "startTimer.stateDialogs.0.message"
  = Some "Timer running".
Proof.
  apply (proj2 (extractLocalizableStrings_texts asciiLower sampleConfig
                  "startTimer.stateDialogs.0.message" "Timer running")).
  - apply NoDup_singleton.
  - repeat constructor.
  - exists startTimerShortcut, (KDialogMessage 0).
    split; [apply list_elem_of_singleton; reflexivity|].
    split; [vm_compute; reflexivity|reflexivity].
Defined.

Lemma asciiUpper_noSeparator (c : ascii) :
  isSeparator c = false → noSeparator (asciiUpper c) = true.
Proof. by destruct c as [[] [] [] [] [] [] [] []]. Qed.

Lemma pascalCase_noSeparator_witness :
  noSeparator (pascalCase asciiUpper "start-timer_action test") = true
  ∧ pascalCase asciiUpper "startTimer" = "StartTimer".
Proof.
  split.
  - apply (pascalCase_noSeparator asciiUpper "start-timer_action test").
    exact asciiUpper_noSeparator.
  - apply (proj2 (pascalCase_noSeparator asciiUpper "startTimer" asciiUpper_noSeparator)).
    reflexivity.
Defined.

(** The theorem at the required text parameter of the sample shortcut. *)
Lemma parameter_storage_is_optional_witness :
  includes (nl +:+ "    var taskName: String?" +:+ nl)
    (generateParameterDeclarations (parameters addTaskShortcut) false "addTask")
  = true
  ∧ includes (nl +:+ "    var taskName: String?" +:+ nl)
      (generateIntentStruct (λ _, "0") asciiUpper asciiLower addTaskShortcut false)
    = true.
Proof.
  pose proof (parameter_storage_is_optional (λ _, "0") asciiUpper asciiLower false
                addTaskShortcut 0
                {| param_name := "taskName"; param_title := "Task Name";
                   param_type := TString; param_optional := Some false;
                   param_description := None |} eq_refl) as (_ & Hblock & Hstruct & _).
  split; [exact Hblock|exact Hstruct].
Defined.

(** The state of the README, its entries in the order they were written. *)
Definition readmeState : gmap string AppStateValue :=
  <["timerRunning" := AVBoolean true]> {[ "taskName" := AVString "Work" ]}.
Definition readmeEntries : list (string * AppStateValue) :=
  [("timerRunning", AVBoolean true); ("taskName", AVString "Work")].
Definition idleManager : ManagerState :=
  {| listeners := ∅; nativeCallbackRegistered := false; trackedStateKeys := ∅ |}.

Lemma readmeEntries_state : readmeEntries ≡ₚ map_to_list readmeState.
Proof. vm_compute. reflexivity. Defined.

Lemma boolean_state_encoding_witness :
  ∃ defaults',
    (updateAppState idleManager (Some {| sharedDefaults := Some ∅ |}) readmeEntries).2
    = Some {| sharedDefaults := Some defaults' |}
    ∧ defaults' !! "appState_timerRunning" = Some (PDouble 1%float).
Proof.
  destruct (proj1 (boolean_state_encoding (λ _, "0") (λ _, 0%float) idleManager ∅
                     readmeState readmeEntries readmeEntries_state))
    as (defaults' & Heq & Hbool).
  exists defaults'. split; [exact Heq|].
  exact (proj1 (Hbool "timerRunning" true eq_refl)).
Defined.

Lemma updateAppState_effect_witness :
  ∃ defaults',
    updateAppState idleManager (Some {| sharedDefaults := Some ∅ |}) readmeEntries
    = ({| listeners := ∅; nativeCallbackRegistered := false;
          trackedStateKeys := dom readmeState ∪ ∅ |},
       Some {| sharedDefaults := Some defaults' |})
    ∧ defaults' !! "appState_taskName" = Some (PString "Work").
Proof.
  destruct (updateAppState_effect idleManager ∅ readmeState readmeEntries
              readmeEntries_state) as (defaults' & Heq & Hin & _).
  exists defaults'. split; [exact Heq|].
  exact (Hin "taskName" (AVString "Work") eq_refl).
Defined.

Lemma cleanup_undoes_updateAppState_witness :
  ∃ defaults',
    cleanup
      (updateAppState idleManager (Some {| sharedDefaults := Some ∅ |}) readmeEntries).1
      (updateAppState idleManager (Some {| sharedDefaults := Some ∅ |}) readmeEntries).2
      None
    = (idleManager, Some {| sharedDefaults := Some defaults' |}, None)
    ∧ defaults' !! "appState_timerRunning" = None.
Proof.
  destruct (cleanup_undoes_updateAppState idleManager ∅ readmeState readmeEntries
              readmeEntries_state) as (defaults' & Heq & Hin & _).
  exists defaults'. split; [exact Heq|].
  apply Hin. left. by eexists.
Defined.

(** With the App Group inaccessible the first write throws: the first key of
    the enumeration is tracked, the others are not reached. *)
Example updateAppState_inaccessible :
  updateAppState idleManager (Some {| sharedDefaults := None |}) readmeEntries
  = ({| listeners := ∅; nativeCallbackRegistered := false;
        trackedStateKeys := {[ "timerRunning" ]} ∪ ∅ |},
     Some {| sharedDefaults := None |}).
Proof. reflexivity. Qed.
